(** * document-store-layer: a shallow embedding of [src/index.js]

    The [DocumentStore] class is embedded as functions in a small
    state-and-exception monad over a [world] that holds the contents of the
    key-value backend, the own properties of the store object and of its
    transaction view, and the log of backend operations and emitted events.

    Conventions of the embedding:
    - JavaScript values are the inductive [jsval]; numbers are integers
      ([Z]), so [NaN], fractions, the negative zero and the integers that a
      double rounds lie outside the model;
    - an object is an insertion-ordered association list with distinct keys;
    - [async]/[await] is sequential composition: the class is used from one
      task at a time, and the cooperative yields of [setImmediatePromise]
      have no effect on any state and are left out;
    - the optional logger [this.log] is absent;
    - [use] and [close] only call into a plugin and into the backend
      handle, and are not embedded;
    - loops that the source leaves unbounded ([lockDocumentStore],
      [forEach]) take fuel, and running out of it is the outcome [Diverge],
      which no [finally] block observes. *)

From Stdlib Require Import List String Ascii ZArith Bool Arith Lia Permutation.
From Stdlib Require Import DecimalString.
Import ListNotations.
Local Open Scope string_scope.
Local Open Scope list_scope.

(** ** JavaScript values *)

#[local] Set Warnings "-register-all".

Inductive jsval : Type :=
| JUndefined
| JNull
| JBool (b : bool)
| JNum (n : Z)
| JStr (s : string)
| JArr (xs : list jsval)
| JObj (fields : list (string * jsval)).

Definition jsobj := list (string * jsval).

(** [typeof v] *)
Definition typeof (v : jsval) : string :=
  match v with
  | JUndefined => "undefined"
  | JNull => "object"
  | JBool _ => "boolean"
  | JNum _ => "number"
  | JStr _ => "string"
  | JArr _ => "object"
  | JObj _ => "object"
  end.

(** The truthiness used by [if (v)], [!v] and [a && b]. *)
Definition truthy (v : jsval) : bool :=
  match v with
  | JUndefined | JNull => false
  | JBool b => b
  | JNum n => negb (n =? 0)%Z
  | JStr s => negb (s =? "")
  | JArr _ | JObj _ => true
  end.

(** [a && b] on values (both operands are already evaluated and pure). *)
Definition js_and (a b : jsval) : jsval := if truthy a then b else a.

(** [v == null] *)
Definition is_nullish (v : jsval) : bool :=
  match v with JUndefined | JNull => true | _ => false end.

(** [o[k]] on an object: the first (only) binding of [k], or [undefined]. *)
Fixpoint js_get (o : jsobj) (k : string) : jsval :=
  match o with
  | [] => JUndefined
  | (k', v) :: o' => if k' =? k then v else js_get o' k
  end.

Fixpoint js_has (o : jsobj) (k : string) : bool :=
  match o with
  | [] => false
  | (k', _) :: o' => (k' =? k) || js_has o' k
  end.

(** [o[k] = v]: an existing key keeps its place, a new key goes last. *)
Fixpoint js_set (o : jsobj) (k : string) (v : jsval) : jsobj :=
  match o with
  | [] => [(k, v)]
  | (k', v') :: o' => if k' =? k then (k, v) :: o' else (k', v') :: js_set o' k v
  end.

(** [Object.keys(o)] *)
Definition object_keys (o : jsobj) : list string := map fst o.

(** Strict structural equality of values, as the backend compares key
    elements. *)
Fixpoint jsval_eqb (a b : jsval) {struct a} : bool :=
  match a, b with
  | JUndefined, JUndefined => true
  | JNull, JNull => true
  | JBool x, JBool y => Bool.eqb x y
  | JNum x, JNum y => (x =? y)%Z
  | JStr x, JStr y => (x =? y)
  | JArr xs, JArr ys =>
      (fix go (xs ys : list jsval) {struct xs} : bool :=
         match xs, ys with
         | [], [] => true
         | x :: xs', y :: ys' => jsval_eqb x y && go xs' ys'
         | _, _ => false
         end) xs ys
  | JObj fs, JObj gs =>
      (fix go (fs gs : list (string * jsval)) {struct fs} : bool :=
         match fs, gs with
         | [], [] => true
         | (k, x) :: fs', (l, y) :: gs' => (k =? l) && jsval_eqb x y && go fs' gs'
         | _, _ => false
         end) fs gs
  | _, _ => false
  end.

(** lodash [isEqual]: deep comparison; arrays element by element, objects
    as unordered sets of bindings. *)
Fixpoint isEqual (a b : jsval) {struct a} : bool :=
  match a, b with
  | JUndefined, JUndefined => true
  | JNull, JNull => true
  | JBool x, JBool y => Bool.eqb x y
  | JNum x, JNum y => (x =? y)%Z
  | JStr x, JStr y => (x =? y)
  | JArr xs, JArr ys =>
      (fix go (xs ys : list jsval) {struct xs} : bool :=
         match xs, ys with
         | [], [] => true
         | x :: xs', y :: ys' => isEqual x y && go xs' ys'
         | _, _ => false
         end) xs ys
  | JObj fs, JObj gs =>
      Nat.eqb (List.length fs) (List.length gs) &&
      (fix go (fs : list (string * jsval)) {struct fs} : bool :=
         match fs with
         | [] => true
         | (k, x) :: fs' => js_has gs k && isEqual x (js_get gs k) && go fs'
         end) fs
  | _, _ => false
  end.

(** [xs.includes(undefined)] *)
Definition includes_undefined (xs : list jsval) : bool :=
  existsb (fun v => match v with JUndefined => true | _ => false end) xs.

(** lodash [last]: the last element of an array, [undefined] when empty. *)
Definition js_last (xs : list jsval) : jsval := last xs JUndefined.

(** [keys.join(sep)] *)
Fixpoint join (sep : string) (xs : list string) : string :=
  match xs with
  | [] => ""
  | [x] => x
  | x :: xs' => x ++ sep ++ join sep xs'
  end.

(** [flatten] of the external package [expand-flatten], by its contract:
    nested objects become one level of dot-joined paths, and the elements
    of an array are flattened under the path of the array followed by their
    place in brackets ([lastName[0]], [lastName[1]]); every other value is
    a leaf; a value that is not an object (the [undefined] of an absent
    item) flattens to the empty object, so that [flattened[k]] is
    [undefined]. *)
Definition path_join (prefix k : string) : string :=
  if prefix =? "" then k else prefix ++ "." ++ k.

(** [String(i)] for a place in an array. *)
Definition index_text (i : nat) : string :=
  NilEmpty.string_of_uint (Nat.to_uint i).

Definition path_at (prefix : string) (i : nat) : string :=
  prefix ++ "[" ++ index_text i ++ "]".

Fixpoint flatten_at (path : string) (v : jsval) {struct v} : jsobj :=
  match v with
  | JObj fs =>
      (fix go (fs : list (string * jsval)) {struct fs} : jsobj :=
         match fs with
         | [] => []
         | (k, x) :: fs' => flatten_at (path_join path k) x ++ go fs'
         end) fs
  | JArr xs =>
      (fix go (i : nat) (xs : list jsval) {struct xs} : jsobj :=
         match xs with
         | [] => []
         | x :: xs' => flatten_at (path_at path i) x ++ go (S i) xs'
         end) 0%nat xs
  | _ => [(path, v)]
  end.

Definition flatten (item : jsval) : jsobj :=
  match item with
  | JObj _ => flatten_at "" item
  | _ => []
  end.

(** ** Declarations: collections and indexes *)

(** Modelled from the spec: the classes [Collection] and [Index] of
    [./collection], which [src/index.js] imports and which is missing from
    the sources.  An index declares one property per key, either simple
    ([value === true], the flattened item is read at the key) or computed
    (a function of the item), and an optional projection; [keys] lists the
    keys of the properties in declaration order. *)
Inductive PropertyValue : Type :=
| Simple
| Computed (f : jsval -> jsval).

Record IndexProperty : Type := {
  p_key : string;
  p_value : PropertyValue
}.

Record Index : Type := {
  i_properties : list IndexProperty;
  i_projection : option (list string)
}.

Definition i_keys (index : Index) : list string :=
  map p_key (i_properties index).

Record Collection : Type := {
  c_name : string;
  c_indexes : list Index
}.

(** ** The persisted store descriptor *)

Record IndexJSON : Type := {
  ij_keys : list string;
  ij_projection : option (list string)
}.

Record CollectionJSON : Type := {
  cj_name : string;
  cj_hasBeenRemoved : bool;
  cj_indexes : list IndexJSON
}.

(** A table of a version 1 descriptor; its indexes, which may be missing,
    are kept as raw values because the version 2 fix-up replaces each by
    its [name] property. *)
Record LegacyTable : Type := {
  lt_name : string;
  lt_indexes : option (list jsval)
}.

(** The descriptor.  [isLocked] is a property that the descriptor of a
    newly created store does not hold: [lockDocumentStore] and
    [unlockDocumentStore] are what sets it. *)
Record StoreRecord : Type := {
  r_name : string;
  r_version : Z;
  r_isLocked : option bool;
  r_lastMigrationNumber : option Z;
  r_tables : option (list LegacyTable);
  r_collections : list CollectionJSON
}.

(** Modelled from the spec: [Index.toJSON] and [Collection.toJSON] of the
    missing [./collection]; the persisted descriptor carries the keys and
    the projection of an index, and the name and indexes of a collection. *)
Definition index_toJSON (index : Index) : IndexJSON :=
  {| ij_keys := i_keys index; ij_projection := i_projection index |}.

Definition collection_toJSON (collection : Collection) : CollectionJSON :=
  {| cj_name := c_name collection;
     cj_hasBeenRemoved := false;
     cj_indexes := map index_toJSON (c_indexes collection) |}.

(** [record.isLocked] as a condition: a missing property is falsy. *)
Definition is_locked (r : StoreRecord) : bool :=
  match r_isLocked r with Some b => b | None => false end.

(** [record.isLocked = b] *)
Definition set_isLocked (b : bool) (r : StoreRecord) : StoreRecord :=
  {| r_name := r_name r; r_version := r_version r; r_isLocked := Some b;
     r_lastMigrationNumber := r_lastMigrationNumber r;
     r_tables := r_tables r; r_collections := r_collections r |}.

Definition set_version (v : Z) (r : StoreRecord) : StoreRecord :=
  {| r_name := r_name r; r_version := v; r_isLocked := r_isLocked r;
     r_lastMigrationNumber := r_lastMigrationNumber r;
     r_tables := r_tables r; r_collections := r_collections r |}.

Definition set_collections (cs : list CollectionJSON) (r : StoreRecord) : StoreRecord :=
  {| r_name := r_name r; r_version := r_version r; r_isLocked := r_isLocked r;
     r_lastMigrationNumber := r_lastMigrationNumber r;
     r_tables := r_tables r; r_collections := cs |}.

Definition set_indexes (xs : list IndexJSON) (c : CollectionJSON) : CollectionJSON :=
  {| cj_name := cj_name c; cj_hasBeenRemoved := cj_hasBeenRemoved c; cj_indexes := xs |}.

(** ** List helpers standing for the array methods the source calls *)

Fixpoint list_eqb {A : Type} (eqb : A -> A -> bool) (xs ys : list A) : bool :=
  match xs, ys with
  | [], [] => true
  | x :: xs', y :: ys' => eqb x y && list_eqb eqb xs' ys'
  | _, _ => false
  end.

(** [isEqual] on two arrays of strings (index keys). *)
Definition keys_eqb (a b : list string) : bool := list_eqb String.eqb a b.

(** [xs.findIndex(p)], [None] standing for -1. *)
Fixpoint findIndex {A : Type} (p : A -> bool) (xs : list A) : option nat :=
  match xs with
  | [] => None
  | x :: xs' => if p x then Some 0%nat
                else match findIndex p xs' with
                     | Some i => Some (S i)
                     | None => None
                     end
  end.

(** [xs[i] = f(xs[i])] *)
Fixpoint update_at {A : Type} (i : nat) (f : A -> A) (xs : list A) : list A :=
  match xs, i with
  | [], _ => []
  | x :: xs', O => f x :: xs'
  | x :: xs', S i' => x :: update_at i' f xs'
  end.

(** [xs.splice(i, 1)] *)
Fixpoint remove_at {A : Type} (i : nat) (xs : list A) : list A :=
  match xs, i with
  | [], _ => []
  | _ :: xs', O => xs'
  | x :: xs', S i' => x :: remove_at i' xs'
  end.

(** lodash [difference(xs, ys)] on strings; an [undefined] second argument
    counts as empty. *)
Definition difference (xs ys : list string) : list string :=
  filter (fun x => negb (existsb (String.eqb x) ys)) xs.

(** ** The key-value backend

    The engine is the external package [key-value-store]; it is modelled by
    the contract of section 6 of the specification and by what the engine
    is seen to do.  Keys are tuples of values, a key holds either the store
    descriptor or a plain value, and a scan returns the entries under a
    prefix in key order.  Values are kept as they are written; the engine
    stores them as JSON, which gives back the same value when the value
    holds no [undefined] (see [is_json]). *)

Definition key := list jsval.

Inductive kvalue : Type :=
| VRecord (r : StoreRecord)
| VItem (v : jsval).

Definition kvstore := list (key * kvalue).

Definition key_eqb (a b : key) : bool := list_eqb jsval_eqb a b.

Fixpoint has_prefix (prefix k : key) : bool :=
  match prefix, k with
  | [], _ => true
  | p :: prefix', x :: k' => jsval_eqb p x && has_prefix prefix' k'
  | _ :: _, [] => false
  end.

Fixpoint kv_lookup (s : kvstore) (k : key) : option kvalue :=
  match s with
  | [] => None
  | (k', v) :: s' => if key_eqb k' k then Some v else kv_lookup s' k
  end.

Fixpoint kv_insert (s : kvstore) (k : key) (v : kvalue) : kvstore :=
  match s with
  | [] => [(k, v)]
  | (k', v') :: s' => if key_eqb k' k then (k, v) :: s' else (k', v') :: kv_insert s' k v
  end.

Definition kv_remove (s : kvstore) (k : key) : kvstore :=
  filter (fun e => negb (key_eqb (fst e) k)) s.

(** The order of keys: element by element, a proper prefix first; elements
    are ordered by kind, numbers and strings by value. *)
Definition kind_rank (v : jsval) : nat :=
  match v with
  | JUndefined => 0 | JNull => 1 | JBool _ => 2 | JNum _ => 3
  | JStr _ => 4 | JArr _ => 5 | JObj _ => 6
  end.

Definition elem_compare (a b : jsval) : comparison :=
  match a, b with
  | JNum x, JNum y => Z.compare x y
  | JStr x, JStr y => String.compare x y
  | JBool x, JBool y => Nat.compare (if x then 1 else 0) (if y then 1 else 0)
  | _, _ => Nat.compare (kind_rank a) (kind_rank b)
  end.

Fixpoint key_compare (a b : key) : comparison :=
  match a, b with
  | [], [] => Eq
  | [], _ :: _ => Lt
  | _ :: _, [] => Gt
  | x :: a', y :: b' =>
      match elem_compare x y with
      | Eq => key_compare a' b'
      | c => c
      end
  end.

Definition key_ltb (a b : key) : bool :=
  match key_compare a b with Lt => true | _ => false end.

Definition key_leb (a b : key) : bool :=
  match key_compare a b with Gt => false | _ => true end.

Fixpoint insert_sorted (e : key * kvalue) (es : list (key * kvalue)) : list (key * kvalue) :=
  match es with
  | [] => [e]
  | e' :: es' => if key_leb (fst e') (fst e) then e' :: insert_sorted e es'
                 else e :: es
  end.

Definition sort_entries (es : list (key * kvalue)) : list (key * kvalue) :=
  fold_left (fun acc e => insert_sorted e acc) es [].

(** The options of a scan that the engine reads. *)
Record FindOpts : Type := {
  fo_prefix : key;
  fo_start : option key;
  fo_startAfter : option key;
  fo_end : option key;
  fo_endBefore : option key;
  fo_reverse : bool;
  fo_limit : option nat;
  fo_returnValues : bool
}.

Definition prefix_only (prefix : key) : FindOpts :=
  {| fo_prefix := prefix; fo_start := None; fo_startAfter := None;
     fo_end := None; fo_endBefore := None; fo_reverse := false;
     fo_limit := None; fo_returnValues := false |}.

(** A scan runs from [start] (or after [startAfter]) to [end] (or before
    [endBefore]): upwards, or downwards when [reverse] is set, so that
    [start] is then the greatest key of the scan. *)
Definition within_bounds (o : FindOpts) (k : key) : bool :=
  let from (a b : key) := if fo_reverse o then key_leb b a else key_leb a b in
  let past (a b : key) := if fo_reverse o then key_ltb b a else key_ltb a b in
  has_prefix (fo_prefix o) k
  && match fo_start o with Some b => from (fo_prefix o ++ b) k | None => true end
  && match fo_startAfter o with Some b => past (fo_prefix o ++ b) k | None => true end
  && match fo_end o with Some b => from k (fo_prefix o ++ b) | None => true end
  && match fo_endBefore o with Some b => past k (fo_prefix o ++ b) | None => true end.

Definition set_limit (limit : option nat) (o : FindOpts) : FindOpts :=
  {| fo_prefix := fo_prefix o; fo_start := fo_start o;
     fo_startAfter := fo_startAfter o; fo_end := fo_end o;
     fo_endBefore := fo_endBefore o; fo_reverse := fo_reverse o;
     fo_limit := limit; fo_returnValues := fo_returnValues o |}.

(** The entries that the options select, in the order of the scan, and
    the first [limit] of them when there is a limit. *)
Definition kv_select (o : FindOpts) (s : kvstore) : list (key * kvalue) :=
  let inside := filter (fun e => within_bounds o (fst e)) s in
  let sorted := sort_entries inside in
  let ordered := if fo_reverse o then rev sorted else sorted in
  match fo_limit o with
  | Some n => firstn n ordered
  | None => ordered
  end.

(** An element [{key, value?}] of a scan or of [getMany]. *)
Record kv_item : Type := {
  ki_key : key;
  ki_value : option kvalue
}.

Definition to_kv_item (returnValues : bool) (e : key * kvalue) : kv_item :=
  {| ki_key := fst e; ki_value := if returnValues then Some (snd e) else None |}.

(** [item.value] of such an element, as a value. *)
Definition ki_value_js (it : kv_item) : jsval :=
  match ki_value it with
  | Some (VItem v) => v
  | _ => JUndefined
  end.

(** ** Effects: the world, the log and the monad *)

Inductive event : Type :=
| didCreate
| didInitialize
| upgradeDidStart
| upgradeDidStop
| migrationDidStart
| migrationDidStop
| didPutItem (collection : string) (k item : jsval)
| didDeleteItem (collection : string) (k oldItem : jsval).

Inductive kvop : Type :=
| KGet (k : key)
| KPut (k : key) (v : kvalue)
| KDelete (k : key)
| KGetMany (ks : list key)
| KFind (o : FindOpts)
| KCount (o : FindOpts)
| KFindAndDelete (o : FindOpts)
| KBegin
| KCommit
| KAbort.

Inductive effect : Type :=
| EKv (op : kvop)
| EEmit (ev : event)
| ESleep (ms : nat).

(** The own properties of a store object that the class reads and writes;
    [None] is a property the object does not own. *)
Record flags : Type := {
  hasBeenInitialized : option bool;
  isInitializing : option bool;
  migrationDidStartEventHasBeenEmitted : option bool
}.

Definition no_flags : flags :=
  {| hasBeenInitialized := None; isInitializing := None;
     migrationDidStartEventHasBeenEmitted := None |}.

Record world : Type := {
  w_kv : kvstore;
  w_root : flags;
  w_tx : flags;
  w_log : list effect
}.

(** [this]: the store itself, or the view that [transaction] creates with
    [Object.create(this)].  The view inherits every property it does not
    own from the store, [root] included. *)
Inductive ctx : Type := Root | Tx.

Inductive error : Type :=
| Error (msg : string)
| TypeError (msg : string).

Inductive outcome (A : Type) : Type :=
| Ok (a : A)
| Throw (e : error)
| Diverge.
Arguments Ok {A} a.
Arguments Throw {A} e.
Arguments Diverge {A}.

Definition M (A : Type) : Type := world -> outcome A * world.

Definition ret {A : Type} (a : A) : M A := fun w => (Ok a, w).

Definition bind {A B : Type} (m : M A) (f : A -> M B) : M B :=
  fun w => match m w with
           | (Ok a, w') => f a w'
           | (Throw e, w') => (Throw e, w')
           | (Diverge, w') => (Diverge, w')
           end.

Definition throw {A : Type} (e : error) : M A := fun w => (Throw e, w).

Definition diverge {A : Type} : M A := fun w => (Diverge, w).

Declare Scope js_scope.
Delimit Scope js_scope with js.
Notation "x <- m ;; k" := (bind m (fun x => k))
  (at level 61, m at next level, right associativity) : js_scope.
Notation "m ;; k" := (bind m (fun _ => k))
  (at level 61, right associativity) : js_scope.
Local Open Scope js_scope.

(** [try { body } finally { fin }]: [fin] runs when [body] returns or
    throws; an exception of [fin] replaces the pending one. *)
Definition try_finally {A : Type} (body : M A) (fin : M unit) : M A :=
  fun w => match body w with
           | (Diverge, w1) => (Diverge, w1)
           | (r, w1) =>
               match fin w1 with
               | (Ok _, w2) => (r, w2)
               | (Throw e, w2) => (Throw e, w2)
               | (Diverge, w2) => (Diverge, w2)
               end
           end.

(** [for (let x of xs) body], threading the locals the body assigns. *)
Fixpoint foldM {A S : Type} (f : S -> A -> M S) (xs : list A) (s : S) : M S :=
  match xs with
  | [] => ret s
  | x :: xs' => s' <- f s x ;; foldM f xs' s'
  end.

Definition forM {A : Type} (f : A -> M unit) (xs : list A) : M unit :=
  foldM (fun _ x => f x) xs tt.

(** [xs.map(f)] for an [f] that may throw. *)
Fixpoint mapM {A B : Type} (f : A -> M B) (xs : list A) : M (list B) :=
  match xs with
  | [] => ret []
  | x :: xs' => y <- f x ;; ys <- mapM f xs' ;; ret (y :: ys)
  end.

Definition set_kv (s : kvstore) (w : world) : world :=
  {| w_kv := s; w_root := w_root w; w_tx := w_tx w; w_log := w_log w |}.

Definition set_root (f : flags) (w : world) : world :=
  {| w_kv := w_kv w; w_root := f; w_tx := w_tx w; w_log := w_log w |}.

Definition set_tx (f : flags) (w : world) : world :=
  {| w_kv := w_kv w; w_root := w_root w; w_tx := f; w_log := w_log w |}.

Definition add_log (e : effect) (w : world) : world :=
  {| w_kv := w_kv w; w_root := w_root w; w_tx := w_tx w; w_log := w_log w ++ [e] |}.

Definition log (e : effect) : M unit := fun w => (Ok tt, add_log e w).

(** [await this.emit(ev)]: listeners are outside the model. *)
Definition emit (ev : event) : M unit := log (EEmit ev).

Definition sleep (ms : nat) : M unit := log (ESleep ms).

(** *** Properties of [this] *)

Definition own (self : ctx) (w : world) : flags :=
  match self with Root => w_root w | Tx => w_tx w end.

Definition set_own (self : ctx) (f : flags) (w : world) : world :=
  match self with Root => set_root f w | Tx => set_tx f w end.

(** Reading a property walks the prototype chain; an absent property is
    [undefined], which is falsy. *)
Definition read_flag (p : flags -> option bool) (self : ctx) : M bool :=
  fun w => (Ok match self with
               | Root => match p (w_root w) with Some b => b | None => false end
               | Tx => match p (w_tx w) with
                       | Some b => b
                       | None => match p (w_root w) with Some b => b | None => false end
                       end
               end, w).

Definition write_hasBeenInitialized (self : ctx) (b : bool) : M unit :=
  fun w => (Ok tt, set_own self
    {| hasBeenInitialized := Some b;
       isInitializing := isInitializing (own self w);
       migrationDidStartEventHasBeenEmitted :=
         migrationDidStartEventHasBeenEmitted (own self w) |} w).

Definition write_isInitializing (self : ctx) (b : bool) : M unit :=
  fun w => (Ok tt, set_own self
    {| hasBeenInitialized := hasBeenInitialized (own self w);
       isInitializing := Some b;
       migrationDidStartEventHasBeenEmitted :=
         migrationDidStartEventHasBeenEmitted (own self w) |} w).

(** Assignment ([Some true]) and [delete] ([None]) of the migration flag. *)
Definition write_migrationFlag (self : ctx) (v : option bool) : M unit :=
  fun w => (Ok tt, set_own self
    {| hasBeenInitialized := hasBeenInitialized (own self w);
       isInitializing := isInitializing (own self w);
       migrationDidStartEventHasBeenEmitted := v |} w).

(** [this.root]: the constructor sets [this.root = this] on the store, and
    the view inherits the property. *)
Definition root_of (self : ctx) : ctx := Root.

Definition ctx_eqb (a b : ctx) : bool :=
  match a, b with
  | Root, Root => true
  | Tx, Tx => true
  | _, _ => false
  end.

(** [get insideTransaction() { return this !== this.root; }] *)
Definition insideTransaction (self : ctx) : bool :=
  negb (ctx_eqb self (root_of self)).

(** *** Backend operations *)

Definition default (d : bool) (o : option bool) : bool :=
  match o with Some b => b | None => d end.

(** [store.get(key, {errorIfMissing})] *)
Definition kv_get (k : key) (errorIfMissing : option bool) : M (option kvalue) :=
  log (EKv (KGet k)) ;;
  fun w => match kv_lookup (w_kv w) k with
           | Some v => (Ok (Some v), w)
           | None => if default true errorIfMissing
                     then (Throw (Error "Item not found"), w)
                     else (Ok None, w)
           end.

(** [store.put(key, value, {errorIfExists, createIfMissing})].  With
    [errorIfExists] the call is an insertion and [createIfMissing] is not
    consulted: the descriptor is created with [errorIfExists: true] and
    [createIfMissing: false]. *)
Definition kv_put (k : key) (v : kvalue) (errorIfExists createIfMissing : option bool) : M unit :=
  log (EKv (KPut k v)) ;;
  fun w => match kv_lookup (w_kv w) k with
           | Some _ => if default false errorIfExists
                       then (Throw (Error "Item already exists"), w)
                       else (Ok tt, set_kv (kv_insert (w_kv w) k v) w)
           | None => if default false errorIfExists || default true createIfMissing
                     then (Ok tt, set_kv (kv_insert (w_kv w) k v) w)
                     else (Throw (Error "Item not found"), w)
           end.

(** [store.delete(key, {errorIfMissing})] *)
Definition kv_delete (k : key) (errorIfMissing : option bool) : M bool :=
  log (EKv (KDelete k)) ;;
  fun w => match kv_lookup (w_kv w) k with
           | Some _ => (Ok true, set_kv (kv_remove (w_kv w) k) w)
           | None => if default true errorIfMissing
                     then (Throw (Error "Item not found"), w)
                     else (Ok false, w)
           end.

(** [store.getMany(keys, {errorIfMissing, returnValues})]: the items found,
    in the order of [keys]; a missing item is an error of the whole call
    unless [errorIfMissing] is false. *)
Definition kv_getMany (ks : list key) (errorIfMissing : option bool) (returnValues : bool)
  : M (list kv_item) :=
  log (EKv (KGetMany ks)) ;;
  found <- mapM (fun k w => match kv_lookup (w_kv w) k with
                            | Some v => (Ok [to_kv_item returnValues (k, v)], w)
                            | None => if default true errorIfMissing
                                      then (Throw (Error "Some items not found"), w)
                                      else (Ok [], w)
                            end) ks ;;
  ret (List.concat found).

(** The limit of a [find] that is given none. *)
Definition default_limit : nat := 50 * 1000.

(** The scan of a [find]: the limit of the options, or the default one. *)
Definition limited (o : FindOpts) : FindOpts :=
  set_limit (Some (match fo_limit o with Some n => n | None => default_limit end)) o.

(** [store.find(options)]: a scan that is given no limit stops after
    [default_limit] entries. *)
Definition kv_find (o : FindOpts) : M (list kv_item) :=
  log (EKv (KFind o)) ;;
  fun w => (Ok (map (to_kv_item (fo_returnValues o)) (kv_select (limited o) (w_kv w))), w).

(** [store.count(options)]: the number of entries within the bounds of the
    options, whose [limit] is not read. *)
Definition kv_count (o : FindOpts) : M nat :=
  log (EKv (KCount o)) ;;
  fun w => (Ok (List.length (kv_select (set_limit None o) (w_kv w))), w).

(** [store.findAndDelete(options)]: deletes the selected entries and
    returns their number. *)
Definition kv_findAndDelete (o : FindOpts) : M nat :=
  log (EKv (KFindAndDelete o)) ;;
  fun w => let selected := kv_select o (w_kv w) in
           (Ok (List.length selected),
            set_kv (fold_left (fun s e => kv_remove s (fst e)) selected (w_kv w)) w).

(** [store.transaction(fn)]: runs [fn] on a handle of the store, and ends
    the transaction when [fn] returns or throws.  What the engine undoes
    when it aborts is not something that the class sees or relies on: the
    model keeps what [fn] has written. *)
Definition kv_transaction {A : Type} (body : M A) : M A :=
  fun w => match body (add_log (EKv KBegin) w) with
           | (Ok a, w1) => (Ok a, add_log (EKv KCommit) w1)
           | (Throw e, w1) => (Throw e, add_log (EKv KAbort) w1)
           | (Diverge, w1) => (Diverge, w1)
           end.

(** ** Options *)

(** The [properties] entry of an options object, before normalization. *)
Inductive Properties : Type :=
| PropsMissing                    (* no own property [properties] *)
| PropsStar                       (* ['*'] *)
| PropsArray (ps : list string)   (* an array of property paths *)
| PropsNullish                    (* [null] or [undefined] *)
| PropsOther.                     (* anything else *)

Record Options : Type := {
  o_properties : Properties;
  o_query : option jsobj;
  o_order : option (list string);
  o_start : option key;
  o_startAfter : option key;
  o_end : option key;
  o_endBefore : option key;
  o_reverse : bool;
  o_limit : option nat;
  o_batchSize : option nat;
  o_errorIfMissing : option bool;
  o_createIfMissing : option bool;
  o_errorIfExists : option bool
}.

(** [{}] *)
Definition empty_options : Options :=
  {| o_properties := PropsMissing; o_query := None; o_order := None;
     o_start := None; o_startAfter := None; o_end := None; o_endBefore := None;
     o_reverse := false; o_limit := None; o_batchSize := None;
     o_errorIfMissing := None; o_createIfMissing := None; o_errorIfExists := None |}.

Definition set_properties (p : Properties) (o : Options) : Options :=
  {| o_properties := p; o_query := o_query o; o_order := o_order o;
     o_start := o_start o; o_startAfter := o_startAfter o; o_end := o_end o;
     o_endBefore := o_endBefore o; o_reverse := o_reverse o; o_limit := o_limit o;
     o_batchSize := o_batchSize o; o_errorIfMissing := o_errorIfMissing o;
     o_createIfMissing := o_createIfMissing o; o_errorIfExists := o_errorIfExists o |}.

Definition set_batch (batchSize limit : option nat) (o : Options) : Options :=
  {| o_properties := o_properties o; o_query := o_query o; o_order := o_order o;
     o_start := o_start o; o_startAfter := o_startAfter o; o_end := o_end o;
     o_endBefore := o_endBefore o; o_reverse := o_reverse o; o_limit := limit;
     o_batchSize := batchSize; o_errorIfMissing := o_errorIfMissing o;
     o_createIfMissing := o_createIfMissing o; o_errorIfExists := o_errorIfExists o |}.

(** [options.startAfter = k; delete options.start] *)
Definition resume_after (k : key) (o : Options) : Options :=
  {| o_properties := o_properties o; o_query := o_query o; o_order := o_order o;
     o_start := None; o_startAfter := Some k; o_end := o_end o;
     o_endBefore := o_endBefore o; o_reverse := o_reverse o; o_limit := o_limit o;
     o_batchSize := o_batchSize o; o_errorIfMissing := o_errorIfMissing o;
     o_createIfMissing := o_createIfMissing o; o_errorIfExists := o_errorIfExists o |}.

(** The scan the backend performs for an options object that carries
    [prefix] and [returnValues]. *)
Definition scan_of (o : Options) (prefix : key) (returnValues : bool) : FindOpts :=
  {| fo_prefix := prefix; fo_start := o_start o; fo_startAfter := o_startAfter o;
     fo_end := o_end o; fo_endBefore := o_endBefore o; fo_reverse := o_reverse o;
     fo_limit := o_limit o; fo_returnValues := returnValues |}.

(** An element [{key, value?}] that [find] and [getMany] return. *)
Record Item : Type := {
  it_key : jsval;
  it_value : option jsval
}.

(** [{ key: last(item.key) }], with [value: item.value] when asked. *)
Definition to_Item (withValue : bool) (it : kv_item) : Item :=
  {| it_key := js_last (ki_key it);
     it_value := if withValue then Some (ki_value_js it) else None |}.

(** [item.value] *)
Definition it_value_js (it : Item) : jsval :=
  match it_value it with Some v => v | None => JUndefined end.

(** A collection argument: a name to resolve, or the collection itself. *)
Inductive CollectionArg : Type :=
| ByName (name : string)
| ByObject (collection : Collection).

Definition VERSION : Z := 3.

(** [value[k]] on a value that may not be an object. *)
Definition js_prop (v : jsval) (k : string) : M jsval :=
  match v with
  | JObj o => ret (js_get o k)
  | JUndefined | JNull => throw (TypeError "Cannot read property of undefined")
  | _ => ret JUndefined
  end.

(** Modelled from the spec: [Collection.findIndexForQueryAndOrder] of the
    missing [./collection] (section 4.2): the first declared index whose
    keys start with the query keys, in any order, followed by the order
    keys, in their order; an error when there is none. *)
Definition same_elements (xs ys : list string) : bool :=
  forallb (fun x => existsb (String.eqb x) ys) xs
  && forallb (fun y => existsb (String.eqb y) xs) ys.

Definition index_covers (queryKeys orderKeys : list string) (index : Index) : bool :=
  let keys := i_keys index in
  let k := List.length queryKeys in
  same_elements (firstn k keys) queryKeys
  && Nat.eqb (List.length (firstn k keys)) k
  && keys_eqb (firstn (List.length orderKeys) (skipn k keys)) orderKeys.

Definition findIndexForQueryAndOrder (collection : Collection)
    (query : option jsobj) (order : option (list string)) : M Index :=
  let queryKeys := match query with Some q => object_keys q | None => [] end in
  let orderKeys := match order with Some o => o | None => [] end in
  match find (index_covers queryKeys orderKeys) (c_indexes collection) with
  | Some index => ret index
  | None => throw (Error "Cannot find an index matching the query and the order")
  end.

(** ** The class [DocumentStore]: what does not initialize the store *)

Section Store.

Variable name : string.
Variable collections : list Collection.

(** *** Helpers *)

Definition makeItemKey (collection : Collection) (k : jsval) : key :=
  [JStr name; JStr (c_name collection); k].

Definition makeOrderKey (k : jsval) (value : jsval) (order : option (list string)) : M key :=
  let order := match order with Some o => o | None => [] end in
  orderKey <- mapM (fun p => js_prop value p) order ;;
  ret (orderKey ++ [k]).

Definition normalizeKey (k : jsval) : M jsval :=
  if negb (typeof k =? "number") && negb (typeof k =? "string")
  then throw (Error "Invalid key type")
  else if negb (truthy k)
  then throw (Error "Specified key is null or empty")
  else ret k.

Definition normalizeItem (item : jsval) : M jsval :=
  if negb (truthy item && (typeof item =? "object"))
  then throw (Error "Invalid item type")
  else ret item.

Definition normalizeOptions (options : option Options) : M Options :=
  let options := match options with Some o => o | None => empty_options end in
  match o_properties options with
  | PropsMissing => ret (set_properties PropsStar options)
  | PropsStar => ret options
  | PropsArray _ => ret options
  | PropsNullish => ret (set_properties (PropsArray []) options)
  | PropsOther => throw (Error "Invalid 'properties' option")
  end.

(** *** Collections *)

(** The template of the error message reads [collection.name] of the
    collection that was not found, so that building the message is what
    throws. *)
Definition getCollection (n : string) (errorIfMissing : option bool) : M (option Collection) :=
  let errorIfMissing := default true errorIfMissing in
  let collection := find (fun collection => c_name collection =? n) collections in
  match collection with
  | None => if errorIfMissing
            then throw (TypeError "Cannot read property 'name' of undefined")
            else ret None
  | Some c => ret (Some c)
  end.

Definition normalizeCollection (collection : CollectionArg) : M Collection :=
  match collection with
  | ByName n =>
      c <- getCollection n None ;;
      match c with
      | Some c => ret c
      | None => throw (TypeError "Cannot read property 'name' of undefined")
      end
  | ByObject c => ret c
  end.

(** *** Indexes *)

Definition makeIndexName (keys : list string) : string := join "+" keys.

Definition makeIndexCollectionName (collectionName indexName : string) : string :=
  collectionName ++ ":" ++ indexName.

Definition makeIndexKey (collection : Collection) (index : Index)
    (values : list jsval) (k : jsval) : key :=
  let indexName := makeIndexName (i_keys index) in
  [JStr name; JStr (makeIndexCollectionName (c_name collection) indexName)]
    ++ values ++ [k].

(** [keys[i]] may be [undefined], and then [query[undefined]] reads the
    property named "undefined". *)
Definition makeIndexKeyForQuery (collection : Collection) (index : Index)
    (query : option jsobj) : key :=
  let query := match query with Some q => q | None => [] end in
  let indexName := makeIndexName (i_keys index) in
  let keys := map p_key (i_properties index) in
  let queryKeys := object_keys query in
  [JStr name; JStr (makeIndexCollectionName (c_name collection) indexName)]
    ++ map (fun i => js_get query (nth i keys "undefined"))
           (seq 0 (List.length queryKeys)).

(** One round of the loop over [index.projection]: a value that is not
    [null] or [undefined] enters the projection, which is created on its
    first entry. *)
Definition project_step (flattened : jsobj) (projection : jsval) (k : string) : jsval :=
  let val := js_get flattened k in
  if negb (is_nullish val)
  then match projection with
       | JObj o => JObj (js_set o k val)
       | _ => JObj [(k, val)]
       end
  else projection.

Definition index_values (item : jsval) (flattened : jsobj) (index : Index) : list jsval :=
  map (fun property =>
         match p_value property with
         | Simple => js_and item (js_get flattened (p_key property))
         | Computed f => js_and item (f item)
         end) (i_properties index).

Definition index_projections (flattenedOldItem flattenedNewItem : jsobj) (index : Index)
  : jsval * jsval :=
  match i_projection index with
  | Some ks =>
      fold_left (fun acc k =>
                   (project_step flattenedOldItem (fst acc) k,
                    project_step flattenedNewItem (snd acc) k))
                ks (JUndefined, JUndefined)
  | None => (JUndefined, JUndefined)
  end.

Definition updateIndex (collection : Collection) (k : jsval)
    (oldItem newItem : jsval) (index : Index) : M unit :=
  let flattenedOldItem := flatten oldItem in
  let flattenedNewItem := flatten newItem in
  let oldValues := index_values oldItem flattenedOldItem index in
  let newValues := index_values newItem flattenedNewItem index in
  let oldProjection := fst (index_projections flattenedOldItem flattenedNewItem index) in
  let newProjection := snd (index_projections flattenedOldItem flattenedNewItem index) in
  let valuesAreDifferent := negb (isEqual (JArr oldValues) (JArr newValues)) in
  let projectionIsDifferent := negb (isEqual oldProjection newProjection) in
  (if valuesAreDifferent && negb (includes_undefined oldValues)
   then
     let indexKey := makeIndexKey collection index oldValues k in
     _ <- kv_delete indexKey None ;; ret tt
   else ret tt) ;;
  (if (valuesAreDifferent || projectionIsDifferent) && negb (includes_undefined newValues)
   then
     let indexKey := makeIndexKey collection index newValues k in
     kv_put indexKey (VItem newProjection) None None
   else ret tt).

Definition updateIndexes (collection : Collection) (k : jsval)
    (oldItem newItem : jsval) : M unit :=
  forM (fun index => updateIndex collection k oldItem newItem index)
       (c_indexes collection).

(** *** The store descriptor *)

Definition _loadDocumentStoreRecord (errorIfMissing : option bool) : M (option StoreRecord) :=
  v <- kv_get [JStr name] errorIfMissing ;;
  match v with
  | Some (VRecord r) => ret (Some r)
  | Some (VItem _) => throw (TypeError "The store descriptor is not a record")
  | None => ret None
  end.

Definition _saveDocumentStoreRecord (record : StoreRecord) (errorIfExists : option bool) : M unit :=
  kv_put [JStr name] (VRecord record) errorIfExists
         (Some (negb (default false errorIfExists))).

(** [record.field] on the result of a load: [undefined] has no fields. *)
Definition the_record (record : option StoreRecord) : M StoreRecord :=
  match record with
  | Some r => ret r
  | None => throw (TypeError "Cannot read property of undefined")
  end.

Definition createDocumentStoreIfDoesNotExist : M bool :=
  kv_transaction (
    record <- _loadDocumentStoreRecord (Some false) ;;
    match record with
    | None =>
        let record :=
          {| r_name := name; r_version := VERSION; r_isLocked := None;
             r_lastMigrationNumber := None; r_tables := None;
             r_collections := map collection_toJSON collections |} in
        _saveDocumentStoreRecord record (Some true) ;;
        emit didCreate ;;
        ret true
    | Some _ => ret false
    end).

(** One round of the loop of [lockDocumentStore]; the result is
    [hasBeenLocked]. *)
Definition try_lock : M bool :=
  kv_transaction (
    record <- _loadDocumentStoreRecord None ;;
    record <- the_record record ;;
    if negb (is_locked record)
    then _saveDocumentStoreRecord (set_isLocked true record) None ;; ret true
    else ret false).

Fixpoint lockDocumentStore (fuel : nat) : M unit :=
  match fuel with
  | O => diverge
  | S fuel' =>
      hasBeenLocked <- try_lock ;;
      if hasBeenLocked then ret tt
      else sleep 5000 ;; lockDocumentStore fuel'
  end.

Definition unlockDocumentStore : M unit :=
  record <- _loadDocumentStoreRecord None ;;
  record <- the_record record ;;
  _saveDocumentStoreRecord (set_isLocked false record) None.

(** [index.name] of a legacy index. *)
Definition legacy_index_name (index : jsval) : M jsval :=
  js_prop index "name".

(** [table.indexes = table.indexes.map(index => index.name)] *)
Definition legacy_table_names (table : LegacyTable) : M LegacyTable :=
  match lt_indexes table with
  | None => throw (TypeError "Cannot read property 'map' of undefined")
  | Some indexes =>
      indexes <- mapM legacy_index_name indexes ;;
      ret {| lt_name := lt_name table; lt_indexes := Some indexes |}
  end.

(** The block under [if (version < 2)]. *)
Definition upgrade_to_version_2 (record : StoreRecord) : M StoreRecord :=
  match r_tables record with
  | None => throw (TypeError "Cannot read property 'forEach' of undefined")
  | Some tables =>
      tables' <- mapM legacy_table_names tables ;;
      ret {| r_name := r_name record; r_version := r_version record;
             r_isLocked := r_isLocked record;
             r_lastMigrationNumber := None;
             r_tables := Some tables';
             r_collections := r_collections record |}
  end.

Definition upgradeDocumentStore : M unit :=
  record <- _loadDocumentStoreRecord None ;;
  record <- the_record record ;;
  let version := r_version record in
  if (version =? VERSION)%Z then ret tt
  else if (version >? VERSION)%Z
  then throw (Error "Cannot downgrade the document store")
  else
    emit upgradeDidStart ;;
    record <- (if (version <? 2)%Z then upgrade_to_version_2 record else ret record) ;;
    if (version <? 3)%Z
    then throw (Error "Cannot upgrade the document store to version 3 automatically")
    else
      _saveDocumentStoreRecord (set_version VERSION record) None ;;
      emit upgradeDidStop.

Definition verifyDocumentStore : M unit := ret tt.

Definition _emitMigrationDidStart (self : ctx) : M unit :=
  emitted <- read_flag migrationDidStartEventHasBeenEmitted self ;;
  if negb emitted
  then emit migrationDidStart ;; write_migrationFlag self (Some true)
  else ret tt.

Definition _emitMigrationDidStop (self : ctx) : M unit :=
  emitted <- read_flag migrationDidStartEventHasBeenEmitted self ;;
  if emitted
  then emit migrationDidStop ;; write_migrationFlag self None
  else ret tt.

Definition _removeIndex (collectionName : string) (indexKeys : list string) : M unit :=
  let indexName := makeIndexName indexKeys in
  let prefix := [JStr name; JStr (makeIndexCollectionName collectionName indexName)] in
  _ <- kv_findAndDelete (prefix_only prefix) ;; ret tt.

Definition destroyAll (self : ctx) : M unit :=
  if insideTransaction self
  then throw (Error "Cannot destroy a document store inside a transaction")
  else
    write_hasBeenInitialized self false ;;
    _ <- kv_findAndDelete (prefix_only [JStr name]) ;; ret tt.

End Store.

(** *** Construction

    The constructor adds the declared collections one by one, and
    [addCollection] rejects a name that is declared already, so that the
    collections of a store have distinct names.  The declaration stands
    for [new Collection(options)]. *)
Definition addCollection (name : string) (collections : list Collection)
    (collection : Collection) : error + list Collection :=
  match List.find (fun c => c_name c =? c_name collection) collections with
  | Some _ => inl (Error ("Collection '" ++ c_name collection
                            ++ "' (document store '" ++ name ++ "') already exists"))
  | None => inr (collections ++ [collection])
  end.

Fixpoint add_collections (name : string) (declared collections : list Collection)
  : error + list Collection :=
  match declared with
  | [] => inr collections
  | collection :: declared' =>
      match addCollection name collections collection with
      | inl e => inl e
      | inr collections' => add_collections name declared' collections'
      end
  end.

(** ** The class [DocumentStore]: what initializes the store

    [find] initializes the store and the initialization scans a collection
    with [find] when it builds an index.  The methods are first written over
    an arbitrary [initialize], standing for [this.initializeDocumentStore],
    and the recursion is closed on the fuel afterwards. *)

(** [xs.find(p)] together with the position of the element found, which
    stands for the reference into the array that the source keeps. *)
Fixpoint find_with_index {A : Type} (p : A -> bool) (xs : list A) : option (nat * A) :=
  match xs with
  | [] => None
  | x :: xs' => if p x then Some (0%nat, x)
                else match find_with_index p xs' with
                     | Some (i, y) => Some (S i, y)
                     | None => None
                     end
  end.

Definition indexes_at (i : nat) (record : StoreRecord) : list IndexJSON :=
  match nth_error (r_collections record) i with
  | Some c => cj_indexes c
  | None => []
  end.

(** The value of an item read from the backend; a missing item is
    [undefined]. *)
Definition value_js (v : option kvalue) : jsval :=
  match v with
  | Some (VItem x) => x
  | _ => JUndefined
  end.

(** lodash [isEmpty] on [options.query] and on [options.order]. *)
Definition isEmpty_query (q : option jsobj) : bool :=
  match q with Some (_ :: _) => false | _ => true end.

Definition isEmpty_order (o : option (list string)) : bool :=
  match o with Some (_ :: _) => false | _ => true end.

(** [options.properties === '*' || options.properties.length], as a
    condition, on normalized options. *)
Definition wants_values (p : Properties) : bool :=
  match p with
  | PropsStar => true
  | PropsArray (_ :: _) => true
  | _ => false
  end.

Module Open.
Section Operations.

Variable name : string.
Variable collections : list Collection.
Variable fuel : nat.
Variable initialize : ctx -> M unit.

(** *** Transactions *)

Definition transaction {A : Type} (self : ctx) (fn : ctx -> M A) : M A :=
  if insideTransaction self then fn self
  else
    initialize self ;;
    kv_transaction (fun w => fn Tx (set_tx no_flags w)).

(** *** Basic operations *)

Definition get (self : ctx) (collection : CollectionArg) (k : jsval)
    (options : option Options) : M jsval :=
  collection <- normalizeCollection collections collection ;;
  k <- normalizeKey k ;;
  options <- normalizeOptions options ;;
  initialize self ;;
  item <- kv_get (makeItemKey name collection k) (o_errorIfMissing options) ;;
  ret (value_js item).

Definition put (self : ctx) (collection : CollectionArg) (k item : jsval)
    (options : option Options) : M unit :=
  collection <- normalizeCollection collections collection ;;
  k <- normalizeKey k ;;
  item <- normalizeItem item ;;
  options <- normalizeOptions options ;;
  initialize self ;;
  transaction self (fun tr =>
    let itemKey := makeItemKey name collection k in
    oldItem <- kv_get itemKey (Some false) ;;
    kv_put itemKey (VItem item) (o_errorIfExists options) (o_createIfMissing options) ;;
    updateIndexes name collection k (value_js oldItem) item ;;
    emit (didPutItem (c_name collection) k item)).

Definition delete (self : ctx) (collection : CollectionArg) (k : jsval)
    (options : option Options) : M bool :=
  collection <- normalizeCollection collections collection ;;
  k <- normalizeKey k ;;
  options <- normalizeOptions options ;;
  initialize self ;;
  transaction self (fun tr =>
    let itemKey := makeItemKey name collection k in
    oldItem <- kv_get itemKey (o_errorIfMissing options) ;;
    if truthy (value_js oldItem)
    then
      hasBeenDeleted <- kv_delete itemKey (o_errorIfMissing options) ;;
      updateIndexes name collection k (value_js oldItem) JUndefined ;;
      emit (didDeleteItem (c_name collection) k (value_js oldItem)) ;;
      ret hasBeenDeleted
    else ret false).

(** [keys] is an array by its type, so the check of [Array.isArray] is
    not represented. *)
Definition getMany (self : ctx) (collection : CollectionArg) (keys : list jsval)
    (options : option Options) : M (list Item) :=
  collection <- normalizeCollection collections collection ;;
  match keys with
  | [] => ret []
  | _ =>
      keys <- mapM normalizeKey keys ;;
      options <- normalizeOptions options ;;
      let itemKeys := map (fun k => makeItemKey name collection k) keys in
      let returnValues := wants_values (o_properties options) in
      initialize self ;;
      items <- kv_getMany itemKeys (o_errorIfMissing options) returnValues ;;
      ret (map (to_Item returnValues) items)
  end.

Definition _findWithIndex (self : ctx) (collection : Collection) (options : Options)
  : M (list Item) :=
  index <- findIndexForQueryAndOrder collection (o_query options) (o_order options) ;;
  let properties := match o_properties options with PropsArray ps => ps | _ => [] end in
  let fetchItem := match o_properties options with PropsStar => true | _ => false end in
  let diff := difference properties
                (match i_projection index with Some ps => ps | None => [] end) in
  let useProjection :=
    if negb fetchItem && negb (Nat.eqb (List.length properties) 0)
    then Nat.eqb (List.length diff) 0
    else false in
  let fetchItem :=
    if negb fetchItem && negb (Nat.eqb (List.length properties) 0)
    then (if negb useProjection then true else fetchItem)
    else fetchItem in
  let prefix := makeIndexKeyForQuery name collection index (o_query options) in
  initialize self ;;
  items <- kv_find (scan_of options prefix useProjection) ;;
  let items := map (to_Item useProjection) items in
  if fetchItem
  then
    let keys := map it_key items in
    getMany self (ByObject collection) keys
      (Some {| o_properties := PropsMissing; o_query := None; o_order := None;
               o_start := None; o_startAfter := None; o_end := None;
               o_endBefore := None; o_reverse := false; o_limit := None;
               o_batchSize := None; o_errorIfMissing := Some false;
               o_createIfMissing := None; o_errorIfExists := None |})
  else ret items.

Definition find (self : ctx) (collection : CollectionArg) (options : option Options)
  : M (list Item) :=
  collection <- normalizeCollection collections collection ;;
  options <- normalizeOptions options ;;
  if negb (isEmpty_query (o_query options)) || negb (isEmpty_order (o_order options))
  then _findWithIndex self collection options
  else
    let prefix := [JStr name; JStr (c_name collection)] in
    let returnValues := wants_values (o_properties options) in
    initialize self ;;
    items <- kv_find (scan_of options prefix returnValues) ;;
    ret (map (to_Item returnValues) items).

Definition _countWithIndex (self : ctx) (collection : Collection) (options : Options)
  : M nat :=
  index <- findIndexForQueryAndOrder collection (o_query options) (o_order options) ;;
  let prefix := makeIndexKeyForQuery name collection index (o_query options) in
  initialize self ;;
  kv_count (scan_of options prefix false).

Definition count (self : ctx) (collection : CollectionArg) (options : option Options)
  : M nat :=
  collection <- normalizeCollection collections collection ;;
  options <- normalizeOptions options ;;
  if negb (isEmpty_query (o_query options)) || negb (isEmpty_order (o_order options))
  then _countWithIndex self collection options
  else
    let prefix := [JStr name; JStr (c_name collection)] in
    initialize self ;;
    kv_count (scan_of options prefix false).

(** *** Composed operations *)

(** The [while (true)] of [forEach]. *)
Fixpoint forEach_loop (n : nat) (self : ctx) (collection : Collection)
    (options : Options) (fn : jsval -> jsval -> M unit) : M unit :=
  match n with
  | O => diverge
  | S n' =>
      items <- find self (ByObject collection) (Some options) ;;
      match items with
      | [] => ret tt
      | first :: _ =>
          forM (fun item => fn (it_value_js item) (it_key item)) items ;;
          let lastItem := last items first in
          startAfter <- makeOrderKey (it_key lastItem) (it_value_js lastItem)
                                     (o_order options) ;;
          forEach_loop n' self collection (resume_after startAfter options) fn
      end
  end.

Definition forEach (self : ctx) (collection : CollectionArg) (options : option Options)
    (fn : jsval -> jsval -> M unit) : M unit :=
  collection <- normalizeCollection collections collection ;;
  options <- normalizeOptions options ;;
  let batchSize := match o_batchSize options with
                   | Some (S b) => S b
                   | _ => 250%nat
                   end in
  let options := set_batch (Some batchSize) (Some batchSize) options in
  forEach_loop fuel self collection options fn.

(** *** Migration *)

Definition _addIndex (self : ctx) (collection : Collection) (index : Index) : M unit :=
  forEach self (ByObject collection) (Some empty_options)
    (fun item k => updateIndex name collection k JUndefined item index).

(** The body of the loop that finds out added indexes; [i] is the place
    of [existingCollection] in [record.collections]. *)
Definition migrate_added_index (self : ctx) (collection : Collection) (i : nat)
    (record : StoreRecord) (index : Index) : M StoreRecord :=
  match List.find (fun existingIndex => keys_eqb (ij_keys existingIndex) (i_keys index))
             (indexes_at i record) with
  | Some _ => ret record
  | None =>
      _emitMigrationDidStart self ;;
      _addIndex self collection index ;;
      let record :=
        set_collections
          (update_at i (fun c => set_indexes (cj_indexes c ++ [index_toJSON index]) c)
                     (r_collections record)) record in
      _saveDocumentStoreRecord name record None ;;
      ret record
  end.

(** The body of the loop that finds out removed indexes. *)
Definition migrate_removed_index (self : ctx) (collection : Collection) (i : nat)
    (record : StoreRecord) (existingIndexKeys : list string) : M StoreRecord :=
  if negb (existsb (fun index => keys_eqb (i_keys index) existingIndexKeys)
                   (c_indexes collection))
  then
    _emitMigrationDidStart self ;;
    _removeIndex name (c_name collection) existingIndexKeys ;;
    match findIndex (fun index => keys_eqb (ij_keys index) existingIndexKeys)
                    (indexes_at i record) with
    | None => throw (Error "AssertionError: -1 != -1")
    | Some j =>
        let record :=
          set_collections
            (update_at i (fun c => set_indexes (remove_at j (cj_indexes c)) c)
                       (r_collections record)) record in
        _saveDocumentStoreRecord name record None ;;
        ret record
    end
  else ret record.

(** The body of the loop that finds out added or updated collections. *)
Definition migrate_collection (self : ctx) (record : StoreRecord)
    (collection : Collection) : M StoreRecord :=
  match find_with_index (fun collec => cj_name collec =? c_name collection)
                        (r_collections record) with
  | None =>
      _emitMigrationDidStart self ;;
      let record :=
        set_collections (r_collections record ++ [collection_toJSON collection]) record in
      _saveDocumentStoreRecord name record None ;;
      ret record
  | Some (i, existingCollection) =>
      if cj_hasBeenRemoved existingCollection
      then throw (Error "Adding a collection that has been removed is not implemented yet")
      else
        record <- foldM (migrate_added_index self collection i)
                        (c_indexes collection) record ;;
        let existingIndexesKeys := map ij_keys (indexes_at i record) in
        foldM (migrate_removed_index self collection i) existingIndexesKeys record
  end.

(** The body of the loop that finds out removed collections; [j] is the
    place of [existingCollection] in [record.collections]. *)
Definition migrate_removed_collection (self : ctx) (record : StoreRecord) (j : nat)
  : M StoreRecord :=
  match nth_error (r_collections record) j with
  | None => ret record
  | Some existingCollection =>
      if cj_hasBeenRemoved existingCollection then ret record
      else
        match List.find (fun collection => c_name collection =? cj_name existingCollection)
                   collections with
        | Some _ => ret record
        | None =>
            _emitMigrationDidStart self ;;
            forM (fun existingIndexes =>
                    _removeIndex name (cj_name existingCollection) (ij_keys existingIndexes))
                 (cj_indexes existingCollection) ;;
            let record :=
              set_collections
                (update_at j (fun c => {| cj_name := cj_name c;
                                          cj_hasBeenRemoved := true;
                                          cj_indexes := [] |})
                           (r_collections record)) record in
            _saveDocumentStoreRecord name record None ;;
            ret record
        end
  end.

Definition migrateDocumentStore (self : ctx) : M unit :=
  record <- _loadDocumentStoreRecord name None ;;
  try_finally (
    record <- the_record record ;;
    record <- foldM (migrate_collection self) collections record ;;
    _ <- foldM (migrate_removed_collection self)
               (seq 0 (List.length (r_collections record))) record ;;
    ret tt)
  (_emitMigrationDidStop self).

(** *** Initialization *)

Definition initializeDocumentStore (self : ctx) : M unit :=
  initialized <- read_flag hasBeenInitialized self ;;
  if initialized then ret tt
  else
    initializing <- read_flag isInitializing self ;;
    if initializing then ret tt
    else if insideTransaction self
    then throw (Error "Cannot initialize the document store inside a transaction")
    else
      write_isInitializing self true ;;
      try_finally (
        hasBeenCreated <- createDocumentStoreIfDoesNotExist name collections ;;
        (if negb hasBeenCreated
         then
           lockDocumentStore name fuel ;;
           try_finally (
             upgradeDocumentStore name ;;
             verifyDocumentStore ;;
             migrateDocumentStore self)
           (unlockDocumentStore name)
         else ret tt) ;;
        write_hasBeenInitialized self true ;;
        emit didInitialize)
      (write_isInitializing self false).

End Operations.
End Open.

(** *** Closing the recursion *)

Fixpoint initializeDocumentStore (name : string) (collections : list Collection)
    (fuel : nat) (self : ctx) : M unit :=
  match fuel with
  | O => diverge
  | S fuel' =>
      Open.initializeDocumentStore name collections fuel'
        (initializeDocumentStore name collections fuel') self
  end.

Section Closed.

Variable name : string.
Variable collections : list Collection.
Variable fuel : nat.

Definition transaction {A : Type} : ctx -> (ctx -> M A) -> M A :=
  Open.transaction (initializeDocumentStore name collections fuel).

Definition get : ctx -> CollectionArg -> jsval -> option Options -> M jsval :=
  Open.get name collections (initializeDocumentStore name collections fuel).

Definition put : ctx -> CollectionArg -> jsval -> jsval -> option Options -> M unit :=
  Open.put name collections (initializeDocumentStore name collections fuel).

Definition delete : ctx -> CollectionArg -> jsval -> option Options -> M bool :=
  Open.delete name collections (initializeDocumentStore name collections fuel).

Definition getMany : ctx -> CollectionArg -> list jsval -> option Options -> M (list Item) :=
  Open.getMany name collections (initializeDocumentStore name collections fuel).

Definition find : ctx -> CollectionArg -> option Options -> M (list Item) :=
  Open.find name collections (initializeDocumentStore name collections fuel).

Definition _findWithIndex : ctx -> Collection -> Options -> M (list Item) :=
  Open._findWithIndex name collections (initializeDocumentStore name collections fuel).

Definition count : ctx -> CollectionArg -> option Options -> M nat :=
  Open.count name collections (initializeDocumentStore name collections fuel).

Definition forEach : ctx -> CollectionArg -> option Options
                     -> (jsval -> jsval -> M unit) -> M unit :=
  Open.forEach name collections fuel (initializeDocumentStore name collections fuel).

Definition migrateDocumentStore : ctx -> M unit :=
  Open.migrateDocumentStore name collections fuel
    (initializeDocumentStore name collections fuel).

End Closed.

(** ** The restriction of a result to property paths

    The specification compares the projection fast path of [find] with the
    result of the full fetch "restricted to the paths in P".  [restrict_to]
    follows these words: the value of an element keeps the flattened paths
    of [paths] that hold a value, in the form in which an index entry
    stores a projection. *)
Definition restrict_value (paths : list string) (v : jsval) : jsval :=
  fold_left (project_step (flatten v)) paths JUndefined.

Definition restrict_to (paths : list string) (items : list Item) : list Item :=
  map (fun it => {| it_key := it_key it;
                    it_value := Some (restrict_value paths (it_value_js it)) |}) items.

(** ** Reading the log *)

Definition is_write (e : effect) : bool :=
  match e with
  | EKv (KPut _ _) | EKv (KDelete _) | EKv (KFindAndDelete _) => true
  | _ => false
  end.

Definition is_kv (e : effect) : bool :=
  match e with
  | EKv KBegin | EKv KCommit | EKv KAbort => false
  | EKv _ => true
  | _ => false
  end.

Definition is_fetch (e : effect) : bool :=
  match e with
  | EKv (KGet _) | EKv (KGetMany _) => true
  | _ => false
  end.

Definition is_event (ev : event) (e : effect) : bool :=
  match e, ev with
  | EEmit didCreate, didCreate => true
  | EEmit didInitialize, didInitialize => true
  | EEmit upgradeDidStart, upgradeDidStart => true
  | EEmit upgradeDidStop, upgradeDidStop => true
  | EEmit migrationDidStart, migrationDidStart => true
  | EEmit migrationDidStop, migrationDidStop => true
  | _, _ => false
  end.

Definition is_emit (e : effect) : bool :=
  match e with EEmit _ => true | _ => false end.

Definition count_if (p : effect -> bool) (l : list effect) : nat :=
  List.length (filter p l).

(** What a run appended to the log. *)
Definition performed (w w' : world) : list effect :=
  skipn (List.length (w_log w)) (w_log w').

(** The persisted descriptor. *)
Definition descriptor (name : string) (w : world) : option StoreRecord :=
  match kv_lookup (w_kv w) [JStr name] with
  | Some (VRecord r) => Some r
  | _ => None
  end.

(** The property [p] as [self] reads it. *)
Definition flag_of (p : flags -> option bool) (self : ctx) (w : world) : bool :=
  match self with
  | Root => match p (w_root w) with Some b => b | None => false end
  | Tx => match p (w_tx w) with
          | Some b => b
          | None => match p (w_root w) with Some b => b | None => false end
          end
  end.

(** ** The store of the end-to-end scenarios

    Store "S" declares the collection "People" with an index on
    [lastName]; the variants declare a projection. *)

Definition lastName_index : Index :=
  {| i_properties := [{| p_key := "lastName"; p_value := Simple |}];
     i_projection := None |}.

Definition People : Collection :=
  {| c_name := "People"; c_indexes := [lastName_index] |}.

Definition lastName_firstName_index : Index :=
  {| i_properties := [{| p_key := "lastName"; p_value := Simple |}];
     i_projection := Some ["firstName"] |}.

Definition People_projected : Collection :=
  {| c_name := "People"; c_indexes := [lastName_firstName_index] |}.

Definition ada : jsval :=
  JObj [("firstName", JStr "Ada"); ("lastName", JStr "L")].

Definition firstName_index : Index :=
  {| i_properties := [{| p_key := "firstName"; p_value := Simple |}];
     i_projection := None |}.

(** The collection "People" without an index, and with two. *)
Definition People_bare : Collection := {| c_name := "People"; c_indexes := [] |}.

Definition People_two : Collection :=
  {| c_name := "People"; c_indexes := [lastName_index; firstName_index] |}.

(** A fresh process over an empty backend. *)
Definition empty_world : world :=
  {| w_kv := []; w_root := no_flags; w_tx := no_flags; w_log := [] |}.

(** A fresh process over the backend that [w] leaves behind. *)
Definition new_process (w : world) : world :=
  {| w_kv := w_kv w; w_root := no_flags; w_tx := no_flags; w_log := [] |}.

(** ** Induction on values through their arrays and objects *)

Section JsvalInduction.

Variable P : jsval -> Prop.
Hypothesis H_undefined : P JUndefined.
Hypothesis H_null : P JNull.
Hypothesis H_bool : forall b, P (JBool b).
Hypothesis H_num : forall n, P (JNum n).
Hypothesis H_str : forall s, P (JStr s).
Hypothesis H_arr : forall xs, Forall P xs -> P (JArr xs).
Hypothesis H_obj : forall fs, Forall (fun kv => P (snd kv)) fs -> P (JObj fs).

Fixpoint jsval_nested_ind (v : jsval) : P v :=
  match v with
  | JUndefined => H_undefined
  | JNull => H_null
  | JBool b => H_bool b
  | JNum n => H_num n
  | JStr s => H_str s
  | JArr xs =>
      H_arr xs ((fix all (l : list jsval) : Forall P l :=
                   match l with
                   | [] => Forall_nil P
                   | x :: l' => Forall_cons x (jsval_nested_ind x) (all l')
                   end) xs)
  | JObj fs =>
      H_obj fs ((fix all (l : list (string * jsval)) : Forall (fun kv => P (snd kv)) l :=
                   match l with
                   | [] => Forall_nil _
                   | kv :: l' => Forall_cons kv (jsval_nested_ind (snd kv)) (all l')
                   end) fs)
  end.

End JsvalInduction.

(** ** Vocabulary of the statements *)

(** A scalar, [null] or [undefined]: what is neither an array nor a
    structured record. *)
Definition is_scalar (v : jsval) : bool :=
  match v with
  | JArr _ | JObj _ => false
  | _ => true
  end.

(** The name that the version 2 fix-up keeps of a legacy index. *)
Definition legacy_name (index : jsval) : jsval :=
  match index with
  | JObj o => js_get o "name"
  | _ => JUndefined
  end.

Definition legacy_names (table : LegacyTable) : LegacyTable :=
  {| lt_name := lt_name table;
     lt_indexes := match lt_indexes table with
                   | Some indexes => Some (map legacy_name indexes)
                   | None => None
                   end |}.

(** A legacy table that has indexes, all of which can be asked for their
    name. *)
Definition legacy_table_ok (table : LegacyTable) : bool :=
  match lt_indexes table with
  | Some indexes => forallb (fun index => negb (is_nullish index)) indexes
  | None => false
  end.

(** The store "S" once a first process has created it, seen from a
    second process. *)
Definition created_world : world :=
  new_process (snd (initializeDocumentStore "S" [People] 2 Root empty_world)).

(** The store "S" that a first process has created for "People" without
    an index, seen from a second process. *)
Definition unindexed_world : world :=
  new_process (snd (initializeDocumentStore "S" [People_bare] 2 Root empty_world)).

(** The same store in the process that created it. *)
Definition initialized_world : world :=
  snd (initializeDocumentStore "S" [People] 2 Root empty_world).

(** A version 1 descriptor. *)
Definition legacy_record : StoreRecord :=
  {| r_name := "S"; r_version := 1; r_isLocked := None;
     r_lastMigrationNumber := Some 7%Z;
     r_tables := Some [{| lt_name := "People";
                          lt_indexes := Some [JObj [("name", JStr "lastName")]] |}];
     r_collections := [] |}.

Definition legacy_world : world :=
  {| w_kv := [([JStr "S"], VRecord legacy_record)];
     w_root := no_flags; w_tx := no_flags; w_log := [] |}.

Definition set_tables (tables : option (list LegacyTable)) (r : StoreRecord) : StoreRecord :=
  {| r_name := r_name r; r_version := r_version r; r_isLocked := r_isLocked r;
     r_lastMigrationNumber := r_lastMigrationNumber r;
     r_tables := tables; r_collections := r_collections r |}.

(** A version 1 descriptor that holds no [tables]. *)
Definition bare_legacy_world : world :=
  {| w_kv := [([JStr "S"], VRecord (set_tables None legacy_record))];
     w_root := no_flags; w_tx := no_flags; w_log := [] |}.

(** A computation that neither changes the world nor diverges. *)
Definition pure_M {A : Type} (m : M A) : Prop :=
  forall w, snd (m w) = w /\ fst (m w) <> Diverge.

(** The descriptor that [createDocumentStoreIfDoesNotExist] writes for the
    declared collections. *)
Definition created_record (name : string) (collections : list Collection) : StoreRecord :=
  {| r_name := name; r_version := VERSION; r_isLocked := None;
     r_lastMigrationNumber := None; r_tables := None;
     r_collections := map collection_toJSON collections |}.

(** The log of a second process that opens a store whose descriptor [r]
    agrees with its declarations. *)
Definition reopen_log (name : string) (r : StoreRecord) : list effect :=
  let d := [JStr name] in
  [EKv KBegin; EKv (KGet d); EKv KCommit;
   EKv KBegin; EKv (KGet d); EKv (KPut d (VRecord (set_isLocked true r))); EKv KCommit;
   EKv (KGet d); EKv (KGet d);
   EKv (KGet d); EKv (KPut d (VRecord (set_isLocked false r)));
   EEmit didInitialize].

(** ** Vocabulary of the migration

    [settled]: the store is initialized or initializing, so that
    [initializeDocumentStore] returns at once; this is the state in which
    [initializeDocumentStore] calls [migrateDocumentStore]. *)
Definition settled (self : ctx) (w : world) : Prop :=
  flag_of hasBeenInitialized self w = true \/ flag_of isInitializing self w = true.

(** What a step of the body of a migration may do to the world [w]: it
    keeps a descriptor in the backend if there was one, it leaves the
    initialization flags alone, and it emits nothing but at most one
    [migrationDidStart], which it emits exactly when it sets the flag
    [migrationDidStartEventHasBeenEmitted]. *)
Record migration_step (name : string) (self : ctx) (w w' : world) : Prop := {
  ms_descriptor :
    (exists r, descriptor name w = Some r) -> exists r', descriptor name w' = Some r';
  ms_initialized :
    flag_of hasBeenInitialized self w' = flag_of hasBeenInitialized self w;
  ms_initializing :
    flag_of isInitializing self w' = flag_of isInitializing self w;
  ms_log :
    exists l,
      w_log w' = w_log w ++ l
      /\ count_if is_emit l = count_if (is_event migrationDidStart) l
      /\ ((flag_of migrationDidStartEventHasBeenEmitted self w'
           = flag_of migrationDidStartEventHasBeenEmitted self w
           /\ count_if (is_event migrationDidStart) l = 0)
          \/ (flag_of migrationDidStartEventHasBeenEmitted self w = false
              /\ flag_of migrationDidStartEventHasBeenEmitted self w' = true
              /\ count_if (is_event migrationDidStart) l = 1))
}.

(** A computation all of whose runs from a settled store are such steps. *)
Definition migration_safe {A : Type} (name : string) (self : ctx) (m : M A) : Prop :=
  forall w, settled self w -> migration_step name self w (snd (m w)).

(** A declared collection "Q" that the descriptor of [tombstone_world]
    holds as removed, next to a collection "P" that it does not hold. *)
Definition P_collection : Collection := {| c_name := "P"; c_indexes := [] |}.
Definition Q_collection : Collection := {| c_name := "Q"; c_indexes := [] |}.

Definition tombstone_world : world :=
  {| w_kv := [([JStr "S"],
               VRecord {| r_name := "S"; r_version := 3; r_isLocked := Some false;
                          r_lastMigrationNumber := None; r_tables := None;
                          r_collections :=
                            [{| cj_name := "Q"; cj_hasBeenRemoved := true;
                                cj_indexes := [] |}] |})];
     w_root := no_flags; w_tx := no_flags; w_log := [] |}.

(** A key of a collection or of an index: at least two elements. *)
Definition below_store (k : key) : Prop :=
  exists x y rest, k = x :: y :: rest.

(** [tombstone_world] in the course of an initialization. *)
Definition tombstone_initializing : world :=
  {| w_kv := w_kv tombstone_world;
     w_root := {| hasBeenInitialized := None; isInitializing := Some true;
                  migrationDidStartEventHasBeenEmitted := None |};
     w_tx := no_flags; w_log := [] |}.

(** The steps that [initializeDocumentStore] runs under the lock. *)
Definition locked_steps (name : string) (collections : list Collection) (fuel : nat)
    (self : ctx) : M unit :=
  bind (upgradeDocumentStore name) (fun _ =>
  bind verifyDocumentStore (fun _ =>
  migrateDocumentStore name collections fuel self)).

(** The world in which these steps start when [initializeDocumentStore]
    finds the descriptor [r] in [w]: the store is initializing, the
    existence of the descriptor has been checked and the lock is taken. *)
Definition locked_world (name : string) (r : StoreRecord) (w : world) : world :=
  let w0 := set_own Root {| hasBeenInitialized := hasBeenInitialized (own Root w);
                            isInitializing := Some true;
                            migrationDidStartEventHasBeenEmitted :=
                              migrationDidStartEventHasBeenEmitted (own Root w) |} w in
  let w1 := add_log (EKv KCommit)
              (add_log (EKv (KGet [JStr name])) (add_log (EKv KBegin) w0)) in
  add_log (EKv KCommit)
    (set_kv (kv_insert (w_kv w1) [JStr name] (VRecord (set_isLocked true r)))
       (add_log (EKv (KPut [JStr name] (VRecord (set_isLocked true r))))
          (add_log (EKv (KGet [JStr name])) (add_log (EKv KBegin) w1)))).

(** ** Vocabulary of the key layout *)

(** An operation on the entry of a declared index of [collection] for the
    item key [k], when the item goes from [oldItem] to [newItem]: the
    deletion of the entry of the old values, or the writing of the entry of
    the new values with the new projection. *)
Definition index_effect (name : string) (collection : Collection) (k : jsval)
    (oldItem newItem : jsval) (e : effect) : Prop :=
  exists index,
    In index (c_indexes collection)
    /\ (e = EKv (KDelete (makeIndexKey name collection index
                            (index_values oldItem (flatten oldItem) index) k))
        \/ e = EKv (KPut (makeIndexKey name collection index
                            (index_values newItem (flatten newItem) index) k)
                         (VItem (snd (index_projections (flatten oldItem)
                                        (flatten newItem) index))))).

(** ** Vocabulary of the projection fast path *)

(** A key that [normalizeKey] accepts. *)
Definition valid_key (k : jsval) : bool :=
  ((typeof k =? "number") || (typeof k =? "string")) && truthy k.

(** An entry of an index with projection [projection] agrees with the
    item it points to: the item of the last element of its key exists,
    and its value is the projection of that item. *)
Definition entry_consistent (name : string) (collection : Collection)
    (projection : list string) (s : kvstore) (e : key * kvalue) : Prop :=
  exists item,
    valid_key (js_last (fst e)) = true
    /\ kv_lookup s (makeItemKey name collection (js_last (fst e))) = Some (VItem item)
    /\ snd e = VItem (restrict_value projection item).

(** The scenario of the projection fast path, with an index that projects
    two properties. *)
Definition lastName_wide_index : Index :=
  {| i_properties := [{| p_key := "lastName"; p_value := Simple |}];
     i_projection := Some ["firstName"; "age"] |}.

Definition People_wide : Collection :=
  {| c_name := "People"; c_indexes := [lastName_wide_index] |}.

Definition ada_aged : jsval :=
  JObj [("firstName", JStr "Ada"); ("lastName", JStr "L"); ("age", JNum 36)].

Definition wide_world : world :=
  snd (put "S" [People_wide] 2 Root (ByName "People") (JStr "u1") ada_aged None
           empty_world).

(** [{ query: { lastName: 'L' }, properties }] *)
Definition by_lastName (properties : Properties) : Options :=
  {| o_properties := properties; o_query := Some [("lastName", JStr "L")];
     o_order := None; o_start := None; o_startAfter := None; o_end := None;
     o_endBefore := None; o_reverse := false; o_limit := None; o_batchSize := None;
     o_errorIfMissing := None; o_createIfMissing := None; o_errorIfExists := None |}.

(** A projection that holds a value. *)
Definition nonempty_object (v : jsval) : Prop :=
  exists kv o, v = JObj (kv :: o).

(** ** Vocabulary of the idempotence of the migration *)

(** The keys [keys] are those of a declared index of the collection. *)
Definition index_declared (collection : Collection) (keys : list string) : bool :=
  existsb (fun index => keys_eqb (i_keys index) keys) (c_indexes collection).

(** The persisted indexes [existing] hold the keys of [index]. *)
Definition index_persisted (existing : list IndexJSON) (index : Index) : bool :=
  existsb (fun existingIndex => keys_eqb (ij_keys existingIndex) (i_keys index)) existing.

(** The persisted collection is live and holds the keys of the declared
    indexes and no others. *)
Definition collection_matches (collection : Collection) (existing : CollectionJSON) : Prop :=
  cj_hasBeenRemoved existing = false
  /\ (forall index, In index (c_indexes collection) ->
                    index_persisted (cj_indexes existing) index = true)
  /\ (forall e, In e (cj_indexes existing) ->
                index_declared collection (ij_keys e) = true).

(** The descriptor holds a collection that matches the declaration, at the
    place where a search by name finds it. *)
Definition collection_settled (record : StoreRecord) (collection : Collection) : Prop :=
  exists i existing,
    find_with_index (fun collec => cj_name collec =? c_name collection)
                    (r_collections record) = Some (i, existing)
    /\ collection_matches collection existing.

(** The descriptor agrees with the declarations: every declared collection
    is settled, and every live collection of the descriptor is declared. *)
Definition matches_declarations (collections : list Collection) (record : StoreRecord)
  : Prop :=
  (forall c, In c collections -> collection_settled record c)
  /\ (forall existing, In existing (r_collections record) ->
                       cj_hasBeenRemoved existing = false ->
                       exists c, In c collections /\ c_name c = cj_name existing).

Definition keys_dec : forall a b : list string, {a = b} + {a <> b} :=
  list_eq_dec string_dec.

(** The collection named [n] is live at the place [i] of the descriptor,
    with the indexes [xs]. *)
Definition at_place (n : string) (i : nat) (record : StoreRecord) (xs : list IndexJSON)
  : Prop :=
  exists ec,
    find_with_index (fun collec => cj_name collec =? n) (r_collections record)
    = Some (i, ec)
    /\ cj_hasBeenRemoved ec = false
    /\ cj_indexes ec = xs.

(** The searches by a name other than [n] give in [record'] what they
    gave in [record]. *)
Definition others_kept (n : string) (record record' : StoreRecord) : Prop :=
  forall m, m <> n -> forall i x,
    find_with_index (fun collec => cj_name collec =? m) (r_collections record)
    = Some (i, x) ->
    find_with_index (fun collec => cj_name collec =? m) (r_collections record')
    = Some (i, x).

(** The persisted keys that are not declared are those still to visit. *)
Definition pending (collection : Collection) (todo : list (list string))
    (xs : list IndexJSON) : Prop :=
  forall k, index_declared collection k = false ->
            count_occ keys_dec (map ij_keys xs) k = count_occ keys_dec todo k.

(** ** The rest of the class

    The constructor, the statistics, the purge of the collections marked as
    removed and the composed [findAndDelete]. *)

(** *** The constructor

    [options.name] and [options.url] are strings or missing; the handle
    [new KeyValueStore(options.url)] that the constructor opens is the
    backend of the [world], and the optional logger is absent. *)
Record StoreOptions : Type := {
  so_name : option string;
  so_url : option string;
  so_collections : option (list Collection)
}.

(** The fields of a store that the constructor sets from its options. *)
Record Store : Type := {
  s_name : string;
  s_collections : list Collection
}.

(** [!options.name] *)
Definition falsy_string (s : option string) : bool :=
  match s with
  | Some s => negb (truthy (JStr s))
  | None => true
  end.

Definition new_DocumentStore (options : StoreOptions) : error + Store :=
  if falsy_string (so_name options)
  then inl (Error "Document store name is missing")
  else if falsy_string (so_url options)
  then inl (Error "Document store URL is missing")
  else
    let name := match so_name options with Some n => n | None => "" end in
    let collections := match so_collections options with Some cs => cs | None => [] end in
    match add_collections name collections [] with
    | inl e => inl e
    | inr collections => inr {| s_name := name; s_collections := collections |}
    end.

Section Maintenance.

Variable name : string.

(** *** Statistics *)

Record Statistics : Type := {
  collectionsCount : nat;
  removedCollectionsCount : nat;
  indexesCount : nat;
  pairsCount : nat
}.

(** The body of [record.collections.forEach] in [getStatistics], on the
    three counters. *)
Definition count_collection (counts : nat * nat * nat) (collection : CollectionJSON)
  : nat * nat * nat :=
  let '(collectionsCount, removedCollectionsCount, indexesCount) := counts in
  let '(collectionsCount, removedCollectionsCount) :=
    if negb (cj_hasBeenRemoved collection)
    then (S collectionsCount, removedCollectionsCount)
    else (collectionsCount, S removedCollectionsCount) in
  (collectionsCount, removedCollectionsCount,
   indexesCount + List.length (cj_indexes collection)).

Definition getStatistics : M Statistics :=
  record <- _loadDocumentStoreRecord name (Some false) ;;
  let '(collectionsCount, removedCollectionsCount, indexesCount) :=
    match record with
    | Some record => fold_left count_collection (r_collections record) (0, 0, 0)
    | None => (0, 0, 0)
    end in
  storePairsCount <- kv_count (prefix_only [JStr name]) ;;
  ret {| collectionsCount := collectionsCount;
         removedCollectionsCount := removedCollectionsCount;
         indexesCount := indexesCount;
         pairsCount := storePairsCount |}.

(** *** The purge of the collections marked as removed *)

Definition _removeCollection (collectionName : string) : M unit :=
  let prefix := [JStr name; JStr collectionName] in
  _ <- kv_findAndDelete (prefix_only prefix) ;; ret tt.

(** One round of the loop of [removeCollectionsMarkedAsRemoved].  [pull]
    removes the collection found, which is one element of the array: the
    one at the place where [find] found it. *)
Definition remove_marked (record : StoreRecord) (collectionName : string)
  : M StoreRecord :=
  match find_with_index (fun collection => cj_name collection =? collectionName)
                        (r_collections record) with
  | None => throw (TypeError "Cannot read property 'hasBeenRemoved' of undefined")
  | Some (i, collection) =>
      if negb (cj_hasBeenRemoved collection) then ret record
      else
        _removeCollection collectionName ;;
        let record := set_collections (remove_at i (r_collections record)) record in
        _saveDocumentStoreRecord name record None ;;
        ret record
  end.

Definition removeCollectionsMarkedAsRemoved : M unit :=
  record <- _loadDocumentStoreRecord name None ;;
  record <- the_record record ;;
  let collectionNames := map cj_name (r_collections record) in
  _ <- foldM remove_marked collectionNames record ;;
  ret tt.

End Maintenance.

(** *** [findAndDelete]

    The callback that [findAndDelete] hands to [forEach] counts in a local
    of its caller.  [forEach_counting] is [forEach] for such a callback:
    the local is threaded through the calls. *)

Section Composed.

Variable name : string.
Variable collections : list Collection.
Variable fuel : nat.

Fixpoint forEach_counting_loop {S : Type} (n : nat) (self : ctx) (collection : Collection)
    (options : Options) (fn : S -> jsval -> jsval -> M S) (s : S) : M S :=
  match n with
  | O => diverge
  | Datatypes.S n' =>
      items <- find name collections fuel self (ByObject collection) (Some options) ;;
      match items with
      | [] => ret s
      | first :: _ =>
          s <- foldM (fun s item => fn s (it_value_js item) (it_key item)) items s ;;
          let lastItem := last items first in
          startAfter <- makeOrderKey (it_key lastItem) (it_value_js lastItem)
                                     (o_order options) ;;
          forEach_counting_loop n' self collection (resume_after startAfter options) fn s
      end
  end.

Definition forEach_counting {S : Type} (self : ctx) (collection : CollectionArg)
    (options : option Options) (fn : S -> jsval -> jsval -> M S) (s : S) : M S :=
  collection <- normalizeCollection collections collection ;;
  options <- normalizeOptions options ;;
  let batchSize := match o_batchSize options with
                   | Some (Datatypes.S b) => Datatypes.S b
                   | _ => 250%nat
                   end in
  let options := set_batch (Some batchSize) (Some batchSize) options in
  forEach_counting_loop fuel self collection options fn s.

Definition findAndDelete (self : ctx) (collection : CollectionArg)
    (options : option Options) : M nat :=
  collection <- normalizeCollection collections collection ;;
  options <- normalizeOptions options ;;
  let options := set_properties (PropsArray []) options in
  forEach_counting self (ByObject collection) (Some options)
    (fun deletedItemsCount _ k =>
       hasBeenDeleted <- delete name collections fuel self (ByObject collection) k
                           (Some {| o_properties := PropsMissing; o_query := None;
                                    o_order := None; o_start := None;
                                    o_startAfter := None; o_end := None;
                                    o_endBefore := None; o_reverse := false;
                                    o_limit := None; o_batchSize := None;
                                    o_errorIfMissing := Some false;
                                    o_createIfMissing := None;
                                    o_errorIfExists := None |}) ;;
       ret (if hasBeenDeleted then Datatypes.S deletedItemsCount else deletedItemsCount))
    0%nat.

End Composed.

(** ** Vocabulary of the purge *)

(** The key [k] lies under the prefix of a collection named in [names]. *)
Definition under_names (name : string) (names : list string) (k : key) : bool :=
  existsb (fun n => has_prefix [JStr name; JStr n] k) names.

(** The key [k] lies under the prefix of a collection that is marked as
    removed. *)
Definition under_removed (name : string) (cs : list CollectionJSON) (k : key) : bool :=
  existsb (fun c => cj_hasBeenRemoved c && has_prefix [JStr name; JStr (cj_name c)] k) cs.

(** [n] is the name of a collection of [cs] that is marked as removed. *)
Definition removed_name (cs : list CollectionJSON) (n : string) : bool :=
  existsb (fun c => cj_hasBeenRemoved c && (cj_name c =? n)) cs.

(** The collections that the purge has kept when the names [todo] are
    still to visit. *)
Definition purge_keeps (todo : list string) (c : CollectionJSON) : bool :=
  negb (cj_hasBeenRemoved c) || existsb (String.eqb (cj_name c)) todo.

(** ** Vocabulary of the deletion of an item *)

(** The keys of the index entries of the item [item] of key [k]: one for
    each declared index whose values the item defines. *)
Definition entry_keys (name : string) (collection : Collection) (k item : jsval)
  : list key :=
  map (fun index =>
         makeIndexKey name collection index (index_values item (flatten item) index) k)
      (filter (fun index =>
                 negb (includes_undefined (index_values item (flatten item) index)))
              (c_indexes collection)).

(** ** Values as JavaScript has them

    An object of JavaScript holds one value for a key.  [well_formed] is
    this convention of the embedding, through arrays and objects. *)

Fixpoint distinct (ks : list string) : bool :=
  match ks with
  | [] => true
  | k :: ks' => negb (existsb (String.eqb k) ks') && distinct ks'
  end.

Fixpoint well_formed (v : jsval) {struct v} : bool :=
  match v with
  | JArr xs =>
      (fix all (xs : list jsval) : bool :=
         match xs with
         | [] => true
         | x :: xs' => well_formed x && all xs'
         end) xs
  | JObj fs =>
      distinct (map fst fs)
      && (fix all (fs : list (string * jsval)) : bool :=
            match fs with
            | [] => true
            | (_, x) :: fs' => well_formed x && all fs'
            end) fs
  | _ => true
  end.

(** ** Vocabulary of the prefixes *)

(** The string holds the character that separates the name of a collection
    from the name of an index. *)
Fixpoint has_colon (s : string) : bool :=
  match s with
  | EmptyString => false
  | String c s' => Ascii.eqb c ":"%char || has_colon s'
  end.

(** ** Values through JSON *)

(** What comes back of a value that the engine has stored as JSON: a
    property that holds [undefined] is gone, and an element of an array
    that is [undefined] is [null]. *)
Fixpoint json_copy (v : jsval) {struct v} : jsval :=
  match v with
  | JArr xs =>
      JArr ((fix copy (xs : list jsval) : list jsval :=
               match xs with
               | [] => []
               | x :: xs' =>
                   match json_copy x with JUndefined => JNull | y => y end :: copy xs'
               end) xs)
  | JObj fs =>
      JObj ((fix copy (fs : list (string * jsval)) : list (string * jsval) :=
               match fs with
               | [] => []
               | (k, x) :: fs' =>
                   match x with
                   | JUndefined => copy fs'
                   | _ => (k, json_copy x) :: copy fs'
                   end
               end) fs)
  | _ => v
  end.

(** The values that hold [undefined] nowhere, which JSON carries as they
    are. *)
Fixpoint is_json (v : jsval) {struct v} : bool :=
  match v with
  | JUndefined => false
  | JArr xs =>
      (fix all (xs : list jsval) : bool :=
         match xs with
         | [] => true
         | x :: xs' => is_json x && all xs'
         end) xs
  | JObj fs =>
      (fix all (fs : list (string * jsval)) : bool :=
         match fs with
         | [] => true
         | (_, x) :: fs' => is_json x && all fs'
         end) fs
  | _ => true
  end.

(** ** Worlds of the scenarios of the indexes *)

(** The store "S" of "People" with two indexes, and of "People" with a
    projecting index, in the process that created it. *)
Definition initialized_two_world : world :=
  snd (initializeDocumentStore "S" [People_two] 2 Root empty_world).

Definition initialized_wide_world : world :=
  snd (initializeDocumentStore "S" [People_wide] 2 Root empty_world).

(** ** Vocabulary of the index entries *)

(** The value tuple and the projection of an item for an index, as
    [updateIndex] computes them. *)
Definition item_values (index : Index) (item : jsval) : list jsval :=
  index_values item (flatten item) index.

Definition item_projection (index : Index) (item : jsval) : jsval :=
  snd (index_projections (flatten item) (flatten item) index).

Definition index_name (index : Index) : string := makeIndexName (i_keys index).

(** The computed properties of the index give scalars, as the simple ones
    do. *)
Definition scalar_valued (index : Index) : Prop :=
  forall p f, In p (i_properties index) -> p_value p = Computed f ->
              forall item, is_scalar (f item) = true.

(** Declarations whose keys cannot meet: the names of the collections are
    distinct and hold no colon, the indexes of a collection have distinct
    names, and every index has a property and scalar values. *)
Record well_declared (collections : list Collection) : Prop := {
  wd_names : NoDup (map c_name collections);
  wd_colon : forall c, In c collections -> has_colon (c_name c) = false;
  wd_indexes : forall c, In c collections -> NoDup (map index_name (c_indexes c));
  wd_properties : forall c index, In c collections -> In index (c_indexes c) ->
                    i_properties index <> [] /\ scalar_valued index
}.

(** The entries of the item [item] of key [k] are in place: every declared
    index whose values the item defines holds the entry of these values and
    of the key, with the projection of the item as its value. *)
Definition entries_in_place (name : string) (collection : Collection) (s : kvstore)
    (k item : jsval) : Prop :=
  forall index, In index (c_indexes collection) ->
    includes_undefined (item_values index item) = false ->
    kv_lookup s (makeIndexKey name collection index (item_values index item) k)
    = Some (VItem (item_projection index item)).

(** The entry [key], [v] of the index is that of an item that the
    collection holds. *)
Definition entry_of_item (name : string) (collection : Collection) (index : Index)
    (s : kvstore) (key : key) (v : kvalue) : Prop :=
  exists k item,
    valid_key k = true
    /\ kv_lookup s (makeItemKey name collection k) = Some (VItem item)
    /\ includes_undefined (item_values index item) = false
    /\ key = makeIndexKey name collection index (item_values index item) k
    /\ v = VItem (item_projection index item).

(** The invariant of the indexes (section 8 of the specification): the
    backend holds one value for a key, the entries of every item of a
    declared collection are in place, and every entry of a declared index
    is that of an item. *)
Record indexed (name : string) (collections : list Collection) (s : kvstore) : Prop := {
  ix_keys : NoDup (map fst s);
  ix_entries : forall c k item,
    In c collections ->
    kv_lookup s (makeItemKey name c k) = Some (VItem item) ->
    entries_in_place name c s k item;
  ix_items : forall c index key v,
    In c collections -> In index (c_indexes c) ->
    kv_lookup s key = Some v ->
    has_prefix [JStr name;
                JStr (makeIndexCollectionName (c_name c) (index_name index))] key = true ->
    entry_of_item name c index s key v
}.

(** What [updateIndex] makes of the contents of the backend when it
    returns. *)
Definition entry_update (name : string) (collection : Collection) (k oldItem newItem : jsval)
    (s : kvstore) (index : Index) : kvstore :=
  let oldValues := index_values oldItem (flatten oldItem) index in
  let newValues := index_values newItem (flatten newItem) index in
  let oldProjection := fst (index_projections (flatten oldItem) (flatten newItem) index) in
  let newProjection := snd (index_projections (flatten oldItem) (flatten newItem) index) in
  let valuesAreDifferent := negb (isEqual (JArr oldValues) (JArr newValues)) in
  let projectionIsDifferent := negb (isEqual oldProjection newProjection) in
  let s := if valuesAreDifferent && negb (includes_undefined oldValues)
           then kv_remove s (makeIndexKey name collection index oldValues k)
           else s in
  if (valuesAreDifferent || projectionIsDifferent) && negb (includes_undefined newValues)
  then kv_insert s (makeIndexKey name collection index newValues k) (VItem newProjection)
  else s.

(** A backend in which the store holds nothing but, at most, its
    descriptor. *)
Definition unpopulated (name : string) (s : kvstore) : Prop :=
  NoDup (map fst s)
  /\ forall key v, In (key, v) s -> has_prefix [JStr name] key = true -> key = [JStr name].

(** The worlds that the calls of [put] and [delete] on declared
    collections make of such a backend, the descriptor being written in
    between as the initialization does. *)
Inductive built (name : string) (collections : list Collection) : world -> Prop :=
| built_start : forall w,
    unpopulated name (w_kv w) -> built name collections w
| built_put : forall fuel self target k item options w w',
    built name collections w ->
    (forall c, target = ByObject c -> In c collections) ->
    flag_of hasBeenInitialized self w = true ->
    put name collections (S fuel) self target k item options w = (Ok tt, w') ->
    built name collections w'
| built_delete : forall fuel self target k options b w w',
    built name collections w ->
    (forall c, target = ByObject c -> In c collections) ->
    flag_of hasBeenInitialized self w = true ->
    delete name collections (S fuel) self target k options w = (Ok b, w') ->
    built name collections w'
| built_descriptor : forall v w w',
    built name collections w ->
    w_kv w' = kv_insert (w_kv w) [JStr name] v ->
    built name collections w'
| built_other : forall w w',
    built name collections w -> w_kv w' = w_kv w -> built name collections w'.

(** * Properties *)

(** ** Values and keys *)


Lemma jsval_eqb_eq : forall a b, jsval_eqb a b = true <-> a = b.
Proof.
  intros a. induction a using jsval_nested_ind; intros c; destruct c; simpl;
    try (split; intros; (discriminate || reflexivity)).
  - rewrite Bool.eqb_true_iff. split; congruence.
  - rewrite Z.eqb_eq. split; congruence.
  - rewrite String.eqb_eq. split; congruence.
  - rename xs0 into zs. revert zs. induction H as [|x xs Hx Hxs IH]; intros [|y ys];
      try (split; intros; (discriminate || reflexivity)).
    rewrite andb_true_iff, Hx. specialize (IH ys).
    split.
    + intros [-> Hgo]. apply IH in Hgo. congruence.
    + intros Heq. injection Heq as -> ->. split; [reflexivity|].
      apply IH. reflexivity.
  - revert fields. induction H as [|[k x] fs Hx Hfs IH]; intros [|[l y] gs];
      try (split; intros; (discriminate || reflexivity)).
    rewrite !andb_true_iff, String.eqb_eq. simpl in Hx. rewrite Hx.
    specialize (IH gs). split.
    + intros [[-> ->] Hgo]. apply IH in Hgo. congruence.
    + intros Heq. injection Heq as -> -> ->. repeat split.
      apply IH. reflexivity.
Qed.

Lemma jsval_eqb_refl : forall a, jsval_eqb a a = true.
Proof. intros a. apply jsval_eqb_eq. reflexivity. Qed.

Lemma key_eqb_eq : forall a b : key, key_eqb a b = true <-> a = b.
Proof.
  unfold key_eqb. induction a as [|x a IH]; intros [|y b]; simpl;
    try (split; intros; (discriminate || reflexivity)).
  rewrite andb_true_iff, jsval_eqb_eq, IH. split.
  - intros [-> ->]. reflexivity.
  - intros Heq. injection Heq as -> ->. auto.
Qed.

Lemma key_eqb_refl : forall a : key, key_eqb a a = true.
Proof. intros a. apply key_eqb_eq. reflexivity. Qed.

Lemma key_eqb_neq : forall a b : key, a <> b -> key_eqb a b = false.
Proof.
  intros a b Hne. destruct (key_eqb a b) eqn:E; [|reflexivity].
  apply key_eqb_eq in E. contradiction.
Qed.

Lemma kv_lookup_insert_same : forall s k v, kv_lookup (kv_insert s k v) k = Some v.
Proof.
  induction s as [|[k' v'] s IH]; intros k v; simpl.
  - rewrite key_eqb_refl. reflexivity.
  - destruct (key_eqb k' k) eqn:E; simpl.
    + rewrite key_eqb_refl. reflexivity.
    + rewrite E. apply IH.
Qed.

Lemma kv_lookup_insert_other : forall s k k' v,
  k' <> k -> kv_lookup (kv_insert s k' v) k = kv_lookup s k.
Proof.
  induction s as [|[k0 v0] s IH]; intros k k' v Hne; simpl.
  - rewrite key_eqb_neq by assumption. reflexivity.
  - destruct (key_eqb k0 k') eqn:E; simpl.
    + apply key_eqb_eq in E. subst k0.
      rewrite key_eqb_neq by assumption. reflexivity.
    + destruct (key_eqb k0 k); [reflexivity|]. apply IH. assumption.
Qed.

Lemma kv_lookup_remove_other : forall s k k',
  k' <> k -> kv_lookup (kv_remove s k') k = kv_lookup s k.
Proof.
  induction s as [|[k0 v0] s IH]; intros k k' Hne; simpl; [reflexivity|].
  destruct (key_eqb k0 k') eqn:E; simpl.
  - apply key_eqb_eq in E. subst k0.
    rewrite key_eqb_neq by assumption. apply IH. assumption.
  - destruct (key_eqb k0 k); [reflexivity|]. apply IH. assumption.
Qed.

Lemma kv_lookup_remove_same : forall s k, kv_lookup (kv_remove s k) k = None.
Proof.
  induction s as [|[k0 v0] s IH]; intros k; simpl; [reflexivity|].
  destruct (key_eqb k0 k) eqn:E; simpl; [apply IH|]. rewrite E. apply IH.
Qed.

Lemma kv_lookup_remove : forall s k0 k,
  kv_lookup (kv_remove s k0) k = if key_eqb k k0 then None else kv_lookup s k.
Proof.
  intros s k0 k. destruct (key_eqb k k0) eqn:E.
  - apply key_eqb_eq in E. subst k. apply kv_lookup_remove_same.
  - apply kv_lookup_remove_other. intros E'. subst k0.
    rewrite key_eqb_refl in E. discriminate E.
Qed.

Lemma kv_lookup_insert : forall s k0 v k,
  kv_lookup (kv_insert s k0 v) k = if key_eqb k k0 then Some v else kv_lookup s k.
Proof.
  intros s k0 v k. destruct (key_eqb k k0) eqn:E.
  - apply key_eqb_eq in E. subst k. apply kv_lookup_insert_same.
  - apply kv_lookup_insert_other. intros E'. subst k0.
    rewrite key_eqb_refl in E. discriminate E.
Qed.

Lemma kv_insert_same_value : forall s k v,
  kv_lookup s k = Some v -> kv_insert s k v = s.
Proof.
  induction s as [|[k0 v0] s IH]; intros k v; simpl; [discriminate|].
  destruct (key_eqb k0 k) eqn:E.
  - apply key_eqb_eq in E. subst k0. intros H. injection H as ->. reflexivity.
  - intros H. rewrite IH by assumption. reflexivity.
Qed.

Lemma kv_insert_insert : forall s k v v',
  kv_insert (kv_insert s k v) k v' = kv_insert s k v'.
Proof.
  induction s as [|[k0 v0] s IH]; intros k v v'; simpl.
  - rewrite key_eqb_refl. reflexivity.
  - destruct (key_eqb k0 k) eqn:E; simpl.
    + rewrite key_eqb_refl. reflexivity.
    + rewrite E, IH. reflexivity.
Qed.

(** ** The log of a run *)

Lemma performed_app : forall w w' l,
  w_log w' = w_log w ++ l -> performed w w' = l.
Proof.
  intros w w' l H. unfold performed. rewrite H.
  rewrite skipn_app, skipn_all, Nat.sub_diag. reflexivity.
Qed.

Lemma performed_refl : forall w, performed w w = [].
Proof. intros w. apply performed_app. rewrite app_nil_r. reflexivity. Qed.

Lemma includes_undefined_spec : forall xs,
  includes_undefined xs = true <-> In JUndefined xs.
Proof.
  intros xs. unfold includes_undefined. rewrite existsb_exists. split.
  - intros [v [Hin Hv]]. destruct v; try discriminate. assumption.
  - intros Hin. exists JUndefined. split; [assumption | reflexivity].
Qed.

Lemma includes_undefined_false : forall xs,
  includes_undefined xs = false <-> ~ In JUndefined xs.
Proof.
  intros xs. rewrite <- includes_undefined_spec.
  destruct (includes_undefined xs); split; intros H; congruence.
Qed.

(** ** Projections *)

Lemma index_projections_fst : forall fo fn index,
  fst (index_projections fo fn index) =
  match i_projection index with
  | Some ks => fold_left (project_step fo) ks JUndefined
  | None => JUndefined
  end.
Proof.
  intros fo fn index. unfold index_projections.
  destruct (i_projection index) as [ks|]; [|reflexivity].
  assert (G : forall a b,
    fst (fold_left (fun acc k => (project_step fo (fst acc) k,
                                  project_step fn (snd acc) k)) ks (a, b))
    = fold_left (project_step fo) ks a).
  { induction ks as [|k ks IH]; intros a b; simpl; [reflexivity|]. apply IH. }
  apply G.
Qed.

Lemma index_projections_snd : forall fo fn index,
  snd (index_projections fo fn index) =
  match i_projection index with
  | Some ks => fold_left (project_step fn) ks JUndefined
  | None => JUndefined
  end.
Proof.
  intros fo fn index. unfold index_projections.
  destruct (i_projection index) as [ks|]; [|reflexivity].
  assert (G : forall a b,
    snd (fold_left (fun acc k => (project_step fo (fst acc) k,
                                  project_step fn (snd acc) k)) ks (a, b))
    = fold_left (project_step fn) ks b).
  { induction ks as [|k ks IH]; intros a b; simpl; [reflexivity|]. apply IH. }
  apply G.
Qed.

Lemma js_set_nonempty : forall o k v, exists kv o', js_set o k v = kv :: o'.
Proof.
  intros [|[k' v'] o] k v; simpl.
  - eauto.
  - destruct (k' =? k); eauto.
Qed.

Lemma project_step_nonempty : forall flat acc k,
  nonempty_object acc -> nonempty_object (project_step flat acc k).
Proof.
  intros flat acc k [kv [o ->]]. unfold project_step.
  destruct (negb (is_nullish (js_get flat k))); [|red; eauto].
  destruct (js_set_nonempty (kv :: o) k (js_get flat k)) as [kv' [o' E]].
  rewrite E. red. eauto.
Qed.

Lemma project_fold_nonempty : forall flat ks acc,
  nonempty_object acc -> nonempty_object (fold_left (project_step flat) ks acc).
Proof.
  intros flat ks. induction ks as [|k ks IH]; intros acc H; simpl; [assumption|].
  apply IH. apply project_step_nonempty. assumption.
Qed.

(** The projection is [undefined] exactly when no path holds a value, and
    a non-empty object otherwise. *)
Lemma project_fold_cases : forall flat ks,
  (fold_left (project_step flat) ks JUndefined = JUndefined
   /\ forall p, In p ks -> is_nullish (js_get flat p) = true)
  \/ (nonempty_object (fold_left (project_step flat) ks JUndefined)
      /\ exists p, In p ks /\ is_nullish (js_get flat p) = false).
Proof.
  intros flat ks. induction ks as [|k ks IH]; simpl.
  - left. split; [reflexivity | intros p []].
  - destruct (is_nullish (js_get flat k)) eqn:E.
    + assert (S : project_step flat JUndefined k = JUndefined).
      { unfold project_step. rewrite E. reflexivity. }
      rewrite S.
      destruct IH as [[H1 H2] | [H1 [p [Hp1 Hp2]]]].
      * left. split; [assumption|]. intros p [<- | Hin]; auto.
      * right. split; [assumption|]. exists p. auto.
    + assert (S : project_step flat JUndefined k = JObj [(k, js_get flat k)]).
      { unfold project_step. rewrite E. reflexivity. }
      rewrite S. right. split.
      * apply project_fold_nonempty. red. eauto.
      * exists k. auto.
Qed.

(** ** Index maintenance *)

Ltac in_log :=
  repeat match goal with
         | H : In _ [] |- _ => destruct H
         | H : In _ (_ :: _) |- _ => destruct H as [H | H]
         | H : False |- _ => destruct H
         | H : @eq effect _ _ |- _ => first [discriminate H | inversion H; subst; clear H]
         end.

Section UpdateIndex.

Variable name : string.
Variable collection : Collection.
Variable k : jsval.
Variables oldItem newItem : jsval.
Variable index : Index.

Let oldValues := index_values oldItem (flatten oldItem) index.
Let newValues := index_values newItem (flatten newItem) index.
Let oldProjection := fst (index_projections (flatten oldItem) (flatten newItem) index).
Let newProjection := snd (index_projections (flatten oldItem) (flatten newItem) index).
Let oldKey := makeIndexKey name collection index oldValues k.
Let newKey := makeIndexKey name collection index newValues k.

(** The run of [updateIndex], by the two tests and the presence of the old
    entry. *)
Lemma updateIndex_run : forall w,
  updateIndex name collection k oldItem newItem index w =
  let deletes := negb (isEqual (JArr oldValues) (JArr newValues))
                 && negb (includes_undefined oldValues) in
  let writes := (negb (isEqual (JArr oldValues) (JArr newValues))
                 || negb (isEqual oldProjection newProjection))
                && negb (includes_undefined newValues) in
  let w1 := if deletes then add_log (EKv (KDelete oldKey)) w else w in
  if deletes && match kv_lookup (w_kv w) oldKey with None => true | Some _ => false end
  then (Throw (Error "Item not found"), w1)
  else
    let w2 := if deletes then set_kv (kv_remove (w_kv w) oldKey) w1 else w1 in
    if writes
    then (Ok tt, set_kv (kv_insert (w_kv w2) newKey (VItem newProjection))
                        (add_log (EKv (KPut newKey (VItem newProjection))) w2))
    else (Ok tt, w2).
Proof.
  intros w. unfold updateIndex.
  fold oldValues newValues oldProjection newProjection oldKey newKey.
  destruct (negb (isEqual (JArr oldValues) (JArr newValues))
            && negb (includes_undefined oldValues)) eqn:D;
  destruct ((negb (isEqual (JArr oldValues) (JArr newValues))
             || negb (isEqual oldProjection newProjection))
            && negb (includes_undefined newValues)) eqn:W;
  cbv zeta; unfold bind, kv_delete, kv_put, log, ret, bind; simpl;
  try (destruct (kv_lookup (w_kv w) oldKey) eqn:L; simpl); try reflexivity.
  all: try (destruct (kv_lookup (kv_remove (w_kv w) oldKey) newKey); reflexivity).
  all: try (destruct (kv_lookup (w_kv w) newKey); reflexivity).
Qed.


(** The outcome of [updateIndex], its log and the backend it leaves. *)
Lemma updateIndex_outcome : forall w,
  let deletes := negb (isEqual (JArr oldValues) (JArr newValues))
                 && negb (includes_undefined oldValues) in
  let writes := (negb (isEqual (JArr oldValues) (JArr newValues))
                 || negb (isEqual oldProjection newProjection))
                && negb (includes_undefined newValues) in
  let missing := deletes && match kv_lookup (w_kv w) oldKey with
                            | None => true
                            | Some _ => false
                            end in
  let r := updateIndex name collection k oldItem newItem index w in
  fst r = (if missing then Throw (Error "Item not found") else Ok tt)
  /\ performed w (snd r)
     = (if deletes then [EKv (KDelete oldKey)] else [])
       ++ (if negb missing && writes then [EKv (KPut newKey (VItem newProjection))]
           else [])
  /\ w_kv (snd r)
     = (if missing then w_kv w
        else let s := if deletes then kv_remove (w_kv w) oldKey else w_kv w in
             if writes then kv_insert s newKey (VItem newProjection) else s)
  /\ w_root (snd r) = w_root w /\ w_tx (snd r) = w_tx w.
Proof.
  intros w. cbv zeta. rewrite updateIndex_run. cbv zeta.
  destruct (negb (isEqual (JArr oldValues) (JArr newValues))
            && negb (includes_undefined oldValues));
  destruct ((negb (isEqual (JArr oldValues) (JArr newValues))
             || negb (isEqual oldProjection newProjection))
            && negb (includes_undefined newValues));
  destruct (kv_lookup (w_kv w) oldKey); cbn [andb negb fst snd];
  (split; [reflexivity|]); (split; [|repeat split]);
  first [ apply performed_refl
        | apply performed_app; simpl; rewrite <- ?app_assoc; reflexivity ].
Qed.

(** C1, as the code has it.  [updateIndex] asks the backend to delete the
    entry keyed by the old value tuple exactly when the tuples differ under
    deep comparison and the old tuple holds no [undefined]; when that entry
    is missing, the deletion throws 'Item not found' and the call ends
    there, with the backend as it was.  Every other call returns: it has
    removed the old entry under that condition, and it has written an
    entry exactly when the tuples or the projections differ and the new
    tuple holds no [undefined], at the key of the new tuple and with the
    new projection as value, every other key of the backend being as it
    was.  The new projection is [undefined], never an empty object, exactly
    when no projection path holds a value that is not [null] or
    [undefined]. *)
Theorem updateIndex_differential : forall w,
  let r := updateIndex name collection k oldItem newItem index w in
  let ops := performed w (snd r) in
  let valuesDiffer := isEqual (JArr oldValues) (JArr newValues) = false in
  let projectionsDiffer := isEqual oldProjection newProjection = false in
  let deletes := valuesDiffer /\ ~ In JUndefined oldValues in
  let writes := (valuesDiffer \/ projectionsDiffer) /\ ~ In JUndefined newValues in
  (forall key', In (EKv (KDelete key')) ops <-> deletes /\ key' = oldKey)
  /\ (fst r = Ok tt <-> (deletes -> kv_lookup (w_kv w) oldKey <> None))
  /\ (fst r <> Ok tt ->
      fst r = Throw (Error "Item not found")
      /\ ops = [EKv (KDelete oldKey)]
      /\ w_kv (snd r) = w_kv w)
  /\ (forall key' v, In (EKv (KPut key' v)) ops <->
        fst r = Ok tt /\ writes /\ key' = newKey /\ v = VItem newProjection)
  /\ (fst r = Ok tt ->
      (writes -> kv_lookup (w_kv (snd r)) newKey = Some (VItem newProjection))
      /\ (deletes -> (writes -> newKey <> oldKey) ->
          kv_lookup (w_kv (snd r)) oldKey = None)
      /\ (forall key', (deletes -> key' <> oldKey) -> (writes -> key' <> newKey) ->
            kv_lookup (w_kv (snd r)) key' = kv_lookup (w_kv w) key'))
  /\ (newProjection = JUndefined <->
      forall p, In p (match i_projection index with Some ps => ps | None => [] end) ->
                is_nullish (js_get (flatten newItem) p) = true)
  /\ newProjection <> JObj [].
Proof.
  intros w r ops valuesDiffer projectionsDiffer deletes writes.
  assert (Hd : negb (isEqual (JArr oldValues) (JArr newValues))
               && negb (includes_undefined oldValues) = true
               <-> deletes).
  { unfold deletes, valuesDiffer. rewrite andb_true_iff, !negb_true_iff.
    rewrite includes_undefined_false. tauto. }
  assert (Hw : (negb (isEqual (JArr oldValues) (JArr newValues))
                || negb (isEqual oldProjection newProjection))
               && negb (includes_undefined newValues) = true
               <-> writes).
  { unfold writes, valuesDiffer, projectionsDiffer.
    rewrite andb_true_iff, orb_true_iff, !negb_true_iff.
    rewrite includes_undefined_false. tauto. }
  assert (Hp : (newProjection = JUndefined <->
      forall p, In p (match i_projection index with Some ps => ps | None => [] end) ->
                is_nullish (js_get (flatten newItem) p) = true)
      /\ newProjection <> JObj []).
  { unfold newProjection. rewrite index_projections_snd.
    destruct (i_projection index) as [ks|].
    - destruct (project_fold_cases (flatten newItem) ks)
        as [[H1 H2] | [[kv [o H1]] [p [Hp1 Hp2]]]]; rewrite H1.
      + split; [tauto | discriminate].
      + split; [|discriminate]. split; [discriminate|].
        intros H. rewrite (H p Hp1) in Hp2. discriminate.
    - split; [|discriminate]. split; [intros _ p [] | reflexivity]. }
  destruct (updateIndex_outcome w) as [Hr [Hops [Hkv _]]].
  fold r in Hr, Hops, Hkv. fold ops in Hops.
  destruct Hp as [Hp1 Hp2].
  destruct (negb (isEqual (JArr oldValues) (JArr newValues))
            && negb (includes_undefined oldValues)) eqn:D;
  destruct ((negb (isEqual (JArr oldValues) (JArr newValues))
             || negb (isEqual oldProjection newProjection))
            && negb (includes_undefined newValues)) eqn:W;
  destruct (kv_lookup (w_kv w) oldKey) as [x|] eqn:L;
  cbn [andb negb app] in Hr, Hops, Hkv; rewrite Hr, Hops, Hkv.
  all: repeat match goal with |- _ /\ _ => split end.
  all: try exact Hp1.
  all: try exact Hp2.
  (* the deletions of the log *)
  all: try (intros key'; split;
            [ intros Hin; in_log; (split; [apply Hd; reflexivity | reflexivity])
            | intros [Hc ->]; apply Hd in Hc; first [discriminate Hc | simpl; auto] ]).
  (* the writes of the log *)
  all: try (intros key' v; split;
            [ intros Hin; in_log;
              (split; [reflexivity | split; [apply Hw; reflexivity | auto]])
            | intros [Hok [Hc [-> ->]]]; apply Hw in Hc;
              first [discriminate Hc | discriminate Hok | simpl; auto] ]).
  (* the outcome *)
  all: try (split; [ intros _ _; discriminate | reflexivity ]).
  all: try (split; [ intros Hok; discriminate Hok
                   | intros H; exfalso; apply H; [apply Hd; reflexivity | reflexivity] ]).
  all: try (split; [ intros _ Hc; apply Hd in Hc; discriminate Hc | reflexivity ]).
  all: try (intros Hn; first [ exfalso; apply Hn; reflexivity
                             | repeat split; reflexivity ]).
  (* the backend *)
  all: try (intros Hok; discriminate Hok).
  all: try (intros _; split; [|split]).
  all: try (intros Hc; apply Hw in Hc; discriminate Hc).
  all: try (intros Hc; apply Hd in Hc; discriminate Hc).
  all: try (intros _; apply kv_lookup_insert_same).
  all: try (intros _ Hne; rewrite kv_lookup_insert_other;
            [apply kv_lookup_remove_same | apply Hne; apply Hw; reflexivity]).
  all: try (intros _ _; apply kv_lookup_remove_same).
  all: try (intros key' H1 H2; cbv zeta;
            rewrite ?kv_lookup_insert_other, ?kv_lookup_remove_other;
            first [ reflexivity
                  | intros E; symmetry in E; revert E; apply H1; apply Hd; reflexivity
                  | intros E; symmetry in E; revert E; apply H2; apply Hw; reflexivity ]).

Qed.

End UpdateIndex.

(** C1 as stated fails for a call whose old entry is missing: the tuples
    differ and none holds [undefined], so that the entry of the old tuple
    is to be deleted and the entry of the new one to be written; the
    deletion throws, nothing is deleted and nothing is written. *)
Lemma updateIndex_missing_old_entry :
  let changed := JObj [("firstName", JStr "Ada"); ("lastName", JStr "M")] in
  let r := updateIndex "S" People (JStr "u1") ada changed lastName_index empty_world in
  index_values ada (flatten ada) lastName_index = [JStr "L"]
  /\ index_values changed (flatten changed) lastName_index = [JStr "M"]
  /\ fst r = Throw (Error "Item not found")
  /\ performed empty_world (snd r)
     = [EKv (KDelete [JStr "S"; JStr "People:lastName"; JStr "L"; JStr "u1"])]
  /\ w_kv (snd r) = [].
Proof. repeat split. Qed.

Lemma updateIndex_differential_witness :
  let r := updateIndex "S" People (JStr "u1") JUndefined ada lastName_index empty_world in
  fst r = Ok tt
  /\ In (EKv (KPut [JStr "S"; JStr "People:lastName"; JStr "L"; JStr "u1"] (VItem JUndefined)))
        (performed empty_world (snd r))
  /\ kv_lookup (w_kv (snd r)) [JStr "S"; JStr "People:lastName"; JStr "L"; JStr "u1"]
     = Some (VItem JUndefined).
Proof.
  pose proof (updateIndex_differential
                "S" People (JStr "u1") JUndefined ada lastName_index empty_world)
    as [_ [_ [_ [Hput [Hkv _]]]]].
  split; [reflexivity|]. split.
  - apply Hput. split; [reflexivity|]. split; [|split; reflexivity].
    split; [left; reflexivity|]. intros [H | []]. discriminate H.
  - apply (proj1 (Hkv eq_refl)).
    split; [left; reflexivity|]. intros [H | []]. discriminate H.
Defined.

(** ** Normalization of the arguments *)

Lemma normalizeCollection_world : forall collections collection w,
  snd (normalizeCollection collections collection w) = w.
Proof.
  intros collections [n | c] w; [|reflexivity].
  unfold normalizeCollection, getCollection, bind. simpl.
  destruct (List.find (fun collection => c_name collection =? n) collections); reflexivity.
Qed.

Lemma normalizeCollection_cases : forall collections collection w,
  (exists c, normalizeCollection collections collection w = (Ok c, w))
  \/ normalizeCollection collections collection w
     = (Throw (TypeError "Cannot read property 'name' of undefined"), w).
Proof.
  intros collections [n | c] w.
  - unfold normalizeCollection, getCollection, bind. simpl.
    destruct (List.find (fun collection => c_name collection =? n) collections).
    + left. eexists. reflexivity.
    + right. reflexivity.
  - left. eexists. reflexivity.
Qed.

Lemma normalizeKey_zero : forall w,
  normalizeKey (JNum 0) w = (Throw (Error "Specified key is null or empty"), w).
Proof. reflexivity. Qed.

(** C10. [normalizeKey] throws 'Specified key is null or empty' on the
    number 0.  [get], [put] and [delete] with the key 0 throw before they
    change anything or reach the backend; the error is that of
    [normalizeKey] whenever the collection argument resolves, which
    [normalizeCollection] checks first. *)
Theorem zero_key_rejected :
  forall name collections fuel self collection item options w,
    normalizeKey (JNum 0) w = (Throw (Error "Specified key is null or empty"), w)
    /\ ((exists c, normalizeCollection collections collection w = (Ok c, w)) ->
        get name collections fuel self collection (JNum 0) options w
          = (Throw (Error "Specified key is null or empty"), w)
        /\ put name collections fuel self collection (JNum 0) item options w
          = (Throw (Error "Specified key is null or empty"), w)
        /\ delete name collections fuel self collection (JNum 0) options w
          = (Throw (Error "Specified key is null or empty"), w))
    /\ (exists e, get name collections fuel self collection (JNum 0) options w
                  = (Throw e, w))
    /\ (exists e, put name collections fuel self collection (JNum 0) item options w
                  = (Throw e, w))
    /\ (exists e, delete name collections fuel self collection (JNum 0) options w
                  = (Throw e, w)).
Proof.
  intros name collections fuel self collection item options w.
  split; [reflexivity|].
  unfold get, put, delete, Open.get, Open.put, Open.delete, bind.
  destruct (normalizeCollection_cases collections collection w) as [[c Hc] | Hc];
    rewrite Hc; simpl.
  - split; [intros _; repeat split|]; repeat split; eexists; reflexivity.
  - split; [intros [c' Hc']; discriminate Hc'|].
    repeat split; eexists; reflexivity.
Qed.

Lemma zero_key_rejected_witness :
  get "S" [People] 2 Root (ByName "People") (JNum 0) None empty_world
    = (Throw (Error "Specified key is null or empty"), empty_world).
Proof.
  apply (proj1 (proj2 (zero_key_rejected "S" [People] 2 Root (ByName "People")
                         JUndefined None empty_world))).
  exists People. reflexivity.
Defined.

(** C8, as the code has it.  [normalizeItem] rejects the scalars, [null]
    and [undefined] with 'Invalid item type' and accepts every array and
    every object.  [put] with a rejected item throws before it changes
    anything or reaches the backend; the error is 'Invalid item type'
    whenever the collection and the key pass their own normalization,
    which runs first. *)
Theorem put_rejects_scalar_items :
  forall name collections fuel self collection k item options w,
    (is_scalar item = true ->
     normalizeItem item w = (Throw (Error "Invalid item type"), w)
     /\ (exists e, put name collections fuel self collection k item options w
                   = (Throw e, w))
     /\ ((exists c, normalizeCollection collections collection w = (Ok c, w)) ->
         normalizeKey k w = (Ok k, w) ->
         put name collections fuel self collection k item options w
           = (Throw (Error "Invalid item type"), w)))
    /\ (is_scalar item = false -> normalizeItem item w = (Ok item, w)).
Proof.
  intros name collections fuel self collection k item options w. split.
  - intros Hs.
    assert (Hi : normalizeItem item w = (Throw (Error "Invalid item type"), w)).
    { destruct item; try discriminate Hs; try reflexivity.
      - destruct b; reflexivity.
      - unfold normalizeItem. simpl. rewrite andb_false_r. reflexivity.
      - unfold normalizeItem. simpl. rewrite andb_false_r. reflexivity. }
    split; [exact Hi|].
    unfold put, Open.put, bind.
    destruct (normalizeCollection_cases collections collection w) as [[c Hc] | Hc];
      rewrite Hc.
    + assert (Hk : (exists e, normalizeKey k w = (Throw e, w))
                   \/ normalizeKey k w = (Ok k, w)).
      { unfold normalizeKey.
        destruct (negb (typeof k =? "number") && negb (typeof k =? "string"));
          [left; eexists; reflexivity|].
        destruct (negb (truthy k)); [left; eexists; reflexivity | right; reflexivity]. }
      destruct Hk as [[e Hk] | Hk]; rewrite Hk.
      * split; [eexists; reflexivity|]. intros _ Hk'. discriminate Hk'.
      * rewrite Hi. split; [eexists; reflexivity | reflexivity].
    + split; [eexists; reflexivity|]. intros [c Hc']. discriminate Hc'.
  - intros Hs. destruct item; try discriminate Hs; reflexivity.
Qed.

Lemma put_rejects_scalar_items_witness :
  put "S" [People] 2 Root (ByName "People") (JStr "u1") (JStr "Ada") None empty_world
    = (Throw (Error "Invalid item type"), empty_world).
Proof.
  apply (proj2 (proj2 (proj1 (put_rejects_scalar_items "S" [People] 2 Root
                                (ByName "People") (JStr "u1") (JStr "Ada") None empty_world)
                             eq_refl))).
  - exists People. reflexivity.
  - reflexivity.
Defined.

(** C8 as stated fails: an array is not rejected.  [put] stores it. *)
Lemma put_accepts_array :
  let r := put "S" [People] 2 Root (ByName "People") (JStr "u1") (JArr [JNum 1]) None
               empty_world in
  fst r = Ok tt
  /\ kv_lookup (w_kv (snd r)) [JStr "S"; JStr "People"; JStr "u1"]
     = Some (VItem (JArr [JNum 1])).
Proof. split; reflexivity. Qed.

(** ** Transactions and initialization *)

Lemma read_flag_run : forall p self w,
  read_flag p self w = (Ok (flag_of p self w), w).
Proof. intros p [|] w; reflexivity. Qed.

(** An initialized or initializing store: [initializeDocumentStore]
    returns at once. *)
Lemma initializeDocumentStore_idle : forall name collections fuel self w,
  flag_of hasBeenInitialized self w = true \/ flag_of isInitializing self w = true ->
  initializeDocumentStore name collections (S fuel) self w = (Ok tt, w).
Proof.
  intros name collections fuel self w H. simpl.
  unfold Open.initializeDocumentStore, bind. rewrite read_flag_run.
  destruct (flag_of hasBeenInitialized self w); [reflexivity|].
  rewrite read_flag_run. destruct H as [H | H]; [discriminate H|].
  rewrite H. reflexivity.
Qed.

(** C9, as the code has it.  A context is inside a transaction exactly when
    it is the view that [transaction] creates.  On such a context
    [destroyAll] always throws, and [initializeDocumentStore] throws when
    the store is neither initialized nor initializing; the two tests that
    precede the one of the transaction make it return at once otherwise.
    In each case nothing changes and the backend is not reached. *)
Theorem no_schema_change_inside_transaction :
  forall name collections fuel w,
    (forall self, insideTransaction self = true <-> self = Tx)
    /\ (flag_of hasBeenInitialized Root w = true ->
        fst (transaction name collections (S fuel) Root
               (fun tr => ret (insideTransaction tr)) w) = Ok true)
    /\ destroyAll name Tx w
       = (Throw (Error "Cannot destroy a document store inside a transaction"), w)
    /\ (flag_of hasBeenInitialized Tx w = false ->
        flag_of isInitializing Tx w = false ->
        initializeDocumentStore name collections (S fuel) Tx w
        = (Throw (Error "Cannot initialize the document store inside a transaction"), w))
    /\ (flag_of hasBeenInitialized Tx w = true \/ flag_of isInitializing Tx w = true ->
        initializeDocumentStore name collections (S fuel) Tx w = (Ok tt, w)).
Proof.
  intros name collections fuel w. repeat split.
  - destruct self; [discriminate | reflexivity].
  - intros ->. reflexivity.
  - intros H. unfold transaction, Open.transaction.
    change (insideTransaction Root) with false. cbv iota. unfold bind.
    rewrite initializeDocumentStore_idle by (left; exact H). reflexivity.
  - intros H1 H2. simpl. unfold Open.initializeDocumentStore, bind.
    rewrite !read_flag_run, H1. rewrite read_flag_run, H2. reflexivity.
  - apply initializeDocumentStore_idle.
Qed.

Lemma no_schema_change_inside_transaction_witness :
  initializeDocumentStore "S" [People] 1 Tx initialized_world = (Ok tt, initialized_world)
  /\ initializeDocumentStore "S" [People] 1 Tx empty_world
     = (Throw (Error "Cannot initialize the document store inside a transaction"),
        empty_world).
Proof.
  pose proof (no_schema_change_inside_transaction "S" [People] 0 initialized_world)
    as [_ [_ [_ [_ H]]]].
  pose proof (no_schema_change_inside_transaction "S" [People] 0 empty_world)
    as [_ [_ [_ [H' _]]]].
  split.
  - apply H. left. reflexivity.
  - apply H'; reflexivity.
Defined.

(** C9 as stated fails: on the view of a transaction over an initialized
    store, which is what [transaction] hands to its callback,
    [initializeDocumentStore] does not throw. *)
Lemma initialize_inside_transaction_returns :
  insideTransaction Tx = true
  /\ initializeDocumentStore "S" [People] 1 Tx initialized_world
     = (Ok tt, initialized_world).
Proof. split; reflexivity. Qed.

(** ** Upgrade of the descriptor *)

Lemma descriptor_lookup : forall name w r,
  descriptor name w = Some r -> kv_lookup (w_kv w) [JStr name] = Some (VRecord r).
Proof.
  intros name w r. unfold descriptor.
  destruct (kv_lookup (w_kv w) [JStr name]) as [[r' | v] |]; try discriminate.
  intros H. injection H as ->. reflexivity.
Qed.

(** Loading an existing descriptor. *)
Lemma load_descriptor : forall name w r errorIfMissing,
  descriptor name w = Some r ->
  _loadDocumentStoreRecord name errorIfMissing w
  = (Ok (Some r), add_log (EKv (KGet [JStr name])) w).
Proof.
  intros name w r e H. apply descriptor_lookup in H.
  unfold _loadDocumentStoreRecord, kv_get, bind, log. simpl. rewrite H. reflexivity.
Qed.

Lemma legacy_index_name_run : forall index w,
  is_nullish index = false ->
  legacy_index_name index w = (Ok (legacy_name index), w).
Proof. intros [] w H; try discriminate H; reflexivity. Qed.

Lemma mapM_ok : forall (A B : Type) (f : A -> M B) (g : A -> B) xs w,
  (forall x w', In x xs -> f x w' = (Ok (g x), w')) ->
  mapM f xs w = (Ok (map g xs), w).
Proof.
  intros A B f g xs. induction xs as [|x xs IH]; intros w H; [reflexivity|].
  simpl. unfold bind. rewrite (H x w (or_introl eq_refl)).
  rewrite IH by (intros y w' Hy; apply H; right; exact Hy). reflexivity.
Qed.

Lemma pure_bind : forall (A B : Type) (m : M A) (f : A -> M B),
  pure_M m -> (forall a, pure_M (f a)) -> pure_M (bind m f).
Proof.
  intros A B m f Hm Hf w. unfold bind. destruct (Hm w) as [H1 H2].
  destruct (m w) as [[a | e |] w']; simpl in *; subst.
  - apply Hf.
  - split; [reflexivity | discriminate].
  - exfalso. apply H2. reflexivity.
Qed.

Lemma pure_ret : forall (A : Type) (a : A), pure_M (ret a).
Proof. intros A a w. split; [reflexivity | discriminate]. Qed.

Lemma pure_throw : forall (A : Type) e, pure_M (@throw A e).
Proof. intros A e w. split; [reflexivity | discriminate]. Qed.

Lemma pure_mapM : forall (A B : Type) (f : A -> M B) xs,
  (forall x, pure_M (f x)) -> pure_M (mapM f xs).
Proof.
  intros A B f xs Hf. induction xs as [|x xs IH]; simpl.
  - apply pure_ret.
  - apply pure_bind; [apply Hf|]. intros y.
    apply pure_bind; [exact IH|]. intros ys. apply pure_ret.
Qed.

Lemma pure_js_prop : forall v k, pure_M (js_prop v k).
Proof.
  intros v k. destruct v; simpl; try apply pure_ret; apply pure_throw.
Qed.

Lemma mapM_legacy_index_name_ok : forall indexes w,
  forallb (fun index => negb (is_nullish index)) indexes = true ->
  mapM legacy_index_name indexes w = (Ok (map legacy_name indexes), w).
Proof.
  intros indexes w H. apply mapM_ok. intros index w' Hin.
  apply legacy_index_name_run.
  rewrite forallb_forall in H. specialize (H index Hin).
  apply negb_true_iff in H. exact H.
Qed.

Lemma mapM_legacy_index_name_fails : forall indexes w,
  forallb (fun index => negb (is_nullish index)) indexes = false ->
  mapM legacy_index_name indexes w
  = (Throw (TypeError "Cannot read property of undefined"), w).
Proof.
  induction indexes as [|index indexes IH]; intros w H; [discriminate H|].
  simpl in H. simpl. unfold bind.
  destruct (is_nullish index) eqn:N.
  - destruct index; try discriminate N; reflexivity.
  - rewrite (legacy_index_name_run _ _ N). simpl in H. rewrite (IH w H). reflexivity.
Qed.

Lemma legacy_table_names_run : forall table w,
  legacy_table_ok table = true ->
  legacy_table_names table w = (Ok (legacy_names table), w).
Proof.
  intros table w H. unfold legacy_table_names, legacy_names, legacy_table_ok in *.
  destruct (lt_indexes table) as [indexes|]; [|discriminate H].
  unfold bind. rewrite (mapM_legacy_index_name_ok _ _ H). reflexivity.
Qed.

Lemma legacy_table_names_fails : forall table w,
  legacy_table_ok table = false ->
  exists msg, legacy_table_names table w = (Throw (TypeError msg), w).
Proof.
  intros table w H. unfold legacy_table_names, legacy_table_ok in *.
  destruct (lt_indexes table) as [indexes|]; [|eexists; reflexivity].
  unfold bind. rewrite (mapM_legacy_index_name_fails _ _ H). eexists; reflexivity.
Qed.

Lemma upgrade_to_version_2_run : forall r tables w,
  r_tables r = Some tables ->
  forallb legacy_table_ok tables = true ->
  upgrade_to_version_2 r w
  = (Ok {| r_name := r_name r; r_version := r_version r; r_isLocked := r_isLocked r;
           r_lastMigrationNumber := None;
           r_tables := Some (map legacy_names tables);
           r_collections := r_collections r |}, w).
Proof.
  intros r tables w Ht Hok. unfold upgrade_to_version_2. rewrite Ht.
  unfold bind at 1. rewrite (mapM_ok _ _ _ legacy_names).
  - reflexivity.
  - intros t w' Hin. rewrite forallb_forall in Hok.
    apply legacy_table_names_run. apply Hok. exact Hin.
Qed.

Lemma upgrade_to_version_2_fails : forall r tables w,
  r_tables r = Some tables ->
  forallb legacy_table_ok tables = false ->
  exists msg, upgrade_to_version_2 r w = (Throw (TypeError msg), w).
Proof.
  intros r tables w Ht Hok. unfold upgrade_to_version_2. rewrite Ht. clear Ht.
  assert (G : exists msg, mapM legacy_table_names tables w = (Throw (TypeError msg), w)).
  { revert w. induction tables as [|t tables IH]; intros w; [discriminate Hok|].
    simpl in Hok. simpl. unfold bind.
    destruct (legacy_table_ok t) eqn:T.
    - rewrite (legacy_table_names_run _ _ T). simpl in Hok.
      destruct (IH Hok w) as [msg E]. rewrite E. eexists; reflexivity.
    - destruct (legacy_table_names_fails t w T) as [msg E]. rewrite E.
      eexists; reflexivity. }
  destruct G as [msg E]. unfold bind. rewrite E. eexists; reflexivity.
Qed.

Lemma upgrade_to_version_2_world : forall r, pure_M (upgrade_to_version_2 r).
Proof.
  intros r. unfold upgrade_to_version_2.
  destruct (r_tables r) as [tables|]; [|apply pure_throw].
  apply pure_bind; [|intros; apply pure_ret].
  apply pure_mapM. intros t. unfold legacy_table_names.
  destruct (lt_indexes t); [|apply pure_throw].
  apply pure_bind; [|intros; apply pure_ret].
  apply pure_mapM. intros index. apply pure_js_prop.
Qed.

(** The run of [upgradeDocumentStore] over a descriptor, by the tests on
    its version. *)
Lemma upgrade_run : forall name w r,
  descriptor name w = Some r ->
  let loaded := add_log (EKv (KGet [JStr name])) w in
  let started := add_log (EEmit upgradeDidStart) loaded in
  upgradeDocumentStore name w =
  if (r_version r =? VERSION)%Z then (Ok tt, loaded)
  else if (r_version r >? VERSION)%Z
  then (Throw (Error "Cannot downgrade the document store"), loaded)
  else match (if (r_version r <? 2)%Z
              then upgrade_to_version_2 r started
              else (Ok r, started)) with
       | (Ok r', w') =>
           if (r_version r <? 3)%Z
           then (Throw (Error "Cannot upgrade the document store to version 3 automatically"),
                 w')
           else bind (_saveDocumentStoreRecord name (set_version VERSION r') None)
                     (fun _ => emit upgradeDidStop) w'
       | (Throw e, w') => (Throw e, w')
       | (Diverge, w') => (Diverge, w')
       end.
Proof.
  intros name w r Hd loaded started.
  unfold upgradeDocumentStore, bind at 1. rewrite (load_descriptor _ _ _ _ Hd).
  unfold bind at 1. unfold the_record, ret at 1.
  destruct (r_version r =? VERSION)%Z; [reflexivity|].
  destruct (r_version r >? VERSION)%Z; [reflexivity|].
  unfold bind at 1. unfold emit, log at 1. fold loaded. fold started.
  unfold bind at 1.
  destruct (r_version r <? 2)%Z;
    [destruct (upgrade_to_version_2 r started) as [[r' | e |] w'] | unfold ret at 1];
    destruct (r_version r <? 3)%Z; reflexivity.
Qed.

(** C6. On a persisted descriptor, [upgradeDocumentStore] returns without
    a write when the version is [VERSION] (3) and throws on a greater
    version.  On an older version it emits [upgradeDidStart] and throws,
    the persisted descriptor being left as it was: with 'Cannot upgrade the
    document store to version 3 automatically' from version 2; from a
    version below 2 it first runs the fix-ups of version 2 on the loaded
    descriptor, which drop [lastMigrationNumber] and replace the indexes of
    every table by their names, and throws that error after them, or the
    [TypeError] of the fix-ups when the descriptor has no [tables], when a
    table has no [indexes], or when an index is [null]. *)
Theorem upgradeDocumentStore_versions : forall name w r,
  descriptor name w = Some r ->
  let loaded := add_log (EKv (KGet [JStr name])) w in
  let started := add_log (EEmit upgradeDidStart) loaded in
  let fatal := Error "Cannot upgrade the document store to version 3 automatically" in
  (r_version r = VERSION -> upgradeDocumentStore name w = (Ok tt, loaded))
  /\ ((r_version r > VERSION)%Z ->
      upgradeDocumentStore name w
      = (Throw (Error "Cannot downgrade the document store"), loaded))
  /\ ((r_version r < VERSION)%Z ->
      (exists e, upgradeDocumentStore name w = (Throw e, started))
      /\ descriptor name started = Some r
      /\ w_kv started = w_kv w
      /\ ((2 <= r_version r)%Z -> upgradeDocumentStore name w = (Throw fatal, started))
      /\ ((r_version r < 2)%Z ->
          upgradeDocumentStore name w
          = bind (upgrade_to_version_2 r) (fun _ => throw fatal) started
          /\ (r_tables r = None ->
              upgradeDocumentStore name w
              = (Throw (TypeError "Cannot read property 'forEach' of undefined"),
                 started))
          /\ (forall tables,
                r_tables r = Some tables ->
                (forallb legacy_table_ok tables = true ->
                 upgrade_to_version_2 r started
                 = (Ok {| r_name := r_name r; r_version := r_version r;
                          r_isLocked := r_isLocked r;
                          r_lastMigrationNumber := None;
                          r_tables := Some (map legacy_names tables);
                          r_collections := r_collections r |}, started)
                 /\ upgradeDocumentStore name w = (Throw fatal, started))
                /\ (forallb legacy_table_ok tables = false ->
                    exists msg,
                      upgradeDocumentStore name w = (Throw (TypeError msg), started))))).
Proof.
  intros name w r Hd loaded started fatal.
  pose proof (upgrade_run name w r Hd) as Hrun. cbv zeta in Hrun.
  fold loaded in Hrun. fold started in Hrun. fold fatal in Hrun.
  unfold VERSION in *.
  split; [|split].
  - intros E. rewrite Hrun, E. reflexivity.
  - intros E. rewrite Hrun.
    destruct (Z.eqb_spec (r_version r) 3); [lia|].
    destruct (Z.gtb_spec (r_version r) 3); [reflexivity | lia].
  - intros Hlt.
    destruct (Z.eqb_spec (r_version r) 3); [lia|].
    destruct (Z.gtb_spec (r_version r) 3); [lia|].
    destruct (Z.ltb_spec (r_version r) 3); [|lia].
    split; [|split; [exact Hd | split; [reflexivity | split]]].
    + rewrite Hrun. destruct (r_version r <? 2)%Z.
      * destruct (upgrade_to_version_2_world r started) as [Hw Hn].
        destruct (upgrade_to_version_2 r started) as [[r' | e |] w']; simpl in *; subst.
        -- eexists; reflexivity.
        -- eexists; reflexivity.
        -- exfalso. apply Hn. reflexivity.
      * eexists; reflexivity.
    + intros E. rewrite Hrun.
      destruct (Z.ltb_spec (r_version r) 2); [lia | reflexivity].
    + intros E.
      destruct (Z.ltb_spec (r_version r) 2); [|lia].
      assert (Hlink : upgradeDocumentStore name w
                      = bind (upgrade_to_version_2 r) (fun _ => throw fatal) started).
      { rewrite Hrun. unfold bind.
        destruct (upgrade_to_version_2 r started) as [[r' | e |] w']; reflexivity. }
      split; [exact Hlink | split].
      * intros Ht. rewrite Hlink. unfold bind, upgrade_to_version_2. rewrite Ht.
        reflexivity.
      * intros tables Ht. split.
        -- intros Hok. split; [apply upgrade_to_version_2_run; assumption|].
           rewrite Hlink. unfold bind.
           rewrite (upgrade_to_version_2_run r tables started Ht Hok). reflexivity.
        -- intros Hok.
           destruct (upgrade_to_version_2_fails r tables started Ht Hok) as [msg Em].
           exists msg. rewrite Hlink. unfold bind. rewrite Em. reflexivity.
Qed.

(** A version 1 descriptor without [tables]: the fix-ups are what throws. *)
Lemma upgradeDocumentStore_versions_witness :
  upgradeDocumentStore "S" created_world
  = (Ok tt, add_log (EKv (KGet [JStr "S"])) created_world)
  /\ upgradeDocumentStore "S" legacy_world
     = (Throw (Error "Cannot upgrade the document store to version 3 automatically"),
        add_log (EEmit upgradeDidStart) (add_log (EKv (KGet [JStr "S"])) legacy_world))
  /\ descriptor "S" (snd (upgradeDocumentStore "S" legacy_world)) = Some legacy_record
  /\ upgradeDocumentStore "S" bare_legacy_world
     = (Throw (TypeError "Cannot read property 'forEach' of undefined"),
        add_log (EEmit upgradeDidStart)
          (add_log (EKv (KGet [JStr "S"])) bare_legacy_world)).
Proof.
  split; [|split; [|split]].
  - apply (proj1 (upgradeDocumentStore_versions "S" created_world
                    (created_record "S" [People]) eq_refl)).
    reflexivity.
  - pose proof (upgradeDocumentStore_versions "S" legacy_world legacy_record eq_refl)
      as [_ [_ H]].
    destruct (H eq_refl) as [_ [_ [_ [_ H2]]]].
    destruct (H2 eq_refl) as [_ [_ H3]].
    apply (H3 [{| lt_name := "People";
                  lt_indexes := Some [JObj [("name", JStr "lastName")]] |}] eq_refl).
    reflexivity.
  - reflexivity.
  - pose proof (upgradeDocumentStore_versions "S" bare_legacy_world
                  (set_tables None legacy_record) eq_refl) as [_ [_ H]].
    destruct (H eq_refl) as [_ [_ [_ [_ H2]]]].
    destruct (H2 eq_refl) as [_ [H3 _]].
    apply H3. reflexivity.
Defined.

(** ** The prefix of an index query *)

Lemma js_get_in : forall (o : jsobj) k v,
  NoDup (object_keys o) -> In (k, v) o -> js_get o k = v.
Proof.
  induction o as [|[k' v'] o IH]; intros k v Hnd Hin; [destruct Hin|].
  simpl in *. inversion Hnd as [|? ? Hni Hnd']; subst.
  destruct Hin as [E | Hin].
  - injection E as -> ->. rewrite String.eqb_refl. reflexivity.
  - destruct (String.eqb_spec k' k) as [-> | Hne].
    + exfalso. apply Hni. apply (in_map fst) in Hin. exact Hin.
    + apply IH; assumption.
Qed.

Lemma js_get_not_in : forall (o : jsobj) k,
  ~ In k (object_keys o) -> js_get o k = JUndefined.
Proof.
  induction o as [|[k' v'] o IH]; intros k Hni; [reflexivity|].
  simpl in *. destruct (String.eqb_spec k' k) as [-> | Hne].
  - exfalso. apply Hni. left. reflexivity.
  - apply IH. intros H. apply Hni. right. exact H.
Qed.

Lemma in_object_keys : forall (o : jsobj) k,
  In k (object_keys o) -> exists v, In (k, v) o.
Proof.
  intros o k H. unfold object_keys in H. apply in_map_iff in H.
  destruct H as [[k' v] [E Hin]]. simpl in E. subst. exists v. exact Hin.
Qed.

(** The value of a property does not depend on the order in which the
    properties of an object were listed. *)
Lemma js_get_permutation : forall (o o' : jsobj) k,
  NoDup (object_keys o) -> Permutation o o' -> js_get o' k = js_get o k.
Proof.
  intros o o' k Hnd Hp.
  assert (Hnd' : NoDup (object_keys o')).
  { apply (Permutation_NoDup (l := object_keys o)); [|exact Hnd].
    unfold object_keys. apply Permutation_map. exact Hp. }
  destruct (in_dec string_dec k (object_keys o)) as [Hin | Hni].
  - destruct (in_object_keys o k Hin) as [v Hv].
    rewrite (js_get_in o k v Hnd Hv).
    apply js_get_in; [exact Hnd'|]. apply (Permutation_in _ Hp). exact Hv.
  - rewrite (js_get_not_in o k Hni). apply js_get_not_in.
    intros H. apply Hni. unfold object_keys in *.
    apply (Permutation_in (l := map fst o')); [|exact H].
    apply Permutation_map. apply Permutation_sym. exact Hp.
Qed.

Lemma map_nth_seq : forall (A : Type) (f : string -> A) (keys : list string) n,
  n <= List.length keys ->
  map (fun i => f (nth i keys "undefined")) (seq 0 n) = map f (firstn n keys).
Proof.
  intros A f keys. induction keys as [|k ks IH]; intros n Hn.
  - simpl in Hn. assert (n = 0) by lia. subst. reflexivity.
  - destruct n as [|n]; [reflexivity|].
    simpl. f_equal. rewrite <- seq_shift, map_map. simpl.
    apply IH. simpl in Hn. lia.
Qed.

(** Every index that [findIndexForQueryAndOrder] chooses has at least as
    many keys as the query. *)
Lemma chosen_index_covers_query : forall collection query order index w w',
  findIndexForQueryAndOrder collection (Some query) order w = (Ok index, w') ->
  List.length (object_keys query) <= List.length (i_keys index).
Proof.
  intros collection query order index w w' H. unfold findIndexForQueryAndOrder in H.
  destruct (List.find _ (c_indexes collection)) as [x|] eqn:F; [|discriminate H].
  injection H as -> _. apply find_some in F. destruct F as [_ F].
  unfold index_covers in F. rewrite !andb_true_iff in F.
  destruct F as [[_ F] _]. apply Nat.eqb_eq in F.
  rewrite length_firstn in F. lia.
Qed.

(** C3. The prefix that [makeIndexKeyForQuery] builds for a query with K
    keys is the store name, the name of the index collection and K values
    of the query, read at the first K keys of the index in their
    declaration order, whatever the order in which the query lists its
    keys; K does not exceed the number of keys of an index that
    [findIndexForQueryAndOrder] chose. *)
Theorem makeIndexKeyForQuery_prefix :
  forall name collection index (query listed : jsobj),
    NoDup (object_keys query) ->
    Permutation query listed ->
    List.length (object_keys query) <= List.length (i_keys index) ->
    makeIndexKeyForQuery name collection index (Some listed)
    = [JStr name; JStr (c_name collection ++ ":" ++ join "+" (i_keys index))]
        ++ map (js_get query) (firstn (List.length (object_keys query)) (i_keys index))
    /\ List.length (makeIndexKeyForQuery name collection index (Some listed))
       = 2 + List.length (object_keys listed)
    /\ makeIndexKeyForQuery name collection index None
       = [JStr name; JStr (c_name collection ++ ":" ++ join "+" (i_keys index))].
Proof.
  intros name collection index query listed Hnd Hp Hlen.
  assert (Hk : List.length (object_keys listed) = List.length (object_keys query)).
  { unfold object_keys. rewrite !length_map. symmetry.
    apply Permutation_length. exact Hp. }
  unfold makeIndexKeyForQuery, makeIndexCollectionName, makeIndexName.
  fold (i_keys index). repeat split.
  - f_equal. rewrite Hk. rewrite map_nth_seq by exact Hlen.
    apply map_ext. intros k. apply js_get_permutation; assumption.
  - simpl. rewrite length_map, length_seq. reflexivity.
Qed.

Lemma makeIndexKeyForQuery_prefix_witness :
  makeIndexKeyForQuery "S" People
    {| i_properties := [{| p_key := "lastName"; p_value := Simple |};
                        {| p_key := "firstName"; p_value := Simple |};
                        {| p_key := "age"; p_value := Simple |}];
       i_projection := None |}
    (Some [("firstName", JStr "Ada"); ("lastName", JStr "L")])
  = [JStr "S"; JStr "People:lastName+firstName+age"; JStr "L"; JStr "Ada"].
Proof.
  refine (proj1 (makeIndexKeyForQuery_prefix "S" People _
                   [("lastName", JStr "L"); ("firstName", JStr "Ada")]
                   [("firstName", JStr "Ada"); ("lastName", JStr "L")] _ _ _)).
  - repeat constructor; simpl; intuition discriminate.
  - apply perm_swap.
  - simpl. lia.
Defined.

(** ** Idempotence of the initialization *)

(** The collections of a constructed store have distinct names. *)
Lemma add_collections_distinct : forall name declared collections result,
  NoDup (map c_name collections) ->
  add_collections name declared collections = inr result ->
  NoDup (map c_name result) /\ result = collections ++ declared.
Proof.
  intros name declared. induction declared as [|c declared IH];
    intros collections result Hnd H; simpl in H.
  - injection H as <-. rewrite app_nil_r. split; [exact Hnd | reflexivity].
  - unfold addCollection in H.
    destruct (List.find (fun c0 => c_name c0 =? c_name c) collections) eqn:F;
      [discriminate H|].
    apply IH in H.
    + destruct H as [H1 H2]. split; [exact H1|]. rewrite H2, <- app_assoc. reflexivity.
    + rewrite map_app. simpl.
      apply NoDup_app; [exact Hnd | repeat constructor; intros [] |].
      intros n Hn [<- | []]. apply in_map_iff in Hn. destruct Hn as [x [Hx Hin]].
      pose proof (find_none _ _ F x Hin) as Hf. simpl in Hf.
      rewrite Hx, String.eqb_refl in Hf. discriminate Hf.
Qed.

Lemma constructed_names_distinct : forall name declared collections,
  add_collections name declared [] = inr collections ->
  NoDup (map c_name collections) /\ collections = declared.
Proof.
  intros name declared collections H.
  apply (add_collections_distinct name declared [] collections (NoDup_nil _) H).
Qed.

Lemma descriptor_add_log : forall name e w,
  descriptor name (add_log e w) = descriptor name w.
Proof. reflexivity. Qed.

Lemma descriptor_saved : forall name r s w,
  descriptor name (set_kv (kv_insert s [JStr name] (VRecord r)) w) = Some r.
Proof.
  intros name r s w. unfold descriptor. simpl.
  rewrite kv_lookup_insert_same. reflexivity.
Qed.

(** Saving over an existing descriptor. *)
Lemma save_descriptor : forall name w r r',
  descriptor name w = Some r ->
  _saveDocumentStoreRecord name r' None w
  = (Ok tt, set_kv (kv_insert (w_kv w) [JStr name] (VRecord r'))
                   (add_log (EKv (KPut [JStr name] (VRecord r'))) w)).
Proof.
  intros name w r r' H. apply descriptor_lookup in H.
  unfold _saveDocumentStoreRecord, kv_put, bind, log. simpl. rewrite H. reflexivity.
Qed.

Lemma bind_ok : forall (A B : Type) (m : M A) (f : A -> M B) w a w',
  m w = (Ok a, w') -> bind m f w = f a w'.
Proof. intros A B m f w a w' H. unfold bind. rewrite H. reflexivity. Qed.

Lemma create_existing : forall name collections w r,
  descriptor name w = Some r ->
  createDocumentStoreIfDoesNotExist name collections w
  = (Ok false, add_log (EKv KCommit)
                 (add_log (EKv (KGet [JStr name])) (add_log (EKv KBegin) w))).
Proof.
  intros name collections w r H.
  unfold createDocumentStoreIfDoesNotExist, kv_transaction, bind.
  rewrite (load_descriptor _ _ r) by exact H. reflexivity.
Qed.

Lemma try_lock_free : forall name w r,
  descriptor name w = Some r ->
  is_locked r = false ->
  try_lock name w
  = (Ok true,
     add_log (EKv KCommit)
       (set_kv (kv_insert (w_kv w) [JStr name] (VRecord (set_isLocked true r)))
          (add_log (EKv (KPut [JStr name] (VRecord (set_isLocked true r))))
             (add_log (EKv (KGet [JStr name])) (add_log (EKv KBegin) w))))).
Proof.
  intros name w r H Hl. unfold try_lock, kv_transaction.
  rewrite (bind_ok _ _ _ _ _ _ _
             (load_descriptor name (add_log (EKv KBegin) w) r None H)).
  unfold the_record. rewrite (bind_ok _ _ _ _ _ r _ eq_refl).
  rewrite Hl. change (negb false) with true. cbv iota.
  rewrite (bind_ok _ _ _ _ _ _ _
             (save_descriptor name (add_log (EKv (KGet [JStr name]))
                                      (add_log (EKv KBegin) w)) r _ H)).
  reflexivity.
Qed.

Lemma unlock_run : forall name w r,
  descriptor name w = Some r ->
  unlockDocumentStore name w
  = (Ok tt, set_kv (kv_insert (w_kv w) [JStr name] (VRecord (set_isLocked false r)))
              (add_log (EKv (KPut [JStr name] (VRecord (set_isLocked false r))))
                 (add_log (EKv (KGet [JStr name])) w))).
Proof.
  intros name w r H. unfold unlockDocumentStore, bind.
  rewrite (load_descriptor _ _ r) by exact H. unfold the_record, ret at 1.
  rewrite (save_descriptor _ _ r) by exact H. reflexivity.
Qed.

Lemma upgrade_current : forall name w r,
  descriptor name w = Some r ->
  r_version r = VERSION ->
  upgradeDocumentStore name w = (Ok tt, add_log (EKv (KGet [JStr name])) w).
Proof.
  intros name w r H Hv. unfold upgradeDocumentStore, bind.
  rewrite (load_descriptor _ _ r) by exact H. unfold the_record, ret at 1.
  rewrite Hv. reflexivity.
Qed.

Lemma foldM_unchanged : forall (A S : Type) (f : S -> A -> M S) xs s w,
  (forall x, In x xs -> f s x w = (Ok s, w)) ->
  foldM f xs s w = (Ok s, w).
Proof.
  intros A S f xs s w. induction xs as [|x xs IH]; intros H; [reflexivity|].
  simpl. unfold bind. rewrite (H x (or_introl eq_refl)).
  apply IH. intros y Hy. apply H. right. exact Hy.
Qed.

Lemma keys_eqb_refl : forall ks, keys_eqb ks ks = true.
Proof.
  unfold keys_eqb. induction ks as [|k ks IH]; [reflexivity|].
  simpl. rewrite String.eqb_refl. exact IH.
Qed.

Lemma find_exists : forall (A : Type) (p : A -> bool) xs x,
  In x xs -> p x = true -> exists y, List.find p xs = Some y.
Proof.
  intros A p xs x Hin Hp. destruct (List.find p xs) as [y|] eqn:F; [eauto|].
  rewrite (find_none p xs F x Hin) in Hp. discriminate Hp.
Qed.

Lemma keys_eqb_eq : forall a b, keys_eqb a b = true <-> a = b.
Proof.
  unfold keys_eqb. induction a as [|x a IH]; intros [|y b]; simpl;
    try (split; intros; (discriminate || reflexivity)).
  rewrite andb_true_iff, String.eqb_eq, IH. split.
  - intros [-> ->]. reflexivity.
  - intros H. injection H as -> ->. auto.
Qed.

(** ** Searches and updates of arrays *)

Lemma find_with_index_nth : forall (A : Type) (p : A -> bool) xs i x,
  find_with_index p xs = Some (i, x) -> nth_error xs i = Some x /\ p x = true.
Proof.
  intros A p xs. induction xs as [|y xs IH]; intros i x H; simpl in H; [discriminate H|].
  destruct (p y) eqn:E.
  - injection H as <- <-. split; [reflexivity | exact E].
  - destruct (find_with_index p xs) as [[j z]|]; [|discriminate H].
    injection H as <- <-. apply IH. reflexivity.
Qed.

Lemma find_with_index_none : forall (A : Type) (p : A -> bool) xs,
  find_with_index p xs = None -> forall x, In x xs -> p x = false.
Proof.
  intros A p xs. induction xs as [|y xs IH]; intros H x Hin; [destruct Hin|].
  simpl in H. destruct (p y) eqn:E; [discriminate H|].
  destruct (find_with_index p xs) as [[j z]|]; [discriminate H|].
  destruct Hin as [<- | Hin]; [exact E | apply IH; [reflexivity | exact Hin]].
Qed.

Lemma find_with_index_app_found : forall (A : Type) (p : A -> bool) xs ys r,
  find_with_index p xs = Some r -> find_with_index p (xs ++ ys) = Some r.
Proof.
  intros A p xs ys. induction xs as [|y xs IH]; intros r H; simpl in *; [discriminate H|].
  destruct (p y); [exact H|].
  destruct (find_with_index p xs) as [[j z]|]; [|discriminate H].
  rewrite (IH _ eq_refl). exact H.
Qed.

Lemma find_with_index_app_last : forall (A : Type) (p : A -> bool) xs y,
  find_with_index p xs = None ->
  find_with_index p (xs ++ [y])
  = if p y then Some (List.length xs, y) else None.
Proof.
  intros A p xs y. induction xs as [|x xs IH]; intros H; simpl in *.
  - destruct (p y); reflexivity.
  - destruct (p x); [discriminate H|].
    destruct (find_with_index p xs) as [[j z]|]; [discriminate H|].
    rewrite (IH eq_refl). destruct (p y); reflexivity.
Qed.

Lemma nth_error_update_at : forall (A : Type) (f : A -> A) xs i j,
  nth_error (update_at i f xs) j
  = if Nat.eqb i j then option_map f (nth_error xs j) else nth_error xs j.
Proof.
  intros A f xs. induction xs as [|x xs IH]; intros i j.
  - destruct i, j; simpl; try reflexivity; destruct (Nat.eqb _ _); reflexivity.
  - destruct i as [|i], j as [|j]; simpl; try reflexivity. apply IH.
Qed.

Lemma length_update_at : forall (A : Type) (f : A -> A) xs i,
  List.length (update_at i f xs) = List.length xs.
Proof.
  intros A f xs. induction xs as [|x xs IH]; intros [|i]; simpl; try reflexivity.
  rewrite IH. reflexivity.
Qed.

Lemma In_update_at : forall (A : Type) (f : A -> A) xs i y,
  In y (update_at i f xs) ->
  In y xs \/ exists x, nth_error xs i = Some x /\ y = f x.
Proof.
  intros A f xs. induction xs as [|x xs IH]; intros [|i] y H; simpl in *;
    try contradiction.
  - destruct H as [<- | H]; [right; eauto | left; right; exact H].
  - destruct H as [<- | H]; [left; left; reflexivity|].
    destruct (IH i y H) as [H' | H']; [left; right; exact H' | right; exact H'].
Qed.

(** An update in place that keeps the names leaves the searches by other
    names as they were, and the search by the name of the place finds the
    updated element. *)
Lemma find_with_index_update_other : forall (f : CollectionJSON -> CollectionJSON) cs j m,
  (forall x, cj_name (f x) = cj_name x) ->
  (forall x, nth_error cs j = Some x -> cj_name x <> m) ->
  forall i x,
    find_with_index (fun collec => cj_name collec =? m) cs = Some (i, x) ->
    find_with_index (fun collec => cj_name collec =? m) (update_at j f cs) = Some (i, x).
Proof.
  intros f cs. induction cs as [|c cs IH]; intros j m Hf Hj i x H; simpl in H;
    [discriminate H|].
  destruct j as [|j]; simpl.
  - rewrite Hf.
    destruct (String.eqb_spec (cj_name c) m) as [E | E].
    + exfalso. apply (Hj c eq_refl). exact E.
    + exact H.
  - destruct (cj_name c =? m); [exact H|].
    destruct (find_with_index _ cs) as [[i' x']|] eqn:F; [|discriminate H].
    rewrite (IH j m Hf (fun y Hy => Hj y Hy) i' x' F). exact H.
Qed.

Lemma find_with_index_update_same : forall (f : CollectionJSON -> CollectionJSON) cs n i x,
  (forall y, cj_name (f y) = cj_name y) ->
  find_with_index (fun collec => cj_name collec =? n) cs = Some (i, x) ->
  find_with_index (fun collec => cj_name collec =? n) (update_at i f cs) = Some (i, f x).
Proof.
  intros f cs. induction cs as [|c cs IH]; intros n i x Hf H; simpl in H;
    [discriminate H|].
  destruct (cj_name c =? n) eqn:E.
  - injection H as <- <-. simpl. rewrite Hf, E. reflexivity.
  - destruct (find_with_index _ cs) as [[i' x']|] eqn:F; [|discriminate H].
    injection H as <- <-. simpl. rewrite E. rewrite (IH n i' x' Hf F). reflexivity.
Qed.

Lemma findIndex_nth : forall (A : Type) (p : A -> bool) xs j,
  findIndex p xs = Some j -> exists x, nth_error xs j = Some x /\ p x = true.
Proof.
  intros A p xs. induction xs as [|y xs IH]; intros j H; simpl in H; [discriminate H|].
  destruct (p y) eqn:E.
  - injection H as <-. exists y. split; [reflexivity | exact E].
  - destruct (findIndex p xs) as [j'|]; [|discriminate H].
    injection H as <-. apply IH. reflexivity.
Qed.

Lemma map_remove_at : forall (A B : Type) (g : A -> B) xs j,
  map g (remove_at j xs) = remove_at j (map g xs).
Proof.
  intros A B g xs. induction xs as [|x xs IH]; intros [|j]; simpl; try reflexivity.
  rewrite IH. reflexivity.
Qed.

Lemma count_occ_remove_at : forall (l : list (list string)) j a b,
  nth_error l j = Some a ->
  count_occ keys_dec (remove_at j l) b
  = if keys_dec a b then pred (count_occ keys_dec l b) else count_occ keys_dec l b.
Proof.
  induction l as [|x l IH]; intros j a b H; [destruct j; discriminate H|].
  destruct j as [|j]; simpl in *.
  - injection H as ->. destruct (keys_dec a b); reflexivity.
  - rewrite (IH j a b H).
    destruct (keys_dec x b) as [-> | Hx]; destruct (keys_dec a b) as [-> | Ha];
      try reflexivity.
    assert (Hpos : count_occ keys_dec l b > 0).
    { apply count_occ_In. apply nth_error_In in H. exact H. }
    lia.
Qed.

Lemma existsb_remove_at : forall (A : Type) (p : A -> bool) xs j x,
  nth_error xs j = Some x -> p x = false ->
  existsb p (remove_at j xs) = existsb p xs.
Proof.
  intros A p xs. induction xs as [|y xs IH]; intros j x H Hp;
    [destruct j; discriminate H|].
  destruct j as [|j]; simpl in *.
  - injection H as ->. rewrite Hp. reflexivity.
  - rewrite (IH j x H Hp). reflexivity.
Qed.

Lemma In_remove_at : forall (A : Type) xs j (y : A), In y (remove_at j xs) -> In y xs.
Proof.
  intros A xs. induction xs as [|x xs IH]; intros [|j] y H; simpl in *;
    try contradiction.
  - right. exact H.
  - destruct H as [<- | H]; [left; reflexivity | right; apply (IH j); exact H].
Qed.

(** A declared collection is found in the descriptor of the declarations,
    at the place where the descriptor holds its own image. *)
Lemma find_declared : forall cs c,
  NoDup (map c_name cs) ->
  In c cs ->
  exists i,
    find_with_index (fun collec => cj_name collec =? c_name c) (map collection_toJSON cs)
    = Some (i, collection_toJSON c)
    /\ nth_error (map collection_toJSON cs) i = Some (collection_toJSON c).
Proof.
  induction cs as [|c0 cs IH]; intros c Hnd Hin; [destruct Hin|].
  simpl in Hnd. inversion Hnd as [|? ? Hni Hnd']; subst.
  simpl. destruct (String.eqb_spec (c_name c0) (c_name c)) as [E | Hne].
  - destruct Hin as [-> | Hin].
    + exists 0. split; reflexivity.
    + exfalso. apply Hni. rewrite E. apply in_map. exact Hin.
  - destruct Hin as [-> | Hin]; [contradiction Hne; reflexivity|].
    destruct (IH c Hnd' Hin) as [i [H1 H2]].
    exists (S i). rewrite H1. split; [reflexivity | exact H2].
Qed.

Lemma collection_toJSON_matches : forall c, collection_matches c (collection_toJSON c).
Proof.
  intros c. split; [reflexivity|]. split.
  - intros x Hx. apply existsb_exists. exists (index_toJSON x).
    split; [apply in_map; exact Hx | apply keys_eqb_refl].
  - intros e He. simpl in He. apply in_map_iff in He. destruct He as [x [<- Hx]].
    apply existsb_exists. exists x. split; [exact Hx | apply keys_eqb_refl].
Qed.

(** The descriptor of the declarations agrees with them. *)
Lemma declared_matches : forall cs r,
  NoDup (map c_name cs) ->
  r_collections r = map collection_toJSON cs ->
  matches_declarations cs r.
Proof.
  intros cs r Hnd Hr. split.
  - intros c Hc. destruct (find_declared cs c Hnd Hc) as [i [F _]].
    exists i, (collection_toJSON c). rewrite Hr.
    split; [exact F | apply collection_toJSON_matches].
  - intros e He _. rewrite Hr in He. apply in_map_iff in He.
    destruct He as [c [<- Hc]]. exists c. split; [exact Hc | reflexivity].
Qed.

Section MigrateUnchanged.

Variable name : string.
Variable collections : list Collection.
Variable fuel : nat.
Variable initialize : ctx -> M unit.
Variable self : ctx.
Variable record : StoreRecord.

Hypothesis record_settled : matches_declarations collections record.

Lemma migrate_collection_unchanged : forall c w,
  In c collections ->
  Open.migrate_collection name collections fuel initialize self record c w
  = (Ok record, w).
Proof.
  intros c w Hin. unfold Open.migrate_collection.
  destruct (proj1 record_settled c Hin) as [i [ec [F [R [Hp Hd]]]]].
  rewrite F, R.
  assert (Hat : indexes_at i record = cj_indexes ec).
  { unfold indexes_at. destruct (find_with_index_nth _ _ _ _ _ F) as [N _].
    rewrite N. reflexivity. }
  erewrite bind_ok.
  2:{ apply foldM_unchanged. intros x Hx. unfold Open.migrate_added_index. rewrite Hat.
      specialize (Hp x Hx). apply existsb_exists in Hp. destruct Hp as [e [He E]].
      destruct (find_exists _
                  (fun existingIndex => keys_eqb (ij_keys existingIndex) (i_keys x))
                  (cj_indexes ec) e He E) as [y Hy].
      rewrite Hy. reflexivity. }
  rewrite Hat. apply foldM_unchanged. intros eik He.
  unfold Open.migrate_removed_index.
  apply in_map_iff in He. destruct He as [e [<- He]].
  specialize (Hd e He). unfold index_declared in Hd. rewrite Hd. reflexivity.
Qed.

Lemma migrate_removed_collection_unchanged : forall j w,
  Open.migrate_removed_collection name collections self record j w = (Ok record, w).
Proof.
  intros j w. unfold Open.migrate_removed_collection.
  destruct (nth_error (r_collections record) j) as [ec|] eqn:N; [|reflexivity].
  destruct (cj_hasBeenRemoved ec) eqn:R; [reflexivity|].
  destruct (proj2 record_settled ec (nth_error_In _ _ N) R) as [c [Hc E]].
  destruct (find_exists _
              (fun collection => c_name collection =? cj_name ec)
              collections c Hc) as [y Hy].
  { rewrite E. apply String.eqb_refl. }
  rewrite Hy. reflexivity.
Qed.

(** A migration over a descriptor that agrees with the declarations reads
    the descriptor and does nothing else to the backend. *)
Lemma migrate_settled : forall w,
  descriptor name w = Some record ->
  Open.migrateDocumentStore name collections fuel initialize self w
  = (Ok tt, snd (_emitMigrationDidStop self (add_log (EKv (KGet [JStr name])) w))).
Proof.
  intros w Hd. unfold Open.migrateDocumentStore.
  rewrite (bind_ok _ _ _ _ _ _ _ (load_descriptor name w record None Hd)).
  unfold try_finally.
  unfold the_record. rewrite (bind_ok _ _ _ _ _ record _ eq_refl).
  erewrite bind_ok.
  2:{ apply foldM_unchanged. intros c Hc.
      apply migrate_collection_unchanged. exact Hc. }
  erewrite bind_ok.
  2:{ apply foldM_unchanged. intros j _. apply migrate_removed_collection_unchanged. }
  unfold ret at 1. unfold _emitMigrationDidStop.
  rewrite (bind_ok _ _ _ _ _ _ _ (read_flag_run _ _ _)).
  destruct (flag_of migrationDidStartEventHasBeenEmitted self
              (add_log (EKv (KGet [JStr name])) w)); reflexivity.
Qed.

Lemma migrate_unchanged : forall w,
  descriptor name w = Some record ->
  flag_of migrationDidStartEventHasBeenEmitted self w = false ->
  Open.migrateDocumentStore name collections fuel initialize self w
  = (Ok tt, add_log (EKv (KGet [JStr name])) w).
Proof.
  intros w Hd Hf. rewrite (migrate_settled w Hd). unfold _emitMigrationDidStop.
  rewrite (bind_ok _ _ _ _ _ _ _ (read_flag_run _ _ _)).
  replace (flag_of migrationDidStartEventHasBeenEmitted self
             (add_log (EKv (KGet [JStr name])) w)) with false
    by (rewrite <- Hf; destruct self; reflexivity).
  reflexivity.
Qed.

End MigrateUnchanged.

Lemma bind_inv_ok : forall (A B : Type) (m : M A) (f : A -> M B) w b w',
  bind m f w = (Ok b, w') ->
  exists a w1, m w = (Ok a, w1) /\ f a w1 = (Ok b, w').
Proof.
  intros A B m f w b w' H. unfold bind in H.
  destruct (m w) as [[a | e |] w1]; try discriminate H. eauto.
Qed.

Lemma try_finally_inv_ok : forall (A : Type) (body : M A) (fin : M unit) w a w',
  try_finally body fin w = (Ok a, w') ->
  exists w1, body w = (Ok a, w1) /\ fin w1 = (Ok tt, w').
Proof.
  intros A body fin w a w' H. unfold try_finally in H.
  destruct (body w) as [[x | e |] w1]; try discriminate H;
    destruct (fin w1) as [[[] | e' |] w2] eqn:F; try discriminate H;
    injection H as -> ->; eauto.
Qed.

(** After an initialization that returned, a further one returns at once. *)
Lemma initialize_twice : forall name collections fuel self w w1,
  initializeDocumentStore name collections (S fuel) self w = (Ok tt, w1) ->
  initializeDocumentStore name collections (S fuel) self w1 = (Ok tt, w1).
Proof.
  intros name collections fuel self w w1 H.
  destruct (flag_of hasBeenInitialized self w) eqn:F1.
  { rewrite initializeDocumentStore_idle in H by (left; exact F1).
    injection H as <-. apply initializeDocumentStore_idle. left. exact F1. }
  destruct (flag_of isInitializing self w) eqn:F2.
  { rewrite initializeDocumentStore_idle in H by (right; exact F2).
    injection H as <-. apply initializeDocumentStore_idle. right. exact F2. }
  simpl in H. unfold Open.initializeDocumentStore in H.
  rewrite (bind_ok _ _ _ _ _ _ _ (read_flag_run _ _ _)), F1 in H.
  rewrite (bind_ok _ _ _ _ _ _ _ (read_flag_run _ _ _)), F2 in H.
  destruct self; [|discriminate H].
  change (insideTransaction Root) with false in H. cbv iota in H.
  apply bind_inv_ok in H. destruct H as [[] [w0 [_ H]]].
  apply try_finally_inv_ok in H. destruct H as [wb [Hb Hf]].
  apply bind_inv_ok in Hb. destruct Hb as [hc [wc [_ Hb]]].
  apply bind_inv_ok in Hb. destruct Hb as [[] [wd [_ Hb]]].
  apply bind_inv_ok in Hb. destruct Hb as [[] [we [Hw He]]].
  apply initializeDocumentStore_idle. left.
  unfold write_hasBeenInitialized in Hw. injection Hw as <-.
  unfold emit, log in He. injection He as <-.
  unfold write_isInitializing in Hf. injection Hf as <-. reflexivity.
Qed.

Lemma write_isInitializing_run : forall self b w,
  write_isInitializing self b w
  = (Ok tt, set_own self
              {| hasBeenInitialized := hasBeenInitialized (own self w);
                 isInitializing := Some b;
                 migrationDidStartEventHasBeenEmitted :=
                   migrationDidStartEventHasBeenEmitted (own self w) |} w).
Proof. reflexivity. Qed.

Lemma write_hasBeenInitialized_run : forall self b w,
  write_hasBeenInitialized self b w
  = (Ok tt, set_own self
              {| hasBeenInitialized := Some b;
                 isInitializing := isInitializing (own self w);
                 migrationDidStartEventHasBeenEmitted :=
                   migrationDidStartEventHasBeenEmitted (own self w) |} w).
Proof. reflexivity. Qed.

Lemma emit_run : forall ev w, emit ev w = (Ok tt, add_log (EEmit ev) w).
Proof. reflexivity. Qed.

Lemma lock_free : forall name fuel w r,
  descriptor name w = Some r ->
  is_locked r = false ->
  lockDocumentStore name (S fuel) w
  = (Ok tt,
     add_log (EKv KCommit)
       (set_kv (kv_insert (w_kv w) [JStr name] (VRecord (set_isLocked true r)))
          (add_log (EKv (KPut [JStr name] (VRecord (set_isLocked true r))))
             (add_log (EKv (KGet [JStr name])) (add_log (EKv KBegin) w))))).
Proof.
  intros name fuel w r H Hl. simpl.
  rewrite (bind_ok _ _ _ _ _ _ _ (try_lock_free name w r H Hl)). reflexivity.
Qed.

Lemma reopen_run : forall name collections fuel w r,
  descriptor name w = Some r ->
  r_version r = VERSION ->
  is_locked r = false ->
  matches_declarations collections r ->
  w_root w = no_flags ->
  exists w',
    initializeDocumentStore name collections (S (S fuel)) Root w = (Ok tt, w')
    /\ performed w w' = reopen_log name r
    /\ w_kv w' = kv_insert (w_kv w) [JStr name] (VRecord (set_isLocked false r)).
Proof.
  intros name collections fuel w r Hd Hv Hl Hm Hroot.
  set (d := [JStr name]).
  simpl initializeDocumentStore. unfold Open.initializeDocumentStore.
  assert (F1 : flag_of hasBeenInitialized Root w = false)
    by (unfold flag_of; rewrite Hroot; reflexivity).
  assert (F2 : flag_of isInitializing Root w = false)
    by (unfold flag_of; rewrite Hroot; reflexivity).
  rewrite (bind_ok _ _ _ _ _ _ _ (read_flag_run _ _ _)), F1.
  rewrite (bind_ok _ _ _ _ _ _ _ (read_flag_run _ _ _)), F2.
  change (insideTransaction Root) with false. cbv iota.
  rewrite (bind_ok _ _ _ _ _ _ _ (write_isInitializing_run _ _ _)).
  set (w0 := set_own Root _ w).
  assert (Hd0 : descriptor name w0 = Some r) by exact Hd.
  unfold try_finally at 1.
  rewrite (bind_ok _ _ _ _ _ _ _ (create_existing name collections w0 r Hd0)).
  set (w1 := add_log (EKv KCommit) _).
  assert (Hd1 : descriptor name w1 = Some r) by exact Hd.
  change (negb false) with true. cbv iota.
  erewrite bind_ok.
  2:{ erewrite bind_ok; [| apply (lock_free name fuel w1 r Hd1 Hl)].
      set (w2 := add_log (EKv KCommit) _).
      assert (Hd2 : descriptor name w2 = Some (set_isLocked true r))
        by (apply descriptor_saved).
      unfold try_finally.
      rewrite (bind_ok _ _ _ _ _ _ _ (upgrade_current name w2 _ Hd2 Hv)).
      unfold verifyDocumentStore. rewrite (bind_ok _ _ _ _ _ tt _ eq_refl).
      rewrite (migrate_unchanged name collections _ _ Root (set_isLocked true r) Hm).
      - set (w3 := add_log _ (add_log _ w2)).
        assert (Hd3 : descriptor name w3 = Some (set_isLocked true r)) by exact Hd2.
        rewrite (unlock_run name w3 _ Hd3). reflexivity.
      - exact Hd2.
      - unfold flag_of. simpl. rewrite Hroot. reflexivity. }
  rewrite (bind_ok _ _ _ _ _ _ _ (write_hasBeenInitialized_run _ _ _)).
  rewrite emit_run, write_isInitializing_run.
  eexists. split; [reflexivity|]. split.
  - apply performed_app. simpl. rewrite <- !app_assoc. reflexivity.
  - simpl. rewrite kv_insert_insert. reflexivity.
Qed.

(** C5 as stated fails: the second process that opens the store of the
    first scenario writes the descriptor twice, and leaves it with the
    property [isLocked], which the descriptor of the newly created store did
    not hold. *)
Lemma reopen_writes_descriptor :
  let r := initializeDocumentStore "S" [People] 2 Root created_world in
  fst r = Ok tt
  /\ filter is_write (performed created_world (snd r))
     = [EKv (KPut [JStr "S"] (VRecord (set_isLocked true (created_record "S" [People]))));
        EKv (KPut [JStr "S"] (VRecord (set_isLocked false (created_record "S" [People]))))]
  /\ descriptor "S" created_world = Some (created_record "S" [People])
  /\ r_isLocked (created_record "S" [People]) = None
  /\ descriptor "S" (snd r) = Some (set_isLocked false (created_record "S" [People]))
  /\ w_kv (snd r) <> w_kv created_world.
Proof. repeat split. discriminate. Qed.

(** ** The steps of a migration *)

Lemma count_if_app : forall p l1 l2,
  count_if p (l1 ++ l2) = count_if p l1 + count_if p l2.
Proof.
  intros p l1 l2. unfold count_if. rewrite filter_app, length_app. reflexivity.
Qed.

Section MigrationSteps.

Variable name : string.
Variable self : ctx.

Lemma step_refl : forall w, migration_step name self w w.
Proof.
  intros w. constructor; try reflexivity; [tauto|].
  exists []. rewrite app_nil_r. repeat split. left. split; reflexivity.
Qed.

Lemma step_trans : forall w1 w2 w3,
  migration_step name self w1 w2 ->
  migration_step name self w2 w3 ->
  migration_step name self w1 w3.
Proof.
  intros w1 w2 w3 [d1 i1 j1 [l1 [L1 [E1 F1]]]] [d2 i2 j2 [l2 [L2 [E2 F2]]]].
  constructor.
  - intros H. apply d2. apply d1. exact H.
  - rewrite i2. exact i1.
  - rewrite j2. exact j1.
  - exists (l1 ++ l2). rewrite L2, L1, app_assoc. split; [reflexivity|].
    rewrite !count_if_app. split; [lia|].
    destruct F1 as [[A1 B1] | [A1 [B1 C1]]]; destruct F2 as [[A2 B2] | [A2 [B2 C2]]].
    + left. split; [congruence | lia].
    + right. repeat split; [congruence | assumption | lia].
    + right. repeat split; [assumption | congruence | lia].
    + congruence.
Qed.

Lemma step_settled : forall w w',
  migration_step name self w w' -> settled self w -> settled self w'.
Proof.
  intros w w' [_ i j _] [H | H]; [left | right]; congruence.
Qed.

(** A step that only talks to the backend. *)
Lemma step_backend : forall w w' ops,
  w_root w' = w_root w ->
  w_tx w' = w_tx w ->
  w_log w' = w_log w ++ map EKv ops ->
  ((exists r, descriptor name w = Some r) -> exists r', descriptor name w' = Some r') ->
  migration_step name self w w'.
Proof.
  intros w w' ops Hr Ht Hl Hd.
  assert (Hf : forall p, flag_of p self w' = flag_of p self w).
  { intros p. unfold flag_of. rewrite Hr, Ht. reflexivity. }
  assert (Hc : forall p, (forall op, p (EKv op) = false) ->
                         count_if p (map EKv ops) = 0).
  { intros p Hp. unfold count_if. clear Hl.
    induction ops as [|op ops' IH]; [reflexivity|].
    simpl. rewrite Hp. exact IH. }
  constructor; try apply Hf; [exact Hd|].
  exists (map EKv ops). split; [exact Hl|].
  rewrite !Hc by reflexivity. split; [reflexivity|].
  left. split; [apply Hf | reflexivity].
Qed.

Lemma safe_pure : forall (A : Type) (m : M A), pure_M m -> migration_safe name self m.
Proof.
  intros A m Hm w _. destruct (Hm w) as [-> _]. apply step_refl.
Qed.

Lemma safe_ret : forall (A : Type) (a : A), migration_safe name self (ret a).
Proof. intros A a w _. apply step_refl. Qed.

Lemma safe_throw : forall (A : Type) e, migration_safe name self (@throw A e).
Proof. intros A e w _. apply step_refl. Qed.

Lemma safe_diverge : forall (A : Type), migration_safe name self (@diverge A).
Proof. intros A w _. apply step_refl. Qed.

Lemma safe_bind : forall (A B : Type) (m : M A) (f : A -> M B),
  migration_safe name self m ->
  (forall a, migration_safe name self (f a)) ->
  migration_safe name self (bind m f).
Proof.
  intros A B m f Hm Hf w Hs. unfold bind. specialize (Hm w Hs).
  destruct (m w) as [[a | e |] w1]; simpl in *; try exact Hm.
  apply (step_trans _ w1); [exact Hm|]. apply Hf.
  apply (step_settled w); assumption.
Qed.

Lemma safe_try_finally : forall (A : Type) (body : M A) (fin : M unit),
  migration_safe name self body ->
  migration_safe name self fin ->
  migration_safe name self (try_finally body fin).
Proof.
  intros A body fin Hb Hf w Hs. unfold try_finally. specialize (Hb w Hs).
  assert (Hs1 : settled self (snd (body w))) by (apply (step_settled w); assumption).
  specialize (Hf (snd (body w)) Hs1).
  destruct (body w) as [[a | e |] w1]; simpl in *; try exact Hb;
    (apply (step_trans _ w1); [exact Hb|]);
    destruct (fin w1) as [[[] | e' |] w2]; simpl in *; exact Hf.
Qed.

Lemma safe_foldM : forall (A S : Type) (f : S -> A -> M S) xs s,
  (forall s' x, migration_safe name self (f s' x)) ->
  migration_safe name self (foldM f xs s).
Proof.
  intros A S f xs. induction xs as [|x xs IH]; intros s Hf; simpl.
  - apply safe_ret.
  - apply safe_bind; [apply Hf|]. intros s'. apply IH. exact Hf.
Qed.

Lemma safe_forM : forall (A : Type) (f : A -> M unit) xs,
  (forall x, migration_safe name self (f x)) ->
  migration_safe name self (forM f xs).
Proof. intros A f xs Hf. unfold forM. apply safe_foldM. intros _ x. apply Hf. Qed.

Lemma safe_mapM : forall (A B : Type) (f : A -> M B) xs,
  (forall x, migration_safe name self (f x)) ->
  migration_safe name self (mapM f xs).
Proof.
  intros A B f xs Hf. induction xs as [|x xs IH]; simpl.
  - apply safe_ret.
  - apply safe_bind; [apply Hf|]. intros y.
    apply safe_bind; [exact IH|]. intros ys. apply safe_ret.
Qed.

Lemma safe_if : forall (A : Type) (b : bool) (m1 m2 : M A),
  migration_safe name self m1 -> migration_safe name self m2 ->
  migration_safe name self (if b then m1 else m2).
Proof. intros A [] m1 m2 H1 H2; assumption. Qed.

(** *** The backend *)

Lemma safe_kv_get : forall k e, migration_safe name self (kv_get k e).
Proof.
  intros k e w _. unfold kv_get, bind, log. simpl.
  destruct (kv_lookup (w_kv w) k); [|destruct (default true e)]; simpl;
    apply (step_backend _ _ [KGet k]); try reflexivity; exact (fun H => H).
Qed.

Lemma below_store_neq : forall k, below_store k -> k <> [JStr name].
Proof. intros k [x [y [rest ->]]]. discriminate. Qed.

Lemma descriptor_insert_other : forall k v w w',
  k <> [JStr name] ->
  w_kv w' = kv_insert (w_kv w) k v ->
  descriptor name w' = descriptor name w.
Proof.
  intros k v w w' Hne Hk. unfold descriptor. rewrite Hk.
  rewrite kv_lookup_insert_other by assumption. reflexivity.
Qed.

Lemma descriptor_remove_other : forall k w w',
  k <> [JStr name] ->
  w_kv w' = kv_remove (w_kv w) k ->
  descriptor name w' = descriptor name w.
Proof.
  intros k w w' Hne Hk. unfold descriptor. rewrite Hk.
  rewrite kv_lookup_remove_other by assumption. reflexivity.
Qed.

Lemma safe_kv_put : forall k v e c,
  below_store k -> migration_safe name self (kv_put k v e c).
Proof.
  intros k v e c Hk w _. apply below_store_neq in Hk.
  unfold kv_put, bind, log. simpl.
  destruct (kv_lookup (w_kv w) k);
    [destruct (default false e) | destruct (default false e || default true c)]; simpl;
    apply (step_backend _ _ [KPut k v]); try reflexivity;
    intros H;
    first [ exact H
          | erewrite descriptor_insert_other; [exact H | exact Hk | reflexivity] ].
Qed.

Lemma safe_save : forall r e,
  migration_safe name self (_saveDocumentStoreRecord name r e).
Proof.
  intros r e w _. unfold _saveDocumentStoreRecord, kv_put, bind, log. simpl.
  destruct (kv_lookup (w_kv w) [JStr name]);
    [destruct (default false e)
    | destruct (default false e || negb (default false e))]; simpl;
    apply (step_backend _ _ [KPut [JStr name] (VRecord r)]); try reflexivity;
    intros H; first [ exact H | exists r; apply descriptor_saved ].
Qed.

Lemma safe_kv_delete : forall k e,
  below_store k -> migration_safe name self (kv_delete k e).
Proof.
  intros k e Hk w _. apply below_store_neq in Hk.
  unfold kv_delete, bind, log. simpl.
  destruct (kv_lookup (w_kv w) k); [|destruct (default true e)]; simpl;
    apply (step_backend _ _ [KDelete k]); try reflexivity;
    intros H;
    first [ exact H
          | erewrite descriptor_remove_other; [exact H | exact Hk | reflexivity] ].
Qed.

Lemma safe_kv_find : forall o, migration_safe name self (kv_find o).
Proof.
  intros o w _. unfold kv_find, bind, log. simpl.
  apply (step_backend _ _ [KFind o]); try reflexivity; exact (fun H => H).
Qed.

Lemma safe_kv_getMany : forall ks e rv, migration_safe name self (kv_getMany ks e rv).
Proof.
  intros ks e rv. unfold kv_getMany.
  apply safe_bind.
  - intros w _. apply (step_backend _ _ [KGetMany ks]); try reflexivity;
      exact (fun H => H).
  - intros _. apply safe_bind; [|intros; apply safe_ret].
    apply safe_mapM. intros k w _.
    destruct (kv_lookup (w_kv w) k); [|destruct (default true e)]; apply step_refl.
Qed.

End MigrationSteps.

(** *** Scans *)

Lemma In_insert_sorted : forall e x l,
  In e (insert_sorted x l) -> e = x \/ In e l.
Proof.
  intros e x l. induction l as [|y l IH]; simpl.
  - intros [<- | []]. left. reflexivity.
  - destruct (key_leb (fst y) (fst x)); simpl.
    + intros [<- | H]; [right; left; reflexivity|].
      destruct (IH H) as [-> | H']; [left; reflexivity | right; right; exact H'].
    + intros [<- | H]; [left; reflexivity | right; exact H].
Qed.

Lemma In_sort_entries : forall e l, In e (sort_entries l) -> In e l.
Proof.
  intros e l. unfold sort_entries.
  assert (G : forall acc, In e (fold_left (fun acc x => insert_sorted x acc) l acc) ->
                          In e l \/ In e acc).
  { induction l as [|x l IH]; intros acc H; simpl in *; [right; exact H|].
    destruct (IH _ H) as [H' | H']; [left; right; exact H'|].
    destruct (In_insert_sorted _ _ _ H') as [-> | H'']; [left; left; reflexivity|].
    right. exact H''. }
  intros H. destruct (G [] H) as [H' | []]. exact H'.
Qed.

Lemma In_firstn : forall (A : Type) n (l : list A) x, In x (firstn n l) -> In x l.
Proof.
  intros A n. induction n as [|n IH]; intros [|y l] x H; simpl in *; try contradiction.
  destruct H as [-> | H]; [left; reflexivity | right; apply IH; exact H].
Qed.

Lemma In_kv_select : forall o s e,
  In e (kv_select o s) -> has_prefix (fo_prefix o) (fst e) = true.
Proof.
  intros o s e H. unfold kv_select in H.
  assert (H1 : In e (if fo_reverse o
                     then rev (sort_entries (filter (fun e => within_bounds o (fst e)) s))
                     else sort_entries (filter (fun e => within_bounds o (fst e)) s))).
  { destruct (fo_limit o) as [n|]; [|exact H]. apply (In_firstn _ n). exact H. }
  assert (H2 : In e (sort_entries (filter (fun e => within_bounds o (fst e)) s))).
  { destruct (fo_reverse o); [apply (proj2 (in_rev _ _))|]; exact H1. }
  apply In_sort_entries in H2. apply filter_In in H2. destruct H2 as [_ H2].
  unfold within_bounds in H2. rewrite !andb_true_iff in H2. tauto.
Qed.

Lemma has_prefix_below_store : forall x y k,
  has_prefix [x; y] k = true -> below_store k.
Proof.
  intros x y [|a [|b rest]] H; simpl in H.
  - discriminate H.
  - rewrite andb_false_r in H. discriminate H.
  - red. eauto.
Qed.

Lemma lookup_fold_remove : forall (selected : list (key * kvalue)) s k,
  (forall e, In e selected -> fst e <> k) ->
  kv_lookup (fold_left (fun s e => kv_remove s (fst e)) selected s) k = kv_lookup s k.
Proof.
  induction selected as [|e selected IH]; intros s k H; [reflexivity|].
  simpl. rewrite IH by (intros e' He'; apply H; right; exact He').
  apply kv_lookup_remove_other. apply H. left. reflexivity.
Qed.

Section MigrationBackend.

Variable name : string.
Variable self : ctx.

Lemma safe_kv_findAndDelete : forall x y,
  migration_safe name self (kv_findAndDelete (prefix_only [x; y])).
Proof.
  intros x y w _. unfold kv_findAndDelete, bind, log. simpl.
  apply (step_backend name self _ _ [KFindAndDelete (prefix_only [x; y])]); try reflexivity.
  unfold descriptor. simpl. rewrite lookup_fold_remove; [exact (fun H => H)|].
  intros e He. apply In_kv_select in He. simpl fo_prefix in He.
  apply has_prefix_below_store in He. destruct He as [a [b [rest ->]]]. discriminate.
Qed.

Lemma safe_removeIndex : forall collectionName indexKeys,
  migration_safe name self (_removeIndex name collectionName indexKeys).
Proof.
  intros collectionName indexKeys. unfold _removeIndex.
  apply safe_bind; [apply safe_kv_findAndDelete | intros; apply safe_ret].
Qed.

Lemma makeIndexKey_below_store : forall collection index values k,
  below_store (makeIndexKey name collection index values k).
Proof.
  intros collection index values k. unfold makeIndexKey. simpl.
  destruct values as [|v values]; simpl; red; eauto.
Qed.

Lemma safe_updateIndex : forall collection k oldItem newItem index,
  migration_safe name self (updateIndex name collection k oldItem newItem index).
Proof.
  intros collection k oldItem newItem index. unfold updateIndex.
  apply safe_bind.
  - apply safe_if; [|apply safe_ret].
    apply safe_bind; [|intros; apply safe_ret].
    apply safe_kv_delete. apply makeIndexKey_below_store.
  - intros _. apply safe_if; [|apply safe_ret].
    apply safe_kv_put. apply makeIndexKey_below_store.
Qed.

Lemma safe_emitMigrationDidStart :
  migration_safe name self (_emitMigrationDidStart self).
Proof.
  intros w _. unfold _emitMigrationDidStart.
  rewrite (bind_ok _ _ _ _ _ _ _ (read_flag_run _ _ _)).
  destruct (flag_of migrationDidStartEventHasBeenEmitted self w) eqn:F; simpl;
    [apply step_refl|].
  destruct self; (constructor;
    [ exact (fun H => H) | reflexivity | reflexivity
    | exists [EEmit migrationDidStart]; split; [reflexivity|];
      split; [reflexivity|]; right; split; [exact F|]; split; reflexivity ]).
Qed.

End MigrationBackend.

(** *** The operations that a migration calls *)

Lemma pure_normalizeCollection : forall collections c,
  pure_M (normalizeCollection collections c).
Proof.
  intros collections [n | c] w; [|split; [reflexivity | discriminate]].
  unfold normalizeCollection, getCollection, bind. simpl.
  destruct (List.find (fun collection => c_name collection =? n) collections);
    split; try reflexivity; discriminate.
Qed.

Lemma pure_normalizeOptions : forall o, pure_M (normalizeOptions o).
Proof.
  intros o w. unfold normalizeOptions.
  destruct (o_properties match o with Some o' => o' | None => empty_options end);
    split; try reflexivity; discriminate.
Qed.

Lemma pure_normalizeKey : forall k, pure_M (normalizeKey k).
Proof.
  intros k w. unfold normalizeKey.
  destruct (negb (typeof k =? "number") && negb (typeof k =? "string"));
    [split; [reflexivity | discriminate]|].
  destruct (negb (truthy k)); split; try reflexivity; discriminate.
Qed.

Lemma pure_findIndexForQueryAndOrder : forall c q o,
  pure_M (findIndexForQueryAndOrder c q o).
Proof.
  intros c q o w. unfold findIndexForQueryAndOrder.
  destruct (List.find _ (c_indexes c)); split; try reflexivity; discriminate.
Qed.

Lemma pure_makeOrderKey : forall k v o, pure_M (makeOrderKey k v o).
Proof.
  intros k v o. unfold makeOrderKey.
  apply pure_bind; [|intros; apply pure_ret].
  apply pure_mapM. intros p. apply pure_js_prop.
Qed.

Section MigrationOperations.

Variable name : string.
Variable collections : list Collection.
Variable fuel : nat.
Variable initialize : ctx -> M unit.
Variable self : ctx.

Hypothesis safe_initialize : migration_safe name self (initialize self).

Lemma safe_getMany : forall collection keys options,
  migration_safe name self
    (Open.getMany name collections initialize self collection keys options).
Proof.
  intros collection keys options. unfold Open.getMany.
  apply safe_bind; [apply safe_pure, pure_normalizeCollection|]. intros c.
  destruct keys as [|k keys]; [apply safe_ret|].
  apply safe_bind; [apply safe_pure, pure_mapM; intros; apply pure_normalizeKey|].
  intros ks. apply safe_bind; [apply safe_pure, pure_normalizeOptions|]. intros o.
  apply safe_bind; [exact safe_initialize|]. intros _.
  apply safe_bind; [apply safe_kv_getMany | intros; apply safe_ret].
Qed.

Lemma safe_findWithIndex : forall collection options,
  migration_safe name self
    (Open._findWithIndex name collections initialize self collection options).
Proof.
  intros collection options. unfold Open._findWithIndex.
  apply safe_bind; [apply safe_pure, pure_findIndexForQueryAndOrder|]. intros index.
  cbv zeta.
  apply safe_bind; [exact safe_initialize|]. intros _.
  apply safe_bind; [apply safe_kv_find|]. intros items.
  apply safe_if; [apply safe_getMany | apply safe_ret].
Qed.

Lemma safe_find : forall collection options,
  migration_safe name self (Open.find name collections initialize self collection options).
Proof.
  intros collection options. unfold Open.find.
  apply safe_bind; [apply safe_pure, pure_normalizeCollection|]. intros c.
  apply safe_bind; [apply safe_pure, pure_normalizeOptions|]. intros o.
  apply safe_if; [apply safe_findWithIndex|]. cbv zeta.
  apply safe_bind; [exact safe_initialize|]. intros _.
  apply safe_bind; [apply safe_kv_find | intros; apply safe_ret].
Qed.

Lemma safe_forEach_loop : forall n collection options fn,
  (forall item k, migration_safe name self (fn item k)) ->
  migration_safe name self
    (Open.forEach_loop name collections initialize n self collection options fn).
Proof.
  induction n as [|n IH]; intros collection options fn Hfn; simpl.
  - apply safe_diverge.
  - apply safe_bind; [apply safe_find|]. intros items.
    destruct items as [|first rest]; [apply safe_ret|].
    apply safe_bind; [apply safe_forM; intros; apply Hfn|]. intros _.
    apply safe_bind; [apply safe_pure, pure_makeOrderKey|]. intros startAfter.
    apply IH. exact Hfn.
Qed.

Lemma safe_forEach : forall collection options fn,
  (forall item k, migration_safe name self (fn item k)) ->
  migration_safe name self
    (Open.forEach name collections fuel initialize self collection options fn).
Proof.
  intros collection options fn Hfn. unfold Open.forEach.
  apply safe_bind; [apply safe_pure, pure_normalizeCollection|]. intros c.
  apply safe_bind; [apply safe_pure, pure_normalizeOptions|]. intros o.
  apply safe_forEach_loop. exact Hfn.
Qed.

Lemma safe_addIndex : forall collection index,
  migration_safe name self
    (Open._addIndex name collections fuel initialize self collection index).
Proof.
  intros collection index. unfold Open._addIndex.
  apply safe_forEach. intros item k. apply safe_updateIndex.
Qed.

Lemma safe_migrate_added_index : forall collection i record index,
  migration_safe name self
    (Open.migrate_added_index name collections fuel initialize self collection i
       record index).
Proof.
  intros collection i record index. unfold Open.migrate_added_index.
  destruct (List.find _ (indexes_at i record)); [apply safe_ret|].
  apply safe_bind; [apply safe_emitMigrationDidStart|]. intros _.
  apply safe_bind; [apply safe_addIndex|]. intros _.
  apply safe_bind; [apply safe_save | intros; apply safe_ret].
Qed.

Lemma safe_migrate_removed_index : forall collection i record keys,
  migration_safe name self
    (Open.migrate_removed_index name self collection i record keys).
Proof.
  intros collection i record keys. unfold Open.migrate_removed_index.
  apply safe_if; [|apply safe_ret].
  apply safe_bind; [apply safe_emitMigrationDidStart|]. intros _.
  apply safe_bind; [apply safe_removeIndex|]. intros _.
  destruct (findIndex _ (indexes_at i record)); [|apply safe_throw].
  apply safe_bind; [apply safe_save | intros; apply safe_ret].
Qed.

Lemma safe_migrate_collection : forall record collection,
  migration_safe name self
    (Open.migrate_collection name collections fuel initialize self record collection).
Proof.
  intros record collection. unfold Open.migrate_collection.
  destruct (find_with_index _ (r_collections record)) as [[i existing]|].
  - apply safe_if; [apply safe_throw|].
    apply safe_bind; [apply safe_foldM; intros; apply safe_migrate_added_index|].
    intros record'. apply safe_foldM. intros. apply safe_migrate_removed_index.
  - apply safe_bind; [apply safe_emitMigrationDidStart|]. intros _.
    apply safe_bind; [apply safe_save | intros; apply safe_ret].
Qed.

Lemma safe_migrate_removed_collection : forall record j,
  migration_safe name self
    (Open.migrate_removed_collection name collections self record j).
Proof.
  intros record j. unfold Open.migrate_removed_collection.
  destruct (nth_error (r_collections record) j) as [existing|]; [|apply safe_ret].
  apply safe_if; [apply safe_ret|].
  destruct (List.find _ collections); [apply safe_ret|].
  apply safe_bind; [apply safe_emitMigrationDidStart|]. intros _.
  apply safe_bind; [apply safe_forM; intros; apply safe_removeIndex|]. intros _.
  apply safe_bind; [apply safe_save | intros; apply safe_ret].
Qed.

(** The block under [try] in [migrateDocumentStore]. *)
Lemma safe_migrate_body : forall record,
  migration_safe name self
    (bind (the_record record) (fun record =>
     bind (foldM (Open.migrate_collection name collections fuel initialize self)
                 collections record) (fun record =>
     bind (foldM (Open.migrate_removed_collection name collections self)
                 (seq 0 (List.length (r_collections record))) record) (fun _ =>
     ret tt)))).
Proof.
  intros record.
  apply safe_bind; [destruct record; [apply safe_ret | apply safe_throw]|]. intros r.
  apply safe_bind; [apply safe_foldM; intros; apply safe_migrate_collection|]. intros r'.
  apply safe_bind; [apply safe_foldM; intros; apply safe_migrate_removed_collection|].
  intros _. apply safe_ret.
Qed.

End MigrationOperations.

Lemma safe_initializeDocumentStore : forall name collections fuel self,
  migration_safe name self (initializeDocumentStore name collections fuel self).
Proof.
  intros name collections fuel self w Hs. destruct fuel as [|fuel].
  - apply step_refl.
  - rewrite initializeDocumentStore_idle by exact Hs. apply step_refl.
Qed.

(** ** Release of the lock and end of the migration *)

Lemma count_events_le : forall l,
  count_if (is_event migrationDidStart) l + count_if (is_event migrationDidStop) l
  <= count_if is_emit l.
Proof.
  unfold count_if. induction l as [|e l IH]; [reflexivity|].
  destruct e as [op | ev | ms]; simpl; try exact IH.
  destruct ev; simpl; lia.
Qed.

Lemma emitMigrationDidStop_run : forall self w,
  _emitMigrationDidStop self w
  = if flag_of migrationDidStartEventHasBeenEmitted self w
    then (Ok tt, snd (_emitMigrationDidStop self w))
    else (Ok tt, w).
Proof.
  intros self w. unfold _emitMigrationDidStop.
  rewrite (bind_ok _ _ _ _ _ _ _ (read_flag_run _ _ _)).
  destruct (flag_of migrationDidStartEventHasBeenEmitted self w); reflexivity.
Qed.

Lemma emitMigrationDidStop_world : forall name self w,
  let w' := snd (_emitMigrationDidStop self w) in
  descriptor name w' = descriptor name w
  /\ w_log w' = w_log w ++ (if flag_of migrationDidStartEventHasBeenEmitted self w
                            then [EEmit migrationDidStop] else [])
  /\ flag_of hasBeenInitialized self w' = flag_of hasBeenInitialized self w
  /\ flag_of isInitializing self w' = flag_of isInitializing self w.
Proof.
  intros name self w. unfold _emitMigrationDidStop.
  rewrite (bind_ok _ _ _ _ _ _ _ (read_flag_run _ _ _)).
  destruct (flag_of migrationDidStartEventHasBeenEmitted self w); simpl.
  - destruct self; repeat split; reflexivity.
  - rewrite app_nil_r. repeat split; reflexivity.
Qed.

Lemma try_finally_stop : forall (A : Type) (body : M A) self w,
  try_finally body (_emitMigrationDidStop self) w
  = match fst (body w) with
    | Diverge => (Diverge, snd (body w))
    | res => (res, snd (_emitMigrationDidStop self (snd (body w))))
    end.
Proof.
  intros A body self w. unfold try_finally.
  destruct (body w) as [[a | e |] w2]; simpl; try reflexivity;
    rewrite emitMigrationDidStop_run;
    destruct (flag_of migrationDidStartEventHasBeenEmitted self w2); reflexivity.
Qed.

Section MigrationEnd.

Variable name : string.
Variable collections : list Collection.
Variable fuel : nat.
Variable self : ctx.

(** The run of [migrateDocumentStore] from a settled store, when it
    exits: the world it leaves, the events it emitted. *)
Lemma migrate_exit : forall w,
  settled self w ->
  fst (migrateDocumentStore name collections fuel self w) <> Diverge ->
  let w' := snd (migrateDocumentStore name collections fuel self w) in
  ((exists r, descriptor name w = Some r) -> exists r', descriptor name w' = Some r')
  /\ flag_of hasBeenInitialized self w' = flag_of hasBeenInitialized self w
  /\ flag_of isInitializing self w' = flag_of isInitializing self w
  /\ exists l,
       w_log w' = w_log w ++ l
       /\ count_if (is_event migrationDidStart) l <= 1
       /\ (1 <= count_if (is_event migrationDidStart) l ->
           count_if (is_event migrationDidStop) l = 1).
Proof.
  intros w Hs.
  remember (migrateDocumentStore name collections fuel self w) as run eqn:R.
  unfold migrateDocumentStore, Open.migrateDocumentStore in R.
  unfold bind at 1 in R.
  assert (Hl : migration_safe name self (_loadDocumentStoreRecord name None)).
  { unfold _loadDocumentStoreRecord. apply safe_bind; [apply safe_kv_get|].
    intros [[r | v] |]; [apply safe_ret | apply safe_throw | apply safe_ret]. }
  specialize (Hl w Hs).
  destruct (_loadDocumentStoreRecord name None w) as [[record | e |] w1] eqn:L;
    simpl in Hl; subst run.
  - rewrite try_finally_stop.
    pose proof (safe_migrate_body name collections fuel
                  (initializeDocumentStore name collections fuel) self
                  (safe_initializeDocumentStore name collections fuel self)
                  record w1 (step_settled name self w w1 Hl Hs)) as Hb.
    match type of Hb with
    | migration_step _ _ _ (snd (?body w1)) =>
        destruct (body w1) as [res w2] eqn:Hbody
    end.
    simpl in Hb. simpl fst. simpl snd.
    pose proof (step_trans name self w w1 w2 Hl Hb) as [Hd Hi Hj [l [Hlog [He Hf]]]].
    destruct (emitMigrationDidStop_world name self w2) as [S1 [S2 [S3 S4]]].
    pose proof (count_events_le l) as Hle.
    destruct res as [[] | e |]; cbv beta iota zeta; cbn [fst snd]; intros Hn;
      [ | | exfalso; apply Hn; reflexivity ].
    all: split; [intros H; rewrite S1; apply Hd; exact H|].
    all: split; [congruence|]; (split; [congruence|]).
    all: rewrite S2, Hlog, <- app_assoc; eexists; (split; [reflexivity|]).
    all: rewrite !count_if_app.
    all: destruct (flag_of migrationDidStartEventHasBeenEmitted self w2) eqn:F2; simpl;
      destruct Hf as [[A B] | [A [B C]]]; try congruence;
      unfold count_if; simpl; unfold count_if in *; split; lia.
  - intros _. destruct Hl as [Hd Hi Hj [l [Hlog [He Hf]]]].
    pose proof (count_events_le l) as Hle. simpl.
    split; [exact Hd|]. split; [exact Hi|]. split; [exact Hj|].
    exists l. split; [exact Hlog|].
    destruct Hf as [[A B] | [A [B C]]]; split; try lia.
    (* a load that throws has emitted nothing *)
    exfalso.
    unfold _loadDocumentStoreRecord, kv_get, bind, log in L. simpl in L.
    destruct (kv_lookup (w_kv w) [JStr name]) as [[r | v] |]; simpl in L;
      try discriminate L; injection L as _ <-; simpl in Hlog;
      apply app_inv_head in Hlog; subst l; discriminate C.
  - intros Hn. exfalso. apply Hn. reflexivity.
Qed.

End MigrationEnd.

(** [upgradeDocumentStore] keeps a descriptor in the backend and does not
    touch the properties of the store. *)
Lemma upgrade_keeps : forall name w r,
  descriptor name w = Some r ->
  let w' := snd (upgradeDocumentStore name w) in
  (exists r', descriptor name w' = Some r')
  /\ w_root w' = w_root w /\ w_tx w' = w_tx w
  /\ (exists l, w_log w' = w_log w ++ l)
  /\ fst (upgradeDocumentStore name w) <> Diverge.
Proof.
  intros name w r Hd. cbv zeta. rewrite (upgrade_run name w r Hd). cbv zeta.
  destruct (r_version r =? VERSION)%Z.
  { simpl. repeat split; eauto. discriminate. }
  destruct (r_version r >? VERSION)%Z.
  { simpl. repeat split; eauto. discriminate. }
  assert (G : forall (res : outcome StoreRecord) w1,
             descriptor name w1 = Some r ->
             w_root w1 = w_root w -> w_tx w1 = w_tx w ->
             (exists l, w_log w1 = w_log w ++ l) ->
             res <> Diverge ->
             let out := match res with
                        | Ok r' =>
                            if (r_version r <? 3)%Z
                            then (Throw (Error "Cannot upgrade the document store to version 3 automatically"), w1)
                            else bind (_saveDocumentStoreRecord name (set_version VERSION r') None)
                                      (fun _ => emit upgradeDidStop) w1
                        | Throw e => (Throw e, w1)
                        | Diverge => (Diverge, w1)
                        end in
             (exists r', descriptor name (snd out) = Some r')
             /\ w_root (snd out) = w_root w /\ w_tx (snd out) = w_tx w
             /\ (exists l, w_log (snd out) = w_log w ++ l)
             /\ fst out <> Diverge).
  { intros res w1 Hd1 Hr Ht [l Hl] Hn. destruct res as [r' | e |]; cbv zeta.
    - destruct (r_version r <? 3)%Z.
      + simpl. repeat split; eauto. discriminate.
      + rewrite (bind_ok _ _ _ _ _ _ _ (save_descriptor name w1 r _ Hd1)).
        rewrite emit_run. cbn [fst snd].
        split; [eexists; apply descriptor_saved|].
        split; [exact Hr|]. split; [exact Ht|].
        split; [|discriminate].
        simpl. rewrite Hl, <- !app_assoc. eauto.
    - simpl. repeat split; eauto. discriminate.
    - exfalso. apply Hn. reflexivity. }
  destruct (r_version r <? 2)%Z.
  - destruct (upgrade_to_version_2_world r
                (add_log (EEmit upgradeDidStart) (add_log (EKv (KGet [JStr name])) w)))
      as [Hw Hn].
    destruct (upgrade_to_version_2 r _) as [res w1]. simpl in Hw, Hn. subst w1.
    apply G; try reflexivity; try assumption.
    simpl. rewrite <- app_assoc. eauto.
  - apply (G (Ok r)); try reflexivity; try assumption; [|discriminate].
    simpl. rewrite <- app_assoc. eauto.
Qed.

Lemma flag_of_same : forall p self w w',
  w_root w' = w_root w -> w_tx w' = w_tx w -> flag_of p self w' = flag_of p self w.
Proof. intros p self w w' Hr Ht. unfold flag_of. rewrite Hr, Ht. reflexivity. Qed.

(** The steps under the lock, when they exit, leave a descriptor to
    unlock. *)
Lemma locked_steps_exit : forall name collections fuel self w r,
  descriptor name w = Some r ->
  settled self w ->
  fst (locked_steps name collections fuel self w) <> Diverge ->
  let w' := snd (locked_steps name collections fuel self w) in
  (exists r', descriptor name w' = Some r')
  /\ flag_of hasBeenInitialized self w' = flag_of hasBeenInitialized self w
  /\ flag_of isInitializing self w' = flag_of isInitializing self w
  /\ exists l, w_log w' = w_log w ++ l.
Proof.
  intros name collections fuel self w r Hd Hs.
  remember (locked_steps name collections fuel self w) as run eqn:R.
  unfold locked_steps, bind at 1 in R.
  destruct (upgrade_keeps name w r Hd) as [[r1 Hd1] [Hr [Ht [[l1 Hl1] Hn1]]]].
  destruct (upgradeDocumentStore name w) as [[[] | e |] w1]; cbn [fst snd] in *.
  - change (bind verifyDocumentStore
              (fun _ => migrateDocumentStore name collections fuel self) w1)
      with (migrateDocumentStore name collections fuel self w1) in R.
    subst run. intros Hn. cbv zeta.
    assert (Hs1 : settled self w1).
    { destruct Hs as [H | H]; [left | right];
        rewrite (flag_of_same _ self w w1 Hr Ht); exact H. }
    destruct (migrate_exit name collections fuel self w1 Hs1 Hn)
      as [Hd2 [Hi [Hj [l [Hl _]]]]].
    split; [apply Hd2; eauto|].
    rewrite Hi, Hj, !(flag_of_same _ self w w1 Hr Ht).
    repeat split. exists (l1 ++ l). rewrite Hl, Hl1, app_assoc. reflexivity.
  - subst run. intros _. cbv zeta. cbn [snd].
    rewrite !(flag_of_same _ self w w1 Hr Ht). repeat split; eauto.
  - exfalso. apply Hn1. reflexivity.
Qed.

Lemma bind_throw : forall (A B : Type) (m : M A) (f : A -> M B) w e w',
  m w = (Throw e, w') -> bind m f w = (Throw e, w').
Proof. intros A B m f w e w' H. unfold bind. rewrite H. reflexivity. Qed.

Lemma initializeDocumentStore_S : forall name collections fuel self,
  initializeDocumentStore name collections (S fuel) self
  = Open.initializeDocumentStore name collections fuel
      (initializeDocumentStore name collections fuel) self.
Proof. reflexivity. Qed.

(** The run of [initializeDocumentStore] over an existing, unlocked store
    when a step under the lock throws. *)
Lemma initialize_unlocks : forall name collections fuel w r e w3,
  descriptor name w = Some r ->
  is_locked r = false ->
  flag_of hasBeenInitialized Root w = false ->
  flag_of isInitializing Root w = false ->
  locked_steps name collections (S fuel) Root (locked_world name r w) = (Throw e, w3) ->
  exists r' w',
    initializeDocumentStore name collections (S (S fuel)) Root w = (Throw e, w')
    /\ descriptor name w3 = Some r'
    /\ descriptor name w' = Some (set_isLocked false r')
    /\ performed w w'
       = performed w w3
         ++ [EKv (KGet [JStr name]);
             EKv (KPut [JStr name] (VRecord (set_isLocked false r')))]
    /\ flag_of isInitializing Root w' = false
    /\ flag_of hasBeenInitialized Root w' = false.
Proof.
  intros name collections fuel w r e w3 Hd Hl F1 F2 Hsteps.
  assert (Hs : settled Root (locked_world name r w)) by (right; reflexivity).
  assert (Hdl : descriptor name (locked_world name r w) = Some (set_isLocked true r))
    by (apply descriptor_saved).
  assert (Hn : fst (locked_steps name collections (S fuel) Root (locked_world name r w))
               <> Diverge) by (rewrite Hsteps; discriminate).
  destruct (locked_steps_exit name collections (S fuel) Root _ _ Hdl Hs Hn)
    as [[r' Hd3] [Hi [Hj [l Hlog]]]].
  rewrite Hsteps in Hd3, Hi, Hj, Hlog. cbn [snd] in Hd3, Hi, Hj, Hlog.
  exists r'.
  rewrite initializeDocumentStore_S. unfold Open.initializeDocumentStore.
  rewrite (bind_ok _ _ _ _ _ _ _ (read_flag_run _ _ _)), F1.
  rewrite (bind_ok _ _ _ _ _ _ _ (read_flag_run _ _ _)), F2.
  change (insideTransaction Root) with false. cbv iota.
  rewrite (bind_ok _ _ _ _ _ _ _ (write_isInitializing_run _ _ _)).
  set (w0 := set_own Root _ w).
  assert (Hd0 : descriptor name w0 = Some r) by exact Hd.
  unfold try_finally at 1.
  rewrite (bind_ok _ _ _ _ _ _ _ (create_existing name collections w0 r Hd0)).
  set (w1 := add_log (EKv KCommit) _).
  assert (Hd1 : descriptor name w1 = Some r) by exact Hd.
  change (negb false) with true. cbv iota.
  erewrite bind_throw.
  2:{ erewrite bind_ok; [| apply (lock_free name fuel w1 r Hd1 Hl)].
      unfold try_finally.
      change (bind (upgradeDocumentStore name)
                (fun _ => bind verifyDocumentStore
                   (fun _ => Open.migrateDocumentStore name collections (S fuel)
                               (initializeDocumentStore name collections (S fuel)) Root)))
        with (locked_steps name collections (S fuel) Root).
      change (add_log (EKv KCommit)
                (set_kv (kv_insert (w_kv w1) [JStr name] (VRecord (set_isLocked true r)))
                   (add_log (EKv (KPut [JStr name] (VRecord (set_isLocked true r))))
                      (add_log (EKv (KGet [JStr name])) (add_log (EKv KBegin) w1)))))
        with (locked_world name r w).
      rewrite Hsteps. rewrite (unlock_run name w3 r' Hd3). reflexivity. }
  rewrite write_isInitializing_run.
  eexists. split; [reflexivity|].
  split; [exact Hd3|].
  split; [apply descriptor_saved|].
  split.
  - assert (Hw3 : exists l3, w_log w3 = w_log w ++ l3).
    { exists ([EKv KBegin; EKv (KGet [JStr name]); EKv KCommit; EKv KBegin;
               EKv (KGet [JStr name]);
               EKv (KPut [JStr name] (VRecord (set_isLocked true r))); EKv KCommit] ++ l).
      rewrite Hlog. simpl. rewrite <- !app_assoc. reflexivity. }
    destruct Hw3 as [l3 Hw3].
    rewrite (performed_app w w3 l3 Hw3).
    apply performed_app. simpl. rewrite Hw3, <- !app_assoc. reflexivity.
  - split.
    + reflexivity.
    + unfold flag_of in *. simpl in *. rewrite Hi. exact F1.
Qed.

(** C7 as stated fails for a [migrateDocumentStore] that is called on a
    store which is neither initialized nor initializing: the scan of
    [_addIndex] then runs a whole initialization, whose migration ends with
    a [migrationDidStop] of its own, so that the call that adds two indexes
    emits [migrationDidStart] twice and [migrationDidStop] twice. *)
Lemma direct_migration_emits_twice :
  let run := migrateDocumentStore "S" [People_two] 3 Root unindexed_world in
  flag_of hasBeenInitialized Root unindexed_world = false
  /\ flag_of isInitializing Root unindexed_world = false
  /\ fst run = Ok tt
  /\ filter is_emit (performed unindexed_world (snd run))
     = [EEmit migrationDidStart; EEmit migrationDidStop; EEmit didInitialize;
        EEmit migrationDidStart; EEmit migrationDidStop]
  /\ count_if (is_event migrationDidStart) (performed unindexed_world (snd run)) = 2
  /\ count_if (is_event migrationDidStop) (performed unindexed_world (snd run)) = 2.
Proof. vm_compute. repeat split. Qed.

(** C7, as the code has it.  When [initializeDocumentStore] finds the
    store, takes the lock and a step under the lock (upgrade, verify or
    migrate) throws [e], it throws [e] after [unlockDocumentStore] has run:
    the last operations of the call are the read and the write of the
    unlock, and the persisted descriptor has [isLocked = false].  When
    [migrateDocumentStore], called as [initializeDocumentStore] calls it
    (the store being initialized or initializing), exits by a return or by
    an exception, it has emitted [migrationDidStart] at most once, and
    [migrationDidStop] exactly once if it has emitted
    [migrationDidStart]. *)
Theorem unlock_and_stop_on_every_exit :
  forall name collections fuel,
    (forall w r e w3,
       descriptor name w = Some r ->
       is_locked r = false ->
       flag_of hasBeenInitialized Root w = false ->
       flag_of isInitializing Root w = false ->
       locked_steps name collections (S fuel) Root (locked_world name r w)
       = (Throw e, w3) ->
       exists r' w',
         initializeDocumentStore name collections (S (S fuel)) Root w = (Throw e, w')
         /\ descriptor name w' = Some r'
         /\ r_isLocked r' = Some false
         /\ performed w w'
            = performed w w3
              ++ [EKv (KGet [JStr name]); EKv (KPut [JStr name] (VRecord r'))]
         /\ flag_of isInitializing Root w' = false
         /\ flag_of hasBeenInitialized Root w' = false)
    /\ (forall self w,
          settled self w ->
          let run := migrateDocumentStore name collections fuel self w in
          fst run <> Diverge ->
          count_if (is_event migrationDidStart) (performed w (snd run)) <= 1
          /\ (1 <= count_if (is_event migrationDidStart) (performed w (snd run)) ->
              count_if (is_event migrationDidStop) (performed w (snd run)) = 1)).
Proof.
  intros name collections fuel. split.
  - intros w r e w3 Hd Hl F1 F2 Hsteps.
    destruct (initialize_unlocks name collections fuel w r e w3 Hd Hl F1 F2 Hsteps)
      as [r' [w' [H1 [H2 [H3 [H4 [H5 H6]]]]]]].
    exists (set_isLocked false r'), w'. repeat split; assumption.
  - intros self w Hs run Hn. subst run.
    destruct (migrate_exit name collections fuel self w Hs Hn)
      as [_ [_ [_ [l [Hlog [H1 H2]]]]]].
    rewrite (performed_app _ _ l Hlog). split; assumption.
Qed.

Lemma unlock_and_stop_on_every_exit_witness :
  (exists r' w',
     initializeDocumentStore "S" [P_collection; Q_collection] 2 Root tombstone_world
     = (Throw (Error "Adding a collection that has been removed is not implemented yet"), w')
     /\ descriptor "S" w' = Some r'
     /\ r_isLocked r' = Some false)
  /\ count_if (is_event migrationDidStop)
       (performed tombstone_initializing
          (snd (migrateDocumentStore "S" [P_collection; Q_collection] 1 Root
                  tombstone_initializing))) = 1.
Proof.
  pose proof (unlock_and_stop_on_every_exit "S" [P_collection; Q_collection] 0)
    as [Ha _].
  pose proof (unlock_and_stop_on_every_exit "S" [P_collection; Q_collection] 1)
    as [_ Hb].
  split.
  - destruct (Ha tombstone_world
                {| r_name := "S"; r_version := 3; r_isLocked := Some false;
                   r_lastMigrationNumber := None; r_tables := None;
                   r_collections :=
                     [{| cj_name := "Q"; cj_hasBeenRemoved := true;
                         cj_indexes := [] |}] |}
                (Error "Adding a collection that has been removed is not implemented yet")
                (snd (locked_steps "S" [P_collection; Q_collection] 1 Root
                        (locked_world "S"
                           {| r_name := "S"; r_version := 3; r_isLocked := Some false;
                              r_lastMigrationNumber := None; r_tables := None;
                              r_collections :=
                                [{| cj_name := "Q"; cj_hasBeenRemoved := true;
                                    cj_indexes := [] |}] |}
                           tombstone_world))))
      as [r' [w' [H1 [H2 [H3 _]]]]]; try reflexivity.
    exists r', w'. auto.
  - apply (Hb Root tombstone_initializing).
    + right. reflexivity.
    + vm_compute. discriminate.
    + vm_compute. apply le_n.
Defined.

(** ** The layout of the keys *)

Lemma string_length_append : forall s1 s2 : string,
  String.length (s1 ++ s2) = String.length s1 + String.length s2.
Proof.
  induction s1 as [|c s1 IH]; intros s2; simpl; [reflexivity|].
  rewrite IH. reflexivity.
Qed.

Lemma index_collection_name_neq : forall collectionName indexName,
  makeIndexCollectionName collectionName indexName <> collectionName.
Proof.
  intros c i H. apply (f_equal String.length) in H.
  unfold makeIndexCollectionName in H. rewrite !string_length_append in H.
  simpl in H. lia.
Qed.

Lemma index_key_neq_item_key : forall name collection index values k k',
  makeIndexKey name collection index values k <> makeItemKey name collection k'.
Proof.
  intros name collection index values k k' H.
  unfold makeIndexKey, makeItemKey in H. simpl in H.
  injection H as H _. apply index_collection_name_neq in H. exact H.
Qed.

Section PutEffects.

Variable name : string.
Variable collection : Collection.
Variable k : jsval.
Variables oldItem newItem : jsval.

(** What [updateIndex] does to the world, whatever its outcome. *)
Lemma updateIndex_effects : forall index w,
  In index (c_indexes collection) ->
  let w' := snd (updateIndex name collection k oldItem newItem index w) in
  w_root w' = w_root w /\ w_tx w' = w_tx w
  /\ kv_lookup (w_kv w') (makeItemKey name collection k)
     = kv_lookup (w_kv w) (makeItemKey name collection k)
  /\ exists l, w_log w' = w_log w ++ l
               /\ Forall (index_effect name collection k oldItem newItem) l
               /\ filter is_write l = l.
Proof.
  intros index w Hin. cbv zeta. rewrite updateIndex_run. cbv zeta.
  set (oldKey := makeIndexKey name collection index
                   (index_values oldItem (flatten oldItem) index) k).
  set (newKey := makeIndexKey name collection index
                   (index_values newItem (flatten newItem) index) k).
  assert (Eo : index_effect name collection k oldItem newItem (EKv (KDelete oldKey))).
  { exists index. split; [exact Hin | left; reflexivity]. }
  assert (En : index_effect name collection k oldItem newItem
                 (EKv (KPut newKey (VItem (snd (index_projections (flatten oldItem)
                                                  (flatten newItem) index)))))).
  { exists index. split; [exact Hin | right; reflexivity]. }
  assert (No : oldKey <> makeItemKey name collection k)
    by apply index_key_neq_item_key.
  assert (Nn : newKey <> makeItemKey name collection k)
    by apply index_key_neq_item_key.
  destruct (negb (isEqual _ _) && negb (includes_undefined _));
    destruct ((negb (isEqual _ _) || negb (isEqual _ _)) && negb (includes_undefined _));
    destruct (kv_lookup (w_kv w) oldKey); simpl;
    repeat split;
    rewrite ?kv_lookup_insert_other, ?kv_lookup_remove_other by assumption;
    try reflexivity.
  all: first
    [ exists [EKv (KDelete oldKey);
              EKv (KPut newKey (VItem (snd (index_projections (flatten oldItem)
                                              (flatten newItem) index))))];
      split; [simpl; rewrite <- app_assoc; reflexivity|];
      split; [repeat constructor; assumption | reflexivity]
    | exists [EKv (KDelete oldKey)];
      split; [reflexivity|]; split; [repeat constructor; assumption | reflexivity]
    | exists [EKv (KPut newKey (VItem (snd (index_projections (flatten oldItem)
                                              (flatten newItem) index))))];
      split; [reflexivity|]; split; [repeat constructor; assumption | reflexivity]
    | exists []; split; [rewrite app_nil_r; reflexivity|];
      split; [constructor | reflexivity] ].
Qed.

Lemma updateIndexes_effects : forall w,
  let w' := snd (updateIndexes name collection k oldItem newItem w) in
  w_root w' = w_root w /\ w_tx w' = w_tx w
  /\ kv_lookup (w_kv w') (makeItemKey name collection k)
     = kv_lookup (w_kv w) (makeItemKey name collection k)
  /\ exists l, w_log w' = w_log w ++ l
               /\ Forall (index_effect name collection k oldItem newItem) l
               /\ filter is_write l = l.
Proof.
  unfold updateIndexes, forM.
  assert (G : forall indexes, incl indexes (c_indexes collection) -> forall w u,
    let w' := snd (foldM (fun _ index =>
                            updateIndex name collection k oldItem newItem index)
                         indexes u w) in
    w_root w' = w_root w /\ w_tx w' = w_tx w
    /\ kv_lookup (w_kv w') (makeItemKey name collection k)
       = kv_lookup (w_kv w) (makeItemKey name collection k)
    /\ exists l, w_log w' = w_log w ++ l
                 /\ Forall (index_effect name collection k oldItem newItem) l
                 /\ filter is_write l = l).
  { induction indexes as [|x xs IH]; intros Hincl w u; cbv zeta.
    - simpl. repeat split. exists []. rewrite app_nil_r. repeat split. constructor.
    - simpl. unfold bind.
      destruct (updateIndex_effects x w (Hincl x (or_introl eq_refl)))
        as [R1 [T1 [K1 [l1 [L1 [F1 W1]]]]]].
      destruct (updateIndex name collection k oldItem newItem x w) as [[[] | e |] w1];
        simpl in *.
      + destruct (IH (fun y Hy => Hincl y (or_intror Hy)) w1 tt)
          as [R2 [T2 [K2 [l2 [L2 [F2 W2]]]]]].
        split; [congruence|]. split; [congruence|]. split; [congruence|].
        exists (l1 ++ l2). rewrite L2, L1, app_assoc. split; [reflexivity|].
        split; [apply Forall_app; split; assumption|].
        rewrite filter_app, W1, W2. reflexivity.
      + repeat split; try assumption. exists l1. auto.
      + repeat split; try assumption. exists l1. auto. }
  intros w. apply G. apply incl_refl.
Qed.

End PutEffects.

Lemma pure_inv_ok : forall (A : Type) (m : M A) w a w',
  pure_M m -> m w = (Ok a, w') -> w' = w.
Proof.
  intros A m w a w' Hp H. destruct (Hp w) as [Hs _]. rewrite H in Hs.
  simpl in Hs. exact Hs.
Qed.

Lemma pure_normalizeItem : forall item, pure_M (normalizeItem item).
Proof.
  intros item w. unfold normalizeItem.
  destruct (negb (truthy item && (typeof item =? "object")));
    split; try reflexivity; discriminate.
Qed.

Lemma normalizeKey_ok : forall k w k' w',
  normalizeKey k w = (Ok k', w') -> k' = k /\ w' = w.
Proof.
  intros k w k' w'. unfold normalizeKey.
  destruct (negb (typeof k =? "number") && negb (typeof k =? "string"));
    [discriminate|].
  destruct (negb (truthy k)); [discriminate|].
  intros H. injection H as <- <-. split; reflexivity.
Qed.

Lemma normalizeItem_ok : forall item w item' w',
  normalizeItem item w = (Ok item', w') -> item' = item /\ w' = w.
Proof.
  intros item w item' w'. unfold normalizeItem.
  destruct (negb (truthy item && (typeof item =? "object"))); [discriminate|].
  intros H. injection H as <- <-. split; reflexivity.
Qed.

Lemma kv_transaction_inv_ok : forall (A : Type) (body : M A) w a w',
  kv_transaction body w = (Ok a, w') ->
  exists w1, body (add_log (EKv KBegin) w) = (Ok a, w1)
             /\ w' = add_log (EKv KCommit) w1.
Proof.
  intros A body w a w' H. unfold kv_transaction in H.
  destruct (body (add_log (EKv KBegin) w)) as [[x | e |] w1]; try discriminate H.
  injection H as -> <-. eauto.
Qed.

Lemma kv_get_soft : forall k w,
  kv_get k (Some false) w = (Ok (kv_lookup (w_kv w) k), add_log (EKv (KGet k)) w).
Proof.
  intros k w. unfold kv_get, bind, log. simpl.
  destruct (kv_lookup (w_kv w) k); reflexivity.
Qed.

Lemma kv_put_inv_ok : forall k v e c w w',
  kv_put k v e c w = (Ok tt, w') ->
  w' = set_kv (kv_insert (w_kv w) k v) (add_log (EKv (KPut k v)) w).
Proof.
  intros k v e c w w'. unfold kv_put, bind, log. simpl.
  destruct (kv_lookup (w_kv w) k);
    [destruct (default false e) | destruct (default false e || default true c)];
    intros H; try discriminate H; injection H as <-; reflexivity.
Qed.

(** The callback that [put] passes to [transaction], run to its end. *)
Lemma put_callback : forall name collection k item options w w',
  (bind (kv_get (makeItemKey name collection k) (Some false)) (fun oldItem =>
   bind (kv_put (makeItemKey name collection k) (VItem item)
                (o_errorIfExists options) (o_createIfMissing options)) (fun _ =>
   bind (updateIndexes name collection k (value_js oldItem) item) (fun _ =>
   emit (didPutItem (c_name collection) k item))))) w = (Ok tt, w') ->
  kv_lookup (w_kv w') (makeItemKey name collection k) = Some (VItem item)
  /\ exists l,
       w_log w' = w_log w
                  ++ [EKv (KGet (makeItemKey name collection k));
                      EKv (KPut (makeItemKey name collection k) (VItem item))]
                  ++ l ++ [EEmit (didPutItem (c_name collection) k item)]
       /\ Forall (index_effect name collection k
                    (value_js (kv_lookup (w_kv w) (makeItemKey name collection k)))
                    item) l
       /\ filter is_write l = l.
Proof.
  intros name collection k item options w w' H.
  rewrite (bind_ok _ _ _ _ _ _ _ (kv_get_soft _ _)) in H.
  apply bind_inv_ok in H. destruct H as [[] [w1 [Hp H]]].
  apply kv_put_inv_ok in Hp.
  apply bind_inv_ok in H. destruct H as [[] [w2 [Hu H]]].
  rewrite emit_run in H. injection H as <-.
  destruct (updateIndexes_effects name collection k
              (value_js (kv_lookup (w_kv w) (makeItemKey name collection k))) item w1)
    as [_ [_ [K [l [L [F W]]]]]].
  rewrite Hu in K, L. simpl in K, L. split.
  - simpl. rewrite K, Hp. simpl. apply kv_lookup_insert_same.
  - exists l. split; [|split; assumption].
    simpl. rewrite L, Hp. simpl. rewrite <- !app_assoc. reflexivity.
Qed.

(** On an initialized store, a [put] that returns has written the item at
    its key, where it is found afterwards, and every other write or
    deletion it has made is that of an entry of a declared index of the
    collection, at the key of the value tuple and of [k]. *)
Lemma put_writes : forall name collections fuel self target k item options w w',
  flag_of hasBeenInitialized self w = true ->
  put name collections (S fuel) self target k item options w = (Ok tt, w') ->
  exists collection,
    normalizeCollection collections target w = (Ok collection, w)
    /\ kv_lookup (w_kv w') [JStr name; JStr (c_name collection); k]
       = Some (VItem item)
    /\ exists l,
         filter is_write (performed w w')
         = EKv (KPut [JStr name; JStr (c_name collection); k] (VItem item)) :: l
         /\ Forall (index_effect name collection k
                      (value_js (kv_lookup (w_kv w)
                                   [JStr name; JStr (c_name collection); k]))
                      item) l.
Proof.
  intros name collections fuel self target k item options w w' Hf H.
  unfold put, Open.put in H.
  apply bind_inv_ok in H. destruct H as [collection [w1 [Hc H]]].
  pose proof (pure_inv_ok _ _ _ _ _ (pure_normalizeCollection _ _) Hc) as ->.
  apply bind_inv_ok in H. destruct H as [k' [w1 [Hk H]]].
  apply normalizeKey_ok in Hk. destruct Hk as [-> ->].
  apply bind_inv_ok in H. destruct H as [item' [w1 [Hi H]]].
  apply normalizeItem_ok in Hi. destruct Hi as [-> ->].
  apply bind_inv_ok in H. destruct H as [o [w1 [Ho H]]].
  pose proof (pure_inv_ok _ _ _ _ _ (pure_normalizeOptions _) Ho) as ->.
  rewrite (bind_ok _ _ _ _ _ _ _
             (initializeDocumentStore_idle name collections fuel self w (or_introl Hf)))
    in H.
  exists collection. split; [exact Hc|].
  change [JStr name; JStr (c_name collection); k] with (makeItemKey name collection k).
  unfold Open.transaction in H. destruct self.
  - change (insideTransaction Root) with false in H. cbv iota in H.
    rewrite (bind_ok _ _ _ _ _ _ _
               (initializeDocumentStore_idle name collections fuel Root w (or_introl Hf)))
      in H.
    apply kv_transaction_inv_ok in H. destruct H as [w2 [H ->]].
    apply put_callback in H. destruct H as [K [l [L [F W]]]].
    split; [exact K|]. exists l. split; [|exact F].
    erewrite performed_app.
    2:{ simpl. rewrite L. simpl. rewrite <- !app_assoc. reflexivity. }
    simpl. rewrite !filter_app, W. simpl. rewrite ?app_nil_r. reflexivity.
  - change (insideTransaction Tx) with true in H. cbv iota in H.
    apply put_callback in H. destruct H as [K [l [L [F W]]]].
    split; [exact K|]. exists l. split; [|exact F].
    erewrite performed_app by exact L.
    simpl. rewrite !filter_app, W. simpl. rewrite ?app_nil_r. reflexivity.
Qed.

(** ** The projection fast path *)


Lemma difference_incl : forall xs ys,
  incl xs ys -> difference xs ys = [].
Proof.
  intros xs ys H. unfold difference.
  induction xs as [|x xs IH]; [reflexivity|]. simpl.
  assert (E : existsb (String.eqb x) ys = true).
  { apply existsb_exists. exists x. split; [apply H; left; reflexivity|].
    apply String.eqb_refl. }
  rewrite E. simpl. apply IH. intros y Hy. apply H. right. exact Hy.
Qed.

Lemma normalizeKey_valid : forall k w,
  valid_key k = true -> normalizeKey k w = (Ok k, w).
Proof.
  intros k w H. unfold valid_key in H. apply andb_true_iff in H.
  destruct H as [H1 H2]. unfold normalizeKey.
  rewrite <- negb_orb, H1, H2. reflexivity.
Qed.

Lemma js_last_item_key : forall name collection k,
  js_last (makeItemKey name collection k) = k.
Proof. reflexivity. Qed.

Lemma normalizeOptions_missing : forall o w,
  o_properties o = PropsMissing ->
  normalizeOptions (Some o) w = (Ok (set_properties PropsStar o), w).
Proof. intros o w H. unfold normalizeOptions. rewrite H. reflexivity. Qed.

Lemma kv_find_run : forall o w,
  kv_find o w
  = (Ok (map (to_kv_item (fo_returnValues o)) (kv_select (limited o) (w_kv w))),
     add_log (EKv (KFind o)) w).
Proof. reflexivity. Qed.

Lemma kv_getMany_run : forall ks e rv w,
  kv_getMany ks e rv w
  = bind (mapM (fun k w => match kv_lookup (w_kv w) k with
                           | Some v => (Ok [to_kv_item rv (k, v)], w)
                           | None => if default true e
                                     then (Throw (Error "Some items not found"), w)
                                     else (Ok [], w)
                           end) ks)
         (fun found => ret (List.concat found))
         (add_log (EKv (KGetMany ks)) w).
Proof. reflexivity. Qed.

Section FastPath.

Variable name : string.
Variable collection : Collection.
Variable projection : list string.

(** The full fetch of consistent entries. *)
Lemma getMany_consistent : forall s entries w,
  w_kv w = s ->
  Forall (entry_consistent name collection projection s) entries ->
  mapM normalizeKey (map (fun e : key * kvalue => js_last (fst e)) entries) w
  = (Ok (map (fun e : key * kvalue => js_last (fst e)) entries), w)
  /\ exists items,
       mapM (fun k w => match kv_lookup (w_kv w) k with
                        | Some v => (Ok [to_kv_item true (k, v)], w)
                        | None => if default true (Some false)
                                  then (Throw (Error "Some items not found"), w)
                                  else (Ok [], w)
                        end)
            (map (fun k => makeItemKey name collection k)
                 (map (fun e : key * kvalue => js_last (fst e)) entries)) w
       = (Ok items, w)
       /\ restrict_to projection (map (to_Item true) (List.concat items))
          = map (to_Item true) (map (to_kv_item true) entries).
Proof.
  intros s entries w Hs H. subst s. induction H as [|e entries He Hes IH].
  - split; [reflexivity|]. exists []. split; reflexivity.
  - destruct IH as [IH1 [items [IH2 IH3]]].
    destruct He as [item [Hv [Hk Hp]]]. split.
    + simpl. unfold bind. rewrite (normalizeKey_valid _ _ Hv), IH1. reflexivity.
    + exists ([to_kv_item true (makeItemKey name collection (js_last (fst e)),
                               VItem item)] :: items).
      split.
      * cbn [map mapM]. unfold bind. rewrite Hk, IH2. reflexivity.
      * simpl. rewrite IH3. f_equal.
        unfold to_Item, to_kv_item, ki_value_js, it_value_js. simpl.
        rewrite Hp. reflexivity.
Qed.


Variable collections : list Collection.
Variable fuel : nat.
Variable self : ctx.
Variable index : Index.
Variable options : Options.
Variable w : world.

Hypothesis store_initialized : flag_of hasBeenInitialized self w = true.
Hypothesis index_chosen :
  findIndexForQueryAndOrder collection (o_query options) (o_order options) w
  = (Ok index, w).
Hypothesis index_projection : i_projection index = Some projection.

(** The fast path: one scan, the values of the entries. *)
Lemma fast_path_run : forall p ps,
  o_properties options = PropsArray (p :: ps) ->
  incl (p :: ps) projection ->
  let prefix := makeIndexKeyForQuery name collection index (o_query options) in
  _findWithIndex name collections (S fuel) self collection options w
  = (Ok (map (to_Item true)
           (map (to_kv_item true) (kv_select (limited (scan_of options prefix true)) (w_kv w)))),
     add_log (EKv (KFind (scan_of options prefix true))) w).
Proof.
  intros p ps Hp Hincl. unfold _findWithIndex, Open._findWithIndex.
  rewrite (bind_ok _ _ _ _ _ _ _ index_chosen).
  rewrite Hp, index_projection. rewrite (difference_incl _ _ Hincl).
  cbn [negb andb List.length Nat.eqb]. cbv iota zeta.
  rewrite (bind_ok _ _ _ _ _ _ _
             (initializeDocumentStore_idle name collections fuel self w
                (or_introl store_initialized))).
  reflexivity.
Qed.

(** The full fetch over consistent entries: the same keys, the items
    themselves, of which the entries hold the projections. *)
Lemma full_fetch_run :
  let prefix := makeIndexKeyForQuery name collection index (o_query options) in
  Forall (entry_consistent name collection projection (w_kv w))
         (kv_select (limited (scan_of options prefix true)) (w_kv w)) ->
  exists full w',
    _findWithIndex name collections (S fuel) self collection
      (set_properties PropsStar options) w = (Ok full, w')
    /\ restrict_to projection full
       = map (to_Item true)
           (map (to_kv_item true) (kv_select (limited (scan_of options prefix true)) (w_kv w))).
Proof.
  intros prefix Hcons. unfold _findWithIndex, Open._findWithIndex.
  change (o_query (set_properties PropsStar options)) with (o_query options).
  change (o_order (set_properties PropsStar options)) with (o_order options).
  rewrite (bind_ok _ _ _ _ _ _ _ index_chosen).
  change (o_properties (set_properties PropsStar options)) with PropsStar.
  cbn [negb andb List.length Nat.eqb]. cbv iota zeta.
  rewrite (bind_ok _ _ _ _ _ _ _
             (initializeDocumentStore_idle name collections fuel self w
                (or_introl store_initialized))).
  rewrite (bind_ok _ _ _ _ _ _ _ (kv_find_run _ _)).
  fold prefix.
  change (kv_select (limited (scan_of (set_properties PropsStar options) prefix false))
            (w_kv w))
    with (kv_select (limited (scan_of options prefix true)) (w_kv w)).
  remember (kv_select (limited (scan_of options prefix true)) (w_kv w)) as entries eqn:E.
  clear E.
  set (wf := add_log _ w).
  cbn [fo_returnValues scan_of].
  replace (map it_key (map (to_Item false) (map (to_kv_item false) entries)))
    with (map (fun e : key * kvalue => js_last (fst e)) entries)
    by (rewrite !map_map; reflexivity).
  unfold Open.getMany.
  rewrite (bind_ok _ _ _ _ _ collection wf eq_refl).
  destruct (getMany_consistent (w_kv wf) entries wf eq_refl Hcons)
    as [H1 [items [H2 H3]]].
  destruct (getMany_consistent (w_kv wf) entries
              (add_log (EKv (KGetMany
                 (map (fun k => makeItemKey name collection k)
                    (map (fun e : key * kvalue => js_last (fst e)) entries)))) wf)
              eq_refl Hcons)
    as [_ [items' [H2' H3']]].
  destruct (map (fun e : key * kvalue => js_last (fst e)) entries) as [|k0 ks] eqn:K.
  - exists [], wf. simpl in H2. injection H2 as <-. split; [reflexivity | exact H3].
  - rewrite <- K in *. clear K.
    rewrite (bind_ok _ _ _ _ _ _ _ H1).
    erewrite bind_ok; [| apply normalizeOptions_missing; reflexivity].
    cbn [o_properties set_properties wants_values o_errorIfMissing].
    rewrite (bind_ok _ _ _ _ _ _ _
               (initializeDocumentStore_idle name collections fuel self wf
                  (or_introl store_initialized))).
    erewrite bind_ok.
    2:{ rewrite kv_getMany_run. erewrite bind_ok; [reflexivity|]. apply H2'. }
    eexists. eexists. split; [reflexivity | exact H3'].
Qed.

End FastPath.

Lemma find_with_query : forall name collections fuel self target collection options w,
  normalizeCollection collections target w = (Ok collection, w) ->
  normalizeOptions (Some options) w = (Ok options, w) ->
  isEmpty_query (o_query options) = false \/ isEmpty_order (o_order options) = false ->
  find name collections fuel self target (Some options) w
  = _findWithIndex name collections fuel self collection options w.
Proof.
  intros name collections fuel self target collection options w Hc Ho Hq.
  unfold find, Open.find.
  rewrite (bind_ok _ _ _ _ _ _ _ Hc), (bind_ok _ _ _ _ _ _ _ Ho).
  destruct Hq as [Hq | Hq]; rewrite Hq; simpl; [reflexivity|].
  rewrite orb_true_r. reflexivity.
Qed.

(** ** Idempotence of the migration *)

(** *** Loops with an invariant *)

(** The invariant of a loop names the elements behind and ahead. *)
Lemma foldM_invariant : forall (A S : Type) (f : S -> A -> M S)
    (I : list A -> list A -> S -> world -> Prop) xs done s w s' w',
  (forall done x todo s w s' w',
     I done (x :: todo) s w -> f s x w = (Ok s', w') -> I (done ++ [x]) todo s' w') ->
  I done xs s w ->
  foldM f xs s w = (Ok s', w') ->
  I (done ++ xs) [] s' w'.
Proof.
  intros A S f I xs. induction xs as [|x xs IH]; intros done s w s' w' Hstep Hi Hrun.
  - injection Hrun as <- <-. rewrite app_nil_r. exact Hi.
  - simpl in Hrun. apply bind_inv_ok in Hrun. destruct Hrun as [s1 [w1 [H1 H2]]].
    replace (done ++ x :: xs) with ((done ++ [x]) ++ xs)
      by (rewrite <- app_assoc; reflexivity).
    apply (IH (done ++ [x]) s1 w1 s' w' Hstep); [|exact H2].
    apply (Hstep done x xs s w); assumption.
Qed.

Lemma names_apart : forall (done todo : list Collection) c c',
  NoDup (map c_name (done ++ c :: todo)) -> In c' done -> c_name c' <> c_name c.
Proof.
  intros done todo c c' Hnd Hin E. rewrite map_app in Hnd. simpl in Hnd.
  apply NoDup_remove_2 in Hnd. apply Hnd. apply in_or_app. left.
  rewrite <- E. apply in_map. exact Hin.
Qed.

Lemma load_inv_ok : forall name w ro w1,
  _loadDocumentStoreRecord name None w = (Ok ro, w1) ->
  exists r, ro = Some r /\ descriptor name w = Some r
            /\ w1 = add_log (EKv (KGet [JStr name])) w.
Proof.
  intros name w ro w1 H.
  unfold _loadDocumentStoreRecord, kv_get, bind, log in H. simpl in H.
  unfold descriptor.
  destruct (kv_lookup (w_kv w) [JStr name]) as [[r | v] |]; simpl in H;
    try discriminate H.
  injection H as <- <-. exists r. repeat split.
Qed.

(** Saving the descriptor leaves it in the backend, whatever was there. *)
Lemma save_inv_ok : forall name r w w',
  _saveDocumentStoreRecord name r None w = (Ok tt, w') -> descriptor name w' = Some r.
Proof.
  intros name r w w' H.
  unfold _saveDocumentStoreRecord, kv_put, bind, log in H. simpl in H.
  destruct (kv_lookup (w_kv w) [JStr name]); simpl in H; injection H as <-;
    apply descriptor_saved.
Qed.

(** *** The descriptor through a migration *)


Lemma others_kept_refl : forall n record, others_kept n record record.
Proof. intros n record m _ i x H. exact H. Qed.

Lemma others_kept_trans : forall n r1 r2 r3,
  others_kept n r1 r2 -> others_kept n r2 r3 -> others_kept n r1 r3.
Proof. intros n r1 r2 r3 H1 H2 m Hm i x H. apply (H2 m Hm). apply (H1 m Hm). exact H. Qed.

Lemma at_place_indexes : forall n i record xs,
  at_place n i record xs -> indexes_at i record = xs.
Proof.
  intros n i record xs [ec [F [_ Hx]]]. apply find_with_index_nth in F.
  destruct F as [N _]. unfold indexes_at. rewrite N. exact Hx.
Qed.

(** An update of the indexes of the collection at its place. *)
Lemma at_place_update : forall n i record xs g ys,
  at_place n i record xs ->
  (forall c, cj_name (g c) = cj_name c) ->
  (forall c, cj_hasBeenRemoved (g c) = cj_hasBeenRemoved c) ->
  (forall c, cj_indexes c = xs -> cj_indexes (g c) = ys) ->
  at_place n i (set_collections (update_at i g (r_collections record)) record) ys
  /\ others_kept n record
       (set_collections (update_at i g (r_collections record)) record).
Proof.
  intros n i record xs g ys [ec [F [Hr Hx]]] Hn Hb Hi. split.
  - exists (g ec). split; [|split].
    + apply find_with_index_update_same; assumption.
    + rewrite Hb. exact Hr.
    + apply Hi. exact Hx.
  - intros m Hm j x H. simpl. apply find_with_index_update_other; try assumption.
    intros y Hy. apply find_with_index_nth in F. destruct F as [N P].
    rewrite N in Hy. injection Hy as <-. apply String.eqb_eq in P. congruence.
Qed.

Section MigrationIdempotence.

Variable name : string.
Variable collections : list Collection.
Variable fuel : nat.
Variable initialize : ctx -> M unit.
Variable self : ctx.

(** [start; work; save(record'); return record'] leaves [record'] in the
    backend. *)
Lemma work_save : forall (A B : Type) (start : M A) (work : M B) r' w s w',
  (start ;; work ;; _saveDocumentStoreRecord name r' None ;; ret r') w = (Ok s, w') ->
  s = r' /\ descriptor name w' = Some r'.
Proof.
  intros A B start work r' w s w' Hrun.
  apply bind_inv_ok in Hrun. destruct Hrun as [a [w1 [_ Hrun]]].
  apply bind_inv_ok in Hrun. destruct Hrun as [b [w2 [_ Hrun]]].
  apply bind_inv_ok in Hrun. destruct Hrun as [[] [w3 [H3 Hrun]]].
  injection Hrun as <- <-. split; [reflexivity|].
  apply (save_inv_ok name r' w2). exact H3.
Qed.

(** **** Added indexes *)

Lemma migrate_added_index_step : forall c i record index w record' w' xs,
  descriptor name w = Some record ->
  at_place (c_name c) i record xs ->
  Open.migrate_added_index name collections fuel initialize self c i record index w
  = (Ok record', w') ->
  descriptor name w' = Some record'
  /\ others_kept (c_name c) record record'
  /\ exists xs', at_place (c_name c) i record' xs'
                 /\ index_persisted xs' index = true
                 /\ (forall y, index_persisted xs y = true ->
                               index_persisted xs' y = true).
Proof.
  intros c i record index w record' w' xs Hh Hat Hrun.
  unfold Open.migrate_added_index in Hrun.
  rewrite (at_place_indexes _ _ _ _ Hat) in Hrun.
  destruct (List.find _ xs) as [e|] eqn:F.
  - injection Hrun as <- <-. split; [exact Hh|]. split; [apply others_kept_refl|].
    exists xs. split; [exact Hat|]. split; [|auto].
    apply find_some in F. apply existsb_exists. exists e. exact F.
  - apply work_save in Hrun.
    destruct Hrun as [-> Hh'].
    destruct (at_place_update (c_name c) i record xs
                (fun c0 => set_indexes (cj_indexes c0 ++ [index_toJSON index]) c0)
                (xs ++ [index_toJSON index]) Hat) as [Hat' Hk];
      try reflexivity.
    { intros c0 <-. reflexivity. }
    split; [exact Hh'|]. split; [exact Hk|].
    exists (xs ++ [index_toJSON index]). split; [exact Hat'|].
    unfold index_persisted. split.
    + rewrite existsb_app. simpl. rewrite keys_eqb_refl. apply orb_true_r.
    + intros y Hy. rewrite existsb_app, Hy. reflexivity.
Qed.

Lemma migrate_added_indexes : forall c i indexes record w record' w' xs,
  descriptor name w = Some record ->
  at_place (c_name c) i record xs ->
  foldM (Open.migrate_added_index name collections fuel initialize self c i)
        indexes record w = (Ok record', w') ->
  descriptor name w' = Some record'
  /\ others_kept (c_name c) record record'
  /\ exists xs', at_place (c_name c) i record' xs'
                 /\ forall x, In x indexes -> index_persisted xs' x = true.
Proof.
  intros c i indexes record w record' w' xs Hh Hat Hrun.
  apply (foldM_invariant _ _ _
           (fun done _ r v =>
              descriptor name v = Some r
              /\ others_kept (c_name c) record r
              /\ exists xs', at_place (c_name c) i r xs'
                             /\ forall x, In x done -> index_persisted xs' x = true)
           indexes []) in Hrun.
  - exact Hrun.
  - clear Hh Hat Hrun xs w w'. intros done x todo s w s' w' [Hh [Hk [xs [Hat Hp]]]] Hrun.
    destruct (migrate_added_index_step c i s x w s' w' xs Hh Hat Hrun)
      as [Hh' [Hk' [xs' [Hat' [Hx Hmono]]]]].
    split; [exact Hh'|]. split; [apply (others_kept_trans _ _ s); assumption|].
    exists xs'. split; [exact Hat'|].
    intros y Hy. apply in_app_or in Hy. destruct Hy as [Hy | [<- | []]].
    + apply Hmono. apply Hp. exact Hy.
    + exact Hx.
  - split; [exact Hh|]. split; [apply others_kept_refl|].
    exists xs. split; [exact Hat|]. intros x [].
Qed.

(** **** Removed indexes *)

Lemma migrate_removed_index_step : forall c i record k todo w record' w' xs,
  descriptor name w = Some record ->
  at_place (c_name c) i record xs ->
  (forall x, In x (c_indexes c) -> index_persisted xs x = true) ->
  pending c (k :: todo) xs ->
  Open.migrate_removed_index name self c i record k w = (Ok record', w') ->
  descriptor name w' = Some record'
  /\ others_kept (c_name c) record record'
  /\ exists xs', at_place (c_name c) i record' xs'
                 /\ (forall x, In x (c_indexes c) -> index_persisted xs' x = true)
                 /\ pending c todo xs'.
Proof.
  intros c i record k todo w record' w' xs Hh Hat Hp Hpend Hrun.
  unfold Open.migrate_removed_index in Hrun.
  fold (index_declared c k) in Hrun.
  destruct (index_declared c k) eqn:Hk; simpl in Hrun.
  - injection Hrun as <- <-. split; [exact Hh|]. split; [apply others_kept_refl|].
    exists xs. split; [exact Hat|]. split; [exact Hp|].
    intros k' Hk'. rewrite (Hpend k' Hk'). simpl.
    destruct (keys_dec k k') as [-> | _]; [congruence | reflexivity].
  - rewrite (at_place_indexes _ _ _ _ Hat) in Hrun.
    destruct (findIndex (fun index => keys_eqb (ij_keys index) k) xs) as [j|] eqn:F.
    2:{ apply bind_inv_ok in Hrun. destruct Hrun as [[] [w1 [_ Hrun]]].
        apply bind_inv_ok in Hrun. destruct Hrun as [[] [w2 [_ Hrun]]].
        discriminate Hrun. }
    apply work_save in Hrun.
    destruct Hrun as [-> Hh'].
    destruct (findIndex_nth _ _ _ _ F) as [e [N E]]. apply keys_eqb_eq in E.
    destruct (at_place_update (c_name c) i record xs
                (fun c0 => set_indexes (remove_at j (cj_indexes c0)) c0)
                (remove_at j xs) Hat) as [Hat' Hkept];
      try reflexivity.
    { intros c0 <-. reflexivity. }
    split; [exact Hh'|]. split; [exact Hkept|].
    exists (remove_at j xs). split; [exact Hat'|]. split.
    + intros x Hx. unfold index_persisted.
      rewrite (existsb_remove_at _ _ xs j e N); [apply Hp; exact Hx|].
      destruct (keys_eqb (ij_keys e) (i_keys x)) eqn:E'; [|reflexivity].
      apply keys_eqb_eq in E'. exfalso.
      assert (D : index_declared c k = true).
      { apply existsb_exists. exists x. split; [exact Hx|].
        apply keys_eqb_eq. congruence. }
      congruence.
    + intros k' Hk'. rewrite map_remove_at.
      rewrite (count_occ_remove_at _ j (ij_keys e) k')
        by (rewrite nth_error_map, N; reflexivity).
      rewrite (Hpend k' Hk'). simpl. rewrite E.
      destruct (keys_dec k k'); reflexivity.
Qed.

Lemma migrate_removed_indexes : forall c i todo record w record' w' xs,
  descriptor name w = Some record ->
  at_place (c_name c) i record xs ->
  (forall x, In x (c_indexes c) -> index_persisted xs x = true) ->
  pending c todo xs ->
  foldM (Open.migrate_removed_index name self c i) todo record w = (Ok record', w') ->
  descriptor name w' = Some record'
  /\ others_kept (c_name c) record record'
  /\ exists xs', at_place (c_name c) i record' xs'
                 /\ (forall x, In x (c_indexes c) -> index_persisted xs' x = true)
                 /\ pending c [] xs'.
Proof.
  intros c i todo record w record' w' xs Hh Hat Hp Hpend Hrun.
  apply (foldM_invariant _ _ _
           (fun _ todo r v =>
              descriptor name v = Some r
              /\ others_kept (c_name c) record r
              /\ exists xs', at_place (c_name c) i r xs'
                             /\ (forall x, In x (c_indexes c) ->
                                           index_persisted xs' x = true)
                             /\ pending c todo xs')
           todo []) in Hrun.
  - exact Hrun.
  - clear Hh Hat Hp Hpend Hrun xs w w'.
    intros done k todo' s w s' w' [Hh [Hk [xs [Hat [Hp Hpend]]]]] Hrun.
    destruct (migrate_removed_index_step c i s k todo' w s' w' xs Hh Hat Hp Hpend Hrun)
      as [Hh' [Hk' [xs' [Hat' [Hp' Hpend']]]]].
    split; [exact Hh'|]. split; [apply (others_kept_trans _ _ s); assumption|].
    exists xs'. auto.
  - split; [exact Hh|]. split; [apply others_kept_refl|].
    exists xs. auto.
Qed.

Lemma pending_done : forall c xs e,
  pending c [] xs -> In e xs -> index_declared c (ij_keys e) = true.
Proof.
  intros c xs e Hpend He. destruct (index_declared c (ij_keys e)) eqn:D; [reflexivity|].
  specialize (Hpend _ D). simpl in Hpend.
  assert (Hpos : count_occ keys_dec (map ij_keys xs) (ij_keys e) > 0).
  { apply count_occ_In. apply in_map. exact He. }
  lia.
Qed.

(** **** Collections *)

Lemma migrate_collection_step : forall c record w record' w',
  descriptor name w = Some record ->
  Open.migrate_collection name collections fuel initialize self record c w
  = (Ok record', w') ->
  descriptor name w' = Some record'
  /\ others_kept (c_name c) record record'
  /\ collection_settled record' c.
Proof.
  intros c record w record' w' Hh Hrun. unfold Open.migrate_collection in Hrun.
  destruct (find_with_index _ (r_collections record)) as [[i ec]|] eqn:F.
  - destruct (cj_hasBeenRemoved ec) eqn:R; [discriminate Hrun|].
    apply bind_inv_ok in Hrun. destruct Hrun as [r1 [w1 [H1 H2]]].
    assert (Hat : at_place (c_name c) i record (cj_indexes ec)).
    { exists ec. auto. }
    destruct (migrate_added_indexes c i _ record w r1 w1 _ Hh Hat H1)
      as [Hh1 [Hk1 [xs1 [Hat1 Hp1]]]].
    rewrite (at_place_indexes _ _ _ _ Hat1) in H2.
    destruct (migrate_removed_indexes c i _ r1 w1 record' w' xs1 Hh1 Hat1 Hp1
                (fun k _ => eq_refl) H2)
      as [Hh2 [Hk2 [xs2 [[ec2 [F2 [R2 X2]]] [Hp2 Hpend2]]]]].
    split; [exact Hh2|]. split; [apply (others_kept_trans _ _ r1); assumption|].
    exists i, ec2. split; [exact F2|]. split; [exact R2|]. rewrite X2. split.
    + exact Hp2.
    + intros e He. apply (pending_done c xs2); assumption.
  - apply (work_save unit unit _ (ret tt)) in Hrun.
    destruct Hrun as [-> Hh']. split; [exact Hh'|]. split.
    + intros m _ i x H. simpl. apply find_with_index_app_found. exact H.
    + exists (List.length (r_collections record)), (collection_toJSON c). split.
      * simpl. rewrite (find_with_index_app_last _ _ _ _ F). simpl.
        rewrite String.eqb_refl. reflexivity.
      * apply collection_toJSON_matches.
Qed.

Hypothesis names_distinct : NoDup (map c_name collections).

Lemma migrate_collections : forall record w record' w',
  descriptor name w = Some record ->
  foldM (Open.migrate_collection name collections fuel initialize self)
        collections record w = (Ok record', w') ->
  descriptor name w' = Some record'
  /\ forall c, In c collections -> collection_settled record' c.
Proof.
  intros record w record' w' Hh Hrun.
  apply (foldM_invariant _ _ _
           (fun done todo r v =>
              NoDup (map c_name (done ++ todo))
              /\ descriptor name v = Some r
              /\ forall c, In c done -> collection_settled r c)
           collections []) in Hrun.
  - destruct Hrun as [_ Hrun]. exact Hrun.
  - clear Hh Hrun record w record' w'.
    intros done c todo s w s' w' [Hnd [Hh Hs]] Hrun.
    destruct (migrate_collection_step c s w s' w' Hh Hrun) as [Hh' [Hk Hc]].
    split; [rewrite <- app_assoc; exact Hnd|]. split; [exact Hh'|].
    intros c' Hc'. apply in_app_or in Hc'. destruct Hc' as [Hc' | [<- | []]];
      [|exact Hc].
    destruct (Hs c' Hc') as [i [ec [F M]]]. exists i, ec. split; [|exact M].
    apply (Hk (c_name c')); [|exact F].
    apply (names_apart done todo); assumption.
  - split; [exact names_distinct|]. split; [exact Hh|]. intros c [].
Qed.

(** **** Removed collections *)

Lemma migrate_removed_collection_step : forall record j w record' w',
  descriptor name w = Some record ->
  (forall c, In c collections -> collection_settled record c) ->
  Open.migrate_removed_collection name collections self record j w = (Ok record', w') ->
  descriptor name w' = Some record'
  /\ (forall c, In c collections -> collection_settled record' c)
  /\ List.length (r_collections record') = List.length (r_collections record)
  /\ (forall j' ec', nth_error (r_collections record') j' = Some ec' ->
                     cj_hasBeenRemoved ec' = false ->
                     nth_error (r_collections record) j' = Some ec' /\ j' <> j
                     \/ exists c, In c collections /\ c_name c = cj_name ec').
Proof.
  intros record j w record' w' Hh Hs Hrun.
  unfold Open.migrate_removed_collection in Hrun.
  assert (Same : record' = record -> w' = w ->
                 (forall ec, nth_error (r_collections record) j = Some ec ->
                             cj_hasBeenRemoved ec = false ->
                             exists c, In c collections /\ c_name c = cj_name ec) ->
                 descriptor name w' = Some record'
                 /\ (forall c, In c collections -> collection_settled record' c)
                 /\ List.length (r_collections record')
                    = List.length (r_collections record)
                 /\ (forall j' ec', nth_error (r_collections record') j' = Some ec' ->
                        cj_hasBeenRemoved ec' = false ->
                        nth_error (r_collections record) j' = Some ec' /\ j' <> j
                        \/ exists c, In c collections /\ c_name c = cj_name ec')).
  { intros -> -> H. split; [exact Hh|]. split; [exact Hs|]. split; [reflexivity|].
    intros j' ec' N R. destruct (Nat.eq_dec j' j) as [-> | Hne].
    - right. apply H; assumption.
    - left. split; assumption. }
  destruct (nth_error (r_collections record) j) as [ec|] eqn:N.
  2:{ injection Hrun as <- <-. apply Same; try reflexivity. intros ec E. discriminate E. }
  destruct (cj_hasBeenRemoved ec) eqn:R.
  { injection Hrun as <- <-. apply Same; try reflexivity.
    intros ec0 E R0. injection E as <-. congruence. }
  destruct (List.find _ collections) as [c0|] eqn:F.
  { injection Hrun as <- <-. apply Same; try reflexivity.
    intros ec0 E _. injection E as <-. apply find_some in F. destruct F as [Hin E].
    exists c0. split; [exact Hin | apply String.eqb_eq; exact E]. }
  clear Same.
  apply work_save in Hrun.
  destruct Hrun as [-> Hh']. split; [exact Hh'|]. split; [|split].
  - intros c Hc. destruct (Hs c Hc) as [i [x [Fx M]]]. exists i, x.
    split; [|exact M]. simpl. apply find_with_index_update_other; try assumption.
    + reflexivity.
    + intros y Hy. rewrite N in Hy. injection Hy as <-. intros E.
      pose proof (find_none _ _ F c Hc) as G. simpl in G.
      rewrite E, String.eqb_refl in G. discriminate G.
  - simpl. apply length_update_at.
  - intros j' ec' N' R'. simpl in N'. rewrite nth_error_update_at in N'.
    destruct (Nat.eqb_spec j j') as [<- | Hne].
    + rewrite N in N'. simpl in N'. injection N' as <-. discriminate R'.
    + left. split; [exact N' | congruence].
Qed.

Lemma migrate_removed_collections : forall record w record' w',
  descriptor name w = Some record ->
  (forall c, In c collections -> collection_settled record c) ->
  foldM (Open.migrate_removed_collection name collections self)
        (seq 0 (List.length (r_collections record))) record w = (Ok record', w') ->
  descriptor name w' = Some record' /\ matches_declarations collections record'.
Proof.
  intros record w record' w' Hh Hs Hrun.
  apply (foldM_invariant _ _ _
           (fun done _ r v =>
              descriptor name v = Some r
              /\ (forall c, In c collections -> collection_settled r c)
              /\ List.length (r_collections r) = List.length (r_collections record)
              /\ forall j ec, In j done ->
                   nth_error (r_collections r) j = Some ec ->
                   cj_hasBeenRemoved ec = false ->
                   exists c, In c collections /\ c_name c = cj_name ec)
           _ []) in Hrun.
  - destruct Hrun as [Hh' [Hs' [Hl Hd]]]. split; [exact Hh'|]. split; [exact Hs'|].
    intros ec Hin R. apply In_nth_error in Hin. destruct Hin as [j N].
    apply (Hd j ec); try assumption.
    apply in_seq. split; [lia|]. simpl. rewrite <- Hl.
    apply nth_error_Some. congruence.
  - clear Hh Hs Hrun w record' w'.
    intros done j todo s w s' w' [Hh [Hs [Hl Hd]]] Hrun.
    destruct (migrate_removed_collection_step s j w s' w' Hh Hs Hrun)
      as [Hh' [Hs' [Hl' Hd']]].
    split; [exact Hh'|]. split; [exact Hs'|]. split; [congruence|].
    intros j' ec' Hin N R. destruct (Hd' j' ec' N R) as [[N0 Hne] | H]; [|exact H].
    apply in_app_or in Hin. destruct Hin as [Hin | [E | []]].
    + apply (Hd j' ec'); assumption.
    + congruence.
  - split; [exact Hh|]. split; [exact Hs|]. split; [reflexivity|]. intros j ec [].
Qed.

(** **** The whole migration *)

(** A migration that returns leaves a descriptor that agrees with the
    declarations. *)
Lemma migrate_settles : forall w w',
  Open.migrateDocumentStore name collections fuel initialize self w = (Ok tt, w') ->
  exists record, descriptor name w' = Some record
                 /\ matches_declarations collections record.
Proof.
  intros w w' Hrun. unfold Open.migrateDocumentStore in Hrun.
  apply bind_inv_ok in Hrun. destruct Hrun as [ro [w0 [Hload Hrun]]].
  apply load_inv_ok in Hload. destruct Hload as [r [-> [Hd ->]]].
  apply try_finally_inv_ok in Hrun. destruct Hrun as [w3 [Hbody Hstop]].
  apply bind_inv_ok in Hbody. destruct Hbody as [r0 [w0 [H0 Hbody]]].
  injection H0 as <- <-.
  apply bind_inv_ok in Hbody. destruct Hbody as [r1 [w1 [H1 Hbody]]].
  apply bind_inv_ok in Hbody. destruct Hbody as [r2 [w2 [H2 Hbody]]].
  injection Hbody as <-.
  destruct (migrate_collections r (add_log (EKv (KGet [JStr name])) w) r1 w1 Hd H1)
    as [Hd1 Hs1].
  destruct (migrate_removed_collections r1 w1 r2 w2 Hd1 Hs1 H2) as [Hd2 Hm].
  exists r2. split; [|exact Hm].
  pose proof (emitMigrationDidStop_world name self w2) as [E _].
  rewrite Hstop in E. simpl in E. rewrite E. exact Hd2.
Qed.

End MigrationIdempotence.

Lemma emitMigrationDidStop_backend : forall self w,
  w_kv (snd (_emitMigrationDidStop self w)) = w_kv w.
Proof.
  intros self w. unfold _emitMigrationDidStop.
  rewrite (bind_ok _ _ _ _ _ _ _ (read_flag_run _ _ _)).
  destruct (flag_of migrationDidStartEventHasBeenEmitted self w); [|reflexivity].
  destruct self; reflexivity.
Qed.

(** A migration that follows one that returned, for the same declarations,
    reads the descriptor and does nothing else to the backend. *)
Lemma migrate_twice : forall name collections fuel fuel' self w w1,
  NoDup (map c_name collections) ->
  migrateDocumentStore name collections fuel self w = (Ok tt, w1) ->
  exists w2,
    migrateDocumentStore name collections fuel' self w1 = (Ok tt, w2)
    /\ count_if is_write (performed w1 w2) = 0
    /\ filter is_kv (performed w1 w2) = [EKv (KGet [JStr name])]
    /\ w_kv w2 = w_kv w1.
Proof.
  intros name collections fuel fuel' self w w1 Hnd Hrun. unfold migrateDocumentStore in *.
  destruct (migrate_settles name collections fuel _ self Hnd w w1 Hrun)
    as [record [Hd Hm]].
  rewrite (migrate_settled name collections fuel' _ self record Hm w1 Hd).
  eexists. split; [reflexivity|].
  set (w0 := add_log (EKv (KGet [JStr name])) w1).
  destruct (emitMigrationDidStop_world name self w0) as [_ [Hl _]].
  split; [|split].
  - rewrite (performed_app w1 _ (EKv (KGet [JStr name])
                                   :: (if flag_of migrationDidStartEventHasBeenEmitted
                                            self w0
                                       then [EEmit migrationDidStop] else []))).
    + destruct (flag_of migrationDidStartEventHasBeenEmitted self w0); reflexivity.
    + rewrite Hl. unfold w0. simpl. rewrite <- app_assoc. reflexivity.
  - rewrite (performed_app w1 _ (EKv (KGet [JStr name])
                                   :: (if flag_of migrationDidStartEventHasBeenEmitted
                                            self w0
                                       then [EEmit migrationDidStop] else []))).
    + destruct (flag_of migrationDidStartEventHasBeenEmitted self w0); reflexivity.
    + rewrite Hl. unfold w0. simpl. rewrite <- app_assoc. reflexivity.
  - rewrite emitMigrationDidStop_backend. reflexivity.
Qed.

(** C5, as the code has it.  In one process, an initialization that follows
    one that returned does nothing at all.  A second process that opens a
    store whose descriptor is at the current version, unlocked and in
    agreement with the declarations writes the descriptor twice, once to
    take the lock and once to release it: it leaves every other key of the
    backend as it was and the descriptor with [isLocked = false], which
    changes the descriptor of a newly created store, and leaves the backend
    as it was once the descriptor holds [isLocked = false]; it emits
    [didInitialize] and no other event.  A migration that follows one that
    returned, for the same declarations, returns, reads the descriptor and
    writes nothing. *)
Theorem initialization_idempotence :
  forall name collections fuel w,
    (forall self w1,
       initializeDocumentStore name collections (S fuel) self w = (Ok tt, w1) ->
       initializeDocumentStore name collections (S fuel) self w1 = (Ok tt, w1))
    /\ (forall r,
          descriptor name w = Some r ->
          r_version r = VERSION ->
          is_locked r = false ->
          matches_declarations collections r ->
          w_root w = no_flags ->
          exists w',
            initializeDocumentStore name collections (S (S fuel)) Root w = (Ok tt, w')
            /\ performed w w' = reopen_log name r
            /\ filter is_write (performed w w')
               = [EKv (KPut [JStr name] (VRecord (set_isLocked true r)));
                  EKv (KPut [JStr name] (VRecord (set_isLocked false r)))]
            /\ filter is_emit (performed w w') = [EEmit didInitialize]
            /\ descriptor name w' = Some (set_isLocked false r)
            /\ (forall k, k <> [JStr name] ->
                          kv_lookup (w_kv w') k = kv_lookup (w_kv w) k)
            /\ (r_isLocked r = Some false -> w_kv w' = w_kv w))
    /\ (NoDup (map c_name collections) ->
        descriptor name w = Some (created_record name collections) ->
        w_root w = no_flags ->
        exists w',
          initializeDocumentStore name collections (S (S fuel)) Root w = (Ok tt, w')
          /\ count_if is_write (performed w w') = 2
          /\ descriptor name w'
             = Some (set_isLocked false (created_record name collections)))
    /\ (forall self fuel' w1,
          NoDup (map c_name collections) ->
          migrateDocumentStore name collections fuel self w = (Ok tt, w1) ->
          exists w2,
            migrateDocumentStore name collections fuel' self w1 = (Ok tt, w2)
            /\ count_if is_write (performed w1 w2) = 0
            /\ filter is_kv (performed w1 w2) = [EKv (KGet [JStr name])]
            /\ w_kv w2 = w_kv w1).
Proof.
  intros name collections fuel w. split; [|split; [|split]].
  - intros self w1. apply initialize_twice.
  - intros r Hd Hv Hl Hm Hroot.
    destruct (reopen_run name collections fuel w r Hd Hv Hl Hm Hroot)
      as [w' [H1 [H2 H3]]].
    assert (Hd' : descriptor name w' = Some (set_isLocked false r)).
    { unfold descriptor. rewrite H3, kv_lookup_insert_same. reflexivity. }
    exists w'. rewrite H2, H3.
    split; [exact H1|]. split; [reflexivity|]. split; [reflexivity|].
    split; [reflexivity|]. split; [exact Hd'|]. split.
    + intros k Hk. apply kv_lookup_insert_other. intros E. apply Hk. symmetry. exact E.
    + intros Hf. apply kv_insert_same_value.
      rewrite (descriptor_lookup _ _ _ Hd). f_equal. f_equal.
      destruct r as [n v l m t c]. simpl in Hf. subst l. reflexivity.
  - intros Hnd Hd Hroot.
    destruct (reopen_run name collections fuel w (created_record name collections)
                Hd eq_refl eq_refl
                (declared_matches collections (created_record name collections) Hnd
                   eq_refl) Hroot)
      as [w' [H1 [H2 H3]]].
    exists w'. rewrite H2.
    split; [exact H1|]. split; [reflexivity|].
    unfold descriptor. rewrite H3, kv_lookup_insert_same. reflexivity.
  - intros self fuel' w1 Hnd Hrun.
    apply (migrate_twice name collections fuel fuel' self w w1 Hnd Hrun).
Qed.

Lemma initialization_idempotence_witness :
  (exists w',
     initializeDocumentStore "S" [People] 2 Root created_world = (Ok tt, w')
     /\ count_if is_write (performed created_world w') = 2
     /\ descriptor "S" w' = Some (set_isLocked false (created_record "S" [People])))
  /\ (let w1 := snd (migrateDocumentStore "S" [P_collection] 2 Root created_world) in
      count_if is_write (performed created_world w1) = 3
      /\ exists w2,
           migrateDocumentStore "S" [P_collection] 2 Root w1 = (Ok tt, w2)
           /\ count_if is_write (performed w1 w2) = 0).
Proof.
  split.
  - pose proof (initialization_idempotence "S" [People] 0 created_world)
      as [_ [_ [H1 _]]].
    apply H1.
    + repeat constructor. simpl. intuition.
    + reflexivity.
    + reflexivity.
  - split; [vm_compute; reflexivity|].
    pose proof (initialization_idempotence "S" [P_collection] 2 created_world)
      as [_ [_ [_ H2]]].
    destruct (H2 Root 2 (snd (migrateDocumentStore "S" [P_collection] 2 Root
                                created_world)))
      as [w2 [Hr [Hc _]]].
    + repeat constructor. simpl. intuition.
    + vm_compute. reflexivity.
    + exists w2. auto.
Defined.

(** * Further properties of the class *)

(** ** The constructor *)

(** X1.  A store that the constructor returns has the name of its options,
    which is not empty, as is the URL, and holds the declared collections
    in their order; the names of the collections are pairwise distinct,
    since [addCollection] refuses a name that is taken. *)
Theorem new_DocumentStore_collections : forall options store,
  new_DocumentStore options = inr store ->
  so_name options = Some (s_name store)
  /\ s_name store <> ""
  /\ (exists url, so_url options = Some url /\ url <> "")
  /\ s_collections store
     = match so_collections options with Some cs => cs | None => [] end
  /\ NoDup (map c_name (s_collections store)).
Proof.
  intros options store H. unfold new_DocumentStore in H.
  destruct (so_name options) as [n|] eqn:N; simpl in H; [|discriminate H].
  destruct n as [|c n]; simpl in H; [discriminate H|].
  destruct (so_url options) as [u|] eqn:U; simpl in H; [|discriminate H].
  destruct u as [|d u]; simpl in H; [discriminate H|].
  destruct (add_collections _ _ []) as [e | collections] eqn:A; [discriminate H|].
  injection H as <-. simpl.
  apply constructed_names_distinct in A. destruct A as [Hnd ->].
  split; [reflexivity|]. split; [discriminate|]. split.
  - exists (String d u). split; [reflexivity | discriminate].
  - split; [reflexivity | exact Hnd].
Qed.

Lemma new_DocumentStore_collections_witness :
  NoDup (map c_name [People; P_collection]).
Proof.
  apply (new_DocumentStore_collections
           {| so_name := Some "S"; so_url := Some "mysql://localhost/s";
              so_collections := Some [People; P_collection] |}
           {| s_name := "S"; s_collections := [People; P_collection] |}
           eq_refl).
Defined.

(** ** Collections that are not declared *)

(** X2.  Every operation that takes a collection by name throws a
    [TypeError] for a name that is not declared, before it reaches the
    backend or changes any state: the template of the error that
    [getCollection] means to throw reads [collection.name] of the
    collection that it did not find. *)
Theorem undeclared_collection_TypeError :
  forall name collections fuel self n k ks item options fn w,
    List.find (fun collection => c_name collection =? n) collections = None ->
    let e := TypeError "Cannot read property 'name' of undefined" in
    get name collections fuel self (ByName n) k options w = (Throw e, w)
    /\ put name collections fuel self (ByName n) k item options w = (Throw e, w)
    /\ delete name collections fuel self (ByName n) k options w = (Throw e, w)
    /\ getMany name collections fuel self (ByName n) ks options w = (Throw e, w)
    /\ find name collections fuel self (ByName n) options w = (Throw e, w)
    /\ count name collections fuel self (ByName n) options w = (Throw e, w)
    /\ forEach name collections fuel self (ByName n) options fn w = (Throw e, w)
    /\ findAndDelete name collections fuel self (ByName n) options w = (Throw e, w).
Proof.
  intros name collections fuel self n k ks item options fn w H e.
  assert (G : normalizeCollection collections (ByName n) w = (Throw e, w)).
  { unfold normalizeCollection, getCollection, bind. rewrite H. reflexivity. }
  unfold get, put, delete, getMany, find, count, forEach, findAndDelete,
    Open.get, Open.put, Open.delete, Open.getMany, Open.find, Open.count, Open.forEach.
  repeat split; unfold bind at 1; rewrite G; reflexivity.
Qed.

Lemma undeclared_collection_TypeError_witness :
  find "S" [People] 2 Root (ByName "Pets") None empty_world
  = (Throw (TypeError "Cannot read property 'name' of undefined"), empty_world).
Proof.
  apply (undeclared_collection_TypeError "S" [People] 2 Root "Pets" JNull [] JNull None
           (fun _ _ => ret tt) empty_world eq_refl).
Defined.

(** ** The first opening of a store *)

Lemma initialize_creates : forall name collections fuel w,
  kv_lookup (w_kv w) [JStr name] = None ->
  flag_of hasBeenInitialized Root w = false ->
  flag_of isInitializing Root w = false ->
  exists w',
    initializeDocumentStore name collections (S fuel) Root w = (Ok tt, w')
    /\ performed w w'
       = [EKv KBegin; EKv (KGet [JStr name]);
          EKv (KPut [JStr name] (VRecord (created_record name collections)));
          EEmit didCreate; EKv KCommit; EEmit didInitialize]
    /\ w_kv w' = kv_insert (w_kv w) [JStr name]
                   (VRecord (created_record name collections))
    /\ flag_of hasBeenInitialized Root w' = true
    /\ flag_of isInitializing Root w' = false.
Proof.
  intros name collections fuel w Hk F1 F2.
  simpl initializeDocumentStore. unfold Open.initializeDocumentStore.
  rewrite (bind_ok _ _ _ _ _ _ _ (read_flag_run _ _ _)), F1.
  rewrite (bind_ok _ _ _ _ _ _ _ (read_flag_run _ _ _)), F2.
  change (insideTransaction Root) with false. cbv iota.
  rewrite (bind_ok _ _ _ _ _ _ _ (write_isInitializing_run _ _ _)).
  unfold try_finally, createDocumentStoreIfDoesNotExist, kv_transaction,
    _loadDocumentStoreRecord, _saveDocumentStoreRecord, kv_get, kv_put, bind, log, emit.
  simpl. rewrite Hk. simpl. rewrite Hk. simpl.
  eexists. split; [reflexivity|]. split; [|repeat split].
  apply performed_app. simpl. rewrite <- !app_assoc. reflexivity.
Qed.

(** X3.  On a backend that holds nothing at the key of the store, the
    first [initializeDocumentStore] of a process creates the descriptor of
    the declarations, at version 3 and unlocked, in one transaction with one
    read and one write; it takes no lock, emits [didCreate] and then
    [didInitialize], and leaves the store initialized. *)
Theorem first_initialization_creates : forall name collections fuel w,
  kv_lookup (w_kv w) [JStr name] = None ->
  flag_of hasBeenInitialized Root w = false ->
  flag_of isInitializing Root w = false ->
  exists w',
    initializeDocumentStore name collections (S fuel) Root w = (Ok tt, w')
    /\ performed w w'
       = [EKv KBegin; EKv (KGet [JStr name]);
          EKv (KPut [JStr name] (VRecord (created_record name collections)));
          EEmit didCreate; EKv KCommit; EEmit didInitialize]
    /\ w_kv w' = kv_insert (w_kv w) [JStr name]
                   (VRecord (created_record name collections))
    /\ flag_of hasBeenInitialized Root w' = true
    /\ flag_of isInitializing Root w' = false.
Proof. exact initialize_creates. Qed.

Lemma first_initialization_creates_witness :
  exists w',
    initializeDocumentStore "S" [People] 1 Root empty_world = (Ok tt, w')
    /\ w_kv w' = [([JStr "S"], VRecord (created_record "S" [People]))].
Proof.
  destruct (first_initialization_creates "S" [People] 0 empty_world
              eq_refl eq_refl eq_refl) as [w' [H [_ [K _]]]].
  exists w'. split; [exact H | exact K].
Defined.

(** ** A store that is locked *)

Lemma try_lock_held : forall name w r,
  descriptor name w = Some r ->
  r_isLocked r = Some true ->
  try_lock name w
  = (Ok false,
     add_log (EKv KCommit) (add_log (EKv (KGet [JStr name])) (add_log (EKv KBegin) w))).
Proof.
  intros name w r H Hl. unfold try_lock, kv_transaction.
  rewrite (bind_ok _ _ _ _ _ _ _
             (load_descriptor name (add_log (EKv KBegin) w) r None H)).
  unfold the_record. rewrite (bind_ok _ _ _ _ _ r _ eq_refl).
  unfold is_locked. rewrite Hl. reflexivity.
Qed.

Lemma lock_held : forall name r fuel w,
  descriptor name w = Some r ->
  r_isLocked r = Some true ->
  exists w',
    lockDocumentStore name fuel w = (Diverge, w')
    /\ w_kv w' = w_kv w
    /\ w_root w' = w_root w
    /\ w_tx w' = w_tx w
    /\ w_log w'
       = w_log w ++ List.concat (repeat [EKv KBegin; EKv (KGet [JStr name]); EKv KCommit;
                                         ESleep 5000] fuel).
Proof.
  intros name r fuel. induction fuel as [|fuel IH]; intros w Hd Hl.
  - exists w. repeat split. simpl. rewrite app_nil_r. reflexivity.
  - simpl lockDocumentStore.
    rewrite (bind_ok _ _ _ _ _ _ _ (try_lock_held name w r Hd Hl)). cbv iota.
    rewrite (bind_ok _ _ (sleep 5000) _ _ tt _ eq_refl).
    set (w1 := add_log (ESleep 5000) _).
    destruct (IH w1 Hd Hl) as [w' [H1 [H2 [H3 [H4 H5]]]]].
    exists w'. split; [exact H1|]. split; [exact H2|]. split; [exact H3|].
    split; [exact H4|]. rewrite H5. simpl. rewrite <- !app_assoc. reflexivity.
Qed.

Lemma initialize_locked : forall name collections r fuel w,
  descriptor name w = Some r ->
  r_isLocked r = Some true ->
  flag_of hasBeenInitialized Root w = false ->
  flag_of isInitializing Root w = false ->
  exists w',
    initializeDocumentStore name collections (S fuel) Root w = (Diverge, w')
    /\ w_kv w' = w_kv w
    /\ w_log w'
       = w_log w ++ [EKv KBegin; EKv (KGet [JStr name]); EKv KCommit]
           ++ List.concat (repeat [EKv KBegin; EKv (KGet [JStr name]); EKv KCommit;
                                   ESleep 5000] fuel).
Proof.
  intros name collections r fuel w Hd Hl F1 F2.
  rewrite initializeDocumentStore_S. unfold Open.initializeDocumentStore.
  rewrite (bind_ok _ _ _ _ _ _ _ (read_flag_run _ _ _)), F1.
  rewrite (bind_ok _ _ _ _ _ _ _ (read_flag_run _ _ _)), F2.
  change (insideTransaction Root) with false. cbv iota.
  rewrite (bind_ok _ _ _ _ _ _ _ (write_isInitializing_run _ _ _)).
  set (w0 := set_own Root _ w).
  assert (Hd0 : descriptor name w0 = Some r) by exact Hd.
  unfold try_finally at 1.
  rewrite (bind_ok _ _ _ _ _ _ _ (create_existing name collections w0 r Hd0)).
  set (w1 := add_log (EKv KCommit) _).
  assert (Hd1 : descriptor name w1 = Some r) by exact Hd.
  change (negb false) with true. cbv iota.
  destruct (lock_held name r fuel w1 Hd1 Hl) as [w' [H1 [H2 [_ [_ H5]]]]].
  unfold bind at 1. unfold bind at 1. rewrite H1.
  exists w'. split; [reflexivity|]. split; [exact H2|].
  rewrite H5. simpl. rewrite <- !app_assoc. reflexivity.
Qed.

Lemma count_if_rounds : forall name n,
  count_if is_write
    (List.concat (repeat [EKv KBegin; EKv (KGet [JStr name]); EKv KCommit; ESleep 5000] n))
  = 0.
Proof. intros name n. induction n as [|n IH]; [reflexivity | exact IH]. Qed.

(** X4.  While the descriptor is locked, [lockDocumentStore] does not
    return: every round reads the descriptor in a transaction of its own,
    writes nothing and sleeps five seconds.  The initialization of a second
    process therefore does not return either, and leaves the backend as it
    was. *)
Theorem locked_store_is_never_opened : forall name collections r fuel w,
  descriptor name w = Some r ->
  r_isLocked r = Some true ->
  flag_of hasBeenInitialized Root w = false ->
  flag_of isInitializing Root w = false ->
  (exists w',
     lockDocumentStore name fuel w = (Diverge, w')
     /\ w_kv w' = w_kv w
     /\ performed w w'
        = List.concat (repeat [EKv KBegin; EKv (KGet [JStr name]); EKv KCommit;
                               ESleep 5000] fuel))
  /\ (exists w',
       initializeDocumentStore name collections fuel Root w = (Diverge, w')
       /\ w_kv w' = w_kv w
       /\ count_if is_write (performed w w') = 0).
Proof.
  intros name collections r fuel w Hd Hl F1 F2. split.
  - destruct (lock_held name r fuel w Hd Hl) as [w' [H1 [H2 [_ [_ H5]]]]].
    exists w'. split; [exact H1|]. split; [exact H2|].
    apply performed_app. exact H5.
  - destruct fuel as [|fuel].
    + exists w. split; [reflexivity|]. split; [reflexivity|].
      rewrite performed_refl. reflexivity.
    + destruct (initialize_locked name collections r fuel w Hd Hl F1 F2)
        as [w' [H1 [H2 H3]]].
      exists w'. split; [exact H1|]. split; [exact H2|].
      rewrite (performed_app _ _ _ H3). rewrite count_if_app.
      rewrite count_if_rounds. reflexivity.
Qed.

(** The descriptor of a store that a process holds locked. *)
Lemma locked_store_is_never_opened_witness :
  let w := new_process (locked_world "S" (created_record "S" [People]) created_world) in
  exists w',
    initializeDocumentStore "S" [People] 3 Root w = (Diverge, w')
    /\ w_kv w' = w_kv w.
Proof.
  intros w.
  destruct (locked_store_is_never_opened "S" [People]
              (set_isLocked true (created_record "S" [People])) 3 w)
    as [_ [w' [H1 [H2 _]]]]; try reflexivity.
  exists w'. split; [exact H1 | exact H2].
Defined.

(** ** Exceptions through a sequence *)

Lemma bind_inv_throw : forall (A B : Type) (m : M A) (f : A -> M B) w e w',
  bind m f w = (Throw e, w') ->
  m w = (Throw e, w') \/ exists a w1, m w = (Ok a, w1) /\ f a w1 = (Throw e, w').
Proof.
  intros A B m f w e w' H. unfold bind in H.
  destruct (m w) as [[a | e0 |] w1]; [right; eauto | | discriminate H].
  injection H as -> ->. left. reflexivity.
Qed.

Lemma pure_inv_throw : forall (A : Type) (m : M A) w e w',
  pure_M m -> m w = (Throw e, w') -> w' = w.
Proof.
  intros A m w e w' Hp H. destruct (Hp w) as [Hs _]. rewrite H in Hs. exact Hs.
Qed.

(** ** Items written, read and deleted *)

Lemma normalizeCollection_anywhere : forall collections target w c w1 w2,
  normalizeCollection collections target w = (Ok c, w1) ->
  normalizeCollection collections target w2 = (Ok c, w2).
Proof.
  intros collections [n | c0] w c w1 w2; unfold normalizeCollection, getCollection, bind;
    simpl.
  - destruct (List.find (fun collection => c_name collection =? n) collections);
      intros H; try discriminate H. injection H as <- _. reflexivity.
  - intros H. injection H as <- _. reflexivity.
Qed.

Lemma normalizeKey_anywhere : forall k w k' w1 w2,
  normalizeKey k w = (Ok k', w1) -> normalizeKey k w2 = (Ok k, w2).
Proof.
  intros k w k' w1 w2. unfold normalizeKey.
  destruct (negb (typeof k =? "number") && negb (typeof k =? "string"));
    [discriminate|].
  destruct (negb (truthy k)); [discriminate | reflexivity].
Qed.

Lemma normalizeOptions_accepts : forall options w,
  (forall o, options = Some o -> o_properties o <> PropsOther) ->
  exists o', normalizeOptions options w = (Ok o', w)
             /\ o_errorIfMissing o'
                = o_errorIfMissing match options with Some o => o | None => empty_options end.
Proof.
  intros options w H. unfold normalizeOptions.
  destruct options as [o|].
  - specialize (H o eq_refl).
    destruct (o_properties o); try (eexists; split; reflexivity). contradiction H.
    reflexivity.
  - eexists. split; reflexivity.
Qed.

(** The flags and the item through the index entries of an item. *)
Lemma updateIndexes_inv_ok : forall name collection k oldItem newItem w w',
  updateIndexes name collection k oldItem newItem w = (Ok tt, w') ->
  w_root w' = w_root w /\ w_tx w' = w_tx w
  /\ kv_lookup (w_kv w') (makeItemKey name collection k)
     = kv_lookup (w_kv w) (makeItemKey name collection k).
Proof.
  intros name collection k oldItem newItem w w' H.
  destruct (updateIndexes_effects name collection k oldItem newItem w)
    as [Hr [Ht [K _]]].
  rewrite H in Hr, Ht, K. auto.
Qed.

(** The callback of [put], run to its end. *)
Lemma put_callback_flags : forall name collection k item options w w',
  (bind (kv_get (makeItemKey name collection k) (Some false)) (fun oldItem =>
   bind (kv_put (makeItemKey name collection k) (VItem item)
                (o_errorIfExists options) (o_createIfMissing options)) (fun _ =>
   bind (updateIndexes name collection k (value_js oldItem) item) (fun _ =>
   emit (didPutItem (c_name collection) k item))))) w = (Ok tt, w') ->
  w_root w' = w_root w /\ w_tx w' = w_tx w.
Proof.
  intros name collection k item options w w' H.
  rewrite (bind_ok _ _ _ _ _ _ _ (kv_get_soft _ _)) in H.
  apply bind_inv_ok in H. destruct H as [[] [w1 [Hp H]]].
  apply kv_put_inv_ok in Hp.
  apply bind_inv_ok in H. destruct H as [[] [w2 [Hu H]]].
  rewrite emit_run in H. injection H as <-.
  apply updateIndexes_inv_ok in Hu. destruct Hu as [Hr [Ht _]].
  simpl. rewrite Hr, Ht, Hp. split; reflexivity.
Qed.

(** A [put] that returns, on an initialized store. *)
Lemma put_inv_ok : forall name collections fuel self target k item options w w',
  flag_of hasBeenInitialized self w = true ->
  put name collections (S fuel) self target k item options w = (Ok tt, w') ->
  exists collection,
    normalizeCollection collections target w = (Ok collection, w)
    /\ normalizeKey k w = (Ok k, w)
    /\ kv_lookup (w_kv w') (makeItemKey name collection k) = Some (VItem item)
    /\ flag_of hasBeenInitialized self w' = true.
Proof.
  intros name collections fuel self target k item options w w' Hf H.
  unfold put, Open.put in H.
  apply bind_inv_ok in H. destruct H as [collection [w1 [Hc H]]].
  pose proof (pure_inv_ok _ _ _ _ _ (pure_normalizeCollection _ _) Hc) as ->.
  apply bind_inv_ok in H. destruct H as [k' [w1 [Hk H]]].
  pose proof (normalizeKey_anywhere _ _ _ _ w Hk) as Hk'.
  apply normalizeKey_ok in Hk. destruct Hk as [-> ->].
  apply bind_inv_ok in H. destruct H as [item' [w1 [Hi H]]].
  apply normalizeItem_ok in Hi. destruct Hi as [-> ->].
  apply bind_inv_ok in H. destruct H as [o [w1 [Ho H]]].
  pose proof (pure_inv_ok _ _ _ _ _ (pure_normalizeOptions _) Ho) as ->.
  rewrite (bind_ok _ _ _ _ _ _ _
             (initializeDocumentStore_idle name collections fuel self w (or_introl Hf)))
    in H.
  exists collection. split; [exact Hc|]. split; [exact Hk'|].
  unfold Open.transaction in H. destruct self.
  - change (insideTransaction Root) with false in H. cbv iota in H.
    rewrite (bind_ok _ _ _ _ _ _ _
               (initializeDocumentStore_idle name collections fuel Root w (or_introl Hf)))
      in H.
    apply kv_transaction_inv_ok in H. destruct H as [w2 [H ->]].
    pose proof (put_callback_flags _ _ _ _ _ _ _ H) as [Hr _].
    apply put_callback in H. destruct H as [K _].
    split; [exact K|]. unfold flag_of in *. simpl. rewrite Hr. exact Hf.
  - change (insideTransaction Tx) with true in H. cbv iota in H.
    pose proof (put_callback_flags _ _ _ _ _ _ _ H) as [Hr Ht].
    apply put_callback in H. destruct H as [K _].
    split; [exact K|]. unfold flag_of in *. rewrite Hr, Ht. exact Hf.
Qed.

(** A [get] of an item that the backend holds. *)
Lemma get_present : forall name collections fuel self target collection k item options w,
  flag_of hasBeenInitialized self w = true ->
  normalizeCollection collections target w = (Ok collection, w) ->
  normalizeKey k w = (Ok k, w) ->
  (forall o, options = Some o -> o_properties o <> PropsOther) ->
  kv_lookup (w_kv w) (makeItemKey name collection k) = Some (VItem item) ->
  get name collections (S fuel) self target k options w
  = (Ok item, add_log (EKv (KGet (makeItemKey name collection k))) w).
Proof.
  intros name collections fuel self target collection k item options w Hf Hc Hk Ho K.
  unfold get, Open.get.
  rewrite (bind_ok _ _ _ _ _ _ _ Hc), (bind_ok _ _ _ _ _ _ _ Hk).
  destruct (normalizeOptions_accepts options w Ho) as [o' [Ho' _]].
  rewrite (bind_ok _ _ _ _ _ _ _ Ho').
  rewrite (bind_ok _ _ _ _ _ _ _
             (initializeDocumentStore_idle name collections fuel self w (or_introl Hf))).
  unfold kv_get, bind, log. simpl. rewrite K. reflexivity.
Qed.

(** A value that holds no [undefined] comes back of JSON as it was. *)
Lemma json_copy_is_json : forall v, is_json v = true -> json_copy v = v.
Proof.
  induction v as [| | b | n | s | xs IH | fs IH] using jsval_nested_ind;
    intros H; try reflexivity; try discriminate H.
  - simpl in H |- *. f_equal. revert H.
    induction IH as [|x xs Hx _ IHxs]; intros H; [reflexivity|].
    simpl in H. apply andb_true_iff in H. destruct H as [H1 H2].
    rewrite (Hx H1), (IHxs H2).
    destruct x; try reflexivity. discriminate H1.
  - simpl in H |- *. f_equal. revert H.
    induction IH as [|[k x] fs Hx _ IHfs]; intros H; [reflexivity|].
    simpl in H. apply andb_true_iff in H. destruct H as [H1 H2].
    simpl in Hx. rewrite (Hx H1), (IHfs H2).
    destruct x; try reflexivity. discriminate H1.
Qed.

(** X6.  On an initialized store, after a [put] that returned of an item
    that holds [undefined] nowhere, which the engine gives back as it was
    stored, a [get] of the same collection and key returns the item that
    was put, whatever the options of the two calls, and reads the backend
    once. *)
Theorem put_then_get :
  forall name collections fuel fuel' self target k item options options' w w',
    flag_of hasBeenInitialized self w = true ->
    is_json item = true ->
    put name collections (S fuel) self target k item options w = (Ok tt, w') ->
    (forall o, options' = Some o -> o_properties o <> PropsOther) ->
    json_copy item = item
    /\ exists w'',
         get name collections (S fuel') self target k options' w' = (Ok item, w'')
         /\ w_kv w'' = w_kv w'
         /\ count_if is_kv (performed w' w'') = 1.
Proof.
  intros name collections fuel fuel' self target k item options options' w w' Hf Hj H Ho.
  split; [apply json_copy_is_json; exact Hj|].
  destruct (put_inv_ok _ _ _ _ _ _ _ _ _ _ Hf H) as [collection [Hc [Hk [K Hf']]]].
  eexists. split.
  - apply (get_present name collections fuel' self target collection k item options' w');
      try assumption.
    + apply (normalizeCollection_anywhere _ _ _ _ _ _ Hc).
    + apply (normalizeKey_anywhere _ _ _ _ _ Hk).
  - split; [reflexivity|].
    erewrite performed_app by reflexivity. reflexivity.
Qed.

Lemma put_then_get_witness :
  let w' := snd (put "S" [People] 1 Root (ByName "People") (JStr "u2") ada None
                     initialized_world) in
  fst (get "S" [People] 1 Root (ByName "People") (JStr "u2") None w') = Ok ada.
Proof.
  intros w'.
  destruct (put_then_get "S" [People] 0 0 Root (ByName "People") (JStr "u2") ada
              None None initialized_world w' eq_refl eq_refl eq_refl)
    as [_ [w'' [H _]]].
  - intros o Ho. discriminate Ho.
  - rewrite H. reflexivity.
Defined.

Lemma kv_get_inv_ok : forall k e w v w',
  kv_get k e w = (Ok v, w') ->
  v = kv_lookup (w_kv w) k /\ w' = add_log (EKv (KGet k)) w.
Proof.
  intros k e w v w'. unfold kv_get, bind, log. simpl.
  destruct (kv_lookup (w_kv w) k); [|destruct (default true e)];
    intros H; try discriminate H; injection H as <- <-; split; reflexivity.
Qed.

Lemma kv_delete_present : forall k e w v,
  kv_lookup (w_kv w) k = Some v ->
  kv_delete k e w
  = (Ok true, set_kv (kv_remove (w_kv w) k) (add_log (EKv (KDelete k)) w)).
Proof.
  intros k e w v H. unfold kv_delete, bind, log. simpl. rewrite H. reflexivity.
Qed.

(** The callback of [delete], run to its end. *)
Lemma delete_callback : forall name collection k options w b w',
  (bind (kv_get (makeItemKey name collection k) (o_errorIfMissing options))
     (fun oldItem =>
        if truthy (value_js oldItem)
        then
          bind (kv_delete (makeItemKey name collection k) (o_errorIfMissing options))
            (fun hasBeenDeleted =>
               bind (updateIndexes name collection k (value_js oldItem) JUndefined)
                 (fun _ =>
                    bind (emit (didDeleteItem (c_name collection) k (value_js oldItem)))
                      (fun _ => ret hasBeenDeleted)))
        else ret false)) w = (Ok b, w') ->
  w_root w' = w_root w /\ w_tx w' = w_tx w
  /\ (if b then kv_lookup (w_kv w') (makeItemKey name collection k) = None
      else w_kv w' = w_kv w).
Proof.
  intros name collection k options w b w' H.
  apply bind_inv_ok in H. destruct H as [oldItem [w1 [Hg H]]].
  apply kv_get_inv_ok in Hg. destruct Hg as [-> ->].
  destruct (truthy (value_js (kv_lookup (w_kv w) (makeItemKey name collection k))))
    eqn:T.
  - destruct (kv_lookup (w_kv w) (makeItemKey name collection k)) as [v|] eqn:K;
      [|discriminate T].
    rewrite (bind_ok _ _ _ _ _ _ _
               (kv_delete_present _ _ (add_log (EKv (KGet _)) w) v K)) in H.
    apply bind_inv_ok in H. destruct H as [[] [w2 [Hu H]]].
    rewrite (bind_ok _ _ _ _ _ _ _ (emit_run _ _)) in H. injection H as <- <-.
    apply updateIndexes_inv_ok in Hu. destruct Hu as [Hr [Ht Hk]].
    simpl. rewrite Hr, Ht, Hk. simpl. repeat split. apply kv_lookup_remove_same.
  - injection H as <- <-. repeat split.
Qed.

(** A [get] of an item that the backend does not hold. *)
Lemma get_absent : forall name collections fuel self target collection k options w,
  flag_of hasBeenInitialized self w = true ->
  normalizeCollection collections target w = (Ok collection, w) ->
  normalizeKey k w = (Ok k, w) ->
  (forall o, options = Some o -> o_properties o <> PropsOther) ->
  kv_lookup (w_kv w) (makeItemKey name collection k) = None ->
  fst (get name collections (S fuel) self target k options w)
  = if default true (o_errorIfMissing match options with
                                      | Some o => o
                                      | None => empty_options
                                      end)
    then Throw (Error "Item not found")
    else Ok JUndefined.
Proof.
  intros name collections fuel self target collection k options w Hf Hc Hk Ho K.
  unfold get, Open.get.
  rewrite (bind_ok _ _ _ _ _ _ _ Hc), (bind_ok _ _ _ _ _ _ _ Hk).
  destruct (normalizeOptions_accepts options w Ho) as [o' [Ho' E]].
  rewrite (bind_ok _ _ _ _ _ _ _ Ho').
  rewrite (bind_ok _ _ _ _ _ _ _
             (initializeDocumentStore_idle name collections fuel self w (or_introl Hf))).
  unfold kv_get, bind, log. simpl. rewrite K, E.
  destruct (default true _); reflexivity.
Qed.

(** X7.  On an initialized store, a [delete] that returns [false] has left
    the contents of the backend as they were, and after a [delete] that
    returns [true] the item is gone: a [get] of the same collection and key
    throws 'Item not found', or returns [undefined] when it is called with
    [errorIfMissing: false]. *)
Theorem delete_then_get :
  forall name collections fuel fuel' self target k options options' w b w',
    flag_of hasBeenInitialized self w = true ->
    delete name collections (S fuel) self target k options w = (Ok b, w') ->
    (forall o, options' = Some o -> o_properties o <> PropsOther) ->
    if b
    then fst (get name collections (S fuel') self target k options' w')
         = if default true (o_errorIfMissing match options' with
                                             | Some o => o
                                             | None => empty_options
                                             end)
           then Throw (Error "Item not found")
           else Ok JUndefined
    else w_kv w' = w_kv w.
Proof.
  intros name collections fuel fuel' self target k options options' w b w' Hf H Ho.
  unfold delete, Open.delete in H.
  apply bind_inv_ok in H. destruct H as [collection [w1 [Hc H]]].
  pose proof (pure_inv_ok _ _ _ _ _ (pure_normalizeCollection _ _) Hc) as ->.
  apply bind_inv_ok in H. destruct H as [k' [w1 [Hk H]]].
  pose proof (normalizeKey_anywhere _ _ _ _ w' Hk) as Hk'.
  apply normalizeKey_ok in Hk. destruct Hk as [-> ->].
  apply bind_inv_ok in H. destruct H as [o [w1 [Ho1 H]]].
  pose proof (pure_inv_ok _ _ _ _ _ (pure_normalizeOptions _) Ho1) as ->.
  rewrite (bind_ok _ _ _ _ _ _ _
             (initializeDocumentStore_idle name collections fuel self w (or_introl Hf)))
    in H.
  assert (G : flag_of hasBeenInitialized self w' = true
              /\ (if b then kv_lookup (w_kv w') (makeItemKey name collection k) = None
                  else w_kv w' = w_kv w)).
  { unfold Open.transaction in H. destruct self.
    - change (insideTransaction Root) with false in H. cbv iota in H.
      rewrite (bind_ok _ _ _ _ _ _ _
                 (initializeDocumentStore_idle name collections fuel Root w
                    (or_introl Hf))) in H.
      apply kv_transaction_inv_ok in H. destruct H as [w2 [H ->]].
      apply delete_callback in H. destruct H as [Hr [_ Hb]].
      split; [unfold flag_of in *; simpl; rewrite Hr; exact Hf|].
      destruct b; exact Hb.
    - change (insideTransaction Tx) with true in H. cbv iota in H.
      apply delete_callback in H. destruct H as [Hr [Ht Hb]].
      split; [unfold flag_of in *; rewrite Hr, Ht; exact Hf | exact Hb]. }
  destruct G as [Hf' Hb]. destruct b; [|exact Hb].
  apply (get_absent name collections fuel' self target collection k options' w');
    try assumption.
  apply (normalizeCollection_anywhere _ _ _ _ _ _ Hc).
Qed.

Lemma delete_then_get_witness :
  let w := snd (put "S" [People] 2 Root (ByName "People") (JStr "u1") ada None
                    empty_world) in
  let w' := snd (delete "S" [People] 1 Root (ByName "People") (JStr "u1") None w) in
  fst (get "S" [People] 1 Root (ByName "People") (JStr "u1") None w')
  = Throw (Error "Item not found").
Proof.
  intros w w'.
  apply (delete_then_get "S" [People] 0 0 Root (ByName "People") (JStr "u1") None None
           w true w' eq_refl eq_refl).
  intros o Ho. discriminate Ho.
Defined.

(** ** Deletion under a prefix *)

Lemma In_insert_sorted_iff : forall e x l,
  In e (insert_sorted x l) <-> e = x \/ In e l.
Proof.
  intros e x l. induction l as [|y l IH]; simpl.
  - intuition.
  - destruct (key_leb (fst y) (fst x)); simpl; [rewrite IH|]; intuition.
Qed.

Lemma In_sort_entries_iff : forall e l, In e (sort_entries l) <-> In e l.
Proof.
  intros e l. unfold sort_entries.
  assert (G : forall acc, In e (fold_left (fun acc x => insert_sorted x acc) l acc)
                          <-> In e l \/ In e acc).
  { induction l as [|x l IH]; intros acc; simpl; [intuition|].
    rewrite IH, In_insert_sorted_iff. intuition. }
  rewrite G. simpl. intuition.
Qed.

Lemma length_insert_sorted : forall x l,
  List.length (insert_sorted x l) = S (List.length l).
Proof.
  intros x l. induction l as [|y l IH]; simpl; [reflexivity|].
  destruct (key_leb (fst y) (fst x)); simpl; [rewrite IH|]; reflexivity.
Qed.

Lemma length_sort_entries : forall l, List.length (sort_entries l) = List.length l.
Proof.
  intros l. unfold sort_entries.
  assert (G : forall acc,
            List.length (fold_left (fun acc x => insert_sorted x acc) l acc)
            = List.length l + List.length acc).
  { induction l as [|x l IH]; intros acc; simpl; [reflexivity|].
    rewrite IH, length_insert_sorted. lia. }
  rewrite G. simpl. lia.
Qed.

Lemma within_prefix_only : forall p k,
  within_bounds (prefix_only p) k = has_prefix p k.
Proof. intros p k. unfold within_bounds. simpl. rewrite !andb_true_r. reflexivity. Qed.

Lemma kv_select_prefix_only : forall p s,
  kv_select (prefix_only p) s
  = sort_entries (filter (fun e => has_prefix p (fst e)) s).
Proof.
  intros p s. unfold kv_select. simpl. f_equal.
  apply filter_ext. intros e. apply within_prefix_only.
Qed.

Lemma kv_lookup_In : forall s k v, kv_lookup s k = Some v -> In (k, v) s.
Proof.
  induction s as [|[k0 v0] s IH]; intros k v H; simpl in H; [discriminate H|].
  destruct (key_eqb k0 k) eqn:E.
  - apply key_eqb_eq in E. subst k0. injection H as ->. left. reflexivity.
  - right. apply IH. exact H.
Qed.

Lemma kv_lookup_remove_none : forall s k k',
  kv_lookup s k = None -> kv_lookup (kv_remove s k') k = None.
Proof.
  intros s k k' H. induction s as [|[k0 v0] s IH]; simpl in *; [reflexivity|].
  destruct (key_eqb k0 k) eqn:E0; [discriminate H|].
  destruct (key_eqb k0 k'); simpl; [apply IH; exact H|].
  rewrite E0. apply IH. exact H.
Qed.

Lemma lookup_fold_remove_none : forall (selected : list (key * kvalue)) s k,
  kv_lookup s k = None ->
  kv_lookup (fold_left (fun s e => kv_remove s (fst e)) selected s) k = None.
Proof.
  induction selected as [|e selected IH]; intros s k H; [exact H|].
  simpl. apply IH. apply kv_lookup_remove_none. exact H.
Qed.

Lemma lookup_fold_remove_selected : forall (selected : list (key * kvalue)) s e,
  In e selected ->
  kv_lookup (fold_left (fun s e => kv_remove s (fst e)) selected s) (fst e) = None.
Proof.
  induction selected as [|e0 selected IH]; intros s e Hin; [destruct Hin|].
  simpl. destruct Hin as [-> | Hin].
  - apply lookup_fold_remove_none. apply kv_lookup_remove_same.
  - apply IH. exact Hin.
Qed.

(** What [findAndDelete] with a prefix and nothing else leaves in the
    backend: the keys under the prefix are gone, the others are as they
    were. *)
Lemma findAndDelete_prefix : forall p w,
  exists n w',
    kv_findAndDelete (prefix_only p) w = (Ok n, w')
    /\ w_root w' = w_root w /\ w_tx w' = w_tx w
    /\ w_log w' = w_log w ++ [EKv (KFindAndDelete (prefix_only p))]
    /\ forall k, kv_lookup (w_kv w') k
                 = if has_prefix p k then None else kv_lookup (w_kv w) k.
Proof.
  intros p w. unfold kv_findAndDelete, bind, log. simpl.
  eexists. eexists. split; [reflexivity|]. simpl. repeat split.
  intros k. rewrite kv_select_prefix_only.
  destruct (has_prefix p k) eqn:P.
  - destruct (kv_lookup (w_kv w) k) as [v|] eqn:K.
    + apply kv_lookup_In in K.
      apply (lookup_fold_remove_selected _ (w_kv w) (k, v)).
      apply (proj2 (In_sort_entries_iff _ _)).
      apply filter_In. split; [exact K | exact P].
    + apply lookup_fold_remove_none. exact K.
  - apply lookup_fold_remove. intros e He Hk.
    apply (proj1 (In_sort_entries_iff _ _)) in He.
    apply filter_In in He. destruct He as [_ He].
    rewrite Hk, P in He. discriminate He.
Qed.

(** ** The destruction of a store *)

(** X8.  [destroyAll] on the store itself deletes every key of the backend
    under the name of the store, the descriptor included, and no other key,
    in one backend operation, and marks the store as not initialized: the
    next initialization creates the descriptor of the declarations again
    and emits [didCreate]. *)
Theorem destroyAll_empties_the_store : forall name collections fuel w,
  flag_of isInitializing Root w = false ->
  exists w',
    destroyAll name Root w = (Ok tt, w')
    /\ (forall k, kv_lookup (w_kv w') k
                  = if has_prefix [JStr name] k then None else kv_lookup (w_kv w) k)
    /\ performed w w' = [EKv (KFindAndDelete (prefix_only [JStr name]))]
    /\ flag_of hasBeenInitialized Root w' = false
    /\ exists w'',
         initializeDocumentStore name collections (S fuel) Root w' = (Ok tt, w'')
         /\ descriptor name w'' = Some (created_record name collections)
         /\ filter is_emit (performed w' w'') = [EEmit didCreate; EEmit didInitialize].
Proof.
  intros name collections fuel w F2. unfold destroyAll.
  change (insideTransaction Root) with false. cbv iota.
  rewrite (bind_ok _ _ _ _ _ _ _ (write_hasBeenInitialized_run _ _ _)).
  set (w1 := set_own Root _ w).
  destruct (findAndDelete_prefix [JStr name] w1) as [n [w' [H [Hr [Ht [Hl Hk]]]]]].
  rewrite (bind_ok _ _ _ _ _ _ _ H).
  exists w'. split; [reflexivity|]. split; [exact Hk|].
  split; [apply performed_app; exact Hl|].
  assert (F1 : flag_of hasBeenInitialized Root w' = false).
  { unfold flag_of. rewrite Hr. reflexivity. }
  split; [exact F1|].
  assert (K : kv_lookup (w_kv w') [JStr name] = None).
  { rewrite Hk. simpl. rewrite String.eqb_refl. reflexivity. }
  assert (F2' : flag_of isInitializing Root w' = false).
  { unfold flag_of in *. rewrite Hr. exact F2. }
  destruct (initialize_creates name collections fuel w' K F1 F2')
    as [w'' [Hi [Hp [Hkv _]]]].
  exists w''. split; [exact Hi|]. split.
  - unfold descriptor. rewrite Hkv, kv_lookup_insert_same. reflexivity.
  - rewrite Hp. reflexivity.
Qed.

Lemma destroyAll_empties_the_store_witness :
  kv_lookup (w_kv (snd (destroyAll "S" Root wide_world)))
            [JStr "S"; JStr "People"; JStr "u1"] = None.
Proof.
  destruct (destroyAll_empties_the_store "S" [People_wide] 0 wide_world eq_refl)
    as [w' [H [Hk _]]].
  rewrite H. simpl. rewrite Hk. reflexivity.
Defined.

(** ** Statistics *)

Lemma fold_count_collection : forall cs a b c,
  fold_left count_collection cs (a, b, c)
  = (a + List.length (filter (fun x => negb (cj_hasBeenRemoved x)) cs),
     b + List.length (filter cj_hasBeenRemoved cs),
     c + list_sum (map (fun x => List.length (cj_indexes x)) cs)).
Proof.
  induction cs as [|x cs IH]; intros a b c; simpl.
  - rewrite !Nat.add_0_r. reflexivity.
  - destruct (cj_hasBeenRemoved x); simpl; rewrite IH; simpl;
      (f_equal; [f_equal|]; lia).
Qed.

(** X9.  [getStatistics] reads the descriptor and counts the keys under
    the name of the store, and does nothing else: it does not initialize the
    store and writes nothing.  The collections it counts as live and as
    removed are those of the descriptor, so that the two counts add up to
    their number, the indexes are those of all the collections, and the
    pairs are the entries of the backend under the name of the store, the
    descriptor among them. *)
Theorem getStatistics_counts : forall name w r,
  descriptor name w = Some r ->
  exists stats w',
    getStatistics name w = (Ok stats, w')
    /\ collectionsCount stats
       = List.length (filter (fun c => negb (cj_hasBeenRemoved c)) (r_collections r))
    /\ removedCollectionsCount stats
       = List.length (filter cj_hasBeenRemoved (r_collections r))
    /\ collectionsCount stats + removedCollectionsCount stats
       = List.length (r_collections r)
    /\ indexesCount stats
       = list_sum (map (fun c => List.length (cj_indexes c)) (r_collections r))
    /\ pairsCount stats
       = List.length (filter (fun e => has_prefix [JStr name] (fst e)) (w_kv w))
    /\ 1 <= pairsCount stats
    /\ w_kv w' = w_kv w /\ w_root w' = w_root w /\ w_tx w' = w_tx w
    /\ performed w w'
       = [EKv (KGet [JStr name]); EKv (KCount (prefix_only [JStr name]))].
Proof.
  intros name w r Hd. unfold getStatistics.
  rewrite (bind_ok _ _ _ _ _ _ _ (load_descriptor name w r (Some false) Hd)).
  rewrite fold_count_collection. simpl.
  unfold kv_count, bind, log. simpl.
  eexists. eexists. split; [reflexivity|]. simpl.
  change (set_limit None (prefix_only [JStr name])) with (prefix_only [JStr name]).
  rewrite kv_select_prefix_only, length_sort_entries.
  repeat split.
  - clear. induction (r_collections r) as [|c cs IH]; [reflexivity|].
    simpl. destruct (cj_hasBeenRemoved c); simpl; lia.
  - apply descriptor_lookup in Hd. apply kv_lookup_In in Hd.
    assert (Hin : In ([JStr name], VRecord r)
                     (filter (fun e => has_prefix [JStr name] (fst e)) (w_kv w))).
    { apply filter_In. split; [exact Hd|]. simpl. rewrite String.eqb_refl. reflexivity. }
    destruct (filter _ (w_kv w)); [destruct Hin | simpl; lia].
  - apply performed_app. simpl. rewrite <- app_assoc. reflexivity.
Qed.

Lemma getStatistics_counts_witness :
  exists stats,
    fst (getStatistics "S" tombstone_world) = Ok stats
    /\ collectionsCount stats = 0 /\ removedCollectionsCount stats = 1.
Proof.
  destruct (getStatistics_counts "S" tombstone_world
              {| r_name := "S"; r_version := 3; r_isLocked := Some false;
                 r_lastMigrationNumber := None; r_tables := None;
                 r_collections :=
                   [{| cj_name := "Q"; cj_hasBeenRemoved := true;
                       cj_indexes := [] |}] |} eq_refl)
    as [stats [w' [H [H1 [H2 _]]]]].
  exists stats. rewrite H. split; [reflexivity|]. split; assumption.
Defined.

(** ** The purge of the collections marked as removed *)

Lemma filter_all : forall (A : Type) (p : A -> bool) l,
  (forall x, In x l -> p x = true) -> filter p l = l.
Proof.
  intros A p l. induction l as [|x l IH]; intros H; simpl; [reflexivity|].
  rewrite (H x (or_introl eq_refl)). rewrite IH; [reflexivity|].
  intros y Hy. apply H. right. exact Hy.
Qed.

Lemma set_collections_same : forall r, set_collections (r_collections r) r = r.
Proof. intros []. reflexivity. Qed.

Lemma names_injective : forall (cs : list CollectionJSON) a b,
  NoDup (map cj_name cs) -> In a cs -> In b cs -> cj_name a = cj_name b -> a = b.
Proof.
  induction cs as [|c cs IH]; intros a b Hnd Ha Hb E; [destruct Ha|].
  simpl in Hnd. inversion Hnd as [|? ? Hni Hnd']; subst.
  destruct Ha as [<- | Ha], Hb as [<- | Hb].
  - reflexivity.
  - exfalso. apply Hni. rewrite E. apply in_map. exact Hb.
  - exfalso. apply Hni. rewrite <- E. apply in_map. exact Ha.
  - apply IH; assumption.
Qed.

(** With distinct names, removing the element that a search by name found
    removes the elements of that name. *)
Lemma remove_found : forall (cs : list CollectionJSON) n i c,
  NoDup (map cj_name cs) ->
  find_with_index (fun collection => cj_name collection =? n) cs = Some (i, c) ->
  remove_at i cs = filter (fun x => negb (cj_name x =? n)) cs.
Proof.
  induction cs as [|c0 cs IH]; intros n i c Hnd F; [discriminate F|].
  simpl in Hnd. inversion Hnd as [|? ? Hni Hnd']; subst.
  simpl in F. simpl. destruct (cj_name c0 =? n) eqn:E.
  - injection F as <- <-. simpl. symmetry. apply filter_all.
    intros x Hx. apply String.eqb_eq in E. subst n.
    destruct (String.eqb_spec (cj_name x) (cj_name c0)) as [E' | _]; [|reflexivity].
    exfalso. apply Hni. rewrite <- E'. apply in_map. exact Hx.
  - destruct (find_with_index _ cs) as [[j y]|] eqn:F'; [|discriminate F].
    injection F as <- <-. simpl. f_equal. apply (IH n j y Hnd' F').
Qed.

Lemma find_with_index_found : forall (cs : list CollectionJSON) c,
  NoDup (map cj_name cs) -> In c cs ->
  exists i, find_with_index (fun collection => cj_name collection =? cj_name c) cs
            = Some (i, c).
Proof.
  intros cs c Hnd Hin.
  destruct (find_with_index (fun collection => cj_name collection =? cj_name c) cs)
    as [[i c']|] eqn:F.
  - exists i. destruct (find_with_index_nth _ _ _ _ _ F) as [N P].
    apply String.eqb_eq in P. apply nth_error_In in N.
    rewrite (names_injective cs c' c Hnd N Hin P). reflexivity.
  - pose proof (find_with_index_none _ _ _ F c Hin) as P. simpl in P.
    rewrite String.eqb_refl in P. discriminate P.
Qed.

Lemma NoDup_names_filter : forall (p : CollectionJSON -> bool) cs,
  NoDup (map cj_name cs) -> NoDup (map cj_name (filter p cs)).
Proof.
  intros p cs. induction cs as [|c cs IH]; intros H; simpl; [constructor|].
  simpl in H. inversion H as [|? ? Hni Hnd]; subst.
  destruct (p c); simpl; [|apply IH; exact Hnd].
  constructor; [|apply IH; exact Hnd].
  intros Hin. apply Hni. apply in_map_iff in Hin. destruct Hin as [x [E Hx]].
  apply filter_In in Hx. rewrite <- E. apply in_map. tauto.
Qed.

Lemma under_names_app : forall name l1 l2 k,
  under_names name (l1 ++ l2) k = under_names name l1 k || under_names name l2 k.
Proof. intros. unfold under_names. apply existsb_app. Qed.

Lemma has_prefix_two_neq : forall name n k,
  has_prefix [JStr name; JStr n] k = true -> k <> [JStr name].
Proof.
  intros name n k H E. subst k. simpl in H. rewrite andb_false_r in H. discriminate H.
Qed.

Lemma filter_filter_and : forall (A : Type) (p q : A -> bool) l,
  filter p (filter q l) = filter (fun x => p x && q x) l.
Proof.
  intros A p q l. induction l as [|x l IH]; simpl; [reflexivity|].
  destruct (q x); simpl; [|rewrite andb_false_r; exact IH].
  rewrite andb_true_r. destruct (p x); rewrite IH; reflexivity.
Qed.

Lemma key_eqb_neq_false : forall a b : key, a <> b -> key_eqb a b = false.
Proof.
  intros a b H. destruct (key_eqb a b) eqn:E; [|reflexivity].
  apply key_eqb_eq in E. contradiction.
Qed.

Section PurgeLoop.

Variable name : string.
Variable r0 : StoreRecord.
Variable s1 : kvstore.

Hypothesis names_distinct : NoDup (map cj_name (r_collections r0)).

(** The contents of the backend when the collections named [done] have
    been visited and the descriptor is [r]. *)
Let contents (done : list string) (r : StoreRecord) (s : kvstore) : Prop :=
  forall k, kv_lookup s k
            = if key_eqb k [JStr name] then Some (VRecord r)
              else if under_names name (filter (removed_name (r_collections r0)) done) k
                   then None
                   else kv_lookup s1 k.

Lemma removed_name_of : forall c,
  In c (r_collections r0) ->
  removed_name (r_collections r0) (cj_name c) = cj_hasBeenRemoved c.
Proof.
  intros c Hin. unfold removed_name.
  destruct (cj_hasBeenRemoved c) eqn:R.
  - apply existsb_exists. exists c. split; [exact Hin|].
    rewrite R, String.eqb_refl. reflexivity.
  - destruct (existsb _ (r_collections r0)) eqn:E; [|reflexivity].
    apply existsb_exists in E. destruct E as [c' [Hin' E]].
    apply andb_true_iff in E. destruct E as [R' E]. apply String.eqb_eq in E.
    rewrite (names_injective _ c' c names_distinct Hin' Hin E) in R'. congruence.
Qed.

Lemma purge_loop : forall todo done r w,
  map cj_name (r_collections r0) = done ++ todo ->
  r = set_collections (filter (purge_keeps todo) (r_collections r0)) r0 ->
  contents done r (w_kv w) ->
  exists r' w',
    foldM (remove_marked name) todo r w = (Ok r', w')
    /\ r' = set_collections (filter (purge_keeps []) (r_collections r0)) r0
    /\ contents (map cj_name (r_collections r0)) r' (w_kv w')
    /\ w_root w' = w_root w /\ w_tx w' = w_tx w.
Proof.
  induction todo as [|n todo IH]; intros done r w Hn Hr Hc.
  - rewrite app_nil_r in Hn. subst done. exists r, w. repeat split; assumption.
  - assert (Hc0 : exists c0, In c0 (r_collections r0) /\ cj_name c0 = n).
    { assert (Hin : In n (map cj_name (r_collections r0))).
      { rewrite Hn. apply in_or_app. right. left. reflexivity. }
      apply in_map_iff in Hin. destruct Hin as [c0 [E Hin]]. exists c0. auto. }
    destruct Hc0 as [c0 [Hin0 En]].
    assert (Hnt : existsb (String.eqb n) todo = false).
    { destruct (existsb (String.eqb n) todo) eqn:E; [|reflexivity].
      apply existsb_exists in E. destruct E as [m [Hm E]].
      apply String.eqb_eq in E. subst m.
      pose proof names_distinct as Hnd. rewrite Hn in Hnd.
      apply NoDup_remove_2 in Hnd. exfalso. apply Hnd.
      apply in_or_app. right. exact Hm. }
    assert (Hcs : r_collections r
                  = filter (purge_keeps (n :: todo)) (r_collections r0)).
    { rewrite Hr. reflexivity. }
    assert (Hk0 : In c0 (filter (purge_keeps (n :: todo)) (r_collections r0))).
    { apply filter_In. split; [exact Hin0|]. unfold purge_keeps. simpl.
      rewrite En, String.eqb_refl. rewrite orb_true_r. reflexivity. }
    destruct (find_with_index_found _ c0
                (NoDup_names_filter _ _ names_distinct) Hk0) as [i F].
    rewrite En in F.
    replace (n :: todo) with ([n] ++ todo) in Hn by reflexivity.
    rewrite app_assoc in Hn.
    pose proof (removed_name_of c0 Hin0) as Hrem. rewrite En in Hrem.
    simpl foldM.
    destruct (cj_hasBeenRemoved c0) eqn:R.
    + (* the collection is purged *)
      destruct (findAndDelete_prefix [JStr name; JStr n] w)
        as [cnt [w1 [H1 [Hr1 [Ht1 [_ Hk1]]]]]].
      set (r' := set_collections (remove_at i (r_collections r)) r).
      assert (Hd1 : descriptor name w1 = Some r).
      { unfold descriptor. rewrite Hk1. simpl. rewrite andb_false_r.
        rewrite (Hc [JStr name]). rewrite key_eqb_refl. reflexivity. }
      set (w2 := set_kv (kv_insert (w_kv w1) [JStr name] (VRecord r'))
                        (add_log (EKv (KPut [JStr name] (VRecord r'))) w1)).
      assert (Hstep : remove_marked name r n w = (Ok r', w2)).
      { unfold remove_marked. rewrite Hcs, F, R. change (negb true) with false. cbv iota.
        unfold _removeCollection.
        rewrite (bind_ok _ _ _ _ _ tt w1 (bind_ok _ _ _ _ _ _ _ H1)).
        rewrite <- Hcs. fold r'.
        rewrite (bind_ok _ _ _ _ _ _ _ (save_descriptor name w1 r r' Hd1)).
        reflexivity. }
      rewrite (bind_ok _ _ _ _ _ _ _ Hstep).
      destruct (IH (done ++ [n]) r' w2 Hn) as [rf [wf [Hf [Hrf [Hcf [Hrt Htt]]]]]].
      * unfold r'. rewrite Hcs.
        rewrite (remove_found _ n i c0 (NoDup_names_filter _ _ names_distinct) F).
        rewrite filter_filter_and. rewrite Hr. unfold set_collections. simpl.
        f_equal. apply filter_ext_in. intros x Hx. unfold purge_keeps. simpl.
        destruct (String.eqb_spec (cj_name x) n) as [E | E]; simpl.
        -- rewrite <- En in E.
           rewrite (names_injective _ x c0 names_distinct Hx Hin0 E), R. simpl.
           rewrite En. symmetry. exact Hnt.
        -- reflexivity.
      * intros k.
        change (w_kv w2) with (kv_insert (w_kv w1) [JStr name] (VRecord r')).
        destruct (key_eqb k [JStr name]) eqn:E.
        -- apply key_eqb_eq in E. subst k. apply kv_lookup_insert_same.
        -- rewrite kv_lookup_insert_other
             by (intros E'; subst k; rewrite key_eqb_refl in E; discriminate E).
           rewrite Hk1, (Hc k), E. rewrite filter_app.
           change (filter (removed_name (r_collections r0)) [n])
             with (if removed_name (r_collections r0) n then [n] else []).
           rewrite Hrem, under_names_app.
           change (under_names name [n] k)
             with (has_prefix [JStr name; JStr n] k || false).
           destruct (has_prefix [JStr name; JStr n] k),
             (under_names name (filter (removed_name (r_collections r0)) done) k);
             reflexivity.
      * exists rf, wf. split; [exact Hf|]. split; [exact Hrf|]. split; [exact Hcf|].
        rewrite Hrt, Htt. unfold w2. simpl. rewrite Hr1, Ht1. split; reflexivity.
    + (* the collection is live *)
      assert (Hstep : remove_marked name r n w = (Ok r, w)).
      { unfold remove_marked. rewrite Hcs, F, R. reflexivity. }
      rewrite (bind_ok _ _ _ _ _ _ _ Hstep).
      apply (IH (done ++ [n]) r w Hn).
      * rewrite Hr. f_equal. apply filter_ext_in. intros x Hx. unfold purge_keeps. simpl.
        destruct (String.eqb_spec (cj_name x) n) as [E | E]; simpl; [|reflexivity].
        rewrite <- En in E.
        rewrite (names_injective _ x c0 names_distinct Hx Hin0 E), R. reflexivity.
      * intros k. rewrite (Hc k). rewrite filter_app.
        change (filter (removed_name (r_collections r0)) [n])
          with (if removed_name (r_collections r0) n then [n] else []).
        rewrite Hrem, app_nil_r. reflexivity.
Qed.

End PurgeLoop.

Lemma under_removed_names : forall name cs k,
  under_names name (filter (removed_name cs) (map cj_name cs)) k
  = under_removed name cs k.
Proof.
  intros name cs k. apply Bool.eq_iff_eq_true.
  unfold under_names, under_removed. rewrite !existsb_exists. split.
  - intros [n [Hn Hp]]. apply filter_In in Hn. destruct Hn as [_ Hr].
    unfold removed_name in Hr. apply existsb_exists in Hr.
    destruct Hr as [c [Hc Hr]]. apply andb_true_iff in Hr. destruct Hr as [R E].
    apply String.eqb_eq in E. subst n. exists c. split; [exact Hc|].
    rewrite R. exact Hp.
  - intros [c [Hc Hp]]. apply andb_true_iff in Hp. destruct Hp as [R Hp].
    exists (cj_name c). split; [|exact Hp]. apply filter_In. split.
    + apply in_map. exact Hc.
    + unfold removed_name. apply existsb_exists. exists c. split; [exact Hc|].
      rewrite R, String.eqb_refl. reflexivity.
Qed.

(** Without a collection marked as removed, the loop of the purge does
    nothing. *)
Lemma purge_idle : forall name r w,
  filter cj_hasBeenRemoved (r_collections r) = [] ->
  foldM (remove_marked name) (map cj_name (r_collections r)) r w = (Ok r, w).
Proof.
  intros name r w H. apply foldM_unchanged. intros n Hn. unfold remove_marked.
  apply in_map_iff in Hn. destruct Hn as [c [E Hc]].
  destruct (find_with_index (fun collection => cj_name collection =? n)
              (r_collections r)) as [[i c']|] eqn:F.
  - destruct (find_with_index_nth _ _ _ _ _ F) as [N _]. apply nth_error_In in N.
    destruct (cj_hasBeenRemoved c') eqn:R; [|reflexivity].
    assert (Hin : In c' (filter cj_hasBeenRemoved (r_collections r)))
      by (apply filter_In; auto).
    rewrite H in Hin. destruct Hin.
  - pose proof (find_with_index_none _ _ _ F c Hc) as P. simpl in P.
    rewrite E, String.eqb_refl in P. discriminate P.
Qed.

(** X10.  On a descriptor whose collections have distinct names,
    [removeCollectionsMarkedAsRemoved] returns and leaves a descriptor
    that holds the collections that are not marked as removed, in their
    order, and is otherwise unchanged; every key under the prefix of a
    collection that was marked is gone from the backend, and every other
    key is as it was.  When no collection is marked, the call reads the
    descriptor and does nothing else. *)
Theorem purge_removes_marked_collections : forall name w r,
  descriptor name w = Some r ->
  NoDup (map cj_name (r_collections r)) ->
  exists w',
    removeCollectionsMarkedAsRemoved name w = (Ok tt, w')
    /\ descriptor name w'
       = Some (set_collections
                 (filter (fun c => negb (cj_hasBeenRemoved c)) (r_collections r)) r)
    /\ (forall k, k <> [JStr name] ->
                  kv_lookup (w_kv w') k
                  = if under_removed name (r_collections r) k then None
                    else kv_lookup (w_kv w) k)
    /\ (filter cj_hasBeenRemoved (r_collections r) = [] ->
        performed w w' = [EKv (KGet [JStr name])]).
Proof.
  intros name w r Hd Hnd. unfold removeCollectionsMarkedAsRemoved.
  rewrite (bind_ok _ _ _ _ _ _ _ (load_descriptor name w r None Hd)).
  unfold the_record. rewrite (bind_ok _ _ _ _ _ r _ eq_refl).
  set (w1 := add_log (EKv (KGet [JStr name])) w).
  destruct (purge_loop name r (w_kv w) Hnd (map cj_name (r_collections r)) [] r w1)
    as [r' [w' [H [Hr' [Hc _]]]]].
  - reflexivity.
  - rewrite filter_all; [symmetry; apply set_collections_same|].
    intros c Hc. unfold purge_keeps.
    assert (E : existsb (String.eqb (cj_name c)) (map cj_name (r_collections r)) = true).
    { apply existsb_exists. exists (cj_name c).
      split; [apply in_map; exact Hc | apply String.eqb_refl]. }
    rewrite E. apply orb_true_r.
  - intros k. change (w_kv w1) with (w_kv w).
    destruct (key_eqb k [JStr name]) eqn:E; [|reflexivity].
    apply key_eqb_eq in E. subst k. apply descriptor_lookup. exact Hd.
  - rewrite (bind_ok _ _ _ _ _ _ _ H).
    assert (Er : r' = set_collections
                        (filter (fun c => negb (cj_hasBeenRemoved c)) (r_collections r))
                        r).
    { rewrite Hr'. f_equal. apply filter_ext. intros c. unfold purge_keeps.
      apply orb_false_r. }
    exists w'. split; [reflexivity|]. split; [|split].
    + unfold descriptor. rewrite (Hc [JStr name]), key_eqb_refl, Er. reflexivity.
    + intros k Hk. rewrite (Hc k), (key_eqb_neq_false _ _ Hk).
      rewrite under_removed_names. reflexivity.
    + intros Hnone. rewrite (purge_idle name r w1 Hnone) in H. injection H as _ <-.
      apply performed_app. reflexivity.
Qed.

Lemma purge_removes_marked_collections_witness :
  descriptor "S" (snd (removeCollectionsMarkedAsRemoved "S" tombstone_world))
  = Some {| r_name := "S"; r_version := 3; r_isLocked := Some false;
            r_lastMigrationNumber := None; r_tables := None;
            r_collections := [] |}.
Proof.
  destruct (purge_removes_marked_collections "S" tombstone_world
              {| r_name := "S"; r_version := 3; r_isLocked := Some false;
                 r_lastMigrationNumber := None; r_tables := None;
                 r_collections :=
                   [{| cj_name := "Q"; cj_hasBeenRemoved := true;
                       cj_indexes := [] |}] |} eq_refl)
    as [w' [H [Hd _]]].
  - repeat constructor. intros [].
  - rewrite H. exact Hd.
Defined.

(** ** The descriptor after a migration *)

(** X11.  When the declared collections have distinct names, a migration
    that returns leaves a descriptor that agrees with the declarations:
    every declared collection is in it, not marked as removed, with an
    index for the keys of every declared index and for no other keys, and
    every collection of the descriptor that is not marked as removed is
    declared. *)
Theorem migration_reaches_declarations : forall name collections fuel self w w',
  NoDup (map c_name collections) ->
  migrateDocumentStore name collections fuel self w = (Ok tt, w') ->
  exists record,
    descriptor name w' = Some record
    /\ (forall c, In c collections ->
          exists i existing,
            find_with_index (fun collec => cj_name collec =? c_name c)
                            (r_collections record) = Some (i, existing)
            /\ cj_hasBeenRemoved existing = false
            /\ (forall index, In index (c_indexes c) ->
                  existsb (fun e => keys_eqb (ij_keys e) (i_keys index))
                          (cj_indexes existing) = true)
            /\ (forall e, In e (cj_indexes existing) ->
                  existsb (fun index => keys_eqb (i_keys index) (ij_keys e))
                          (c_indexes c) = true))
    /\ (forall existing, In existing (r_collections record) ->
          cj_hasBeenRemoved existing = false ->
          exists c, In c collections /\ c_name c = cj_name existing).
Proof.
  intros name collections fuel self w w' Hnd H.
  destruct (migrate_settles name collections fuel _ self Hnd w w' H)
    as [record [Hd [H1 H2]]].
  exists record. split; [exact Hd|]. split; [|exact H2].
  intros c Hc. destruct (H1 c Hc) as [i [existing [F [R [Hp Hdecl]]]]].
  exists i, existing. auto.
Qed.

Lemma migration_reaches_declarations_witness :
  exists record,
    descriptor "S" (snd (migrateDocumentStore "S" [P_collection] 2 Root created_world))
    = Some record
    /\ exists i existing,
         find_with_index (fun collec => cj_name collec =? "P") (r_collections record)
         = Some (i, existing)
         /\ cj_hasBeenRemoved existing = false.
Proof.
  destruct (migration_reaches_declarations "S" [P_collection] 2 Root created_world
              (snd (migrateDocumentStore "S" [P_collection] 2 Root created_world)))
    as [record [Hd [H1 _]]].
  - repeat constructor. intros [].
  - vm_compute. reflexivity.
  - exists record. split; [exact Hd|].
    destruct (H1 P_collection (or_introl eq_refl)) as [i [existing [F [R _]]]].
    exists i, existing. split; [exact F | exact R].
Defined.

(** ** A declared collection that was removed *)

Lemma upgrade_inv_ok : forall name w r w',
  descriptor name w = Some r ->
  upgradeDocumentStore name w = (Ok tt, w') ->
  r_version r = VERSION /\ w' = add_log (EKv (KGet [JStr name])) w.
Proof.
  intros name w r w' Hd H. rewrite (upgrade_run name w r Hd) in H. cbv zeta in H.
  destruct (Z.eqb_spec (r_version r) VERSION) as [E | E].
  { injection H as <-. split; [exact E | reflexivity]. }
  destruct (r_version r >? VERSION)%Z eqn:G; [discriminate H|].
  rewrite Z.gtb_ltb in G. apply Z.ltb_ge in G.
  assert (L : (r_version r <? 3)%Z = true).
  { apply Z.ltb_lt. unfold VERSION in *. lia. }
  rewrite L in H.
  destruct (if (r_version r <? 2)%Z then _ else _) as [[r' | e |] w1];
    discriminate H.
Qed.

Lemma migrate_refuses_removed : forall name collections fuel initialize self w r c i ec w',
  descriptor name w = Some r ->
  In c collections ->
  find_with_index (fun collec => cj_name collec =? c_name c) (r_collections r)
  = Some (i, ec) ->
  cj_hasBeenRemoved ec = true ->
  Open.migrateDocumentStore name collections fuel initialize self w <> (Ok tt, w').
Proof.
  intros name collections fuel initialize self w r c i ec w' Hd Hin F R Hrun.
  unfold Open.migrateDocumentStore in Hrun.
  apply bind_inv_ok in Hrun. destruct Hrun as [ro [w0 [Hload Hrun]]].
  apply load_inv_ok in Hload. destruct Hload as [r' [-> [Hd' ->]]].
  rewrite Hd in Hd'. injection Hd' as <-.
  apply try_finally_inv_ok in Hrun. destruct Hrun as [w3 [Hbody _]].
  apply bind_inv_ok in Hbody. destruct Hbody as [r0 [w0 [H0 Hbody]]].
  injection H0 as <- <-.
  apply bind_inv_ok in Hbody. destruct Hbody as [r1 [w1 [H1 _]]].
  apply (foldM_invariant _ _ _
           (fun _ todo rec v =>
              descriptor name v = Some rec
              /\ In c todo
              /\ exists i ec,
                   find_with_index (fun collec => cj_name collec =? c_name c)
                                   (r_collections rec) = Some (i, ec)
                   /\ cj_hasBeenRemoved ec = true)
           collections []) in H1.
  - destruct H1 as [_ [[] _]].
  - clear. intros done x todo rec v rec' v' [Hd [Hin [i [ec [F R]]]]] Hrun.
    destruct (String.eqb_spec (c_name x) (c_name c)) as [E | E].
    + exfalso. unfold Open.migrate_collection in Hrun. rewrite E, F, R in Hrun.
      discriminate Hrun.
    + destruct (migrate_collection_step _ _ _ _ _ _ _ _ _ _ Hd Hrun) as [Hd' [Hk _]].
      split; [exact Hd'|]. split.
      * destruct Hin as [-> | Hin]; [contradiction E; reflexivity | exact Hin].
      * exists i, ec. split; [|exact R].
        apply (Hk (c_name c)); [intros E'; apply E; symmetry; exact E' | exact F].
  - split; [exact Hd|]. split; [exact Hin|]. exists i, ec. auto.
Qed.

(** X12.  A collection that the descriptor marks as removed cannot be
    declared again: a migration over such a descriptor does not return,
    and neither does the initialization of a process that opens the
    store. *)
Theorem removed_collection_cannot_be_declared :
  forall name collections fuel w r c i ec,
    descriptor name w = Some r ->
    In c collections ->
    find_with_index (fun collec => cj_name collec =? c_name c) (r_collections r)
    = Some (i, ec) ->
    cj_hasBeenRemoved ec = true ->
    (forall self, fst (migrateDocumentStore name collections fuel self w) <> Ok tt)
    /\ (flag_of hasBeenInitialized Root w = false ->
        flag_of isInitializing Root w = false ->
        fst (initializeDocumentStore name collections fuel Root w) <> Ok tt).
Proof.
  intros name collections fuel w r c i ec Hd Hin F R. split.
  - intros self H.
    destruct (migrateDocumentStore name collections fuel self w) as [o w'] eqn:E.
    simpl in H. subst o.
    unfold migrateDocumentStore in E.
    exact (migrate_refuses_removed _ _ _ _ _ _ _ _ _ _ _ Hd Hin F R E).
  - intros F1 F2 H.
    destruct (initializeDocumentStore name collections fuel Root w) as [o w'] eqn:E.
    simpl in H. subst o.
    destruct fuel as [|fuel]; [discriminate E|].
    rewrite initializeDocumentStore_S in E. unfold Open.initializeDocumentStore in E.
    rewrite (bind_ok _ _ _ _ _ _ _ (read_flag_run _ _ _)), F1 in E.
    rewrite (bind_ok _ _ _ _ _ _ _ (read_flag_run _ _ _)), F2 in E.
    change (insideTransaction Root) with false in E. cbv iota in E.
    rewrite (bind_ok _ _ _ _ _ _ _ (write_isInitializing_run _ _ _)) in E.
    set (w0 := set_own Root _ w) in E.
    assert (Hd0 : descriptor name w0 = Some r) by exact Hd.
    apply try_finally_inv_ok in E. destruct E as [wb [E _]].
    rewrite (bind_ok _ _ _ _ _ _ _ (create_existing name collections w0 r Hd0)) in E.
    set (w1 := add_log (EKv KCommit) _) in E.
    assert (Hd1 : descriptor name w1 = Some r) by exact Hd.
    change (negb false) with true in E. cbv iota in E.
    apply bind_inv_ok in E. destruct E as [[] [wc [E _]]].
    apply bind_inv_ok in E. destruct E as [[] [w2 [Hlock E]]].
    destruct (is_locked r) eqn:L.
    { assert (L' : r_isLocked r = Some true).
      { unfold is_locked in L.
        destruct (r_isLocked r) as [[|]|]; try discriminate L; reflexivity. }
      destruct (lock_held name r fuel w1 Hd1 L') as [wl [Hl _]].
      rewrite Hl in Hlock. discriminate Hlock. }
    destruct fuel as [|fuel]; [discriminate Hlock|].
    rewrite (lock_free name fuel w1 r Hd1 L) in Hlock. injection Hlock as <-.
    apply try_finally_inv_ok in E. destruct E as [w3 [E _]].
    apply bind_inv_ok in E. destruct E as [[] [w4 [Hup E]]].
    assert (Hd2 : descriptor name
                    (add_log (EKv KCommit)
                       (set_kv (kv_insert (w_kv w1) [JStr name]
                                  (VRecord (set_isLocked true r)))
                          (add_log (EKv (KPut [JStr name]
                                           (VRecord (set_isLocked true r))))
                             (add_log (EKv (KGet [JStr name]))
                                (add_log (EKv KBegin) w1)))))
                  = Some (set_isLocked true r)) by (apply descriptor_saved).
    destruct (upgrade_inv_ok _ _ _ _ Hd2 Hup) as [_ ->].
    apply bind_inv_ok in E. destruct E as [[] [w5 [Hv E]]].
    injection Hv as <-.
    match type of E with
    | Open.migrateDocumentStore _ _ _ _ _ ?wm = _ =>
        assert (Hd3 : descriptor name wm = Some (set_isLocked true r)) by exact Hd2
    end.
    exact (migrate_refuses_removed _ _ _ _ _ _ (set_isLocked true r) _ _ _ _
             Hd3 Hin F R E).
Qed.

Lemma removed_collection_cannot_be_declared_witness :
  fst (initializeDocumentStore "S" [Q_collection] 3 Root tombstone_world) <> Ok tt.
Proof.
  destruct (removed_collection_cannot_be_declared "S" [Q_collection] 3 tombstone_world
              {| r_name := "S"; r_version := 3; r_isLocked := Some false;
                 r_lastMigrationNumber := None; r_tables := None;
                 r_collections :=
                   [{| cj_name := "Q"; cj_hasBeenRemoved := true;
                       cj_indexes := [] |}] |}
              Q_collection 0
              {| cj_name := "Q"; cj_hasBeenRemoved := true; cj_indexes := [] |}
              eq_refl (or_introl eq_refl) eq_refl eq_refl) as [_ H].
  apply H; reflexivity.
Defined.

(** ** Counting and finding *)

Lemma kv_select_returnValues : forall options prefix rv rv' s,
  kv_select (scan_of options prefix rv) s = kv_select (scan_of options prefix rv') s.
Proof. reflexivity. Qed.

(** A limit keeps the first entries of the scan without a limit. *)
Lemma kv_select_limit : forall o n s,
  kv_select (set_limit (Some n) o) s = firstn n (kv_select (set_limit None o) s).
Proof. reflexivity. Qed.

Lemma kv_select_limited : forall o s,
  kv_select (limited o) s
  = firstn (match fo_limit o with Some n => n | None => default_limit end)
           (kv_select (set_limit None o) s).
Proof. reflexivity. Qed.

Lemma kv_count_inv_ok : forall o w n w',
  kv_count o w = (Ok n, w') -> n = List.length (kv_select (set_limit None o) (w_kv w)).
Proof.
  intros o w n w' H. unfold kv_count, bind, log in H. simpl in H.
  injection H as <- _. reflexivity.
Qed.

Lemma kv_find_inv_ok : forall o w items w',
  kv_find o w = (Ok items, w') ->
  items = map (to_kv_item (fo_returnValues o)) (kv_select (limited o) (w_kv w))
  /\ w' = add_log (EKv (KFind o)) w.
Proof.
  intros o w items w' H. rewrite kv_find_run in H. injection H as <- <-.
  split; reflexivity.
Qed.

Lemma mapM_lookup_length : forall rv e ks w found w',
  mapM (fun k w => match kv_lookup (w_kv w) k with
                   | Some v => (Ok [to_kv_item rv (k, v)], w)
                   | None => if default true e
                             then (Throw (Error "Some items not found"), w)
                             else (Ok [], w)
                   end) ks w = (Ok found, w') ->
  List.length (List.concat found) <= List.length ks.
Proof.
  intros rv e ks. induction ks as [|k ks IH]; intros w found w' H; simpl in H.
  - injection H as <- _. simpl. lia.
  - apply bind_inv_ok in H. destruct H as [y [w1 [Hy H]]].
    apply bind_inv_ok in H. destruct H as [ys [w2 [Hys H]]].
    injection H as <- _. apply IH in Hys. simpl. rewrite length_app.
    destruct (kv_lookup (w_kv w) k); [|destruct (default true e)];
      try discriminate Hy; injection Hy as <- _; simpl; lia.
Qed.

Lemma mapM_length : forall (A B : Type) (f : A -> M B) xs w ys w',
  mapM f xs w = (Ok ys, w') -> List.length ys = List.length xs.
Proof.
  intros A B f xs. induction xs as [|x xs IH]; intros w ys w' H; simpl in H.
  - injection H as <- _. reflexivity.
  - apply bind_inv_ok in H. destruct H as [y [w1 [_ H]]].
    apply bind_inv_ok in H. destruct H as [ys' [w2 [Hys H]]].
    injection H as <- _. simpl. f_equal. apply (IH _ _ _ Hys).
Qed.

(** [getMany] returns at most one item for each key. *)
Lemma getMany_length : forall name collections initialize self target keys options w
    items w',
  Open.getMany name collections initialize self target keys options w = (Ok items, w') ->
  List.length items <= List.length keys.
Proof.
  intros name collections initialize self target keys options w items w' H.
  unfold Open.getMany in H.
  apply bind_inv_ok in H. destruct H as [collection [w1 [_ H]]].
  destruct keys as [|k keys]; [injection H as <- _; simpl; lia|].
  apply bind_inv_ok in H. destruct H as [keys' [w2 [Hk H]]].
  apply mapM_length in Hk.
  apply bind_inv_ok in H. destruct H as [o [w3 [_ H]]].
  apply bind_inv_ok in H. destruct H as [[] [w4 [_ H]]].
  apply bind_inv_ok in H. destruct H as [found [w5 [Hg H]]].
  injection H as <- _. rewrite length_map.
  rewrite kv_getMany_run in Hg.
  apply bind_inv_ok in Hg. destruct Hg as [fs [w6 [Hm Hg]]].
  injection Hg as <- _. apply mapM_lookup_length in Hm.
  rewrite length_map in Hm. rewrite <- Hk. exact Hm.
Qed.

(** X13.  On an initialized store, [find] returns at most as many items as
    [count] counts for the same collection and options: [count] does not
    read the limit of the options, a [find] stops at its limit, or after
    50000 entries when it is given none, and an index entry whose item is
    missing is counted by [count] and skipped by the fetch of [find].  When
    the options hold no query and no order, or ask for no property, [find]
    returns exactly the smaller of the two numbers, the limit and the
    count. *)
Theorem find_returns_what_count_counts :
  forall name collections fuel self target options w n w1 items w2,
    flag_of hasBeenInitialized self w = true ->
    count name collections (S fuel) self target options w = (Ok n, w1) ->
    find name collections (S fuel) self target options w = (Ok items, w2) ->
    List.length items <= n
    /\ (forall o, normalizeOptions options w = (Ok o, w) ->
          List.length items
          <= match o_limit o with Some limit => limit | None => default_limit end)
    /\ (forall o, normalizeOptions options w = (Ok o, w) ->
          isEmpty_query (o_query o) && isEmpty_order (o_order o) = true
          \/ o_properties o = PropsArray [] ->
          List.length items
          = Nat.min (match o_limit o with Some limit => limit | None => default_limit end)
                    n).
Proof.
  intros name collections fuel self target options w n w1 items w2 Hf Hc Hfind.
  unfold count, Open.count in Hc. unfold find, Open.find in Hfind.
  apply bind_inv_ok in Hc. destruct Hc as [c [wc [Hcc Hc]]].
  pose proof (pure_inv_ok _ _ _ _ _ (pure_normalizeCollection _ _) Hcc) as ->.
  rewrite (bind_ok _ _ _ _ _ _ _ Hcc) in Hfind.
  apply bind_inv_ok in Hc. destruct Hc as [o [wo [Hoo Hc]]].
  pose proof (pure_inv_ok _ _ _ _ _ (pure_normalizeOptions _) Hoo) as ->.
  rewrite (bind_ok _ _ _ _ _ _ _ Hoo) in Hfind.
  pose proof (initializeDocumentStore_idle name collections fuel self w (or_introl Hf))
    as Hi.
  destruct (negb (isEmpty_query (o_query o)) || negb (isEmpty_order (o_order o))) eqn:Q.
  - (* through an index *)
    unfold Open._countWithIndex in Hc. unfold Open._findWithIndex in Hfind.
    apply bind_inv_ok in Hc. destruct Hc as [index [wi [Hix Hc]]].
    pose proof (pure_inv_ok _ _ _ _ _ (pure_findIndexForQueryAndOrder _ _ _) Hix) as ->.
    rewrite (bind_ok _ _ _ _ _ _ _ Hix) in Hfind.
    rewrite (bind_ok _ _ _ _ _ _ _ Hi) in Hc.
    rewrite (bind_ok _ _ _ _ _ _ _ Hi) in Hfind.
    apply kv_count_inv_ok in Hc.
    apply bind_inv_ok in Hfind. destruct Hfind as [found [wf [Hk Hfind]]].
    apply kv_find_inv_ok in Hk. destruct Hk as [-> ->].
    rewrite kv_select_limited in Hfind. cbn [fo_limit scan_of] in Hfind.
    change (kv_select (set_limit None (scan_of o ?p ?rv)) (w_kv w))
      with (kv_select (set_limit None (scan_of o p false)) (w_kv w)) in Hfind.
    match type of Hc with
    | n = List.length ?sel => set (selected := sel) in *
    end.
    match type of Hfind with
    | (if ?b then _ else _) _ = _ => destruct b eqn:Fetch
    end.
    + apply getMany_length in Hfind. rewrite !length_map in Hfind.
      rewrite length_firstn in Hfind. split; [lia|]. split.
      * intros o' Ho'. rewrite Hoo in Ho'. injection Ho' as <-. lia.
      * intros o' Ho' [E | Hp]; rewrite Hoo in Ho'; injection Ho' as <-.
        -- rewrite <- negb_andb, E in Q. discriminate Q.
        -- rewrite Hp in Fetch. discriminate Fetch.
    + injection Hfind as <- _. rewrite !length_map, length_firstn. split; [lia|].
      split.
      * intros o' Ho'. rewrite Hoo in Ho'. injection Ho' as <-. lia.
      * intros o' Ho' _. rewrite Hoo in Ho'. injection Ho' as <-. rewrite Hc.
        reflexivity.
  - rewrite (bind_ok _ _ _ _ _ _ _ Hi) in Hc.
    rewrite (bind_ok _ _ _ _ _ _ _ Hi) in Hfind.
    apply kv_count_inv_ok in Hc.
    apply bind_inv_ok in Hfind. destruct Hfind as [found [wf [Hk Hfind]]].
    apply kv_find_inv_ok in Hk. destruct Hk as [-> _].
    rewrite kv_select_limited in Hfind. cbn [fo_limit scan_of] in Hfind.
    change (kv_select (set_limit None (scan_of o ?p ?rv)) (w_kv w))
      with (kv_select (set_limit None (scan_of o p false)) (w_kv w)) in Hfind.
    injection Hfind as <- _. rewrite !length_map, length_firstn. rewrite Hc.
    split; [lia|]. split.
    + intros o' Ho'. rewrite Hoo in Ho'. injection Ho' as <-. lia.
    + intros o' Ho' _. rewrite Hoo in Ho'. injection Ho' as <-. reflexivity.
Qed.

(** An index entry whose item is gone: [count] counts it, [find] does not
    return it. *)
Lemma find_returns_what_count_counts_witness :
  let w := set_kv (kv_remove (w_kv wide_world) [JStr "S"; JStr "People"; JStr "u1"])
                  wide_world in
  let options := Some (by_lastName PropsStar) in
  fst (count "S" [People_wide] 1 Root (ByName "People") options w) = Ok 1
  /\ fst (find "S" [People_wide] 1 Root (ByName "People") options w) = Ok []
  /\ List.length (@nil Item) <= 1.
Proof.
  intros w options. split; [reflexivity|]. split; [reflexivity|].
  apply (find_returns_what_count_counts "S" [People_wide] 0 Root (ByName "People")
           options w 1
           (snd (count "S" [People_wide] 1 Root (ByName "People") options w))
           []
           (snd (find "S" [People_wide] 1 Root (ByName "People") options w))
           eq_refl eq_refl eq_refl).
Defined.

(** ** Many items at once *)

Lemma mapM_normalizeKey_ok : forall keys w keys' w',
  mapM normalizeKey keys w = (Ok keys', w') -> keys' = keys /\ w' = w.
Proof.
  induction keys as [|k keys IH]; intros w keys' w' H; simpl in H.
  - injection H as <- <-. split; reflexivity.
  - apply bind_inv_ok in H. destruct H as [k' [w1 [Hk H]]].
    apply normalizeKey_ok in Hk. destruct Hk as [-> ->].
    apply bind_inv_ok in H. destruct H as [ks [w2 [Hks H]]].
    apply IH in Hks. destruct Hks as [-> ->].
    injection H as <- <-. split; reflexivity.
Qed.

Lemma mapM_lookup_ok : forall rv e ks w found w',
  mapM (fun k w => match kv_lookup (w_kv w) k with
                   | Some v => (Ok [to_kv_item rv (k, v)], w)
                   | None => if default true e
                             then (Throw (Error "Some items not found"), w)
                             else (Ok [], w)
                   end) ks w = (Ok found, w') ->
  w' = w
  /\ List.concat found
     = flat_map (fun k => match kv_lookup (w_kv w) k with
                          | Some v => [to_kv_item rv (k, v)]
                          | None => []
                          end) ks.
Proof.
  intros rv e ks. induction ks as [|k ks IH]; intros w found w' H; simpl in H.
  - injection H as <- <-. split; reflexivity.
  - apply bind_inv_ok in H. destruct H as [y [w1 [Hy H]]].
    apply bind_inv_ok in H. destruct H as [ys [w2 [Hys H]]].
    injection H as <- <-.
    assert (Hw : w1 = w /\ y = match kv_lookup (w_kv w) k with
                               | Some v => [to_kv_item rv (k, v)]
                               | None => []
                               end).
    { destruct (kv_lookup (w_kv w) k); [|destruct (default true e)];
        try discriminate Hy; injection Hy as <- <-; split; reflexivity. }
    destruct Hw as [-> ->]. apply IH in Hys. destruct Hys as [-> E].
    split; [reflexivity|]. simpl. rewrite E. reflexivity.
Qed.

(** ** [findAndDelete] with an order *)

Lemma last_In : forall (A : Type) (l : list A) x d, In (last (x :: l) d) (x :: l).
Proof.
  intros A l. induction l as [|y l IH]; intros x d; [left; reflexivity|].
  right. apply (IH y d).
Qed.

(** A [find] with an order that asks for no property: the items hold no
    value, and the backend is as it was. *)
Lemma find_ordered_without_values :
  forall name collections fuel self collection o p ps w items w',
    flag_of hasBeenInitialized self w = true ->
    o_properties o = PropsArray [] ->
    o_order o = Some (p :: ps) ->
    find name collections (S fuel) self (ByObject collection) (Some o) w
    = (Ok items, w') ->
    w_kv w' = w_kv w
    /\ w_root w' = w_root w /\ w_tx w' = w_tx w
    /\ forall item, In item items -> it_value item = None.
Proof.
  intros name collections fuel self collection o p ps w items w' Hf Hp Ho H.
  unfold find, Open.find in H.
  rewrite (bind_ok _ _ _ _ _ collection w eq_refl) in H.
  assert (Hn : normalizeOptions (Some o) w = (Ok o, w)).
  { unfold normalizeOptions. rewrite Hp. reflexivity. }
  rewrite (bind_ok _ _ _ _ _ _ _ Hn) in H.
  rewrite Ho in H. change (isEmpty_order (Some (p :: ps))) with false in H.
  rewrite orb_true_r in H. unfold Open._findWithIndex in H.
  apply bind_inv_ok in H. destruct H as [index [wi [Hix H]]].
  pose proof (pure_inv_ok _ _ _ _ _ (pure_findIndexForQueryAndOrder _ _ _) Hix) as ->.
  rewrite (bind_ok _ _ _ _ _ _ _
             (initializeDocumentStore_idle name collections fuel self w (or_introl Hf)))
    in H.
  apply bind_inv_ok in H. destruct H as [found [wf [Hk H]]].
  apply kv_find_inv_ok in Hk. destruct Hk as [-> ->].
  rewrite Hp in H. simpl in H. injection H as <- <-.
  repeat split. intros item Hin. apply in_map_iff in Hin.
  destruct Hin as [x [<- _]]. reflexivity.
Qed.

Lemma makeOrderKey_undefined : forall k p ps w,
  makeOrderKey k JUndefined (Some (p :: ps)) w
  = (Throw (TypeError "Cannot read property of undefined"), w).
Proof. reflexivity. Qed.

(** X15.  On an initialized store, a [findAndDelete] whose options hold an
    order returns only when its selection is empty: it returns 0 and leaves
    the backend as it was.  It asks [forEach] for items without values, and
    [forEach] reads the order properties of the value of the last item of
    a batch, so that a selection that is not empty ends in a [TypeError]
    once the callback has run on the first batch. *)
Theorem ordered_findAndDelete_returns_nothing :
  forall name collections fuel self target o p ps w n w',
    flag_of hasBeenInitialized self w = true ->
    o_order o = Some (p :: ps) ->
    findAndDelete name collections fuel self target (Some o) w = (Ok n, w') ->
    n = 0 /\ w_kv w' = w_kv w.
Proof.
  intros name collections fuel self target o p ps w n w' Hf Ho H.
  unfold findAndDelete in H.
  apply bind_inv_ok in H. destruct H as [collection [w1 [Hc H]]].
  pose proof (pure_inv_ok _ _ _ _ _ (pure_normalizeCollection _ _) Hc) as ->.
  apply bind_inv_ok in H. destruct H as [o1 [w1 [Ho1 H]]].
  pose proof (pure_inv_ok _ _ _ _ _ (pure_normalizeOptions _) Ho1) as ->.
  assert (Ho1' : o_order o1 = Some (p :: ps)).
  { unfold normalizeOptions in Ho1. destruct (o_properties o);
      try discriminate Ho1; injection Ho1 as <-; exact Ho. }
  unfold forEach_counting in H.
  rewrite (bind_ok _ _ _ _ _ collection w eq_refl) in H.
  rewrite (bind_ok _ _ _ _ _ (set_properties (PropsArray []) o1) w eq_refl) in H.
  destruct fuel as [|fuel]; [discriminate H|].
  simpl forEach_counting_loop in H.
  apply bind_inv_ok in H. destruct H as [items [w2 [Hfind H]]].
  apply (find_ordered_without_values name collections fuel self collection _ p ps)
    in Hfind; [|exact Hf|reflexivity|exact Ho1'].
  destruct Hfind as [Hk [_ [_ Hv]]].
  destruct items as [|first rest].
  - injection H as <- <-. split; [reflexivity | exact Hk].
  - exfalso. apply bind_inv_ok in H. destruct H as [s [w3 [_ H]]].
    apply bind_inv_ok in H. destruct H as [startAfter [w4 [Hm _]]].
    assert (E : it_value_js (last (first :: rest) first) = JUndefined).
    { unfold it_value_js. rewrite (Hv _ (last_In _ rest first first)). reflexivity. }
    rewrite E in Hm. change (o_order (set_batch _ _ (set_properties _ o1)))
      with (o_order o1) in Hm.
    rewrite Ho1', makeOrderKey_undefined in Hm. discriminate Hm.
Qed.

(** An empty collection, and the collection of the fast-path scenario,
    whose one item is deleted before the [TypeError]. *)
Lemma ordered_findAndDelete_returns_nothing_witness :
  let o := {| o_properties := PropsMissing; o_query := None;
              o_order := Some ["lastName"]; o_start := None; o_startAfter := None;
              o_end := None; o_endBefore := None; o_reverse := false;
              o_limit := None; o_batchSize := None; o_errorIfMissing := None;
              o_createIfMissing := None; o_errorIfExists := None |} in
  let run := findAndDelete "S" [People] 1 Root (ByName "People") (Some o)
                           initialized_world in
  (fst run = Ok 0 /\ w_kv (snd run) = w_kv initialized_world)
  /\ fst (findAndDelete "S" [People_wide] 1 Root (ByName "People") (Some o) wide_world)
     = Throw (TypeError "Cannot read property of undefined").
Proof.
  intros o run. split; [|reflexivity].
  destruct (ordered_findAndDelete_returns_nothing "S" [People] 1 Root (ByName "People")
              o "lastName" [] initialized_world 0 (snd run) eq_refl eq_refl eq_refl)
    as [_ Hk].
  split; [reflexivity | exact Hk].
Defined.

(** ** Operations on a transaction view *)

(** X16.  On an initialized store, a [put] called on the view of a
    [transaction] joins the transaction of the view: a [put] on the store
    that returns and the same [put] made alone in a [transaction] end in the
    same world, with one backend transaction around the same operations. *)
Theorem put_joins_the_transaction :
  forall name collections fuel target k item options w w',
    flag_of hasBeenInitialized Root w = true ->
    put name collections (S fuel) Root target k item options w = (Ok tt, w') ->
    transaction name collections (S fuel) Root
      (fun tr => put name collections (S fuel) tr target k item options) w
    = (Ok tt, w')
    /\ count_if (fun e => match e with EKv KBegin => true | _ => false end)
                (performed w w') = 1.
Proof.
  intros name collections fuel target k item options w w' Hf H.
  pose proof (initializeDocumentStore_idle name collections fuel Root w (or_introl Hf))
    as Hi.
  unfold put, Open.put in H.
  apply bind_inv_ok in H. destruct H as [collection [w1 [Hc H]]].
  pose proof (pure_inv_ok _ _ _ _ _ (pure_normalizeCollection _ _) Hc) as ->.
  apply bind_inv_ok in H. destruct H as [k' [w1 [Hk H]]].
  pose proof (normalizeKey_anywhere _ _ _ _ w Hk) as Hk'.
  apply normalizeKey_ok in Hk. destruct Hk as [-> ->].
  apply bind_inv_ok in H. destruct H as [item' [w1 [Hitem H]]].
  pose proof Hitem as Hitem'.
  apply normalizeItem_ok in Hitem'. destruct Hitem' as [-> ->].
  apply bind_inv_ok in H. destruct H as [o [w1 [Ho H]]].
  pose proof (pure_inv_ok _ _ _ _ _ (pure_normalizeOptions _) Ho) as ->.
  rewrite (bind_ok _ _ _ _ _ _ _ Hi) in H.
  unfold Open.transaction in H.
  change (insideTransaction Root) with false in H. cbv iota in H.
  rewrite (bind_ok _ _ _ _ _ _ _ Hi) in H.
  pose proof H as Hrun.
  apply kv_transaction_inv_ok in H. destruct H as [w2 [Hcb ->]].
  split.
  - unfold transaction, Open.transaction.
    change (insideTransaction Root) with false. cbv iota.
    rewrite (bind_ok _ _ _ _ _ _ _ Hi).
    rewrite <- Hrun. unfold kv_transaction.
    set (wb := set_tx no_flags (add_log (EKv KBegin) w)).
    assert (Hfb : flag_of hasBeenInitialized Tx wb = true).
    { unfold flag_of in *. simpl. exact Hf. }
    assert (E : put name collections (S fuel) Tx target k item options wb
                = bind (kv_get (makeItemKey name collection k) (Some false))
                    (fun oldItem =>
                       bind (kv_put (makeItemKey name collection k) (VItem item)
                               (o_errorIfExists o) (o_createIfMissing o))
                         (fun _ =>
                            bind (updateIndexes name collection k (value_js oldItem) item)
                              (fun _ => emit (didPutItem (c_name collection) k item))))
                    wb).
    { unfold put, Open.put.
      rewrite (bind_ok _ _ _ _ _ _ _ (normalizeCollection_anywhere _ _ _ _ _ wb Hc)).
      rewrite (bind_ok _ _ _ _ _ _ _ (normalizeKey_anywhere _ _ _ _ wb Hk')).
      assert (Hib : normalizeItem item wb = (Ok item, wb)).
      { unfold normalizeItem in *.
        destruct (negb (truthy item && (typeof item =? "object")));
          [discriminate Hitem | reflexivity]. }
      rewrite (bind_ok _ _ _ _ _ _ _ Hib).
      assert (Hob : normalizeOptions options wb = (Ok o, wb)).
      { unfold normalizeOptions in *.
        destruct (o_properties match options with Some o' => o' | None => _ end);
          try discriminate Ho; injection Ho as <-; reflexivity. }
      rewrite (bind_ok _ _ _ _ _ _ _ Hob).
      rewrite (bind_ok _ _ _ _ _ _ _
                 (initializeDocumentStore_idle name collections fuel Tx wb
                    (or_introl Hfb))).
      reflexivity. }
    rewrite E. reflexivity.
  - apply put_callback in Hcb. destruct Hcb as [_ [l [L [_ W]]]].
    erewrite performed_app.
    2:{ simpl. rewrite L. simpl. rewrite <- !app_assoc. reflexivity. }
    unfold count_if. simpl. rewrite !filter_app. simpl.
    rewrite length_app. simpl.
    assert (Z : filter (fun e => match e with EKv KBegin => true | _ => false end) l = []).
    { rewrite <- W. clear. induction l as [|e l IH]; [reflexivity|].
      simpl. destruct e as [[] | |]; simpl; try exact IH. }
    rewrite Z. reflexivity.
Qed.

Lemma put_joins_the_transaction_witness :
  let w' := snd (put "S" [People] 1 Root (ByName "People") (JStr "u2") ada None
                     initialized_world) in
  transaction "S" [People] 1 Root
    (fun tr => put "S" [People] 1 tr (ByName "People") (JStr "u2") ada None)
    initialized_world
  = (Ok tt, w').
Proof.
  intros w'.
  apply (put_joins_the_transaction "S" [People] 0 (ByName "People") (JStr "u2") ada None
           initialized_world w' eq_refl eq_refl).
Defined.

(** ** The names of the collections of the descriptor *)

Lemma map_name_update_at : forall (g : CollectionJSON -> CollectionJSON) i cs,
  (forall x, cj_name (g x) = cj_name x) ->
  map cj_name (update_at i g cs) = map cj_name cs.
Proof.
  intros g i cs Hg. revert i. induction cs as [|c cs IH]; intros [|i]; simpl;
    try reflexivity.
  - rewrite Hg. reflexivity.
  - rewrite IH. reflexivity.
Qed.

Section DescriptorNames.

Variable name : string.
Variable collections : list Collection.
Variable fuel : nat.
Variable initialize : ctx -> M unit.
Variable self : ctx.

(** The descriptor is [record], in the backend as in memory, and its
    collections have the names [names]. *)
Let named (names : list string) (record : StoreRecord) (w : world) : Prop :=
  descriptor name w = Some record /\ map cj_name (r_collections record) = names.

Lemma migrate_added_index_names : forall c i names record index w record' w',
  named names record w ->
  Open.migrate_added_index name collections fuel initialize self c i record index w
  = (Ok record', w') ->
  named names record' w'.
Proof.
  intros c i names record index w record' w' [Hd Hn] H.
  unfold Open.migrate_added_index in H.
  destruct (List.find _ (indexes_at i record)).
  - injection H as <- <-. split; assumption.
  - apply work_save in H. destruct H as [-> Hd']. split; [exact Hd'|].
    simpl. rewrite map_name_update_at; [exact Hn | reflexivity].
Qed.

Lemma migrate_removed_index_names : forall c i names record keys w record' w',
  named names record w ->
  Open.migrate_removed_index name self c i record keys w = (Ok record', w') ->
  named names record' w'.
Proof.
  intros c i names record keys w record' w' [Hd Hn] H.
  unfold Open.migrate_removed_index in H.
  destruct (negb (existsb _ (c_indexes c))).
  - destruct (findIndex _ (indexes_at i record)) as [j|].
    + apply work_save in H. destruct H as [-> Hd']. split; [exact Hd'|].
      simpl. rewrite map_name_update_at; [exact Hn | reflexivity].
    + apply bind_inv_ok in H. destruct H as [[] [w1 [_ H]]].
      apply bind_inv_ok in H. destruct H as [[] [w2 [_ H]]]. discriminate H.
  - injection H as <- <-. split; assumption.
Qed.

Lemma foldM_named : forall (A : Type) (f : StoreRecord -> A -> M StoreRecord) names xs
    record w record' w',
  (forall record x w record' w',
     named names record w -> f record x w = (Ok record', w') -> named names record' w') ->
  named names record w ->
  foldM f xs record w = (Ok record', w') ->
  named names record' w'.
Proof.
  intros A f names xs. induction xs as [|x xs IH]; intros record w record' w' Hf Hn H.
  - injection H as <- <-. exact Hn.
  - simpl in H. apply bind_inv_ok in H. destruct H as [r1 [w1 [H1 H]]].
    apply (IH r1 w1 record' w' Hf); [|exact H]. apply (Hf record x w); assumption.
Qed.

Lemma migrate_collection_names : forall c names record w record' w',
  named names record w ->
  Open.migrate_collection name collections fuel initialize self record c w
  = (Ok record', w') ->
  named names record' w'
  \/ (~ In (c_name c) names /\ named (names ++ [c_name c]) record' w').
Proof.
  intros c names record w record' w' [Hd Hn] H. unfold Open.migrate_collection in H.
  destruct (find_with_index _ (r_collections record)) as [[i ec]|] eqn:F.
  - left. destruct (cj_hasBeenRemoved ec); [discriminate H|].
    apply bind_inv_ok in H. destruct H as [r1 [w1 [H1 H]]].
    apply (foldM_named _ _ names) in H1;
      [| intros; eapply migrate_added_index_names; eassumption | split; assumption].
    apply (foldM_named _ _ names) in H;
      [exact H | intros; eapply migrate_removed_index_names; eassumption | exact H1].
  - right. apply (work_save name unit unit _ (ret tt)) in H. destruct H as [-> Hd'].
    split.
    + intros Hin. rewrite <- Hn in Hin. apply in_map_iff in Hin.
      destruct Hin as [x [E Hx]].
      pose proof (find_with_index_none _ _ _ F x Hx) as P. simpl in P.
      rewrite E, String.eqb_refl in P. discriminate P.
    + split; [exact Hd'|]. simpl. rewrite map_app, Hn. reflexivity.
Qed.

Lemma migrate_removed_collection_names : forall names record j w record' w',
  named names record w ->
  Open.migrate_removed_collection name collections self record j w = (Ok record', w') ->
  named names record' w'.
Proof.
  intros names record j w record' w' [Hd Hn] H.
  unfold Open.migrate_removed_collection in H.
  destruct (nth_error (r_collections record) j) as [ec|];
    [|injection H as <- <-; split; assumption].
  destruct (cj_hasBeenRemoved ec); [injection H as <- <-; split; assumption|].
  destruct (List.find _ collections); [injection H as <- <-; split; assumption|].
  apply work_save in H. destruct H as [-> Hd']. split; [exact Hd'|].
  simpl. rewrite map_name_update_at; [exact Hn | reflexivity].
Qed.

Lemma migrate_names : forall r w w',
  descriptor name w = Some r ->
  NoDup (map cj_name (r_collections r)) ->
  Open.migrateDocumentStore name collections fuel initialize self w = (Ok tt, w') ->
  exists r' added,
    descriptor name w' = Some r'
    /\ map cj_name (r_collections r') = map cj_name (r_collections r) ++ added
    /\ incl added (map c_name collections)
    /\ NoDup (map cj_name (r_collections r')).
Proof.
  intros r w w' Hd Hnd H. unfold Open.migrateDocumentStore in H.
  apply bind_inv_ok in H. destruct H as [ro [w0 [Hload H]]].
  apply load_inv_ok in Hload. destruct Hload as [r' [-> [Hd' ->]]].
  rewrite Hd in Hd'. injection Hd' as <-.
  apply try_finally_inv_ok in H. destruct H as [w3 [Hbody Hstop]].
  apply bind_inv_ok in Hbody. destruct Hbody as [r0 [w0 [H0 Hbody]]].
  injection H0 as <- <-.
  apply bind_inv_ok in Hbody. destruct Hbody as [r1 [w1 [H1 Hbody]]].
  apply bind_inv_ok in Hbody. destruct Hbody as [r2 [w2 [H2 Hbody]]].
  injection Hbody as <-.
  apply (foldM_invariant _ _ _
           (fun done _ rec v =>
              exists added,
                named (map cj_name (r_collections r) ++ added) rec v
                /\ incl added (map c_name done)
                /\ NoDup (map cj_name (r_collections r) ++ added))
           collections []) in H1.
  - destruct H1 as [added [Hn1 [Hincl Hnd1]]].
    apply (foldM_named _ _ _ _ _ _ _ _ (migrate_removed_collection_names _) Hn1) in H2.
    destruct H2 as [Hd2 Hn2].
    exists r2, added. split; [|split; [exact Hn2 | split; [exact Hincl|]]].
    + pose proof (emitMigrationDidStop_world name self w2) as [E _].
      rewrite Hstop in E. simpl in E. rewrite E. exact Hd2.
    + rewrite Hn2. exact Hnd1.
  - clear. intros done c todo rec v rec' v' [added [Hn [Hincl Hnd]]] Hrun.
    destruct (migrate_collection_names c _ rec v rec' v' Hn Hrun) as [Hn' | [Hni Hn']].
    + exists added. split; [exact Hn'|]. split; [|exact Hnd].
      rewrite map_app. apply incl_appl. exact Hincl.
    + exists (added ++ [c_name c]). rewrite app_assoc. split; [exact Hn'|]. split.
      * rewrite map_app. apply incl_app; [apply incl_appl; exact Hincl|].
        apply incl_appr. simpl. apply incl_refl.
      * apply NoDup_app; [exact Hnd | repeat constructor; intros [] |].
        intros x Hx [<- | []]. exact (Hni Hx).
  - exists []. rewrite app_nil_r. split; [split; [exact Hd | reflexivity]|].
    split; [intros x [] | exact Hnd].
Qed.

End DescriptorNames.

(** X17.  The collections of the descriptor keep distinct names.  The
    descriptor that a store creates holds the declared collections, whose
    names the constructor has kept distinct, and a migration that returns
    keeps the collections of the descriptor in their order, marked as
    removed where they are no longer declared, and appends the declared
    collections that it did not hold: it never drops a collection and never
    holds two of one name. *)
Theorem descriptor_names_stay_distinct : forall name collections fuel self w r w',
  (NoDup (map c_name collections) ->
   NoDup (map cj_name (r_collections (created_record name collections))))
  /\ (descriptor name w = Some r ->
      NoDup (map cj_name (r_collections r)) ->
      migrateDocumentStore name collections fuel self w = (Ok tt, w') ->
      exists r' added,
        descriptor name w' = Some r'
        /\ map cj_name (r_collections r') = map cj_name (r_collections r) ++ added
        /\ incl added (map c_name collections)
        /\ NoDup (map cj_name (r_collections r'))).
Proof.
  intros name collections fuel self w r w'. split.
  - intros H. simpl. rewrite map_map. exact H.
  - intros Hd Hnd H. exact (migrate_names name collections fuel _ self r w w' Hd Hnd H).
Qed.

Lemma descriptor_names_stay_distinct_witness :
  exists r',
    descriptor "S" (snd (migrateDocumentStore "S" [P_collection] 2 Root created_world))
    = Some r'
    /\ map cj_name (r_collections r') = ["People"; "P"].
Proof.
  destruct (descriptor_names_stay_distinct "S" [P_collection] 2 Root created_world
              (created_record "S" [People])
              (snd (migrateDocumentStore "S" [P_collection] 2 Root created_world)))
    as [_ H].
  destruct H as [r' [added [Hd _]]].
  - reflexivity.
  - repeat constructor. intros [].
  - vm_compute. reflexivity.
  - exists r'. split; [exact Hd|].
    vm_compute in Hd. injection Hd as <-. reflexivity.
Defined.

(** ** The index entries of a deleted item *)

Lemma index_values_undefined : forall flattened index,
  index_values JUndefined flattened index
  = map (fun _ => JUndefined) (i_properties index).
Proof.
  intros flattened index. unfold index_values. apply map_ext.
  intros p. destruct (p_value p); reflexivity.
Qed.

Lemma includes_undefined_all : forall (A : Type) (ps : list A),
  ps <> [] -> includes_undefined (map (fun _ => JUndefined) ps) = true.
Proof. intros A [|p ps] H; [contradiction H; reflexivity | reflexivity]. Qed.

Lemma isEqual_defined_undefined : forall (A : Type) values (ps : list A),
  values <> [] ->
  includes_undefined values = false ->
  isEqual (JArr values) (JArr (map (fun _ => JUndefined) ps)) = false.
Proof.
  intros A [|v values] ps Hne Hu; [contradiction Hne; reflexivity|].
  destruct ps as [|p ps]; [reflexivity|].
  simpl in Hu. apply orb_false_iff in Hu. destruct Hu as [Hv _].
  simpl. destruct v; try discriminate Hv; reflexivity.
Qed.

(** The index entries through the [updateIndexes] of a deletion. *)
Lemma updateIndexes_of_deletion : forall name collection k item indexes w w',
  (forall index, In index indexes -> i_properties index <> []) ->
  forM (fun index => updateIndex name collection k item JUndefined index) indexes w
  = (Ok tt, w') ->
  w_root w' = w_root w /\ w_tx w' = w_tx w
  /\ forall key,
       kv_lookup (w_kv w') key
       = if existsb (key_eqb key)
              (map (fun index =>
                      makeIndexKey name collection index
                        (index_values item (flatten item) index) k)
                   (filter (fun index =>
                              negb (includes_undefined
                                      (index_values item (flatten item) index)))
                           indexes))
         then None
         else kv_lookup (w_kv w) key.
Proof.
  intros name collection k item indexes. unfold forM.
  induction indexes as [|index indexes IH]; intros w w' Hp H.
  - injection H as <-. repeat split.
  - simpl in H. apply bind_inv_ok in H. destruct H as [[] [w1 [H1 H]]].
    apply IH in H; [|intros x Hx; apply Hp; right; exact Hx].
    destruct H as [Hr [Ht Hk]].
    rewrite updateIndex_run in H1. cbv zeta in H1.
    rewrite index_values_undefined in H1.
    assert (Hne : i_properties index <> []) by (apply Hp; left; reflexivity).
    rewrite (includes_undefined_all _ _ Hne) in H1.
    rewrite andb_false_r in H1.
    set (values := index_values item (flatten item) index) in *.
    assert (Hv : values <> []).
    { unfold values, index_values. destruct (i_properties index);
        [contradiction Hne; reflexivity | discriminate]. }
    destruct (includes_undefined values) eqn:U.
    + rewrite andb_false_r in H1. simpl in H1. injection H1 as <-.
      split; [exact Hr|]. split; [exact Ht|]. intros key. simpl filter.
      fold values. rewrite U. simpl negb. cbv iota. apply Hk.
    + rewrite (isEqual_defined_undefined _ _ _ Hv U) in H1. simpl in H1.
      destruct (kv_lookup (w_kv w) (makeIndexKey name collection index values k));
        [|discriminate H1].
      injection H1 as <-. split; [rewrite Hr; reflexivity|].
      split; [rewrite Ht; reflexivity|].
      intros key. simpl filter. fold values. rewrite U. simpl negb. cbv iota.
      simpl map. simpl existsb. rewrite Hk. simpl w_kv. rewrite kv_lookup_remove.
      destruct (existsb (key_eqb key) _); [rewrite orb_true_r; reflexivity|].
      rewrite orb_false_r. reflexivity.
Qed.

(** The keys that a [delete] takes from the backend. *)
Lemma delete_effect :
  forall name collections fuel self target k options w w',
    flag_of hasBeenInitialized self w = true ->
    delete name collections (S fuel) self target k options w = (Ok true, w') ->
    exists collection,
      normalizeCollection collections target w = (Ok collection, w)
      /\ ((forall index, In index (c_indexes collection) -> i_properties index <> []) ->
          forall key,
            kv_lookup (w_kv w') key
            = if existsb (key_eqb key)
                   (makeItemKey name collection k
                    :: entry_keys name collection k
                         (value_js (kv_lookup (w_kv w)
                                      (makeItemKey name collection k))))
              then None
              else kv_lookup (w_kv w) key).
Proof.
  intros name collections fuel self target k options w w' Hf H.
  unfold delete, Open.delete in H.
  apply bind_inv_ok in H. destruct H as [collection [w1 [Hc H]]].
  pose proof (pure_inv_ok _ _ _ _ _ (pure_normalizeCollection _ _) Hc) as ->.
  apply bind_inv_ok in H. destruct H as [k' [w1 [Hk H]]].
  apply normalizeKey_ok in Hk. destruct Hk as [-> ->].
  apply bind_inv_ok in H. destruct H as [o [w1 [Ho1 H]]].
  pose proof (pure_inv_ok _ _ _ _ _ (pure_normalizeOptions _) Ho1) as ->.
  rewrite (bind_ok _ _ _ _ _ _ _
             (initializeDocumentStore_idle name collections fuel self w (or_introl Hf)))
    in H.
  exists collection. split; [exact Hc|]. intros Hp.
  set (itemKey := makeItemKey name collection k) in *.
  assert (G : forall v v',
            w_kv v = w_kv w ->
            (bind (kv_get itemKey (o_errorIfMissing o))
               (fun oldItem =>
                  if truthy (value_js oldItem)
                  then
                    bind (kv_delete itemKey (o_errorIfMissing o))
                      (fun hasBeenDeleted =>
                         bind (updateIndexes name collection k (value_js oldItem)
                                 JUndefined)
                           (fun _ =>
                              bind (emit (didDeleteItem (c_name collection) k
                                            (value_js oldItem)))
                                (fun _ => ret hasBeenDeleted)))
                  else ret false)) v = (Ok true, v') ->
            forall key,
              kv_lookup (w_kv v') key
              = if existsb (key_eqb key)
                     (itemKey :: entry_keys name collection k
                                   (value_js (kv_lookup (w_kv w) itemKey)))
                then None
                else kv_lookup (w_kv w) key).
  { intros v v' Hv Hrun.
    apply bind_inv_ok in Hrun. destruct Hrun as [oldItem [v1 [Hg Hrun]]].
    apply kv_get_inv_ok in Hg. destruct Hg as [-> ->]. rewrite Hv in Hrun.
    destruct (truthy (value_js (kv_lookup (w_kv w) itemKey))) eqn:T;
      [|discriminate Hrun].
    destruct (kv_lookup (w_kv w) itemKey) as [x|] eqn:K; [|discriminate T].
    assert (K' : kv_lookup (w_kv (add_log (EKv (KGet itemKey)) v)) itemKey = Some x)
      by (simpl; rewrite Hv; exact K).
    rewrite (bind_ok _ _ _ _ _ _ _ (kv_delete_present _ _ _ x K')) in Hrun.
    apply bind_inv_ok in Hrun. destruct Hrun as [[] [v2 [Hu Hrun]]].
    rewrite (bind_ok _ _ _ _ _ _ _ (emit_run _ _)) in Hrun. injection Hrun as <-.
    apply updateIndexes_of_deletion in Hu; [|exact Hp].
    destruct Hu as [_ [_ Hl]]. intros key. simpl w_kv. rewrite Hl.
    simpl w_kv. rewrite kv_lookup_remove, Hv. unfold entry_keys. simpl existsb.
    destruct (existsb (key_eqb key) _); [rewrite orb_true_r; reflexivity|].
    rewrite orb_false_r. reflexivity. }
  unfold Open.transaction in H. destruct self.
  - change (insideTransaction Root) with false in H. cbv iota in H.
    rewrite (bind_ok _ _ _ _ _ _ _
               (initializeDocumentStore_idle name collections fuel Root w
                  (or_introl Hf))) in H.
    apply kv_transaction_inv_ok in H. destruct H as [w2 [H ->]].
    apply (G (set_tx no_flags (add_log (EKv KBegin) w)) w2 eq_refl H).
  - change (insideTransaction Tx) with true in H. cbv iota in H.
    apply (G w w' eq_refl H).
Qed.

(** X18.  On an initialized store whose indexes have at least one property
    each, a [delete] that returns [true] has removed from the backend the
    item and, for every declared index whose values the item defined, the
    entry of these values and of the key, and nothing else: every other key
    is as it was. *)
Theorem delete_removes_the_item_and_its_entries :
  forall name collections fuel self target k options w w',
    flag_of hasBeenInitialized self w = true ->
    delete name collections (S fuel) self target k options w = (Ok true, w') ->
    exists collection,
      normalizeCollection collections target w = (Ok collection, w)
      /\ ((forall index, In index (c_indexes collection) -> i_properties index <> []) ->
          forall key,
            kv_lookup (w_kv w') key
            = if existsb (key_eqb key)
                   (makeItemKey name collection k
                    :: entry_keys name collection k
                         (value_js (kv_lookup (w_kv w)
                                      (makeItemKey name collection k))))
              then None
              else kv_lookup (w_kv w) key).
Proof. exact delete_effect. Qed.

Lemma delete_removes_the_item_and_its_entries_witness :
  w_kv (snd (delete "S" [People_wide] 1 Root (ByName "People") (JStr "u1") None
                    wide_world))
  = [([JStr "S"], VRecord (created_record "S" [People_wide]))]
  /\ kv_lookup
       (w_kv (snd (delete "S" [People_wide] 1 Root (ByName "People") (JStr "u1") None
                          wide_world)))
       [JStr "S"; JStr "People:lastName"; JStr "L"; JStr "u1"] = None.
Proof.
  split; [reflexivity|].
  destruct (delete_removes_the_item_and_its_entries "S" [People_wide] 0 Root
              (ByName "People") (JStr "u1") None wide_world
              (snd (delete "S" [People_wide] 1 Root (ByName "People") (JStr "u1") None
                           wide_world)) eq_refl eq_refl)
    as [collection [Hc H]].
  injection Hc as <-. rewrite H; [reflexivity|].
  intros index [<- | []]. discriminate.
Defined.

(** ** An item that is put again unchanged *)

Lemma well_formed_fields : forall fs,
  well_formed (JObj fs) = true ->
  distinct (map fst fs) = true
  /\ Forall (fun kv => well_formed (snd kv) = true) fs.
Proof.
  intros fs H. simpl in H. apply andb_true_iff in H. destruct H as [Hd H].
  split; [exact Hd|]. clear Hd. induction fs as [|[k x] fs IH]; [constructor|].
  apply andb_true_iff in H. destruct H as [Hx H].
  constructor; [exact Hx | apply IH; exact H].
Qed.

Lemma well_formed_object : forall fs,
  distinct (map fst fs) = true ->
  Forall (fun kv => well_formed (snd kv) = true) fs ->
  well_formed (JObj fs) = true.
Proof.
  intros fs Hd H. simpl. rewrite Hd. simpl. clear Hd.
  induction H as [|[k x] fs Hx H IH]; [reflexivity|].
  simpl in Hx. rewrite Hx. exact IH.
Qed.

Lemma well_formed_elements : forall xs,
  well_formed (JArr xs) = true -> Forall (fun x => well_formed x = true) xs.
Proof.
  intros xs H. simpl in H. induction xs as [|x xs IH]; [constructor|].
  apply andb_true_iff in H. destruct H as [Hx H].
  constructor; [exact Hx | apply IH; exact H].
Qed.

Lemma js_get_first : forall fs k x,
  distinct (map fst fs) = true -> In (k, x) fs ->
  js_has fs k = true /\ js_get fs k = x.
Proof.
  induction fs as [|[k0 x0] fs IH]; intros k x Hd Hin; [destruct Hin|].
  simpl in Hd. apply andb_true_iff in Hd. destruct Hd as [Hn Hd].
  simpl. destruct Hin as [E | Hin].
  - injection E as -> ->. rewrite String.eqb_refl. split; reflexivity.
  - destruct (String.eqb_spec k0 k) as [-> | _].
    + exfalso. apply negb_true_iff in Hn.
      assert (Hex : existsb (String.eqb k) (map fst fs) = true).
      { apply existsb_exists. exists k. split; [|apply String.eqb_refl].
        apply (in_map fst) in Hin. exact Hin. }
      congruence.
    + apply IH; assumption.
Qed.

(** [isEqual] holds between a value and itself. *)
Lemma isEqual_refl : forall v, well_formed v = true -> isEqual v v = true.
Proof.
  intros v. induction v using jsval_nested_ind; intros Hw; simpl;
    try reflexivity.
  - apply Bool.eqb_reflx.
  - apply Z.eqb_refl.
  - apply String.eqb_refl.
  - apply well_formed_elements in Hw.
    induction H as [|x xs Hx H IH]; [reflexivity|].
    inversion Hw as [|? ? Hwx Hws]; subst.
    rewrite (Hx Hwx). apply IH. exact Hws.
  - apply well_formed_fields in Hw. destruct Hw as [Hd Hw].
    rewrite Nat.eqb_refl. simpl.
    assert (G : forall l, incl l fs ->
                (fix go (fs0 : list (string * jsval)) : bool :=
                   match fs0 with
                   | [] => true
                   | (k, x) :: fs' =>
                       js_has fs k && isEqual x (js_get fs k) && go fs'
                   end) l = true).
    { induction l as [|[k x] l IHl]; intros Hl; [reflexivity|].
      assert (Hin : In (k, x) fs) by (apply Hl; left; reflexivity).
      destruct (js_get_first fs k x Hd Hin) as [Hh Hg].
      rewrite Hh, Hg. rewrite Forall_forall in H, Hw.
      pose proof (H (k, x) Hin (Hw (k, x) Hin)) as Hx. simpl in Hx.
      rewrite Hx. simpl.
      apply IHl. intros y Hy. apply Hl. right. exact Hy. }
    apply G. apply incl_refl.
Qed.

Lemma well_formed_array : forall xs,
  Forall (fun x => well_formed x = true) xs -> well_formed (JArr xs) = true.
Proof.
  intros xs H. simpl. induction H as [|x xs Hx H IH]; [reflexivity|].
  rewrite Hx. exact IH.
Qed.

Lemma flatten_at_well_formed : forall v path,
  well_formed v = true ->
  Forall (fun kv => well_formed (snd kv) = true) (flatten_at path v).
Proof.
  intros v. induction v using jsval_nested_ind; intros path Hw;
    try (constructor; [exact Hw | constructor]).
  - apply well_formed_elements in Hw. simpl. generalize 0%nat.
    induction H as [|x xs Hx H IH]; intros i; [constructor|].
    inversion Hw as [|? ? Hwx Hws]; subst.
    apply Forall_app. split; [apply Hx; exact Hwx | apply IH; exact Hws].
  - apply well_formed_fields in Hw. destruct Hw as [_ Hw]. simpl.
    induction H as [|[k x] fs Hx H IH]; [constructor|].
    inversion Hw as [|? ? Hwx Hws]; subst.
    apply Forall_app. split; [apply Hx; exact Hwx | apply IH; exact Hws].
Qed.

Lemma flatten_well_formed : forall item,
  well_formed item = true ->
  Forall (fun kv => well_formed (snd kv) = true) (flatten item).
Proof.
  intros item Hw. destruct item; try constructor.
  apply (flatten_at_well_formed (JObj fields) "" Hw).
Qed.

Lemma js_get_well_formed : forall o k,
  Forall (fun kv => well_formed (snd kv) = true) o -> well_formed (js_get o k) = true.
Proof.
  intros o k H. induction H as [|[k0 x] o Hx H IH]; [reflexivity|].
  simpl. destruct (k0 =? k); [exact Hx | exact IH].
Qed.

Lemma keys_js_set : forall o k v x,
  In x (map fst (js_set o k v)) -> x = k \/ In x (map fst o).
Proof.
  induction o as [|[k0 v0] o IH]; intros k v x H; simpl in *.
  - destruct H as [<- | []]. left. reflexivity.
  - destruct (String.eqb_spec k0 k) as [-> | _]; simpl in H.
    + destruct H as [<- | H]; [left; reflexivity | right; right; exact H].
    + destruct H as [<- | H]; [right; left; reflexivity|].
      destruct (IH k v x H) as [-> | H']; [left; reflexivity | right; right; exact H'].
Qed.

Lemma js_set_well_formed : forall o k v,
  well_formed (JObj o) = true -> well_formed v = true ->
  well_formed (JObj (js_set o k v)) = true.
Proof.
  intros o k v Ho Hv. apply well_formed_fields in Ho. destruct Ho as [Hd Hw].
  apply well_formed_object.
  - clear Hw. induction o as [|[k0 v0] o IH]; [reflexivity|].
    simpl in Hd. apply andb_true_iff in Hd. destruct Hd as [Hn Hd].
    simpl. destruct (String.eqb_spec k0 k) as [-> | Hne]; simpl.
    + rewrite Hn, Hd. reflexivity.
    + rewrite (IH Hd), andb_true_r. apply negb_true_iff.
      destruct (existsb (String.eqb k0) (map fst (js_set o k v))) eqn:E;
        [|reflexivity].
      apply existsb_exists in E. destruct E as [x [Hx E]].
      apply String.eqb_eq in E. subst x.
      destruct (keys_js_set _ _ _ _ Hx) as [-> | Hin]; [contradiction Hne; reflexivity|].
      apply negb_true_iff in Hn.
      assert (Hex : existsb (String.eqb k0) (map fst o) = true).
      { apply existsb_exists. exists k0. split; [exact Hin | apply String.eqb_refl]. }
      congruence.
  - clear Hd. induction Hw as [|[k0 v0] o Hx Hw IH]; simpl;
      [repeat constructor; exact Hv|].
    destruct (k0 =? k); constructor; [exact Hv | exact Hw | exact Hx | exact IH].
Qed.

Lemma project_step_well_formed : forall flattened projection k,
  Forall (fun kv => well_formed (snd kv) = true) flattened ->
  well_formed projection = true ->
  well_formed (project_step flattened projection k) = true.
Proof.
  intros flattened projection k Hf Hp. unfold project_step.
  pose proof (js_get_well_formed flattened k Hf) as Hv.
  destruct (negb (is_nullish (js_get flattened k))); [|exact Hp].
  destruct projection; try (apply well_formed_object;
    [reflexivity | repeat constructor; exact Hv]).
  apply js_set_well_formed; assumption.
Qed.

(** The two projections of an item against itself. *)
Lemma index_projections_same : forall flattened index,
  Forall (fun kv => well_formed (snd kv) = true) flattened ->
  let r := index_projections flattened flattened index in
  fst r = snd r /\ well_formed (fst r) = true.
Proof.
  intros flattened index Hf. unfold index_projections.
  destruct (i_projection index) as [ks|]; [|split; reflexivity].
  assert (G : forall ks a, well_formed a = true ->
            let r := fold_left (fun acc k =>
                                  (project_step flattened (fst acc) k,
                                   project_step flattened (snd acc) k))
                               ks (a, a) in
            fst r = snd r /\ well_formed (fst r) = true).
  { clear ks. induction ks as [|k ks IH]; intros a Ha; [split; [reflexivity | exact Ha]|].
    simpl. apply IH. apply project_step_well_formed; assumption. }
  apply G. reflexivity.
Qed.

Section Unchanged.

Variable name : string.
Variable collection : Collection.
Variable k : jsval.
Variable item : jsval.

Hypothesis item_well_formed : well_formed item = true.
Hypothesis computed_well_formed : forall index p f,
  In index (c_indexes collection) -> In p (i_properties index) ->
  p_value p = Computed f -> well_formed (f item) = true.

Lemma index_values_well_formed : forall index,
  In index (c_indexes collection) ->
  well_formed (JArr (index_values item (flatten item) index)) = true.
Proof.
  intros index Hin. apply well_formed_array. unfold index_values.
  apply Forall_forall. intros v Hv. apply in_map_iff in Hv.
  destruct Hv as [p [<- Hp]].
  destruct (p_value p) as [|f] eqn:E; unfold js_and; destruct (truthy item);
    try exact item_well_formed.
  - apply js_get_well_formed. apply flatten_well_formed. exact item_well_formed.
  - apply (computed_well_formed index p f Hin Hp E).
Qed.

Lemma updateIndex_unchanged : forall index w,
  In index (c_indexes collection) ->
  updateIndex name collection k item item index w = (Ok tt, w).
Proof.
  intros index w Hin. rewrite updateIndex_run. cbv zeta.
  rewrite (isEqual_refl _ (index_values_well_formed index Hin)).
  destruct (index_projections_same (flatten item) index
              (flatten_well_formed item item_well_formed)) as [E Hw].
  rewrite <- E, (isEqual_refl _ Hw). reflexivity.
Qed.

Lemma updateIndexes_unchanged : forall w,
  updateIndexes name collection k item item w = (Ok tt, w).
Proof.
  intros w. unfold updateIndexes, forM. apply foldM_unchanged.
  intros index Hin. apply updateIndex_unchanged. exact Hin.
Qed.

End Unchanged.

(** X19.  On an initialized store, a [put] of the item that the collection
    already holds at the key leaves the backend exactly as it was: it reads
    the item, writes it again, touches no index entry and emits
    [didPutItem].  The item is a value of JavaScript, in which an object
    holds one value for a key, as are the values of the computed index
    properties. *)
Theorem put_of_an_unchanged_item :
  forall name collections fuel self target collection k item options w w',
    flag_of hasBeenInitialized self w = true ->
    normalizeCollection collections target w = (Ok collection, w) ->
    kv_lookup (w_kv w) (makeItemKey name collection k) = Some (VItem item) ->
    well_formed item = true ->
    (forall index p f,
       In index (c_indexes collection) -> In p (i_properties index) ->
       p_value p = Computed f -> well_formed (f item) = true) ->
    put name collections (S fuel) self target k item options w = (Ok tt, w') ->
    w_kv w' = w_kv w
    /\ filter is_kv (performed w w')
       = [EKv (KGet (makeItemKey name collection k));
          EKv (KPut (makeItemKey name collection k) (VItem item))]
    /\ filter is_emit (performed w w')
       = [EEmit (didPutItem (c_name collection) k item)].
Proof.
  intros name collections fuel self target collection k item options w w'
         Hf Hc K Hw Hcomp H.
  unfold put, Open.put in H.
  rewrite (bind_ok _ _ _ _ _ _ _ Hc) in H.
  apply bind_inv_ok in H. destruct H as [k' [w1 [Hk H]]].
  apply normalizeKey_ok in Hk. destruct Hk as [-> ->].
  apply bind_inv_ok in H. destruct H as [item' [w1 [Hi H]]].
  apply normalizeItem_ok in Hi. destruct Hi as [-> ->].
  apply bind_inv_ok in H. destruct H as [o [w1 [Ho H]]].
  pose proof (pure_inv_ok _ _ _ _ _ (pure_normalizeOptions _) Ho) as ->.
  rewrite (bind_ok _ _ _ _ _ _ _
             (initializeDocumentStore_idle name collections fuel self w (or_introl Hf)))
    in H.
  set (itemKey := makeItemKey name collection k) in *.
  assert (G : forall v v',
            w_kv v = w_kv w ->
            (bind (kv_get itemKey (Some false)) (fun oldItem =>
             bind (kv_put itemKey (VItem item)
                          (o_errorIfExists o) (o_createIfMissing o)) (fun _ =>
             bind (updateIndexes name collection k (value_js oldItem) item) (fun _ =>
             emit (didPutItem (c_name collection) k item))))) v = (Ok tt, v') ->
            w_kv v' = w_kv w
            /\ w_log v' = w_log v ++ [EKv (KGet itemKey); EKv (KPut itemKey (VItem item));
                                      EEmit (didPutItem (c_name collection) k item)]).
  { intros v v' Hv Hrun.
    rewrite (bind_ok _ _ _ _ _ _ _ (kv_get_soft _ _)) in Hrun.
    apply bind_inv_ok in Hrun. destruct Hrun as [[] [v1 [Hp Hrun]]].
    apply kv_put_inv_ok in Hp.
    rewrite Hv, K in Hrun. change (value_js (Some (VItem item))) with item in Hrun.
    rewrite (bind_ok _ _ _ _ _ _ _
               (updateIndexes_unchanged name collection k item Hw Hcomp v1)) in Hrun.
    rewrite emit_run in Hrun. injection Hrun as <-. subst v1. simpl.
    rewrite Hv, (kv_insert_same_value _ _ _ K). split; [reflexivity|].
    rewrite <- !app_assoc. reflexivity. }
  unfold Open.transaction in H. destruct self.
  - change (insideTransaction Root) with false in H. cbv iota in H.
    rewrite (bind_ok _ _ _ _ _ _ _
               (initializeDocumentStore_idle name collections fuel Root w
                  (or_introl Hf))) in H.
    apply kv_transaction_inv_ok in H. destruct H as [w2 [H ->]].
    destruct (G (set_tx no_flags (add_log (EKv KBegin) w)) w2 eq_refl H) as [Hk Hl].
    split; [exact Hk|].
    erewrite performed_app.
    2:{ simpl. rewrite Hl. simpl. rewrite <- !app_assoc. reflexivity. }
    split; reflexivity.
  - change (insideTransaction Tx) with true in H. cbv iota in H.
    destruct (G w w' eq_refl H) as [Hk Hl].
    split; [exact Hk|]. rewrite (performed_app _ _ _ Hl). split; reflexivity.
Qed.

Lemma put_of_an_unchanged_item_witness :
  w_kv (snd (put "S" [People_wide] 1 Root (ByName "People") (JStr "u1") ada_aged None
                 wide_world))
  = w_kv wide_world.
Proof.
  apply (put_of_an_unchanged_item "S" [People_wide] 0 Root (ByName "People") People_wide
           (JStr "u1") ada_aged None wide_world
           (snd (put "S" [People_wide] 1 Root (ByName "People") (JStr "u1") ada_aged
                     None wide_world))
           eq_refl eq_refl eq_refl eq_refl).
  - intros index p f [<- | []] [<- | []] E. discriminate E.
  - reflexivity.
Defined.

(** ** The limit of a [forEach] *)

(** X20.  [forEach] reads its batches with the batch size (250 when the
    options give none) as their limit, and goes on until a batch is empty:
    a round whose batch is empty returns, a round whose batch holds items
    calls the function on each of them and starts the next round after the
    last one.  The [limit] of the options is replaced and has no effect, on
    [forEach] and on [findAndDelete]: in a collection of two items a
    [findAndDelete] with [limit: 1] and [batchSize: 1] deletes both, in
    three scans. *)
Theorem forEach_ignores_the_limit :
  (forall name collections fuel self target o limit fn w,
     forEach name collections fuel self target
             (Some (set_batch (o_batchSize o) limit o)) fn w
     = forEach name collections fuel self target (Some o) fn w
     /\ findAndDelete name collections fuel self target
                      (Some (set_batch (o_batchSize o) limit o)) w
        = findAndDelete name collections fuel self target (Some o) w)
  /\ (forall name collections fuel self target options fn w collection o,
        normalizeCollection collections target w = (Ok collection, w) ->
        normalizeOptions options w = (Ok o, w) ->
        let batchSize := match o_batchSize o with
                         | Some (S b) => S b
                         | _ => 250%nat
                         end in
        forEach name collections fuel self target options fn w
        = Open.forEach_loop name collections
            (initializeDocumentStore name collections fuel) fuel self collection
            (set_batch (Some batchSize) (Some batchSize) o) fn w
        /\ o_limit (set_batch (Some batchSize) (Some batchSize) o) = Some batchSize)
  /\ (forall name collections fuel n self collection options fn w w1,
        find name collections fuel self (ByObject collection) (Some options) w
        = (Ok [], w1) ->
        Open.forEach_loop name collections
          (initializeDocumentStore name collections fuel) (S n) self collection
          options fn w
        = (Ok tt, w1))
  /\ (forall name collections fuel n self collection options fn w first rest w1,
        find name collections fuel self (ByObject collection) (Some options) w
        = (Ok (first :: rest), w1) ->
        Open.forEach_loop name collections
          (initializeDocumentStore name collections fuel) (S n) self collection
          options fn w
        = bind (forM (fun item => fn (it_value_js item) (it_key item)) (first :: rest))
            (fun _ =>
               bind (makeOrderKey (it_key (last (first :: rest) first))
                       (it_value_js (last (first :: rest) first)) (o_order options))
                 (fun startAfter =>
                    Open.forEach_loop name collections
                      (initializeDocumentStore name collections fuel) n self collection
                      (resume_after startAfter options) fn)) w1)
  /\ (let two :=
        snd (put "S" [People] 2 Root (ByName "People") (JStr "u2")
                 (JObj [("lastName", JStr "M")]) None
                 (snd (put "S" [People] 2 Root (ByName "People") (JStr "u1") ada None
                           empty_world))) in
      let r := findAndDelete "S" [People] 4 Root (ByName "People")
                 (Some (set_batch (Some 1%nat) (Some 1%nat) empty_options)) two in
      fst r = Ok 2%nat
      /\ w_kv (snd r) = [([JStr "S"], VRecord (created_record "S" [People]))]
      /\ filter is_write (performed two (snd r))
         = [EKv (KDelete [JStr "S"; JStr "People"; JStr "u1"]);
            EKv (KDelete [JStr "S"; JStr "People:lastName"; JStr "L"; JStr "u1"]);
            EKv (KDelete [JStr "S"; JStr "People"; JStr "u2"]);
            EKv (KDelete [JStr "S"; JStr "People:lastName"; JStr "M"; JStr "u2"])]
      /\ count_if (fun e => match e with EKv (KFind _) => true | _ => false end)
           (performed two (snd r)) = 3%nat).
Proof.
  split; [|split; [|split; [|split]]].
  - intros name collections fuel self target o limit fn w. split.
    + unfold forEach, Open.forEach, bind.
      destruct (normalizeCollection collections target w) as [[c | e |] w1];
        try reflexivity.
      unfold normalizeOptions. simpl.
      destruct (o_properties o); reflexivity.
    + unfold findAndDelete, forEach_counting, bind.
      destruct (normalizeCollection collections target w) as [[c | e |] w1];
        try reflexivity.
      unfold normalizeOptions. simpl.
      destruct (o_properties o); reflexivity.
  - intros name collections fuel self target options fn w collection o Hc Ho batchSize.
    split; [|reflexivity].
    unfold forEach, Open.forEach.
    rewrite (bind_ok _ _ _ _ _ _ _ Hc), (bind_ok _ _ _ _ _ _ _ Ho). reflexivity.
  - intros name collections fuel n self collection options fn w w1 H.
    cbn [Open.forEach_loop]. unfold find in H.
    rewrite (bind_ok _ _ _ _ _ _ _ H). reflexivity.
  - intros name collections fuel n self collection options fn w first rest w1 H.
    cbn [Open.forEach_loop]. unfold find in H.
    rewrite (bind_ok _ _ _ _ _ _ _ H). reflexivity.
  - vm_compute. repeat split.
Qed.

Lemma forEach_ignores_the_limit_witness :
  forEach "S" [People] 1 Root (ByName "People") None (fun _ _ => ret tt)
          initialized_world
  = (Ok tt,
     snd (find "S" [People] 1 Root (ByObject People)
               (Some (set_batch (Some 250%nat) (Some 250%nat) (set_properties PropsStar empty_options)))
               initialized_world)).
Proof.
  destruct forEach_ignores_the_limit as [_ [H2 [H3 _]]].
  destruct (H2 "S" [People] 1%nat Root (ByName "People") None (fun _ _ => ret tt)
              initialized_world People (set_properties PropsStar empty_options)
              eq_refl eq_refl) as [E _].
  rewrite E.
  apply (H3 "S" [People] 1%nat 0%nat Root People).
  reflexivity.
Defined.

(** ** An item that is put and deleted *)

Lemma isEqual_undefined_defined : forall (A : Type) (ps : list A) values,
  values <> [] ->
  includes_undefined values = false ->
  isEqual (JArr (map (fun _ => JUndefined) ps)) (JArr values) = false.
Proof.
  intros A ps [|v values] Hne Hu; [contradiction Hne; reflexivity|].
  destruct ps as [|p ps]; [reflexivity|].
  simpl in Hu. apply orb_false_iff in Hu. destruct Hu as [Hv _].
  simpl. destruct v; try discriminate Hv; reflexivity.
Qed.

(** The index entries through the [updateIndexes] of an item that is
    new. *)
Lemma updateIndexes_of_insertion : forall name collection k item indexes w w',
  (forall index, In index indexes -> i_properties index <> []) ->
  forM (fun index => updateIndex name collection k JUndefined item index) indexes w
  = (Ok tt, w') ->
  forall key,
    existsb (key_eqb key)
      (map (fun index =>
              makeIndexKey name collection index
                (index_values item (flatten item) index) k)
           (filter (fun index =>
                      negb (includes_undefined (index_values item (flatten item) index)))
                   indexes)) = false ->
    kv_lookup (w_kv w') key = kv_lookup (w_kv w) key.
Proof.
  intros name collection k item indexes. unfold forM.
  induction indexes as [|index indexes IH]; intros w w' Hp H key Hkey.
  - injection H as <-. reflexivity.
  - simpl in H. apply bind_inv_ok in H. destruct H as [[] [w1 [H1 H]]].
    simpl filter in Hkey.
    set (values := index_values item (flatten item) index) in *.
    assert (Hne : i_properties index <> []) by (apply Hp; left; reflexivity).
    rewrite updateIndex_run in H1. cbv zeta in H1.
    rewrite index_values_undefined in H1.
    rewrite (includes_undefined_all _ _ Hne) in H1.
    rewrite andb_false_r in H1. fold values in H1. simpl in H1.
    destruct (includes_undefined values) eqn:U.
    + rewrite andb_false_r in H1. injection H1 as <-.
      apply (IH w w'); [intros x Hx; apply Hp; right; exact Hx | exact H | exact Hkey].
    + simpl in Hkey. apply orb_false_iff in Hkey. destruct Hkey as [Hk Hkey].
      rewrite (IH w1 w' (fun x Hx => Hp x (or_intror Hx)) H key Hkey).
      destruct ((negb _ || negb _) && negb false); injection H1 as <-;
        [|reflexivity].
      simpl. apply kv_lookup_insert_other. intros E. subst key.
      rewrite key_eqb_refl in Hk. discriminate Hk.
Qed.

(** The keys that a [put] of a new item leaves untouched. *)
Lemma put_effect_new : forall name collections fuel self target collection k item options
    w w',
  flag_of hasBeenInitialized self w = true ->
  normalizeCollection collections target w = (Ok collection, w) ->
  (forall index, In index (c_indexes collection) -> i_properties index <> []) ->
  kv_lookup (w_kv w) (makeItemKey name collection k) = None ->
  put name collections (S fuel) self target k item options w = (Ok tt, w') ->
  forall key,
    existsb (key_eqb key)
      (makeItemKey name collection k :: entry_keys name collection k item) = false ->
    kv_lookup (w_kv w') key = kv_lookup (w_kv w) key.
Proof.
  intros name collections fuel self target collection k item options w w'
         Hf Hc Hp K H key Hkey.
  unfold put, Open.put in H.
  rewrite (bind_ok _ _ _ _ _ _ _ Hc) in H.
  apply bind_inv_ok in H. destruct H as [k' [w1 [Hk H]]].
  apply normalizeKey_ok in Hk. destruct Hk as [-> ->].
  apply bind_inv_ok in H. destruct H as [item' [w1 [Hi H]]].
  apply normalizeItem_ok in Hi. destruct Hi as [-> ->].
  apply bind_inv_ok in H. destruct H as [o [w1 [Ho H]]].
  pose proof (pure_inv_ok _ _ _ _ _ (pure_normalizeOptions _) Ho) as ->.
  rewrite (bind_ok _ _ _ _ _ _ _
             (initializeDocumentStore_idle name collections fuel self w (or_introl Hf)))
    in H.
  set (itemKey := makeItemKey name collection k) in *.
  simpl in Hkey. apply orb_false_iff in Hkey. destruct Hkey as [Hik Hkey].
  assert (G : forall v v',
            w_kv v = w_kv w ->
            (bind (kv_get itemKey (Some false)) (fun oldItem =>
             bind (kv_put itemKey (VItem item)
                          (o_errorIfExists o) (o_createIfMissing o)) (fun _ =>
             bind (updateIndexes name collection k (value_js oldItem) item) (fun _ =>
             emit (didPutItem (c_name collection) k item))))) v = (Ok tt, v') ->
            kv_lookup (w_kv v') key = kv_lookup (w_kv w) key).
  { intros v v' Hv Hrun.
    rewrite (bind_ok _ _ _ _ _ _ _ (kv_get_soft _ _)) in Hrun.
    apply bind_inv_ok in Hrun. destruct Hrun as [[] [v1 [Hput Hrun]]].
    apply kv_put_inv_ok in Hput.
    rewrite Hv, K in Hrun. change (value_js None) with JUndefined in Hrun.
    apply bind_inv_ok in Hrun. destruct Hrun as [[] [v2 [Hu Hrun]]].
    rewrite emit_run in Hrun. injection Hrun as <-.
    apply (updateIndexes_of_insertion _ _ _ _ _ _ _ Hp) with (key := key) in Hu;
      [|exact Hkey].
    simpl. rewrite Hu, Hput. simpl. rewrite Hv.
    apply kv_lookup_insert_other. intros E. subst key.
    rewrite key_eqb_refl in Hik. discriminate Hik. }
  unfold Open.transaction in H. destruct self.
  - change (insideTransaction Root) with false in H. cbv iota in H.
    rewrite (bind_ok _ _ _ _ _ _ _
               (initializeDocumentStore_idle name collections fuel Root w
                  (or_introl Hf))) in H.
    apply kv_transaction_inv_ok in H. destruct H as [w2 [H ->]].
    apply (G (set_tx no_flags (add_log (EKv KBegin) w)) w2 eq_refl H).
  - change (insideTransaction Tx) with true in H. cbv iota in H.
    apply (G w w' eq_refl H).
Qed.

(** X21.  On an initialized store whose indexes have at least one property
    each, a [delete] undoes the [put] of a new item: when the backend held
    neither the item nor an entry at the keys of its index entries, after a
    [put] that returned and a [delete] of the same key that returned [true]
    every key of the backend holds what it held before the [put]. *)
Theorem delete_undoes_put :
  forall name collections fuel fuel' self target collection k item options options'
         w w1 w2,
    flag_of hasBeenInitialized self w = true ->
    normalizeCollection collections target w = (Ok collection, w) ->
    (forall index, In index (c_indexes collection) -> i_properties index <> []) ->
    kv_lookup (w_kv w) (makeItemKey name collection k) = None ->
    (forall key, In key (entry_keys name collection k item) ->
                 kv_lookup (w_kv w) key = None) ->
    put name collections (S fuel) self target k item options w = (Ok tt, w1) ->
    delete name collections (S fuel') self target k options' w1 = (Ok true, w2) ->
    forall key, kv_lookup (w_kv w2) key = kv_lookup (w_kv w) key.
Proof.
  intros name collections fuel fuel' self target collection k item options options'
         w w1 w2 Hf Hc Hp K Hentries Hput Hdel key.
  destruct (put_inv_ok _ _ _ _ _ _ _ _ _ _ Hf Hput) as [c [Hc' [_ [K1 Hf1]]]].
  rewrite Hc in Hc'. injection Hc' as <-.
  destruct (delete_effect _ _ _ _ _ _ _ _ _ Hf1 Hdel) as [c [Hc1 Hd]].
  rewrite (normalizeCollection_anywhere _ _ _ _ _ w1 Hc) in Hc1. injection Hc1 as <-.
  rewrite (Hd Hp key). rewrite K1. change (value_js (Some (VItem item))) with item.
  destruct (existsb (key_eqb key)
              (makeItemKey name collection k :: entry_keys name collection k item))
    eqn:E.
  - apply existsb_exists in E. destruct E as [x [Hx E]].
    apply key_eqb_eq in E. subst x. destruct Hx as [<- | Hx].
    + symmetry. exact K.
    + symmetry. apply Hentries. exact Hx.
  - apply (put_effect_new name collections fuel self target collection k item options
             w w1 Hf Hc Hp K Hput key E).
Qed.

Lemma delete_undoes_put_witness :
  let w1 := snd (put "S" [People_wide] 1 Root (ByName "People") (JStr "u2") ada_aged
                     None wide_world) in
  let w2 := snd (delete "S" [People_wide] 1 Root (ByName "People") (JStr "u2") None w1) in
  kv_lookup (w_kv w2) [JStr "S"; JStr "People:lastName"; JStr "L"; JStr "u1"]
  = kv_lookup (w_kv wide_world)
              [JStr "S"; JStr "People:lastName"; JStr "L"; JStr "u1"].
Proof.
  intros w1 w2.
  apply (delete_undoes_put "S" [People_wide] 0 0 Root (ByName "People") People_wide
           (JStr "u2") ada_aged None None wide_world w1 w2 eq_refl eq_refl).
  - intros index [<- | []]. discriminate.
  - reflexivity.
  - intros key [<- | []]. reflexivity.
  - reflexivity.
  - reflexivity.
Defined.

(** ** The items of a collection *)

(** X22.  On an initialized store, a [find] without options returns the
    entries of the backend under the prefix of the collection, in key order,
    each under the last element of its key and with its value, and stops
    after 50000 of them: every item that the collection holds is returned
    when there are no more entries than that under the prefix.  The call
    leaves the backend as it was. *)
Theorem find_returns_the_collection :
  forall name collections fuel self target w items w',
    flag_of hasBeenInitialized self w = true ->
    find name collections (S fuel) self target None w = (Ok items, w') ->
    exists collection,
      normalizeCollection collections target w = (Ok collection, w)
      /\ (let entries :=
            sort_entries
              (filter (fun e => has_prefix [JStr name; JStr (c_name collection)] (fst e))
                      (w_kv w)) in
          items = map (fun e => {| it_key := js_last (fst e);
                                   it_value := Some (value_js (Some (snd e))) |})
                      (firstn default_limit entries)
          /\ (List.length entries <= default_limit ->
              forall k item,
                kv_lookup (w_kv w) (makeItemKey name collection k) = Some (VItem item) ->
                In {| it_key := k; it_value := Some item |} items))
      /\ (forall it, In it items ->
            exists key v,
              In (key, v) (w_kv w)
              /\ has_prefix [JStr name; JStr (c_name collection)] key = true
              /\ it_key it = js_last key
              /\ it_value it = Some (value_js (Some v)))
      /\ w_kv w' = w_kv w.
Proof.
  intros name collections fuel self target w items w' Hf H.
  unfold find, Open.find in H.
  apply bind_inv_ok in H. destruct H as [collection [w1 [Hc H]]].
  pose proof (pure_inv_ok _ _ _ _ _ (pure_normalizeCollection _ _) Hc) as ->.
  exists collection. split; [exact Hc|].
  rewrite (bind_ok _ _ _ _ _ (set_properties PropsStar empty_options) w eq_refl) in H.
  change (negb (isEmpty_query _) || negb (isEmpty_order _)) with false in H.
  cbv iota in H.
  rewrite (bind_ok _ _ _ _ _ _ _
             (initializeDocumentStore_idle name collections fuel self w (or_introl Hf)))
    in H.
  apply bind_inv_ok in H. destruct H as [found [wf [Hk H]]].
  apply kv_find_inv_ok in Hk. destruct Hk as [-> ->].
  injection H as <- <-.
  set (prefix := [JStr name; JStr (c_name collection)]).
  rewrite kv_select_limited.
  assert (S : kv_select (set_limit None
                           (scan_of (set_properties PropsStar empty_options) prefix
                              (wants_values PropsStar))) (w_kv w)
              = sort_entries (filter (fun e => has_prefix prefix (fst e)) (w_kv w))).
  { unfold kv_select. simpl. f_equal. apply filter_ext. intros e.
    unfold within_bounds. simpl. rewrite !andb_true_r. reflexivity. }
  match goal with
  | |- context [kv_select (set_limit None ?o) (w_kv w)] =>
      replace (kv_select (set_limit None o) (w_kv w))
        with (sort_entries (filter (fun e => has_prefix prefix (fst e)) (w_kv w)))
        by (symmetry; exact S)
  end.
  cbn [fo_limit scan_of o_limit set_properties empty_options].
  set (entries := sort_entries (filter (fun e => has_prefix prefix (fst e)) (w_kv w))).
  match goal with
  | |- context [map (to_Item ?a) (map (to_kv_item ?b) ?l)] =>
      replace (map (to_Item a) (map (to_kv_item b) l))
        with (map (fun e : key * kvalue =>
                     {| it_key := js_last (fst e);
                        it_value := Some (value_js (Some (snd e))) |})
                  (firstn default_limit entries))
        by (symmetry; rewrite map_map; apply map_ext; intros [key v];
            destruct v; reflexivity)
  end.
  split; [split; [reflexivity|] | split; [|reflexivity]].
  - intros Hlen k item K. rewrite firstn_all2 by exact Hlen.
    apply kv_lookup_In in K. apply in_map_iff.
    exists (makeItemKey name collection k, VItem item). split; [reflexivity|].
    apply (proj2 (In_sort_entries_iff _ _)). apply filter_In. split; [exact K|].
    simpl. rewrite !String.eqb_refl. reflexivity.
  - intros it Hin. apply in_map_iff in Hin.
    destruct Hin as [[key v] [<- Hin]]. apply In_firstn in Hin.
    apply (proj1 (In_sort_entries_iff _ _)) in Hin. apply filter_In in Hin.
    destruct Hin as [Hin Hp]. exists key, v. split; [exact Hin|].
    split; [exact Hp|]. split; reflexivity.
Qed.

Lemma find_returns_the_collection_witness :
  In {| it_key := JStr "u1"; it_value := Some ada_aged |}
     (match fst (find "S" [People_wide] 1 Root (ByName "People") None wide_world) with
      | Ok items => items
      | _ => []
      end).
Proof.
  destruct (find_returns_the_collection "S" [People_wide] 0 Root (ByName "People")
              wide_world
              [{| it_key := JStr "u1"; it_value := Some ada_aged |}]
              (snd (find "S" [People_wide] 1 Root (ByName "People") None wide_world))
              eq_refl eq_refl) as [collection [Hc [[_ H] _]]].
  injection Hc as <-.
  apply H; [|reflexivity].
  apply Nat.leb_le. vm_compute. reflexivity.
Defined.

(** ** The prefixes of collections and of indexes *)

Lemma has_colon_append : forall s1 s2,
  has_colon (s1 ++ s2) = has_colon s1 || has_colon s2.
Proof.
  induction s1 as [|c s1 IH]; intros s2; simpl; [reflexivity|].
  rewrite IH, orb_assoc. reflexivity.
Qed.

Lemma has_colon_index_collection : forall collectionName indexName,
  has_colon (makeIndexCollectionName collectionName indexName) = true.
Proof.
  intros c i. unfold makeIndexCollectionName. rewrite !has_colon_append. simpl.
  rewrite orb_true_r. reflexivity.
Qed.

(** X23.  A scan under the prefix of a collection whose name holds no colon
    meets no index entry, of any collection, and no item of a collection of
    another name: the second element of the key of an index entry holds a
    colon, and that of an item is the name of its collection. *)
Theorem collection_prefix_is_its_own :
  forall name (scanned collection : Collection) index values k,
    has_colon (c_name scanned) = false ->
    has_prefix [JStr name; JStr (c_name scanned)]
               (makeIndexKey name collection index values k) = false
    /\ (c_name collection <> c_name scanned ->
        has_prefix [JStr name; JStr (c_name scanned)] (makeItemKey name collection k)
        = false)
    /\ has_prefix [JStr name; JStr (c_name scanned)] (makeItemKey name scanned k) = true.
Proof.
  intros name scanned collection index values k Hs. split; [|split].
  - unfold makeIndexKey. simpl. rewrite String.eqb_refl. simpl.
    destruct (String.eqb_spec (c_name scanned)
                (makeIndexCollectionName (c_name collection)
                   (makeIndexName (i_keys index)))) as [E | _]; [|reflexivity].
    rewrite E, has_colon_index_collection in Hs. discriminate Hs.
  - intros Hne. simpl. rewrite String.eqb_refl. simpl.
    destruct (String.eqb_spec (c_name scanned) (c_name collection)) as [E | _];
      [|reflexivity].
    contradiction Hne. symmetry. exact E.
  - simpl. rewrite !String.eqb_refl. reflexivity.
Qed.

Lemma collection_prefix_is_its_own_witness :
  has_prefix [JStr "S"; JStr "People"]
    (makeIndexKey "S" People lastName_index [JStr "L"] (JStr "u1")) = false.
Proof.
  apply (collection_prefix_is_its_own "S" People People lastName_index [JStr "L"]
           (JStr "u1") eq_refl).
Defined.

(** * The entries of the indexes *)

(** ** Scalars and deep comparison *)

Lemma isEqual_scalar : forall a b,
  is_scalar a = true -> isEqual a b = true -> a = b.
Proof.
  intros a b Ha H. destruct a; try discriminate Ha; destruct b; try discriminate H;
    simpl in H.
  - reflexivity.
  - reflexivity.
  - apply Bool.eqb_prop in H. subst. reflexivity.
  - apply Z.eqb_eq in H. subst. reflexivity.
  - apply String.eqb_eq in H. subst. reflexivity.
Qed.

Lemma isEqual_scalars : forall xs ys,
  Forall (fun x => is_scalar x = true) xs ->
  isEqual (JArr xs) (JArr ys) = true -> xs = ys.
Proof.
  intros xs ys H. revert ys. induction H as [|x xs Hx H IH]; intros [|y ys] E;
    simpl in E; try discriminate E; [reflexivity|].
  apply andb_true_iff in E. destruct E as [E1 E2].
  rewrite (isEqual_scalar x y Hx E1). f_equal. apply IH. exact E2.
Qed.

Lemma isEqual_scalars_refl : forall xs,
  Forall (fun x => is_scalar x = true) xs -> isEqual (JArr xs) (JArr xs) = true.
Proof.
  intros xs H. induction H as [|x xs Hx H IH]; [reflexivity|].
  simpl. simpl in IH. rewrite IH, andb_true_r.
  destruct x; try discriminate Hx; simpl.
  - reflexivity.
  - reflexivity.
  - apply Bool.eqb_reflx.
  - apply Z.eqb_refl.
  - apply String.eqb_refl.
Qed.

(** The leaves of a flattened value are scalars. *)
Lemma flatten_at_scalar : forall v path,
  Forall (fun kv => is_scalar (snd kv) = true) (flatten_at path v).
Proof.
  intros v. induction v using jsval_nested_ind; intros path;
    try (constructor; [reflexivity | constructor]).
  - simpl. generalize 0%nat.
    induction H as [|x xs Hx H IH]; intros i; [constructor|].
    apply Forall_app. split; [apply Hx | apply IH].
  - simpl. induction H as [|[k x] fs Hx H IH]; [constructor|].
    apply Forall_app. split; [apply Hx | apply IH].
Qed.

Lemma flatten_scalar : forall item,
  Forall (fun kv => is_scalar (snd kv) = true) (flatten item).
Proof.
  intros item. destruct item; try constructor.
  apply (flatten_at_scalar (JObj fields) "").
Qed.

Lemma js_get_scalar : forall o k,
  Forall (fun kv => is_scalar (snd kv) = true) o -> is_scalar (js_get o k) = true.
Proof.
  intros o k H. induction H as [|[k0 x] o Hx H IH]; [reflexivity|].
  simpl. destruct (k0 =? k); [exact Hx | exact IH].
Qed.

Lemma falsy_scalar : forall v, truthy v = false -> is_scalar v = true.
Proof. intros [] H; try reflexivity; discriminate H. Qed.

(** The values of an item for an index are scalars. *)
Lemma item_values_scalar : forall index item,
  scalar_valued index ->
  Forall (fun x => is_scalar x = true) (item_values index item).
Proof.
  intros index item Hs. unfold item_values, index_values.
  apply Forall_forall. intros x Hx. apply in_map_iff in Hx.
  destruct Hx as [p [<- Hp]]. unfold js_and.
  destruct (truthy item) eqn:T.
  - destruct (p_value p) as [|f] eqn:V.
    + apply js_get_scalar. apply flatten_scalar.
    + apply (Hs p f Hp V).
  - destruct (p_value p); apply falsy_scalar; exact T.
Qed.

(** ** Projections that compare equal *)

Lemma js_has_In : forall o k, js_has o k = true <-> In k (map fst o).
Proof.
  induction o as [|[k0 v0] o IH]; intros k; simpl.
  - split; [discriminate | intros []].
  - rewrite orb_true_iff, String.eqb_eq, IH. tauto.
Qed.

Lemma js_get_js_set : forall o k v k',
  js_get (js_set o k v) k' = if k =? k' then v else js_get o k'.
Proof.
  induction o as [|[k0 v0] o IH]; intros k v k'; simpl.
  - reflexivity.
  - destruct (String.eqb_spec k0 k) as [-> | Hne]; simpl.
    + destruct (k =? k'); reflexivity.
    + rewrite IH. destruct (String.eqb_spec k0 k') as [-> | _]; [|reflexivity].
      destruct (String.eqb_spec k k') as [-> | _]; [contradiction Hne|]; reflexivity.
Qed.

Lemma keys_js_set_iff : forall o k v x,
  In x (map fst (js_set o k v)) <-> x = k \/ In x (map fst o).
Proof.
  induction o as [|[k0 v0] o IH]; intros k v x; simpl.
  - intuition.
  - destruct (String.eqb_spec k0 k) as [-> | Hne]; simpl.
    + intuition.
    + rewrite IH. intuition.
Qed.

Lemma NoDup_js_set : forall o k v,
  NoDup (map fst o) -> NoDup (map fst (js_set o k v)).
Proof.
  induction o as [|[k0 v0] o IH]; intros k v H; simpl.
  - repeat constructor. intros [].
  - inversion H as [|? ? Hn Hd]; subst.
    destruct (String.eqb_spec k0 k) as [-> | Hne]; simpl.
    + constructor; assumption.
    + constructor; [|apply IH; exact Hd].
      intros Hin. apply keys_js_set_iff in Hin. destruct Hin as [E | Hin].
      * apply Hne. exact E.
      * apply Hn. exact Hin.
Qed.

Lemma In_field : forall o k,
  In k (map fst o) -> NoDup (map fst o) -> In (k, js_get o k) o.
Proof.
  induction o as [|[k0 v0] o IH]; intros k Hin Hnd; [destruct Hin|].
  inversion Hnd as [|? ? Hn Hd]; subst. simpl.
  destruct (String.eqb_spec k0 k) as [-> | Hne]; [left; reflexivity|].
  right. destruct Hin as [E | Hin]; [contradiction Hne; exact E|].
  apply IH; assumption.
Qed.

Section Projection.

Variable flat : jsobj.

(** The fields of a projection in the making. *)
Lemma project_step_fields : forall acc k,
  match project_step flat acc k with JObj o => o | _ => [] end
  = if negb (is_nullish (js_get flat k))
    then js_set (match acc with JObj o => o | _ => [] end) k (js_get flat k)
    else match acc with JObj o => o | _ => [] end.
Proof.
  intros acc k. unfold project_step.
  destruct (negb (is_nullish (js_get flat k))); [|reflexivity].
  destruct acc; reflexivity.
Qed.

Lemma project_fold_fields : forall ks acc,
  let o := match fold_left (project_step flat) ks acc with JObj o => o | _ => [] end in
  let o0 := match acc with JObj o => o | _ => [] end in
  (NoDup (map fst o0) -> NoDup (map fst o))
  /\ (forall k, In k (map fst o)
                <-> In k (map fst o0) \/ (In k ks /\ is_nullish (js_get flat k) = false))
  /\ (forall k, In k ks -> is_nullish (js_get flat k) = false ->
                js_get o k = js_get flat k).
Proof.
  induction ks as [|k0 ks IH]; intros acc; cbv zeta.
  - simpl. split; [auto|]. split; [intros k; tauto | intros k []].
  - simpl fold_left. specialize (IH (project_step flat acc k0)). cbv zeta in IH.
    destruct IH as [IH1 [IH2 IH3]]. rewrite project_step_fields in IH1, IH2.
    split; [|split].
    + intros Hnd. apply IH1.
      destruct (negb (is_nullish (js_get flat k0))); [apply NoDup_js_set|]; exact Hnd.
    + intros k. rewrite IH2.
      destruct (is_nullish (js_get flat k0)) eqn:N; simpl.
      * split.
        -- intros [H | [H1 H2]]; [left; exact H | right; split; [right; exact H1 | exact H2]].
        -- intros [H | [[E | H1] H2]];
             [left; exact H | subst k0; congruence | right; split; assumption].
      * rewrite keys_js_set_iff. split.
        -- intros [[E | H] | [H1 H2]].
           ++ subst k. right. split; [left; reflexivity | exact N].
           ++ left. exact H.
           ++ right. split; [right; exact H1 | exact H2].
        -- intros [H | [[E | H1] H2]].
           ++ left. right. exact H.
           ++ left. left. symmetry. exact E.
           ++ right. split; assumption.
    + intros k Hin Hk. destruct (in_dec string_dec k ks) as [Hks | Hks].
      * apply IH3; assumption.
      * destruct Hin as [-> | Hin]; [|contradiction].
        clear IH1 IH2 IH3.
        assert (G : forall ks' acc',
                  ~ In k ks' ->
                  js_get (match fold_left (project_step flat) ks' acc' with
                          | JObj o => o | _ => [] end) k
                  = js_get (match acc' with JObj o => o | _ => [] end) k).
        { induction ks' as [|k1 ks' IH']; intros acc' Hn; [reflexivity|].
          simpl fold_left. rewrite IH' by (intros H; apply Hn; right; exact H).
          rewrite project_step_fields.
          destruct (negb (is_nullish (js_get flat k1))); [|reflexivity].
          rewrite js_get_js_set.
          destruct (String.eqb_spec k1 k) as [E | _]; [|reflexivity].
          exfalso. apply Hn. left. exact E. }
        rewrite (G ks _ Hks), project_step_fields, Hk. simpl negb. cbv iota.
        rewrite js_get_js_set, String.eqb_refl. reflexivity.
Qed.

End Projection.

(** Two projections along the same paths agree when the flattened items
    agree on the paths that hold a value. *)
Lemma project_fold_ext : forall f1 f2 ks acc,
  (forall k, In k ks ->
     is_nullish (js_get f1 k) = is_nullish (js_get f2 k)
     /\ (is_nullish (js_get f1 k) = false -> js_get f1 k = js_get f2 k)) ->
  fold_left (project_step f1) ks acc = fold_left (project_step f2) ks acc.
Proof.
  intros f1 f2 ks. induction ks as [|k ks IH]; intros acc H; [reflexivity|].
  simpl. destruct (H k (or_introl eq_refl)) as [H1 H2].
  assert (E : project_step f1 acc k = project_step f2 acc k).
  { unfold project_step. rewrite <- H1.
    destruct (is_nullish (js_get f1 k)); [reflexivity|].
    rewrite <- (H2 eq_refl). reflexivity. }
  rewrite E. apply IH. intros k' Hk'. apply H. right. exact Hk'.
Qed.

Lemma isEqual_object_inv : forall fs gs,
  isEqual (JObj fs) (JObj gs) = true ->
  List.length fs = List.length gs
  /\ forall k x, In (k, x) fs -> js_has gs k = true /\ isEqual x (js_get gs k) = true.
Proof.
  intros fs gs H. simpl in H. apply andb_true_iff in H. destruct H as [Hl H].
  apply Nat.eqb_eq in Hl. split; [exact Hl|]. clear Hl.
  induction fs as [|[k0 x0] fs IH]; intros k x Hin; [destruct Hin|].
  apply andb_true_iff in H. destruct H as [H H'].
  apply andb_true_iff in H. destruct H as [H1 H2].
  destruct Hin as [E | Hin].
  - injection E as <- <-. split; assumption.
  - apply IH; assumption.
Qed.

(** Projections of two items along the same paths that [isEqual] finds
    equal are the same value. *)
Lemma projections_isEqual : forall f1 f2 ks,
  Forall (fun kv => is_scalar (snd kv) = true) f1 ->
  isEqual (fold_left (project_step f1) ks JUndefined)
          (fold_left (project_step f2) ks JUndefined) = true ->
  fold_left (project_step f1) ks JUndefined = fold_left (project_step f2) ks JUndefined.
Proof.
  intros f1 f2 ks Hs E.
  destruct (project_fold_fields f1 ks JUndefined) as [N1 [K1 G1]].
  destruct (project_fold_fields f2 ks JUndefined) as [N2 [K2 G2]].
  cbv zeta in *. simpl in N1, N2, K1, K2.
  specialize (N1 (NoDup_nil _)). specialize (N2 (NoDup_nil _)).
  destruct (project_fold_cases f1 ks) as [[P1 Q1] | [[kv1 [o1 P1]] _]];
    destruct (project_fold_cases f2 ks) as [[P2 Q2] | [[kv2 [o2 P2]] _]];
    rewrite P1, P2 in *; try discriminate E; [reflexivity|].
  rewrite <- P1, <- P2. apply project_fold_ext. intros k Hk.
  apply isEqual_object_inv in E. destruct E as [El Ei].
  assert (Hincl : incl (map fst (kv1 :: o1)) (map fst (kv2 :: o2))).
  { intros x Hx. apply In_field in Hx; [|exact N1].
    destruct (Ei _ _ Hx) as [Hh _]. apply js_has_In. exact Hh. }
  assert (Hincl' : incl (map fst (kv2 :: o2)) (map fst (kv1 :: o1))).
  { apply NoDup_length_incl; [exact N1 | | exact Hincl].
    rewrite !length_map. rewrite El. apply le_n. }
  destruct (is_nullish (js_get f1 k)) eqn:X1.
  - split; [|discriminate].
    destruct (is_nullish (js_get f2 k)) eqn:X2; [reflexivity|].
    assert (H2 : In k (map fst (kv2 :: o2))) by (apply K2; right; split; assumption).
    apply Hincl' in H2. apply K1 in H2. destruct H2 as [[] | [_ H2]]. congruence.
  - assert (H1 : In k (map fst (kv1 :: o1))) by (apply K1; right; split; assumption).
    pose proof (In_field _ _ H1 N1) as Hf.
    destruct (Ei _ _ Hf) as [Hh He].
    rewrite (G1 k Hk X1) in He.
    apply isEqual_scalar in He; [|apply js_get_scalar; exact Hs].
    apply js_has_In in Hh. apply K2 in Hh. destruct Hh as [[] | [_ X2]].
    rewrite (G2 k Hk X2) in He.
    split; [congruence | intros _; exact He].
Qed.

(** ** The keys of items and of entries *)

Lemma append_colon_inj : forall a a' b b',
  has_colon a = false -> has_colon a' = false ->
  (a ++ ":" ++ b)%string = (a' ++ ":" ++ b')%string -> a = a' /\ b = b'.
Proof.
  induction a as [|c a IH]; intros [|c' a'] b b' Ha Ha' E; simpl in *.
  - injection E as E. split; [reflexivity | exact E].
  - injection E as Ec E. subst c'. rewrite Ascii.eqb_refl in Ha'. discriminate Ha'.
  - injection E as Ec E. subst c. rewrite Ascii.eqb_refl in Ha. discriminate Ha.
  - injection E as Ec E. subst c'.
    apply orb_false_iff in Ha. apply orb_false_iff in Ha'.
    destruct (IH a' b b' (proj2 Ha) (proj2 Ha') E) as [-> ->]. split; reflexivity.
Qed.

Lemma collection_names_injective : forall (cs : list Collection) a b,
  NoDup (map c_name cs) -> In a cs -> In b cs -> c_name a = c_name b -> a = b.
Proof.
  induction cs as [|c cs IH]; intros a b Hnd Ha Hb E; [destruct Ha|].
  simpl in Hnd. inversion Hnd as [|? ? Hni Hnd']; subst.
  destruct Ha as [<- | Ha], Hb as [<- | Hb].
  - reflexivity.
  - exfalso. apply Hni. rewrite E. apply in_map. exact Hb.
  - exfalso. apply Hni. rewrite <- E. apply in_map. exact Ha.
  - apply IH; assumption.
Qed.

Lemma index_names_injective : forall (xs : list Index) a b,
  NoDup (map index_name xs) -> In a xs -> In b xs -> index_name a = index_name b -> a = b.
Proof.
  induction xs as [|x xs IH]; intros a b Hnd Ha Hb E; [destruct Ha|].
  simpl in Hnd. inversion Hnd as [|? ? Hni Hnd']; subst.
  destruct Ha as [<- | Ha], Hb as [<- | Hb].
  - reflexivity.
  - exfalso. apply Hni. rewrite E. apply in_map. exact Hb.
  - exfalso. apply Hni. rewrite <- E. apply in_map. exact Ha.
  - apply IH; assumption.
Qed.

Lemma entry_key_prefix : forall name n collection index values k,
  has_prefix [JStr name; JStr n] (makeIndexKey name collection index values k)
  = (n =? makeIndexCollectionName (c_name collection) (index_name index)).
Proof.
  intros. unfold makeIndexKey, index_name. simpl.
  rewrite String.eqb_refl, andb_true_r. reflexivity.
Qed.

Lemma item_key_prefix : forall name n collection k,
  has_prefix [JStr name; JStr n] (makeItemKey name collection k)
  = (n =? c_name collection).
Proof.
  intros. unfold makeItemKey. simpl.
  rewrite String.eqb_refl, andb_true_r. reflexivity.
Qed.

Lemma entry_key_inj : forall name collection index values k values' k',
  makeIndexKey name collection index values k
  = makeIndexKey name collection index values' k' ->
  values = values' /\ k = k'.
Proof.
  intros name collection index values k values' k' E.
  unfold makeIndexKey in E. simpl in E. injection E as E.
  apply app_inj_tail in E. exact E.
Qed.

Lemma entry_key_last : forall name collection index values k,
  js_last (makeIndexKey name collection index values k) = k.
Proof.
  intros. unfold js_last, makeIndexKey.
  change ([JStr name; JStr (makeIndexCollectionName (c_name collection)
                              (makeIndexName (i_keys index)))] ++ values ++ [k])
    with (([JStr name; JStr (makeIndexCollectionName (c_name collection)
                               (makeIndexName (i_keys index)))] ++ values) ++ [k])
    || rewrite app_assoc.
  apply last_last.
Qed.

Lemma item_key_inj : forall name c k c' k',
  makeItemKey name c k = makeItemKey name c' k' -> c_name c = c_name c' /\ k = k'.
Proof.
  intros name c k c' k' E. unfold makeItemKey in E. injection E as E1 E2. auto.
Qed.

(** No item of a collection whose name holds no colon lies at the key of
    an entry. *)
Lemma item_key_neq_entry_key : forall name c k c' index values k',
  has_colon (c_name c) = false ->
  makeItemKey name c k <> makeIndexKey name c' index values k'.
Proof.
  intros name c k c' index values k' Hc E.
  unfold makeItemKey, makeIndexKey in E. simpl in E. injection E as E _.
  rewrite E, has_colon_index_collection in Hc. discriminate Hc.
Qed.

(** ** What a [put] and a [delete] make of the backend *)

Section EntryUpdate.

Variable name : string.
Variable collection : Collection.
Variable k : jsval.
Variables oldItem newItem : jsval.

Lemma lookup_entry_update : forall s index key,
  kv_lookup (entry_update name collection k oldItem newItem s index) key
  = let oldValues := index_values oldItem (flatten oldItem) index in
    let newValues := index_values newItem (flatten newItem) index in
    let oldProjection :=
      fst (index_projections (flatten oldItem) (flatten newItem) index) in
    let newProjection :=
      snd (index_projections (flatten oldItem) (flatten newItem) index) in
    if ((negb (isEqual (JArr oldValues) (JArr newValues))
         || negb (isEqual oldProjection newProjection))
        && negb (includes_undefined newValues))
       && key_eqb key (makeIndexKey name collection index newValues k)
    then Some (VItem newProjection)
    else if (negb (isEqual (JArr oldValues) (JArr newValues))
             && negb (includes_undefined oldValues))
            && key_eqb key (makeIndexKey name collection index oldValues k)
    then None
    else kv_lookup s key.
Proof.
  intros s index key. unfold entry_update. cbv zeta.
  destruct ((negb (isEqual _ _) || negb (isEqual _ _)) && negb (includes_undefined _));
    destruct (negb (isEqual _ _) && negb (includes_undefined _));
    cbn [andb]; rewrite ?kv_lookup_insert, ?kv_lookup_remove; reflexivity.
Qed.

(** The update of an index leaves alone the keys that are not under the
    prefix of the index. *)
Lemma lookup_entry_update_other : forall s index key,
  has_prefix [JStr name;
              JStr (makeIndexCollectionName (c_name collection) (index_name index))] key
  = false ->
  kv_lookup (entry_update name collection k oldItem newItem s index) key
  = kv_lookup s key.
Proof.
  intros s index key Hp. rewrite lookup_entry_update. cbv zeta.
  assert (G : forall values,
            key_eqb key (makeIndexKey name collection index values k) = false).
  { intros values. apply key_eqb_neq. intros E. subst key.
    rewrite entry_key_prefix, String.eqb_refl in Hp. discriminate Hp. }
  rewrite !G, !andb_false_r. reflexivity.
Qed.

Lemma lookup_fold_entry_update_other : forall indexes s key,
  (forall index, In index indexes ->
     has_prefix [JStr name;
                 JStr (makeIndexCollectionName (c_name collection) (index_name index))]
                key = false) ->
  kv_lookup (fold_left (entry_update name collection k oldItem newItem) indexes s) key
  = kv_lookup s key.
Proof.
  induction indexes as [|index indexes IH]; intros s key H; [reflexivity|].
  simpl. rewrite IH by (intros x Hx; apply H; right; exact Hx).
  apply lookup_entry_update_other. apply H. left. reflexivity.
Qed.

Hypothesis no_colon : has_colon (c_name collection) = false.

Lemma other_index_prefix : forall index index' key,
  index_name index' <> index_name index ->
  has_prefix [JStr name;
              JStr (makeIndexCollectionName (c_name collection) (index_name index))] key
  = true ->
  has_prefix [JStr name;
              JStr (makeIndexCollectionName (c_name collection) (index_name index'))] key
  = false.
Proof.
  intros index index' key Hne Hp.
  destruct key as [|x [|y rest]]; cbn [has_prefix] in Hp; try discriminate Hp;
    [rewrite andb_false_r in Hp; discriminate Hp|].
  apply andb_true_iff in Hp. destruct Hp as [Hx Hy].
  rewrite andb_true_r in Hy. apply jsval_eqb_eq in Hx, Hy. subst x y.
  cbn [has_prefix]. rewrite jsval_eqb_refl, andb_true_r. simpl.
  apply String.eqb_neq. intros E. unfold makeIndexCollectionName in E.
  apply append_colon_inj in E; [|exact no_colon | exact no_colon].
  apply Hne. exact (proj2 E).
Qed.

(** Through the updates of the indexes of a collection, a key under the
    prefix of an index is what the update of this index makes of it. *)
Lemma lookup_fold_entry_update_at : forall indexes s index key,
  NoDup (map index_name indexes) ->
  In index indexes ->
  has_prefix [JStr name;
              JStr (makeIndexCollectionName (c_name collection) (index_name index))] key
  = true ->
  kv_lookup (fold_left (entry_update name collection k oldItem newItem) indexes s) key
  = kv_lookup (entry_update name collection k oldItem newItem s index) key.
Proof.
  induction indexes as [|x indexes IH]; intros s index key Hnd Hin Hp; [destruct Hin|].
  simpl in Hnd. inversion Hnd as [|? ? Hni Hnd']; subst. simpl.
  destruct Hin as [-> | Hin].
  - apply lookup_fold_entry_update_other. intros y Hy.
    apply (other_index_prefix index y key); [|exact Hp].
    intros E. apply Hni. rewrite <- E. apply in_map. exact Hy.
  - rewrite (IH _ index key Hnd' Hin Hp).
    rewrite !(lookup_entry_update _ index). cbv zeta.
    rewrite (lookup_entry_update_other s x key); [reflexivity|].
    apply (other_index_prefix index x key); [|exact Hp].
    intros E. apply Hni. rewrite E. apply in_map. exact Hin.
Qed.

End EntryUpdate.

(** ** One value for a key *)

Lemma keys_kv_insert : forall s k v x,
  In x (map fst (kv_insert s k v)) -> x = k \/ In x (map fst s).
Proof.
  induction s as [|[k0 v0] s IH]; intros k v x H; simpl in H.
  - destruct H as [<- | []]. left. reflexivity.
  - destruct (key_eqb k0 k) eqn:E; simpl in H.
    + destruct H as [<- | H]; [left; reflexivity | right; right; exact H].
    + destruct H as [<- | H]; [right; left; reflexivity|].
      destruct (IH _ _ _ H) as [-> | H']; [left; reflexivity | right; right; exact H'].
Qed.

Lemma NoDup_kv_insert : forall s k v,
  NoDup (map fst s) -> NoDup (map fst (kv_insert s k v)).
Proof.
  induction s as [|[k0 v0] s IH]; intros k v H; simpl.
  - repeat constructor. intros [].
  - simpl in H. inversion H as [|? ? Hn Hd]; subst.
    destruct (key_eqb k0 k) eqn:E; simpl.
    + apply key_eqb_eq in E. subst k0. constructor; assumption.
    + constructor; [|apply IH; exact Hd].
      intros Hin. apply keys_kv_insert in Hin. destruct Hin as [-> | Hin].
      * rewrite key_eqb_refl in E. discriminate E.
      * apply Hn. exact Hin.
Qed.

Lemma NoDup_kv_remove : forall s k,
  NoDup (map fst s) -> NoDup (map fst (kv_remove s k)).
Proof.
  induction s as [|[k0 v0] s IH]; intros k H; simpl; [constructor|].
  simpl in H. inversion H as [|? ? Hn Hd]; subst.
  destruct (key_eqb k0 k); simpl; [apply IH; exact Hd|].
  constructor; [|apply IH; exact Hd].
  intros Hin. apply Hn. apply in_map_iff in Hin. destruct Hin as [[k1 v1] [E Hin]].
  simpl in E. subst k1. unfold kv_remove in Hin. apply filter_In in Hin.
  destruct Hin as [Hin _]. apply (in_map fst) in Hin. exact Hin.
Qed.

Lemma NoDup_entry_update : forall name collection k oldItem newItem s index,
  NoDup (map fst s) ->
  NoDup (map fst (entry_update name collection k oldItem newItem s index)).
Proof.
  intros name collection k oldItem newItem s index H. unfold entry_update. cbv zeta.
  destruct ((negb (isEqual _ _) || negb (isEqual _ _)) && negb (includes_undefined _));
    destruct (negb (isEqual _ _) && negb (includes_undefined _));
    repeat first [apply NoDup_kv_insert | apply NoDup_kv_remove]; exact H.
Qed.

Lemma NoDup_fold_entry_update : forall name collection k oldItem newItem indexes s,
  NoDup (map fst s) ->
  NoDup (map fst (fold_left (entry_update name collection k oldItem newItem) indexes s)).
Proof.
  intros name collection k oldItem newItem indexes.
  induction indexes as [|index indexes IH]; intros s H; [exact H|].
  simpl. apply IH. apply NoDup_entry_update. exact H.
Qed.

Lemma In_kv_lookup : forall s k v,
  NoDup (map fst s) -> In (k, v) s -> kv_lookup s k = Some v.
Proof.
  induction s as [|[k0 v0] s IH]; intros k v Hnd Hin; [destruct Hin|].
  simpl in Hnd. inversion Hnd as [|? ? Hn Hd]; subst. simpl.
  destruct Hin as [E | Hin].
  - injection E as -> ->. rewrite key_eqb_refl. reflexivity.
  - destruct (key_eqb k0 k) eqn:E.
    + apply key_eqb_eq in E. subst k0. exfalso. apply Hn.
      apply (in_map fst) in Hin. exact Hin.
    + apply IH; assumption.
Qed.

(** ** The backend after a [put] and after a [delete] *)

Lemma updateIndexes_outcome : forall name collection k oldItem newItem indexes w w',
  forM (fun index => updateIndex name collection k oldItem newItem index) indexes w
  = (Ok tt, w') ->
  w_kv w' = fold_left (entry_update name collection k oldItem newItem) indexes (w_kv w)
  /\ w_root w' = w_root w /\ w_tx w' = w_tx w.
Proof.
  intros name collection k oldItem newItem indexes. unfold forM.
  induction indexes as [|index indexes IH]; intros w w' H.
  - injection H as <-. repeat split.
  - simpl in H. apply bind_inv_ok in H. destruct H as [[] [w1 [H1 H]]].
    apply IH in H. destruct H as [Hk [Hr Ht]].
    destruct (updateIndex_outcome name collection k oldItem newItem index w)
      as [Hf [_ [Hs [Hr1 Ht1]]]].
    rewrite H1 in Hf, Hs, Hr1, Ht1. cbn [fst snd] in Hf, Hs, Hr1, Ht1.
    split; [|split; congruence].
    rewrite Hk. simpl. f_equal. rewrite Hs. unfold entry_update. cbv zeta.
    match type of Hf with
    | _ = (if ?m then _ else _) => destruct m; [discriminate Hf | reflexivity]
    end.
Qed.

Lemma normalizeKey_ok_valid : forall k w k' w',
  normalizeKey k w = (Ok k', w') -> valid_key k = true.
Proof.
  intros k w k' w'. unfold normalizeKey, valid_key.
  destruct (typeof k =? "number"); destruct (typeof k =? "string");
    destruct (truthy k); simpl; intros H; try discriminate H; reflexivity.
Qed.

(** The callback of [put], run to its end. *)
Lemma put_callback_outcome : forall name collection k item options w w',
  (bind (kv_get (makeItemKey name collection k) (Some false)) (fun oldItem =>
   bind (kv_put (makeItemKey name collection k) (VItem item)
                (o_errorIfExists options) (o_createIfMissing options)) (fun _ =>
   bind (updateIndexes name collection k (value_js oldItem) item) (fun _ =>
   emit (didPutItem (c_name collection) k item))))) w = (Ok tt, w') ->
  w_kv w'
  = fold_left (entry_update name collection k
                 (value_js (kv_lookup (w_kv w) (makeItemKey name collection k))) item)
              (c_indexes collection)
              (kv_insert (w_kv w) (makeItemKey name collection k) (VItem item)).
Proof.
  intros name collection k item options w w' H.
  rewrite (bind_ok _ _ _ _ _ _ _ (kv_get_soft _ _)) in H.
  apply bind_inv_ok in H. destruct H as [[] [w1 [Hp H]]].
  apply kv_put_inv_ok in Hp.
  apply bind_inv_ok in H. destruct H as [[] [w2 [Hu H]]].
  rewrite emit_run in H. injection H as <-.
  apply updateIndexes_outcome in Hu. destruct Hu as [Hu _].
  simpl. rewrite Hu, Hp. reflexivity.
Qed.

(** The backend after a [put] that returns, on an initialized store. *)
Lemma put_outcome : forall name collections fuel self target k item options w w',
  flag_of hasBeenInitialized self w = true ->
  put name collections (S fuel) self target k item options w = (Ok tt, w') ->
  exists collection,
    normalizeCollection collections target w = (Ok collection, w)
    /\ valid_key k = true
    /\ w_kv w'
       = fold_left (entry_update name collection k
                      (value_js (kv_lookup (w_kv w) (makeItemKey name collection k)))
                      item)
                   (c_indexes collection)
                   (kv_insert (w_kv w) (makeItemKey name collection k) (VItem item)).
Proof.
  intros name collections fuel self target k item options w w' Hf H.
  unfold put, Open.put in H.
  apply bind_inv_ok in H. destruct H as [collection [w1 [Hc H]]].
  pose proof (pure_inv_ok _ _ _ _ _ (pure_normalizeCollection _ _) Hc) as ->.
  apply bind_inv_ok in H. destruct H as [k' [w1 [Hk H]]].
  pose proof (normalizeKey_ok_valid _ _ _ _ Hk) as Hv.
  apply normalizeKey_ok in Hk. destruct Hk as [-> ->].
  apply bind_inv_ok in H. destruct H as [item' [w1 [Hi H]]].
  apply normalizeItem_ok in Hi. destruct Hi as [-> ->].
  apply bind_inv_ok in H. destruct H as [o [w1 [Ho H]]].
  pose proof (pure_inv_ok _ _ _ _ _ (pure_normalizeOptions _) Ho) as ->.
  rewrite (bind_ok _ _ _ _ _ _ _
             (initializeDocumentStore_idle name collections fuel self w (or_introl Hf)))
    in H.
  exists collection. split; [exact Hc|]. split; [exact Hv|].
  unfold Open.transaction in H. destruct self.
  - change (insideTransaction Root) with false in H. cbv iota in H.
    rewrite (bind_ok _ _ _ _ _ _ _
               (initializeDocumentStore_idle name collections fuel Root w (or_introl Hf)))
      in H.
    apply kv_transaction_inv_ok in H. destruct H as [w2 [H ->]].
    apply put_callback_outcome in H. exact H.
  - change (insideTransaction Tx) with true in H. cbv iota in H.
    apply put_callback_outcome in H. exact H.
Qed.

(** The callback of [delete], run to its end. *)
Lemma delete_callback_outcome : forall name collection k options w b w',
  (bind (kv_get (makeItemKey name collection k) (o_errorIfMissing options))
     (fun oldItem =>
        if truthy (value_js oldItem)
        then
          bind (kv_delete (makeItemKey name collection k) (o_errorIfMissing options))
            (fun hasBeenDeleted =>
               bind (updateIndexes name collection k (value_js oldItem) JUndefined)
                 (fun _ =>
                    bind (emit (didDeleteItem (c_name collection) k (value_js oldItem)))
                      (fun _ => ret hasBeenDeleted)))
        else ret false)) w = (Ok b, w') ->
  let oldItem := value_js (kv_lookup (w_kv w) (makeItemKey name collection k)) in
  (truthy oldItem = true /\ b = true
   /\ w_kv w'
      = fold_left (entry_update name collection k oldItem JUndefined)
                  (c_indexes collection)
                  (kv_remove (w_kv w) (makeItemKey name collection k)))
  \/ (truthy oldItem = false /\ b = false /\ w_kv w' = w_kv w).
Proof.
  intros name collection k options w b w' H. cbv zeta.
  apply bind_inv_ok in H. destruct H as [oldItem [w1 [Hg H]]].
  apply kv_get_inv_ok in Hg. destruct Hg as [-> ->].
  set (itemKey := makeItemKey name collection k) in *.
  destruct (truthy (value_js (kv_lookup (w_kv w) itemKey))) eqn:T.
  - left. split; [reflexivity|].
    destruct (kv_lookup (w_kv w) itemKey) as [x|] eqn:K; [|discriminate T].
    assert (K' : kv_lookup (w_kv (add_log (EKv (KGet itemKey)) w)) itemKey = Some x)
      by exact K.
    rewrite (bind_ok _ _ _ _ _ _ _ (kv_delete_present _ _ _ x K')) in H.
    apply bind_inv_ok in H. destruct H as [[] [w2 [Hu H]]].
    rewrite (bind_ok _ _ _ _ _ _ _ (emit_run _ _)) in H. injection H as <- <-.
    apply updateIndexes_outcome in Hu. destruct Hu as [Hu _].
    split; [reflexivity|]. simpl. rewrite Hu. reflexivity.
  - right. injection H as <- <-. split; [reflexivity|]. split; reflexivity.
Qed.

(** The backend after a [delete] that returns, on an initialized store. *)
Lemma delete_outcome : forall name collections fuel self target k options w b w',
  flag_of hasBeenInitialized self w = true ->
  delete name collections (S fuel) self target k options w = (Ok b, w') ->
  exists collection,
    normalizeCollection collections target w = (Ok collection, w)
    /\ let oldItem := value_js (kv_lookup (w_kv w) (makeItemKey name collection k)) in
       (truthy oldItem = true /\ b = true
        /\ w_kv w'
           = fold_left (entry_update name collection k oldItem JUndefined)
                       (c_indexes collection)
                       (kv_remove (w_kv w) (makeItemKey name collection k)))
       \/ (truthy oldItem = false /\ b = false /\ w_kv w' = w_kv w).
Proof.
  intros name collections fuel self target k options w b w' Hf H.
  unfold delete, Open.delete in H.
  apply bind_inv_ok in H. destruct H as [collection [w1 [Hc H]]].
  pose proof (pure_inv_ok _ _ _ _ _ (pure_normalizeCollection _ _) Hc) as ->.
  apply bind_inv_ok in H. destruct H as [k' [w1 [Hk H]]].
  apply normalizeKey_ok in Hk. destruct Hk as [-> ->].
  apply bind_inv_ok in H. destruct H as [o [w1 [Ho1 H]]].
  pose proof (pure_inv_ok _ _ _ _ _ (pure_normalizeOptions _) Ho1) as ->.
  rewrite (bind_ok _ _ _ _ _ _ _
             (initializeDocumentStore_idle name collections fuel self w (or_introl Hf)))
    in H.
  exists collection. split; [exact Hc|].
  unfold Open.transaction in H. destruct self.
  - change (insideTransaction Root) with false in H. cbv iota in H.
    rewrite (bind_ok _ _ _ _ _ _ _
               (initializeDocumentStore_idle name collections fuel Root w
                  (or_introl Hf))) in H.
    apply kv_transaction_inv_ok in H. destruct H as [w2 [H ->]].
    apply delete_callback_outcome in H. exact H.
  - change (insideTransaction Tx) with true in H. cbv iota in H.
    apply delete_callback_outcome in H. exact H.
Qed.

(** ** The invariant of the indexes *)

Lemma prefix_second : forall name n n' key,
  has_prefix [JStr name; JStr n] key = true ->
  has_prefix [JStr name; JStr n'] key = (n' =? n).
Proof.
  intros name n n' key Hp.
  destruct key as [|x [|y rest]]; cbn [has_prefix] in Hp; try discriminate Hp;
    [rewrite andb_false_r in Hp; discriminate Hp|].
  apply andb_true_iff in Hp. destruct Hp as [Hx Hy].
  rewrite andb_true_r in Hy. apply jsval_eqb_eq in Hx, Hy. subst x y.
  cbn [has_prefix]. rewrite jsval_eqb_refl, andb_true_r. reflexivity.
Qed.

Lemma old_projection : forall oldItem newItem index,
  fst (index_projections (flatten oldItem) (flatten newItem) index)
  = item_projection index oldItem.
Proof.
  intros. unfold item_projection.
  rewrite index_projections_fst, index_projections_snd. reflexivity.
Qed.

Lemma new_projection : forall oldItem newItem index,
  snd (index_projections (flatten oldItem) (flatten newItem) index)
  = item_projection index newItem.
Proof.
  intros. unfold item_projection. rewrite !index_projections_snd. reflexivity.
Qed.

Lemma item_projections_isEqual : forall index a b,
  isEqual (item_projection index a) (item_projection index b) = true ->
  item_projection index a = item_projection index b.
Proof.
  intros index a b. unfold item_projection. rewrite !index_projections_snd.
  destruct (i_projection index) as [ks|]; [|reflexivity].
  apply projections_isEqual. apply flatten_scalar.
Qed.

Lemma item_values_of_undefined : forall index,
  i_properties index <> [] ->
  includes_undefined (item_values index JUndefined) = true.
Proof.
  intros index H. unfold item_values. rewrite index_values_undefined.
  apply includes_undefined_all. exact H.
Qed.

Lemma normalizeCollection_In : forall collections target w collection w',
  (forall c, target = ByObject c -> In c collections) ->
  normalizeCollection collections target w = (Ok collection, w') ->
  In collection collections.
Proof.
  intros collections [n | c] w collection w' Ht H.
  - unfold normalizeCollection, getCollection, bind in H. simpl in H.
    destruct (List.find (fun collection => c_name collection =? n) collections)
      as [c|] eqn:F; [|discriminate H].
    injection H as <- _. apply (find_some _ _ F).
  - simpl in H. injection H as <- _. apply Ht. reflexivity.
Qed.

Section Indexed.

Variable name : string.
Variable collections : list Collection.

Hypothesis declared : well_declared collections.

(** The key of an item of a declared collection is under the prefix of no
    index of a declared collection. *)
Lemma item_key_under_no_index : forall c k c' index,
  In c collections ->
  has_prefix [JStr name;
              JStr (makeIndexCollectionName (c_name c') (index_name index))]
             (makeItemKey name c k) = false.
Proof.
  intros c k c' index Hc. rewrite item_key_prefix.
  apply String.eqb_neq. intros E.
  pose proof (wd_colon _ declared c Hc) as Hn.
  rewrite <- E in Hn. unfold index_name in Hn.
  rewrite has_colon_index_collection in Hn. discriminate Hn.
Qed.

(** A key under the prefix of an index of a declared collection is under
    the prefix of no index of another declared collection. *)
Lemma index_prefixes_apart : forall c index c' index' key,
  In c collections -> In c' collections ->
  c_name c' <> c_name c ->
  has_prefix [JStr name;
              JStr (makeIndexCollectionName (c_name c) (index_name index))] key = true ->
  has_prefix [JStr name;
              JStr (makeIndexCollectionName (c_name c') (index_name index'))] key = false.
Proof.
  intros c index c' index' key Hc Hc' Hne Hp.
  rewrite (prefix_second _ _ _ _ Hp). apply String.eqb_neq. intros E.
  unfold makeIndexCollectionName in E.
  apply append_colon_inj in E;
    [| apply (wd_colon _ declared); exact Hc' | apply (wd_colon _ declared); exact Hc].
  apply Hne. exact (proj1 E).
Qed.

Section Step.

Variable s s1 : kvstore.
Variable c0 : Collection.
Variable k0 : jsval.
Variable new : jsval.
Variable newv : option kvalue.

Let itemKey0 := makeItemKey name c0 k0.
Let old := value_js (kv_lookup s itemKey0).
Let s' := fold_left (entry_update name c0 k0 old new) (c_indexes c0) s1.

Hypothesis s_indexed : indexed name collections s.
Hypothesis c0_declared : In c0 collections.
Hypothesis new_value :
  (newv = None /\ new = JUndefined) \/ (newv = Some (VItem new) /\ valid_key k0 = true).
Hypothesis s1_keys : NoDup (map fst s1).
Hypothesis s1_lookup : forall key,
  kv_lookup s1 key = if key_eqb key itemKey0 then newv else kv_lookup s key.

Lemma step_item : forall c k,
  In c collections ->
  kv_lookup s' (makeItemKey name c k)
  = if key_eqb (makeItemKey name c k) itemKey0 then newv
    else kv_lookup s (makeItemKey name c k).
Proof.
  intros c k Hc. unfold s'.
  rewrite lookup_fold_entry_update_other; [apply s1_lookup|].
  intros index _. apply item_key_under_no_index. exact Hc.
Qed.

Lemma step_other_collection : forall c index key,
  In c collections ->
  c_name c <> c_name c0 ->
  has_prefix [JStr name;
              JStr (makeIndexCollectionName (c_name c) (index_name index))] key = true ->
  kv_lookup s' key = kv_lookup s key.
Proof.
  intros c index key Hc Hne Hp. unfold s'.
  rewrite lookup_fold_entry_update_other.
  - rewrite s1_lookup.
    destruct (key_eqb key itemKey0) eqn:E; [|reflexivity].
    apply key_eqb_eq in E. subst key. unfold itemKey0 in Hp.
    rewrite item_key_under_no_index in Hp by exact c0_declared. discriminate Hp.
  - intros index' _.
    apply (index_prefixes_apart c index c0 index' key Hc c0_declared); [|exact Hp].
    intros E. apply Hne. symmetry. exact E.
Qed.

Lemma step_entry : forall index key,
  In index (c_indexes c0) ->
  has_prefix [JStr name;
              JStr (makeIndexCollectionName (c_name c0) (index_name index))] key = true ->
  kv_lookup s' key
  = if ((negb (isEqual (JArr (item_values index old)) (JArr (item_values index new)))
         || negb (isEqual (item_projection index old) (item_projection index new)))
        && negb (includes_undefined (item_values index new)))
       && key_eqb key (makeIndexKey name c0 index (item_values index new) k0)
    then Some (VItem (item_projection index new))
    else if (negb (isEqual (JArr (item_values index old)) (JArr (item_values index new)))
             && negb (includes_undefined (item_values index old)))
            && key_eqb key (makeIndexKey name c0 index (item_values index old) k0)
    then None
    else kv_lookup s key.
Proof.
  intros index key Hin Hp. unfold s'.
  rewrite (lookup_fold_entry_update_at name c0 k0 old new
             (wd_colon _ declared c0 c0_declared) (c_indexes c0) s1 index key
             (wd_indexes _ declared c0 c0_declared) Hin Hp).
  rewrite lookup_entry_update. cbv zeta.
  rewrite old_projection, new_projection. fold (item_values index old).
  fold (item_values index new).
  assert (E : kv_lookup s1 key = kv_lookup s key).
  { rewrite s1_lookup. destruct (key_eqb key itemKey0) eqn:E; [|reflexivity].
    apply key_eqb_eq in E. subst key. unfold itemKey0 in Hp.
    rewrite item_key_under_no_index in Hp by exact c0_declared. discriminate Hp. }
  rewrite E. reflexivity.
Qed.

(** When the values of the old and of the new item compare equal, they are
    the same values. *)
Lemma step_values : forall index,
  In index (c_indexes c0) ->
  isEqual (JArr (item_values index old)) (JArr (item_values index new)) = true ->
  item_values index old = item_values index new.
Proof.
  intros index Hin E. apply isEqual_scalars; [|exact E].
  apply item_values_scalar.
  apply (proj2 (wd_properties _ declared c0 index c0_declared Hin)).
Qed.

Lemma step_new_stored : forall index,
  In index (c_indexes c0) ->
  includes_undefined (item_values index new) = false ->
  newv = Some (VItem new) /\ valid_key k0 = true.
Proof.
  intros index Hin Hd. destruct new_value as [[_ Eu] | H]; [|exact H].
  rewrite Eu, item_values_of_undefined in Hd; [discriminate Hd|].
  apply (proj1 (wd_properties _ declared c0 index c0_declared Hin)).
Qed.

Lemma step_old_stored : forall index,
  In index (c_indexes c0) ->
  includes_undefined (item_values index old) = false ->
  kv_lookup s itemKey0 = Some (VItem old).
Proof.
  intros index Hin Hd. unfold old in *.
  destruct (kv_lookup s itemKey0) as [[r | x] |]; simpl in *; [| reflexivity |];
    rewrite item_values_of_undefined in Hd;
    first [discriminate Hd
          | apply (proj1 (wd_properties _ declared c0 index c0_declared Hin))].
Qed.

(** The entry of the new item for an index is in place. *)
Lemma step_new_entry : forall index,
  In index (c_indexes c0) ->
  includes_undefined (item_values index new) = false ->
  kv_lookup s' (makeIndexKey name c0 index (item_values index new) k0)
  = Some (VItem (item_projection index new)).
Proof.
  intros index Hin Hd.
  rewrite (step_entry index _ Hin)
    by (rewrite entry_key_prefix; apply String.eqb_refl).
  rewrite Hd, key_eqb_refl. cbn [negb andb]. rewrite !andb_true_r.
  destruct (isEqual (JArr (item_values index old)) (JArr (item_values index new)))
    eqn:V; cbn [negb orb andb]; [|reflexivity].
  destruct (isEqual (item_projection index old) (item_projection index new))
    eqn:P; cbn [negb]; [|reflexivity].
  pose proof (step_values index Hin V) as Ev.
  assert (Ho : includes_undefined (item_values index old) = false)
    by (rewrite Ev; exact Hd).
  pose proof (step_old_stored index Hin Ho) as Hs.
  rewrite <- Ev, <- (item_projections_isEqual _ _ _ P).
  apply (ix_entries _ _ _ s_indexed c0 k0 old c0_declared Hs index Hin Ho).
Qed.

(** The entries of an item at another key are left alone. *)
Lemma step_other_key : forall index values k,
  In index (c_indexes c0) ->
  k <> k0 ->
  kv_lookup s' (makeIndexKey name c0 index values k)
  = kv_lookup s (makeIndexKey name c0 index values k).
Proof.
  intros index values k Hin Hne.
  rewrite (step_entry index _ Hin)
    by (rewrite entry_key_prefix; apply String.eqb_refl).
  assert (G : forall values',
            key_eqb (makeIndexKey name c0 index values k)
                    (makeIndexKey name c0 index values' k0) = false).
  { intros values'. apply key_eqb_neq. intros E. apply entry_key_inj in E.
    apply Hne. exact (proj2 E). }
  rewrite !G, !andb_false_r. reflexivity.
Qed.

Lemma step_indexed : indexed name collections s'.
Proof.
  constructor.
  - apply NoDup_fold_entry_update. exact s1_keys.
  - (* the entries of the items *)
    intros c k item Hc Hk index Hin Hd.
    rewrite (step_item c k Hc) in Hk.
    destruct (key_eqb (makeItemKey name c k) itemKey0) eqn:E.
    + apply key_eqb_eq in E. apply item_key_inj in E. destruct E as [En ->].
      pose proof (collection_names_injective collections c c0
                    (wd_names _ declared) Hc c0_declared En) as ->.
      destruct new_value as [[Ev _] | [Ev _]]; rewrite Ev in Hk; [discriminate Hk|].
      injection Hk as <-. apply step_new_entry; assumption.
    + destruct (string_dec (c_name c) (c_name c0)) as [En | Hne].
      * pose proof (collection_names_injective collections c c0
                      (wd_names _ declared) Hc c0_declared En) as ->.
        assert (Hk0 : k <> k0).
        { intros ->. unfold itemKey0 in E. rewrite key_eqb_refl in E. discriminate E. }
        rewrite (step_other_key index _ k Hin Hk0).
        apply (ix_entries _ _ _ s_indexed c0 k item c0_declared Hk index Hin Hd).
      * rewrite (step_other_collection c index _ Hc Hne)
          by (rewrite entry_key_prefix; apply String.eqb_refl).
        apply (ix_entries _ _ _ s_indexed c k item Hc Hk index Hin Hd).
  - (* the items of the entries *)
    intros c index key v Hc Hin Hk Hp.
    destruct (string_dec (c_name c) (c_name c0)) as [En | Hne].
    + pose proof (collection_names_injective collections c c0
                    (wd_names _ declared) Hc c0_declared En) as ->.
      rewrite (step_entry index key Hin Hp) in Hk.
      destruct (((negb (isEqual (JArr (item_values index old))
                          (JArr (item_values index new)))
                  || negb (isEqual (item_projection index old)
                             (item_projection index new)))
                 && negb (includes_undefined (item_values index new)))
                && key_eqb key (makeIndexKey name c0 index (item_values index new) k0))
        eqn:W.
      * (* the entry that the call wrote *)
        injection Hk as <-.
        apply andb_true_iff in W. destruct W as [W Ek].
        apply andb_true_iff in W. destruct W as [_ Hd]. apply negb_true_iff in Hd.
        apply key_eqb_eq in Ek.
        destruct (step_new_stored index Hin Hd) as [Hv Hvalid].
        exists k0, new. split; [exact Hvalid|]. split.
        -- rewrite (step_item c0 k0 c0_declared). unfold itemKey0.
           rewrite key_eqb_refl. exact Hv.
        -- split; [exact Hd|]. split; [exact Ek | reflexivity].
      * destruct ((negb (isEqual (JArr (item_values index old))
                           (JArr (item_values index new)))
                   && negb (includes_undefined (item_values index old)))
                  && key_eqb key (makeIndexKey name c0 index (item_values index old) k0))
          eqn:D; [discriminate Hk|].
        destruct (ix_items _ _ _ s_indexed c0 index key v c0_declared Hin Hk Hp)
          as [k [item [Hvalid [Hs [Hd [Ekey Ev]]]]]].
        destruct (jsval_eqb k k0) eqn:Ek.
        -- (* the entry of the old item, which the call has left alone *)
           apply jsval_eqb_eq in Ek. subst k.
           assert (Eo : old = item) by (unfold old, itemKey0; rewrite Hs; reflexivity).
           rewrite <- Eo in Hd, Ekey, Ev.
           rewrite Ekey, key_eqb_refl, andb_true_r, Hd in D. cbn [negb] in D.
           rewrite andb_true_r in D. apply negb_false_iff in D.
           pose proof (step_values index Hin D) as Evs.
           assert (Hdn : includes_undefined (item_values index new) = false)
             by (rewrite <- Evs; exact Hd).
           rewrite D, Hdn, Ekey, Evs, key_eqb_refl in W.
           cbn [negb orb andb] in W. rewrite !andb_true_r in W.
           apply negb_false_iff in W. apply item_projections_isEqual in W.
           destruct (step_new_stored index Hin Hdn) as [Hv Hvalid'].
           exists k0, new. split; [exact Hvalid'|]. split.
           ++ rewrite (step_item c0 k0 c0_declared). unfold itemKey0.
              rewrite key_eqb_refl. exact Hv.
           ++ split; [exact Hdn|]. split; [rewrite Ekey, Evs; reflexivity|].
              rewrite Ev, W. reflexivity.
        -- (* the entry of another item *)
           exists k, item. split; [exact Hvalid|]. split.
           ++ rewrite (step_item c0 k c0_declared).
              assert (E : key_eqb (makeItemKey name c0 k) itemKey0 = false).
              { apply key_eqb_neq. intros E. apply item_key_inj in E.
                destruct E as [_ ->]. rewrite jsval_eqb_refl in Ek. discriminate Ek. }
              rewrite E. exact Hs.
           ++ split; [exact Hd|]. split; [exact Ekey | exact Ev].
    + rewrite (step_other_collection c index key Hc Hne Hp) in Hk.
      destruct (ix_items _ _ _ s_indexed c index key v Hc Hin Hk Hp)
        as [k [item [Hvalid [Hs [Hd [Ekey Ev]]]]]].
      exists k, item. split; [exact Hvalid|]. split.
      * rewrite (step_item c k Hc).
        assert (E : key_eqb (makeItemKey name c k) itemKey0 = false).
        { apply key_eqb_neq. intros E. apply item_key_inj in E.
          apply Hne. exact (proj1 E). }
        rewrite E. exact Hs.
      * split; [exact Hd|]. split; [exact Ekey | exact Ev].
Qed.

End Step.

End Indexed.

(** ** The stores that put and delete build *)

Lemma unpopulated_indexed : forall name collections s,
  unpopulated name s -> indexed name collections s.
Proof.
  intros name collections s [Hn Hu]. constructor.
  - exact Hn.
  - intros c k item _ Hk. apply kv_lookup_In in Hk.
    apply Hu in Hk; [discriminate Hk|].
    unfold makeItemKey. cbn [has_prefix]. rewrite jsval_eqb_refl. reflexivity.
  - intros c index key v _ _ Hk Hp. apply kv_lookup_In in Hk.
    assert (Hs : has_prefix [JStr name] key = true).
    { destruct key as [|x rest]; [discriminate Hp|]. cbn [has_prefix] in Hp |- *.
      apply andb_true_iff in Hp. rewrite (proj1 Hp). reflexivity. }
    apply Hu in Hk; [|exact Hs]. subst key. cbn [has_prefix] in Hp.
    rewrite andb_false_r in Hp. discriminate Hp.
Qed.

(** Writing the descriptor leaves the items and the entries alone. *)
Lemma descriptor_indexed : forall name collections s v,
  indexed name collections s ->
  indexed name collections (kv_insert s [JStr name] v).
Proof.
  intros name collections s v H.
  assert (Hi : forall c k,
            kv_lookup (kv_insert s [JStr name] v) (makeItemKey name c k)
            = kv_lookup s (makeItemKey name c k)).
  { intros c k. apply kv_lookup_insert_other. discriminate. }
  assert (He : forall n key,
            has_prefix [JStr name; JStr n] key = true ->
            kv_lookup (kv_insert s [JStr name] v) key = kv_lookup s key).
  { intros n key Hp. apply kv_lookup_insert_other. intros E. subst key.
    cbn [has_prefix] in Hp. rewrite andb_false_r in Hp. discriminate Hp. }
  constructor.
  - apply NoDup_kv_insert. apply (ix_keys _ _ _ H).
  - intros c k item Hc Hk index Hin Hd. rewrite Hi in Hk.
    rewrite (He (makeIndexCollectionName (c_name c) (index_name index)))
      by (rewrite entry_key_prefix; apply String.eqb_refl).
    apply (ix_entries _ _ _ H c k item Hc Hk index Hin Hd).
  - intros c index key w Hc Hin Hk Hp. rewrite (He _ _ Hp) in Hk.
    destruct (ix_items _ _ _ H c index key w Hc Hin Hk Hp)
      as [k [item [Hv [Hs R]]]].
    exists k, item. split; [exact Hv|]. split; [rewrite Hi; exact Hs | exact R].
Qed.

Section Histories.

Variable name : string.
Variable collections : list Collection.

Hypothesis declared : well_declared collections.

(** A [put] that returns keeps the invariant. *)
Lemma put_indexed : forall fuel self target k item options w w',
  (forall c, target = ByObject c -> In c collections) ->
  indexed name collections (w_kv w) ->
  flag_of hasBeenInitialized self w = true ->
  put name collections (S fuel) self target k item options w = (Ok tt, w') ->
  indexed name collections (w_kv w').
Proof.
  intros fuel self target k item options w w' Ht Hix Hf H.
  destruct (put_outcome _ _ _ _ _ _ _ _ _ _ Hf H) as [c [Hc [Hv ->]]].
  apply (step_indexed name collections declared (w_kv w)
           (kv_insert (w_kv w) (makeItemKey name c k) (VItem item)) c k item
           (Some (VItem item)) Hix
           (normalizeCollection_In _ _ _ _ _ Ht Hc)).
  - right. split; [reflexivity | exact Hv].
  - apply NoDup_kv_insert. apply (ix_keys _ _ _ Hix).
  - intros key. apply kv_lookup_insert.
Qed.

(** So does a [delete] that returns. *)
Lemma delete_indexed : forall fuel self target k options w b w',
  (forall c, target = ByObject c -> In c collections) ->
  indexed name collections (w_kv w) ->
  flag_of hasBeenInitialized self w = true ->
  delete name collections (S fuel) self target k options w = (Ok b, w') ->
  indexed name collections (w_kv w').
Proof.
  intros fuel self target k options w b w' Ht Hix Hf H.
  destruct (delete_outcome _ _ _ _ _ _ _ _ _ _ Hf H) as [c [Hc Hd]].
  cbv zeta in Hd. destruct Hd as [[_ [_ ->]] | [_ [_ ->]]]; [|exact Hix].
  apply (step_indexed name collections declared (w_kv w)
           (kv_remove (w_kv w) (makeItemKey name c k)) c k JUndefined None Hix
           (normalizeCollection_In _ _ _ _ _ Ht Hc)).
  - left. split; reflexivity.
  - apply NoDup_kv_remove. apply (ix_keys _ _ _ Hix).
  - intros key. apply kv_lookup_remove.
Qed.

(** The invariant holds in every store that [put] and [delete] have
    built. *)
Lemma built_indexed : forall w,
  built name collections w -> indexed name collections (w_kv w).
Proof.
  intros w H. induction H as
    [w Hu
    | fuel self target k item options w w' _ IH Ht Hf Hp
    | fuel self target k options b w w' _ IH Ht Hf Hd
    | v w w' _ IH E
    | w w' _ IH E].
  - apply unpopulated_indexed. exact Hu.
  - apply (put_indexed _ _ _ _ _ _ _ _ Ht IH Hf Hp).
  - apply (delete_indexed _ _ _ _ _ _ _ _ Ht IH Hf Hd).
  - rewrite E. apply descriptor_indexed. exact IH.
  - rewrite E. exact IH.
Qed.

(** In such a store the entries of an index that end with the key of an
    item are the one entry of the values of this item. *)
Lemma entry_of_stored_item : forall s c index k item values,
  indexed name collections s ->
  In c collections -> In index (c_indexes c) ->
  kv_lookup s (makeItemKey name c k) = Some (VItem item) ->
  kv_lookup s (makeIndexKey name c index values k) <> None ->
  values = item_values index item
  /\ includes_undefined values = false
  /\ kv_lookup s (makeIndexKey name c index values k)
     = Some (VItem (item_projection index item)).
Proof.
  intros s c index k item values Hix Hc Hin Hs He.
  destruct (kv_lookup s (makeIndexKey name c index values k)) as [v|] eqn:L;
    [clear He | contradiction He; reflexivity].
  destruct (ix_items _ _ _ Hix c index _ v Hc Hin L) as [k' [item' [_ [Hs' [Hd [Ek Ev]]]]]].
  - rewrite entry_key_prefix. apply String.eqb_refl.
  - apply entry_key_inj in Ek. destruct Ek as [-> <-].
    rewrite Hs in Hs'. injection Hs' as <-.
    split; [reflexivity|]. split; [exact Hd|]. rewrite Ev. reflexivity.
Qed.

End Histories.

(** The declarations of the scenarios are well declared. *)
Lemma simple_indexes_well_declared : forall collection,
  has_colon (c_name collection) = false ->
  NoDup (map index_name (c_indexes collection)) ->
  Forall (fun index => i_properties index <> []
                       /\ Forall (fun p => p_value p = Simple) (i_properties index))
         (c_indexes collection) ->
  well_declared [collection].
Proof.
  intros collection Hcolon Hnames Hprops. constructor.
  - repeat constructor. intros [].
  - intros c [<- | []]. exact Hcolon.
  - intros c [<- | []]. exact Hnames.
  - intros c index [<- | []] Hin.
    rewrite Forall_forall in Hprops. destruct (Hprops index Hin) as [Hne Hs].
    split; [exact Hne|]. intros p f Hp Hf.
    rewrite Forall_forall in Hs. rewrite (Hs p Hp) in Hf. discriminate Hf.
Qed.

(** ** The layout of the keys, index by index *)

(** C2.  The item of key [k] in a collection lives at [[S, C.name, k]]
    and the entry of an index at
    [[S, C.name + ":" + join(keys, "+"), v1, ..., vN, k]], where [v1..vN]
    are the values of the item for the properties of the index.  On an
    initialized store, a [put] that returns has written the item at its
    key, where it is found afterwards, and every other write or deletion
    it has made is that of an entry of a declared index of the collection.
    When the declarations are well declared and the store is one that
    [put] and [delete] have built, then afterwards every declared index of
    the collection whose values the item defines holds, at the key of these
    values and of [k], the projection of the item; an index holds no other
    entry that ends with [k]; and the invariant of the indexes holds again.
    In the scenario of "People" the backend ends with the descriptor, the
    item at ["S","People","u1"] and the entry
    ["S","People:lastName","L","u1"] with an absent value; with a second
    index on [firstName] it holds the entry
    ["S","People:firstName","Ada","u1"] as well. *)
Theorem key_layout :
  (forall name collection k,
     makeItemKey name collection k = [JStr name; JStr (c_name collection); k])
  /\ (forall name collection index values k,
        makeIndexKey name collection index values k
        = [JStr name; JStr (c_name collection ++ ":" ++ join "+" (i_keys index))]
            ++ values ++ [k])
  /\ (forall index item,
        item_values index item
        = map (fun property =>
                 match p_value property with
                 | Simple => js_and item (js_get (flatten item) (p_key property))
                 | Computed f => js_and item (f item)
                 end) (i_properties index))
  /\ (forall name collections fuel self target k item options w w',
        flag_of hasBeenInitialized self w = true ->
        put name collections (S fuel) self target k item options w = (Ok tt, w') ->
        exists collection,
          normalizeCollection collections target w = (Ok collection, w)
          /\ valid_key k = true
          /\ kv_lookup (w_kv w') [JStr name; JStr (c_name collection); k]
             = Some (VItem item)
          /\ (exists l,
                filter is_write (performed w w')
                = EKv (KPut [JStr name; JStr (c_name collection); k] (VItem item)) :: l
                /\ Forall (index_effect name collection k
                             (value_js (kv_lookup (w_kv w)
                                          [JStr name; JStr (c_name collection); k]))
                             item) l)
          /\ (well_declared collections ->
              (forall c, target = ByObject c -> In c collections) ->
              built name collections w ->
              In collection collections
              /\ (forall index,
                    In index (c_indexes collection) ->
                    includes_undefined (item_values index item) = false ->
                    kv_lookup (w_kv w')
                      ([JStr name;
                        JStr (c_name collection ++ ":" ++ join "+" (i_keys index))]
                         ++ item_values index item ++ [k])
                    = Some (VItem (item_projection index item)))
              /\ (forall index values,
                    In index (c_indexes collection) ->
                    kv_lookup (w_kv w')
                      ([JStr name;
                        JStr (c_name collection ++ ":" ++ join "+" (i_keys index))]
                         ++ values ++ [k]) <> None ->
                    values = item_values index item
                    /\ includes_undefined values = false)
              /\ indexed name collections (w_kv w')))
  /\ (let r := put "S" [People] 2 Root (ByName "People") (JStr "u1") ada None
                   empty_world in
      fst r = Ok tt
      /\ w_kv (snd r)
         = [([JStr "S"], VRecord (created_record "S" [People]));
            ([JStr "S"; JStr "People"; JStr "u1"], VItem ada);
            ([JStr "S"; JStr "People:lastName"; JStr "L"; JStr "u1"], VItem JUndefined)])
  /\ (let r := put "S" [People_two] 2 Root (ByName "People") (JStr "u1") ada None
                   empty_world in
      fst r = Ok tt
      /\ w_kv (snd r)
         = [([JStr "S"], VRecord (created_record "S" [People_two]));
            ([JStr "S"; JStr "People"; JStr "u1"], VItem ada);
            ([JStr "S"; JStr "People:lastName"; JStr "L"; JStr "u1"], VItem JUndefined);
            ([JStr "S"; JStr "People:firstName"; JStr "Ada"; JStr "u1"],
             VItem JUndefined)]).
Proof.
  split; [reflexivity|]. split; [reflexivity|]. split; [reflexivity|].
  split; [|split; split; reflexivity].
  intros name collections fuel self target k item options w w' Hf H.
  destruct (put_writes _ _ _ _ _ _ _ _ _ _ Hf H) as [collection [Hc [Hk Hl]]].
  destruct (put_outcome _ _ _ _ _ _ _ _ _ _ Hf H) as [collection' [Hc' [Hv _]]].
  exists collection. split; [exact Hc|]. split; [exact Hv|]. split; [exact Hk|].
  split; [exact Hl|].
  intros Hwd Ht Hb.
  pose proof (normalizeCollection_In _ _ _ _ _ Ht Hc) as Hin.
  pose proof (put_indexed name collections Hwd _ _ _ _ _ _ _ _ Ht
                (built_indexed name collections Hwd w Hb) Hf H) as Hix.
  split; [exact Hin|]. split; [|split; [|exact Hix]].
  - intros index Hi Hd.
    apply (ix_entries _ _ _ Hix collection k item Hin Hk index Hi Hd).
  - intros index values Hi He.
    destruct (entry_of_stored_item name collections (w_kv w') collection index k item
                values Hix Hin Hi Hk He) as [E [Hd _]].
    split; assumption.
Qed.

Lemma key_layout_witness :
  kv_lookup
    (w_kv (snd (put "S" [People_two] 1 Root (ByName "People") (JStr "u2")
                    (JObj [("lastName", JStr "M"); ("firstName", JStr "Bo")]) None
                    initialized_two_world)))
    [JStr "S"; JStr "People:firstName"; JStr "Bo"; JStr "u2"]
  = Some (VItem JUndefined).
Proof.
  destruct key_layout as [_ [_ [_ [H _]]]].
  destruct (H "S" [People_two] 0 Root (ByName "People") (JStr "u2")
              (JObj [("lastName", JStr "M"); ("firstName", JStr "Bo")]) None
              initialized_two_world
              (snd (put "S" [People_two] 1 Root (ByName "People") (JStr "u2")
                        (JObj [("lastName", JStr "M"); ("firstName", JStr "Bo")]) None
                        initialized_two_world))
              eq_refl eq_refl)
    as [c [Hc [_ [_ [_ Hd]]]]].
  injection Hc as <-.
  destruct Hd as [_ [He _]].
  - apply simple_indexes_well_declared.
    + reflexivity.
    + repeat constructor; simpl; intuition discriminate.
    + repeat constructor; discriminate.
  - intros c E. discriminate E.
  - apply built_start. split.
    + repeat constructor. intros [].
    + intros key v [E | []] _. injection E as <- _. reflexivity.
  - apply (He firstName_index); [right; left; reflexivity | reflexivity].
Defined.

(** ** The projection fast path on the stores that put and delete build *)

Lemma In_kv_select_store : forall o s e, In e (kv_select o s) -> In e s.
Proof.
  intros o s e H. unfold kv_select in H.
  assert (H1 : In e (if fo_reverse o
                     then rev (sort_entries (filter (fun e => within_bounds o (fst e)) s))
                     else sort_entries (filter (fun e => within_bounds o (fst e)) s))).
  { destruct (fo_limit o) as [n|]; [|exact H]. apply (In_firstn _ n). exact H. }
  assert (H2 : In e (sort_entries (filter (fun e => within_bounds o (fst e)) s))).
  { destruct (fo_reverse o); [apply (proj2 (in_rev _ _))|]; exact H1. }
  apply In_sort_entries in H2. apply filter_In in H2. exact (proj1 H2).
Qed.

Lemma has_prefix_app : forall p q k,
  has_prefix (p ++ q) k = true -> has_prefix p k = true.
Proof.
  induction p as [|x p IH]; intros q k H; [reflexivity|].
  destruct k as [|y k]; [discriminate H|].
  cbn [app has_prefix] in H |- *. apply andb_true_iff in H. destruct H as [H1 H2].
  rewrite H1. apply (IH q k H2).
Qed.

Lemma findIndexForQueryAndOrder_In : forall collection query order w index w',
  findIndexForQueryAndOrder collection query order w = (Ok index, w') ->
  In index (c_indexes collection).
Proof.
  intros collection query order w index w' H.
  unfold findIndexForQueryAndOrder in H.
  destruct (List.find _ (c_indexes collection)) as [x|] eqn:F; [|discriminate H].
  injection H as <- _. apply (find_some _ _ F).
Qed.

Lemma item_projection_restrict : forall index projection item,
  i_projection index = Some projection ->
  item_projection index item = restrict_value projection item.
Proof.
  intros index projection item H. unfold item_projection, restrict_value.
  rewrite index_projections_snd, H. reflexivity.
Qed.

(** In a store that keeps the invariant, the entries that a scan of an
    index returns agree with the items they point to. *)
Lemma scanned_entries_consistent : forall name collections s collection index projection
    options query,
  indexed name collections s ->
  In collection collections ->
  In index (c_indexes collection) ->
  i_projection index = Some projection ->
  Forall (entry_consistent name collection projection s)
         (kv_select (limited (scan_of options
                                (makeIndexKeyForQuery name collection index query) true))
                    s).
Proof.
  intros name collections s collection index projection options query Hix Hc Hin Hproj.
  apply Forall_forall. intros [key v] He.
  pose proof (In_kv_select _ _ _ He) as Hp.
  apply In_kv_select_store in He.
  apply (In_kv_lookup _ _ _ (ix_keys _ _ _ Hix)) in He.
  change (has_prefix
            ([JStr name;
              JStr (makeIndexCollectionName (c_name collection) (index_name index))]
               ++ map (fun i => js_get match query with Some q => q | None => [] end
                                  (nth i (map p_key (i_properties index)) "undefined"))
                      (seq 0 (List.length
                                (object_keys match query with Some q => q | None => [] end))))
            key = true) in Hp.
  apply has_prefix_app in Hp.
  destruct (ix_items _ _ _ Hix collection index key v Hc Hin He Hp)
    as [k [item [Hv [Hs [_ [Ek Ev]]]]]].
  exists item. cbn [fst snd]. rewrite Ek, entry_key_last.
  split; [exact Hv|]. split; [exact Hs|].
  rewrite Ev, (item_projection_restrict _ _ _ Hproj). reflexivity.
Qed.


